(** * The artifact-cache HTTP client of the toolkit, embedded in Rocq

    Source: [packages/cache/src/internal/cacheHttpClient.ts] together with
    [core.setSecret] / [core.debug] of [packages/core/src/core.ts].

    Strings are byte strings (the UTF-8 encoding of the JavaScript string),
    JavaScript integers are [Z], optional values are [option], a thrown
    [Error] is the [Throw] outcome of the [M] monad, and everything the code
    asks of its surroundings (environment variables, the cache service, the
    storage SDK, the file system, the order in which pending requests
    complete) is read from an explicit [World]. *)

From Stdlib Require Import ZArith Lia Ascii String DecimalString.
From stdpp Require Import base list strings.

Local Open Scope string_scope.
Local Open Scope list_scope.
Local Open Scope Z_scope.

(** ** SHA-256 ([crypto.createHash('sha256')], FIPS 180-4) on 32-bit words *)

Module Sha256.

Definition mask32 : Z := 0xffffffff.
Definition add32 (a b : Z) : Z := Z.land (a + b) mask32.
Definition rotr (n x : Z) : Z :=
  Z.lor (Z.shiftr x n) (Z.land (Z.shiftl x (32 - n)) mask32).
Definition not32 (x : Z) : Z := Z.lxor x mask32.

Definition Ch (x y z : Z) : Z := Z.lxor (Z.land x y) (Z.land (not32 x) z).
Definition Maj (x y z : Z) : Z :=
  Z.lxor (Z.lxor (Z.land x y) (Z.land x z)) (Z.land y z).
Definition bsig0 (x : Z) : Z := Z.lxor (Z.lxor (rotr 2 x) (rotr 13 x)) (rotr 22 x).
Definition bsig1 (x : Z) : Z := Z.lxor (Z.lxor (rotr 6 x) (rotr 11 x)) (rotr 25 x).
Definition ssig0 (x : Z) : Z := Z.lxor (Z.lxor (rotr 7 x) (rotr 18 x)) (Z.shiftr x 3).
Definition ssig1 (x : Z) : Z := Z.lxor (Z.lxor (rotr 17 x) (rotr 19 x)) (Z.shiftr x 10).

(** The constants are the first 32 bits of the fractional parts of the
    cube roots (round constants) and of the square roots (initial hash) of
    the first primes. *)
Definition isPrime (n : Z) : bool :=
  forallb (fun d => negb (n mod d =? 0)) (seqZ 2 (n - 2)).

Definition primes : list Z := List.filter isPrime (seqZ 2 310).

(** The greatest [r < 2 ^ bits] above [acc] with [r ^ k <= n], bit by bit. *)
Fixpoint iroot (k n : Z) (bits : nat) (acc : Z) : Z :=
  match bits with
  | O => acc
  | S b =>
      let cand := acc + 2 ^ Z.of_nat b in
      iroot k n b (if cand ^ k <=? n then cand else acc)
  end.

Definition fracRoot (k p : Z) : Z :=
  Z.land (iroot k (p * 2 ^ (32 * k)) 48 0) mask32.

Definition K : list Z := Eval vm_compute in map (fracRoot 3) primes.

Record regs : Type := Regs { ra : Z; rb : Z; rc : Z; rd : Z;
                             re : Z; rf : Z; rg : Z; rh : Z }.

Definition regs_of_list (l : list Z) : regs :=
  Regs (nth 0 l 0) (nth 1 l 0) (nth 2 l 0) (nth 3 l 0)
       (nth 4 l 0) (nth 5 l 0) (nth 6 l 0) (nth 7 l 0).

Definition H0 : regs :=
  Eval vm_compute in regs_of_list (map (fracRoot 2) (take 8 primes)).

Definition round (k wt : Z) (s : regs) : regs :=
  let t1 := add32 (add32 (add32 (add32 (rh s) (bsig1 (re s)))
                                (Ch (re s) (rf s) (rg s))) k) wt in
  let t2 := add32 (bsig0 (ra s)) (Maj (ra s) (rb s) (rc s)) in
  Regs (add32 t1 t2) (ra s) (rb s) (rc s) (add32 (rd s) t1) (re s) (rf s) (rg s).

(** The message schedule is kept as a sliding window of sixteen words:
    the head is W[t], and W[t+16] is appended as the head is consumed. *)
Definition next_word (w : list Z) : Z :=
  add32 (add32 (add32 (ssig1 (nth 14 w 0)) (nth 9 w 0)) (ssig0 (nth 1 w 0)))
        (nth 0 w 0).

Fixpoint rounds (ks : list Z) (w : list Z) (s : regs) : regs :=
  match ks with
  | [] => s
  | k :: ks' => rounds ks' (tail w ++ [next_word w]) (round k (nth 0 w 0) s)
  end.

Definition compress (h : regs) (block : list Z) : regs :=
  let s := rounds K block h in
  Regs (add32 (ra h) (ra s)) (add32 (rb h) (rb s)) (add32 (rc h) (rc s))
       (add32 (rd h) (rd s)) (add32 (re h) (re s)) (add32 (rf h) (rf s))
       (add32 (rg h) (rg s)) (add32 (rh h) (rh s)).

Definition bytes_of_string (s : string) : list Z :=
  map (fun c => Z.of_N (N_of_ascii c)) (list_ascii_of_string s).

(** Big-endian bytes of [x], [n] of them. *)
Fixpoint be_bytes (n : nat) (x : Z) : list Z :=
  match n with
  | O => []
  | S n' => Z.land (Z.shiftr x (8 * Z.of_nat n')) 0xff :: be_bytes n' x
  end.

Definition pad (msg : list Z) : list Z :=
  let len := Z.of_nat (length msg) in
  let zeros := Z.to_nat ((55 - len) mod 64) in
  msg ++ [0x80] ++ repeat 0 zeros ++ be_bytes 8 (8 * len).

(** Big-endian 32-bit words of a byte list (four bytes each). *)
Fixpoint words_of_bytes (fuel : nat) (bs : list Z) : list Z :=
  match fuel, bs with
  | S fuel', b0 :: b1 :: b2 :: b3 :: rest =>
      (Z.shiftl b0 24 + Z.shiftl b1 16 + Z.shiftl b2 8 + b3)
        :: words_of_bytes fuel' rest
  | _, _ => []
  end.

Fixpoint blocks (fuel : nat) (h : regs) (ws : list Z) : regs :=
  match fuel, ws with
  | S fuel', _ :: _ => blocks fuel' (compress h (take 16 ws)) (drop 16 ws)
  | _, _ => h
  end.

Definition hex_digit (d : Z) : ascii :=
  ascii_of_N (Z.to_N (if d <? 10 then 48 + d else 87 + d)).

Fixpoint hex_of_bytes (bs : list Z) : string :=
  match bs with
  | [] => EmptyString
  | b :: bs' =>
      String (hex_digit (Z.shiftr b 4))
             (String (hex_digit (Z.land b 0xf)) (hex_of_bytes bs'))
  end.

Definition digest_bytes (msg : list Z) : list Z :=
  let p := pad msg in
  let ws := words_of_bytes (length p) p in
  let h := blocks (length ws) H0 ws in
  flat_map (be_bytes 4)
    [ra h; rb h; rc h; rd h; re h; rf h; rg h; rh h].

(** [.update(s).digest('hex')]: lowercase hexadecimal of the digest. *)
Definition hex (s : string) : string :=
  hex_of_bytes (digest_bytes (bytes_of_string s)).

End Sha256.

(** ** JavaScript values and built-ins used by the client *)

(** [if (s)] on an optional string: [undefined] and [''] are falsy. *)
Definition truthy (s : option string) : bool :=
  match s with
  | Some x => negb (String.eqb x "")
  | None => false
  end.

(** [s.endsWith(suffix)]. *)
Definition endsWith (s suffix : string) : bool :=
  let n := String.length s in
  let k := String.length suffix in
  if (k <=? n)%nat then String.eqb (substring (n - k) k s) suffix else false.

(** [l.join(sep)] on an array of strings. *)
Fixpoint join (sep : string) (l : list string) : string :=
  match l with
  | [] => ""
  | x :: rest =>
      match rest with
      | [] => x
      | _ :: _ => x +:+ sep +:+ join sep rest
      end
  end.

(** [n.toString()] and [`${n}`] on an integer. *)
Definition toString (n : Z) : string := NilZero.string_of_int (Z.to_int n).

(** [`${n}`] on [number | undefined]. *)
Definition toStringOpt (n : option Z) : string :=
  match n with
  | Some z => toString z
  | None => "undefined"
  end.

(** [Math.round(size / (1024 * 1024))]: the division by a power of two is
    exact, and [Math.round] takes halves upwards. *)
Definition roundMiB (size : Z) : Z := (2 * size + 1048576) / 2097152.

(** ** Data model ([./contracts], [./constants], [../options]) *)

(** Modelled from the spec: the [CompressionMethod] enum is declared in
    [./constants], which is not among the sources. The spec names gzip as
    the implicit default and zstd as the alternative; the third member is
    the long-window-less zstd variant of the same enum. *)
Inductive CompressionMethod : Type := Gzip | ZstdWithoutLong | Zstd.

(** The enum is a string enum: this is the token a member stands for. *)
Definition token (m : CompressionMethod) : string :=
  match m with
  | Gzip => "gzip"
  | ZstdWithoutLong => "zstd-without-long"
  | Zstd => "zstd"
  end.

Definition isGzip (m : CompressionMethod) : bool :=
  match m with Gzip => true | _ => false end.

(** Modelled from the spec: [ArtifactCacheEntry] of [./contracts] (not among
    the sources) is { cacheKey, archiveLocation (optional), creationTime };
    the code reads each field as possibly absent. *)
Record ArtifactCacheEntry : Type := {
  cacheKey : option string;
  creationTime : option string;
  archiveLocation : option string
}.

Record InternalCacheOptions : Type := {
  compressionMethod : option CompressionMethod;
  cacheSize : option Z
}.

Record ReserveCacheRequest : Type := {
  rq_key : string;
  rq_version : string;
  rq_cacheSize : option Z
}.

Record ReserveCacheResponse : Type := { cacheId : Z }.

Record CommitCacheRequest : Type := { size : Z }.

(** [ITypedResponseWithError<T>] / [TypedResponse<T>]; [result] is
    [T | null]. *)
Record TypedResponse (T : Type) : Type := {
  statusCode : Z;
  result : option T;
  headers : list (string * string)
}.
Arguments statusCode {T} _.
Arguments result {T} _.
Arguments headers {T} _.

Record DownloadOptions : Type := {
  useAzureSdk : option bool;
  downloadConcurrency : option Z;
  timeoutInMs : option Z
}.

Record UploadOptions : Type := {
  uploadConcurrency : option Z;
  uploadChunkSize : option Z
}.

(** One blob of a container listing: [blob.name] and
    [blob.properties.lastModified.toISOString()]. *)
Record Blob : Type := { name : string; lastModified : string }.

(** The async iterator returned by [listBlobsFlat()]: it yields blobs one at
    a time and may fail while fetching the next one. *)
Inductive Listing : Type :=
| LDone
| LItem (b : Blob) (rest : Listing)
| LFail (msg : string).

(** The authenticated client built by [createHttpClient]. *)
Record HttpClient : Type := {
  userAgent : string;
  bearerToken : string;
  acceptHeader : string
}.

(** The stream a chunk upload reads: [createReadStream(archivePath,
    {fd, start, end, autoClose: false})]. *)
Record ReadStream : Type := {
  rs_path : string;
  rs_fd : Z;
  rs_start : Z;
  rs_end : Z
}.

(** The requests the client sends. *)
Inductive HttpRequest : Type :=
| GetJson (client : HttpClient) (url : string)
| PostReserve (client : HttpClient) (url : string) (body : ReserveCacheRequest)
| PostCommit (client : HttpClient) (url : string) (body : CommitCacheRequest)
| SendStream (client : HttpClient) (verb url : string) (stream : ReadStream)
             (additionalHeaders : list (string * string)).

(** ** Outcomes, effects and the monad of the client *)

(** What an (awaited) call comes to: a value, a thrown [Error], or a promise
    that has not settled by the end of the observed run. *)
Inductive Res (A : Type) : Type :=
| Ok (a : A)
| Throw (msg : string)
| Pending.
Arguments Ok {A} a.
Arguments Throw {A} msg.
Arguments Pending {A}.

(** What the client does to its surroundings, in program order. *)
Inductive Event : Type :=
| Debug (message : string)                    (* core.debug *)
| Info (message : string)                     (* core.info *)
| SetSecret (secret : string)                 (* core.setSecret: add-mask *)
| Attempted (opName : string) (req : Res HttpRequest)
    (* a retried operation is started: the request its closure builds *)
| ChunkSettled (start end_ : Z) (ok : bool)
    (* the awaited uploadChunk promise of this range settles *)
| ListedBlobs (connectionString blobContainerName : string)
| DownloadCacheStorageSDK (archiveLocation archivePath : string)
                          (options : DownloadOptions)
| DownloadCacheBlobStorage (key archivePath : string)
                           (options : DownloadOptions)
                           (blobContainerName connectionString : string)
| DownloadCacheHttpClient (archiveLocation archivePath : string)
| CreateReadStream (path : string)
    (* fs.createReadStream(path): a stream that opens the file itself *)
| UploadStream (connectionString blobContainerName key archivePath : string)
               (concurrency : Z)
    (* blockBlobClient.uploadStream of the stream created for archivePath *)
| OpenSync (path : string)
| CloseSync (fd : Z).

Definition M (A : Type) : Type := (Res A * list Event)%type.

Definition ret {A} (a : A) : M A := (Ok a, []).
Definition throw {A} (msg : string) : M A := (Throw msg, []).
Definition pending {A} : M A := (Pending, []).
Definition emit (e : Event) : M unit := (Ok tt, [e]).
Definition lift {A} (r : Res A) : M A := (r, []).

Definition bind {A B} (m : M A) (k : A -> M B) : M B :=
  match m with
  | (Ok a, t) => let '(r, t') := k a in (r, t ++ t')
  | (Throw msg, t) => (Throw msg, t)
  | (Pending, t) => (Pending, t)
  end.

#[export] Instance M_ret : MRet M := @ret.
#[export] Instance M_bind : MBind M := fun A B k m => bind m k.

(** [try { body } finally { cleanup }]; a body that never settles never
    reaches its cleanup. *)
Definition try_finally {A} (body : M A) (cleanup : M unit) : M A :=
  match body with
  | (Ok a, t) => let '(r, t') := cleanup in
                 (match r with Ok _ => Ok a | Throw m => Throw m | Pending => Pending end,
                  t ++ t')
  | (Throw msg, t) => let '(r, t') := cleanup in
                 (match r with Ok _ => Throw msg | Throw m => Throw m | Pending => Pending end,
                  t ++ t')
  | (Pending, t) => (Pending, t)
  end.

(** [try { body } catch (error) { throw new Error(wrap error) }]. *)
Definition rethrow {A} (wrap : string -> string) (body : M A) : M A :=
  match body with
  | (Throw msg, t) => (Throw (wrap msg), t)
  | other => other
  end.

Definition outcome {A} (m : M A) : Res A := fst m.
Definition trace {A} (m : M A) : list Event := snd m.

(** ** The surroundings of the client *)

(** Everything [cacheHttpClient.ts] calls that is not in the file itself:
    the process environment, Node built-ins, the cache service behind the
    retrying wrappers of [./requestUtils], the storage SDK, the download
    helpers of [./downloadUtils], the option helpers of [../options] and
    [./cacheUtils], and the file system. A retried operation stands in the
    trace once, whatever the number of attempts; its answer after the last
    attempt is what the world gives. *)
Record World : Type := {
  env : string -> option string;
  encodeURIComponent : string -> string;
  JSON_stringify : option ArtifactCacheEntry -> string;
  URL_hostname : string -> Res string;
  isSuccessStatusCode : option Z -> bool;
  lookupResponse : string -> Res HttpRequest -> Res (TypedResponse ArtifactCacheEntry);
  reserveResponse : string -> Res HttpRequest -> Res (TypedResponse ReserveCacheResponse);
  commitResponse : string -> Res HttpRequest -> Res (TypedResponse unit);
  chunkResponse : string -> Res HttpRequest -> Res (option Z);
  listBlobsFlat : string -> string -> Listing;
  blobUploadStream : string -> string -> string -> string -> Z -> Res unit;
  storageSDKDownload : string -> string -> DownloadOptions -> Res unit;
  blobStorageDownload : string -> string -> DownloadOptions -> string -> string -> Res unit;
  httpClientDownload : string -> string -> Res unit;
  getDownloadOptions : option DownloadOptions -> DownloadOptions;
  getUploadOptions : option UploadOptions -> UploadOptions;
  assertDefined : string -> option Z -> Res Z;
  getArchiveFileSizeInBytes : string -> Res Z;
  openSync : string -> Res Z
}.

(** ** The client *)

Section Client.

Variable w : World.

Definition versionSalt : string := "1.0".

(** [core.debug], [core.info] and [core.setSecret] of [core.ts]. *)
Definition debug (message : string) : M unit := emit (Debug message).
Definition info (message : string) : M unit := emit (Info message).
Definition setSecret (secret : string) : M unit := emit (SetSecret secret).

Definition getCacheApiUrl (resource : string) : M string :=
  let baseUrl := default "" (env w "ACTIONS_CACHE_URL") in
  if negb (truthy (Some baseUrl)) then
    throw "Cache Service Url not found, unable to restore cache."
  else
    let url := baseUrl +:+ "_apis/artifactcache/" +:+ resource in
    debug ("Resource Url: " +:+ url);;
    mret url.

Definition createAcceptHeader (type apiVersion : string) : string :=
  type +:+ ";api-version=" +:+ apiVersion.

Definition getRequestOptions : string :=
  createAcceptHeader "application/json" "6.0-preview.1".

Definition createHttpClient : HttpClient :=
  let token := default "" (env w "ACTIONS_RUNTIME_TOKEN") in
  {| userAgent := "actions/cache";
     bearerToken := token;
     acceptHeader := getRequestOptions |}.

(** The retrying wrappers of [./requestUtils]: the closure [method]
    builds the request, the world ([respond]) answers for the retried
    operation as a whole, with the response the wrapper hands back or the
    error it throws when it gives up. The operation stands in the trace
    once; its attempts and what the wrapper makes of them are the matter
    of [retryTypedResponsePolicy] below. *)
Definition retry {R : Type}
    (respond : string -> Res HttpRequest -> Res R)
    (name : string) (method : M HttpRequest) : M R :=
  let '(req, t) := method in
  (respond name req, t ++ [Attempted name req]).

Definition retryTypedResponse {T : Type}
    (respond : string -> Res HttpRequest -> Res (TypedResponse T))
    (name : string) (method : M HttpRequest) : M (TypedResponse T) :=
  retry respond name method.

Definition retryHttpClientResponse
    (respond : string -> Res HttpRequest -> Res (option Z))
    (name : string) (method : M HttpRequest) : M (option Z) :=
  retry respond name method.

Definition getCacheVersion (paths : list string)
    (compressionMethod : option CompressionMethod) : string :=
  let components :=
    paths ++ match compressionMethod with
             | None => []
             | Some m => if isGzip m then [] else [token m]
             end in
  (* Add salt to cache version to support breaking changes in cache entry *)
  let components := components ++ [versionSalt] in
  Sha256.hex (join "|" components).

(** The inner loop of [getCacheEntryBlob]: [for (const key of notPrimaryKey)]. *)
Fixpoint scanKeys (blob : Blob) (notPrimaryKey : list string)
  : option ArtifactCacheEntry :=
  match notPrimaryKey with
  | [] => None
  | key :: rest =>
      if String.eqb (name blob) key then
        Some {| cacheKey := Some (name blob);
                creationTime := Some (lastModified blob);
                archiveLocation := None |}
      else scanKeys blob rest
  end.

(** The outer loop: [for await (const blob of blobList)]. *)
Fixpoint scanBlobs (primaryKey : option string) (notPrimaryKey : list string)
    (blobList : Listing) : Res (option ArtifactCacheEntry) :=
  match blobList with
  | LDone => Ok None
  | LFail msg => Throw msg
  | LItem blob rest =>
      if match primaryKey with
         | Some k => String.eqb (name blob) k
         | None => false
         end
      then Ok (Some {| cacheKey := primaryKey;
                       creationTime := Some (lastModified blob);
                       archiveLocation := None |})
      else match scanKeys blob notPrimaryKey with
           | Some entry => Ok (Some entry)
           | None => scanBlobs primaryKey notPrimaryKey rest
           end
  end.

Definition getCacheEntryBlob (connectionString blobContainerName : string)
    (keys paths : list string) : M (option ArtifactCacheEntry) :=
  let primaryKey := head keys in
  let notPrimaryKey := tail keys in
  emit (ListedBlobs connectionString blobContainerName);;
  lift (scanBlobs primaryKey notPrimaryKey
          (listBlobsFlat w connectionString blobContainerName)).

Definition getCacheEntry (keys paths : list string)
    (options : option InternalCacheOptions)
    (blobContainerName connectionString : option string)
  : M (option ArtifactCacheEntry) :=
  if truthy blobContainerName && truthy connectionString then
    getCacheEntryBlob (default "" connectionString)
                      (default "" blobContainerName) keys paths
  else
    let httpClient := createHttpClient in
    let version := getCacheVersion paths (options ≫= compressionMethod) in
    let resource :=
      "cache?keys=" +:+ encodeURIComponent w (join "," keys)
        +:+ "&version=" +:+ version in
    response ← retryTypedResponse (lookupResponse w) "getCacheEntry"
                 (url ← getCacheApiUrl resource; mret (GetJson httpClient url));
    if statusCode response =? 204 then mret None
    else if negb (isSuccessStatusCode w (Some (statusCode response))) then
      throw ("Cache service responded with " +:+ toString (statusCode response))
    else
      let cacheResult := result response in
      let cacheDownloadUrl := cacheResult ≫= archiveLocation in
      if negb (truthy cacheDownloadUrl) then throw "Cache not found."
      else
        setSecret (default "" cacheDownloadUrl);;
        debug "Cache Result:";;
        debug (JSON_stringify w cacheResult);;
        mret cacheResult.

(** The three download helpers of [./downloadUtils]. *)
Definition downloadCacheStorageSDK (archiveLocation archivePath : string)
    (options : DownloadOptions) : M unit :=
  emit (DownloadCacheStorageSDK archiveLocation archivePath options);;
  lift (storageSDKDownload w archiveLocation archivePath options).

Definition downloadCacheBlobStorage (key archivePath : string)
    (options : DownloadOptions) (blobContainerName connectionString : string)
  : M unit :=
  emit (DownloadCacheBlobStorage key archivePath options
          blobContainerName connectionString);;
  lift (blobStorageDownload w key archivePath options
          blobContainerName connectionString).

Definition downloadCacheHttpClient (archiveLocation archivePath : string)
  : M unit :=
  emit (DownloadCacheHttpClient archiveLocation archivePath);;
  lift (httpClientDownload w archiveLocation archivePath).

Definition downloadCache (cacheEntry : ArtifactCacheEntry)
    (archivePath : string) (options : option DownloadOptions)
    (blobContainerName connectionString : option string) : M unit :=
  let archiveLocation_ :=
    default "https://NoArchiveLocationFound.com" (archiveLocation cacheEntry) in
  hostname ← lift (URL_hostname w archiveLocation_);
  let downloadOptions := getDownloadOptions w options in
  (if default false (useAzureSdk downloadOptions)
      && endsWith hostname ".blob.core.windows.net"
   then
     (* Use Azure storage SDK to download caches hosted on Azure to improve
        speed and reliability. *)
     downloadCacheStorageSDK archiveLocation_ archivePath downloadOptions
   else mret tt);;
  if truthy blobContainerName && truthy connectionString
     && truthy (cacheKey cacheEntry)
  then
    downloadCacheBlobStorage (default "" (cacheKey cacheEntry)) archivePath
      downloadOptions (default "" blobContainerName) (default "" connectionString)
  else
    (* Otherwise, download using the Actions http-client. *)
    downloadCacheHttpClient archiveLocation_ archivePath.

(** Reserve Cache *)
Definition reserveCache (key : string) (paths : list string)
    (options : option InternalCacheOptions)
    (blobContainerName connectionString : option string)
  : M (TypedResponse ReserveCacheResponse) :=
  if truthy blobContainerName && truthy connectionString then
    mret {| statusCode := 0; result := None; headers := [] |}
  else
    let httpClient := createHttpClient in
    let version := getCacheVersion paths (options ≫= compressionMethod) in
    let reserveCacheRequest :=
      {| rq_key := key; rq_version := version;
         rq_cacheSize := options ≫= cacheSize |} in
    response ← retryTypedResponse (reserveResponse w) "reserveCache"
                 (url ← getCacheApiUrl "caches";
                  mret (PostReserve httpClient url reserveCacheRequest));
    mret response.

Definition getContentRange (start end_ : Z) : string :=
  (* Format: `bytes start-end/filesize
     start and end are inclusive
     filesize can be *
     For a 200 byte chunk starting at byte 0:
     Content-Range: bytes 0-199/* *)
  "bytes " +:+ toString start +:+ "-" +:+ toString end_ +:+ "/*".

(** [openStream] is the stream the closure opens on each attempt. A read
    error of that stream surfaces through the world's answer. *)
Definition uploadChunk (httpClient : HttpClient) (resourceUrl : string)
    (openStream : ReadStream) (start end_ : Z) : M unit :=
  debug ("Uploading chunk of size " +:+ toString (end_ - start + 1)
           +:+ " bytes at offset " +:+ toString start
           +:+ " with content range: " +:+ getContentRange start end_);;
  let additionalHeaders :=
    [("Content-Type", "application/octet-stream");
     ("Content-Range", getContentRange start end_)] in
  uploadChunkResponse ←
    retryHttpClientResponse (chunkResponse w)
      ("uploadChunk (start: " +:+ toString start +:+ ", end: "
         +:+ toString end_ +:+ ")")
      (mret (SendStream httpClient "PATCH" resourceUrl openStream
               additionalHeaders));
  if negb (isSuccessStatusCode w uploadChunkResponse) then
    throw ("Cache service responded with " +:+ toStringOpt uploadChunkResponse
             +:+ " during upload chunk.")
  else mret tt.

Definition uploadFileBlob (blobContainerName connectionString archivePath
    key : string) (concurrency : Z) : M unit :=
  debug ("Start upload to (blobContainerName: " +:+ blobContainerName +:+ ")");;
  emit (CreateReadStream archivePath);;
  rethrow (fun error => "Cache upload failed because " +:+ error)
    (emit (UploadStream connectionString blobContainerName key archivePath
             concurrency);;
     lift (blobUploadStream w connectionString blobContainerName key
             archivePath concurrency)).

(** *** The upload workers

    [uploadFile] starts [concurrency] copies of one async function that
    share the cursor [offset]. Between two suspension points a worker runs
    alone, so a worker is either suspended at its [await uploadChunk(...)]
    or has returned. *)
Inductive Worker : Type :=
| Awaiting (start end_ : Z) (settles : Res unit)
| Returned.

Definition isReturned (wk : Worker) : bool :=
  match wk with Returned => true | Awaiting _ _ _ => false end.

Section Workers.

Variables (httpClient : HttpClient) (resourceUrl archivePath : string)
          (fd fileSize maxChunkSize : Z).

(** A worker from the head of its [while] loop to its next suspension:
    it claims the next range, advances the shared cursor and issues the
    chunk upload, or leaves the loop. *)
Definition uploadWorker (offset : Z) : M (Worker * Z) :=
  if offset <? fileSize then
    let chunkSize := Z.min (fileSize - offset) maxChunkSize in
    let start := offset in
    let end_ := offset + chunkSize - 1 in
    let offset := offset + maxChunkSize in
    let '(settles, t) :=
      uploadChunk httpClient resourceUrl
        {| rs_path := archivePath; rs_fd := fd;
           rs_start := start; rs_end := end_ |}
        start end_ in
    (Ok (Awaiting start end_ settles, offset), t)
  else mret (Returned, offset).

(** [parallelUploads.map(async () => ...)]: every worker runs up to its
    first suspension, in array order. *)
Fixpoint spawn (parallelUploads : list Z) (offset : Z) : M (list Worker * Z) :=
  match parallelUploads with
  | [] => mret ([], offset)
  | _ :: rest =>
      '(wk, offset) ← uploadWorker offset;
      '(wks, offset) ← spawn rest offset;
      mret (wk :: wks, offset)
  end.

(** [await Promise.all(workers)], up to the point where the awaited
    promise settles. [completions] is the order in which the event loop
    resumes suspended workers (an index that names no suspended worker is
    skipped). The promise resolves once every worker has returned,
    rejects with the first worker that throws, and is still pending when
    the completions run out before either. A rejection settles the
    promise and cancels no worker: what the other workers do from there
    on is not awaited by anyone, and is the matter of [survivors]
    below. *)
Fixpoint promiseAll (completions : list nat) (workers : list Worker)
    (offset : Z) : M unit :=
  if forallb isReturned workers then mret tt
  else
    match completions with
    | [] => pending
    | i :: later =>
        match workers !! i with
        | Some (Awaiting start end_ (Ok _)) =>
            emit (ChunkSettled start end_ true);;
            '(wk, offset) ← uploadWorker offset;
            promiseAll later (<[i := wk]> workers) offset
        | Some (Awaiting start end_ (Throw msg)) =>
            emit (ChunkSettled start end_ false);;
            throw msg
        | _ => promiseAll later workers offset
        end
    end.

End Workers.

(** [[...new Array(length).keys()]]. *)
Definition newArrayKeys (length : Z) : M (list Z) :=
  if (length <? 0) || (4294967295 <? length) then
    throw "Invalid array length"
  else mret (seqZ 0 length).

Definition uploadFile (completions : list nat) (httpClient : HttpClient)
    (cacheId : Z) (archivePath key : string) (options : option UploadOptions)
    (blobContainerName connectionString : option string) : M unit :=
  (* Upload Chunks *)
  let uploadOptions := getUploadOptions w options in
  concurrency ← lift (assertDefined w "uploadConcurrency"
                        (uploadConcurrency uploadOptions));
  maxChunkSize ← lift (assertDefined w "uploadChunkSize"
                         (uploadChunkSize uploadOptions));
  parallelUploads ← newArrayKeys concurrency;
  debug "Awaiting all uploads";;
  let offset := 0 in
  if truthy blobContainerName && truthy connectionString then
    uploadFileBlob (default "" blobContainerName) (default "" connectionString)
      archivePath key concurrency
  else
    fileSize ← lift (getArchiveFileSizeInBytes w archivePath);
    resourceUrl ← getCacheApiUrl ("caches/" +:+ toString cacheId);
    fd ← (emit (OpenSync archivePath);; lift (openSync w archivePath));
    try_finally
      ('(workers, offset) ←
         spawn httpClient resourceUrl archivePath fd fileSize maxChunkSize
           parallelUploads offset;
       promiseAll httpClient resourceUrl archivePath fd fileSize maxChunkSize
         completions workers offset)
      (emit (CloseSync fd)).

Definition commitCache (httpClient : HttpClient) (cacheId filesize : Z)
  : M (TypedResponse unit) :=
  let commitCacheRequest := {| size := filesize |} in
  retryTypedResponse (commitResponse w) "commitCache"
    (url ← getCacheApiUrl ("caches/" +:+ toString cacheId);
     mret (PostCommit httpClient url commitCacheRequest)).

Definition saveCache (completions : list nat) (cacheId : Z)
    (archivePath key : string) (options : option UploadOptions)
    (blobContainerName connectionString : option string) : M unit :=
  let httpClient := createHttpClient in
  debug "Upload cache";;
  uploadFile completions httpClient cacheId archivePath key options
    blobContainerName connectionString;;
  (* Commit Cache *)
  debug "Commiting cache";;
  cacheSize ← lift (getArchiveFileSizeInBytes w archivePath);
  info ("Cache Size: ~" +:+ toString (roundMiB cacheSize) +:+ " MB ("
          +:+ toString cacheSize +:+ " B)");;
  commitCacheResponse ← commitCache httpClient cacheId cacheSize;
  if negb (isSuccessStatusCode w (Some (statusCode commitCacheResponse))) then
    throw ("Cache service responded with "
             +:+ toString (statusCode commitCacheResponse)
             +:+ " during commit cache.")
  else
    info "Cache saved successfully".

End Client.

Arguments getCacheVersion : simpl never.

(** ** Reading traces *)

(** The byte range of a chunk upload, when the event is one. *)
Definition chunkOf (ev : Event) : option (Z * Z) :=
  match ev with
  | Attempted _ (Ok (SendStream _ _ _ stream _)) =>
      Some (rs_start stream, rs_end stream)
  | _ => None
  end.

(** The ranges of the chunk uploads of a trace, in the order of issue. *)
Definition issuedChunks (t : list Event) : list (Z * Z) := omap chunkOf t.

Definition isCommit (ev : Event) : Prop :=
  exists req, ev = Attempted "commitCache" req.

Definition isDownload (ev : Event) : bool :=
  match ev with
  | DownloadCacheStorageSDK _ _ _
  | DownloadCacheBlobStorage _ _ _ _ _
  | DownloadCacheHttpClient _ _ => true
  | _ => false
  end.

(** The download strategies a trace went through. *)
Definition downloads (t : list Event) : list Event := filter isDownload t.

(** Every chunk upload issued in the trace is followed, later in the
    trace, by the successful settlement of its promise. *)
Fixpoint allAcked (t : list Event) : Prop :=
  match t with
  | [] => True
  | ev :: rest =>
      (forall start end_, chunkOf ev = Some (start, end_) ->
         ChunkSettled start end_ true ∈ rest)
      /\ allAcked rest
  end.

(** Ranges that tile the bytes [lo .. hi] from left to right: each starts
    where the previous one ended, holds between 1 and [maxChunkSize] bytes,
    and the last one ends at [hi]. *)
Fixpoint tiles (maxChunkSize lo : Z) (ranges : list (Z * Z)) (hi : Z) : Prop :=
  match ranges with
  | [] => lo = hi + 1
  | (start, end_) :: rest =>
      start = lo /\ start <= end_ /\ end_ - start + 1 <= maxChunkSize
      /\ end_ <= hi /\ tiles maxChunkSize (end_ + 1) rest hi
  end.

(** ** The version fingerprint in the words of the specification *)

#[export] Instance CompressionMethod_eq_dec : EqDecision CompressionMethod.
Proof. solve_decision. Defined.

(** Paths, then the compression token iff a method is given and is not
    gzip, then the salt literal. *)
Definition specComponents (paths : list string)
    (m : option CompressionMethod) : list string :=
  paths
  ++ match m with
     | Some c => if bool_decide (c <> Gzip) then [token c] else []
     | None => []
     end
  ++ ["1.0"].

(** The string whose SHA-256 digest is the version. *)
Definition versionInput (paths : list string)
    (m : option CompressionMethod) : string :=
  join "|" (specComponents paths m).

(** No ['|'] occurs in the string. *)
Definition barFree (s : string) : bool :=
  forallb (fun c => negb (Ascii.eqb c "|")) (list_ascii_of_string s).

(** [s.split('|')]. *)
Fixpoint splitBar (s : string) : list string :=
  match s with
  | EmptyString => [""]
  | String c rest =>
      if Ascii.eqb c "|" then "" :: splitBar rest
      else match splitBar rest with
           | [] => [String c ""]
           | h :: t => String c h :: t
           end
  end.

(** ** A concrete world

    The option helpers as the toolkit ships them (defaults: four upload
    workers, 32 MiB chunks, no SDK download), 2xx as success, and a cache
    service, a storage container and a file chosen by the arguments. *)

Definition success2xx (statusCode : option Z) : bool :=
  match statusCode with
  | Some c => (200 <=? c) && (c <? 300)
  | None => false
  end.

Definition sampleHostname (url : string) : Res string :=
  if String.eqb url "https://acct.blob.core.windows.net/cache/archive.tzst"
  then Ok "acct.blob.core.windows.net"
  else if String.eqb url "https://NoArchiveLocationFound.com"
  then Ok "noarchivelocationfound.com"
  else if String.eqb url "https://artifactcache.example/download/1"
  then Ok "artifactcache.example"
  else Throw "Invalid URL".

Definition sampleEnv (name : string) : option string :=
  if String.eqb name "ACTIONS_CACHE_URL" then Some "https://artifactcache.example/"
  else if String.eqb name "ACTIONS_RUNTIME_TOKEN" then Some "token"
  else None.

Definition sampleWorld
    (lookup : Res (TypedResponse ArtifactCacheEntry))
    (reserve : Res (TypedResponse ReserveCacheResponse))
    (chunk : Res HttpRequest -> Res (option Z))
    (blobs : Listing) (fileSize : Z) : World :=
  {| env := sampleEnv;
     encodeURIComponent := fun s => s;
     JSON_stringify := fun _ => "{}";
     URL_hostname := sampleHostname;
     isSuccessStatusCode := success2xx;
     lookupResponse := fun _ _ => lookup;
     reserveResponse := fun _ _ => reserve;
     commitResponse := fun _ _ =>
       Ok {| statusCode := 204; result := None; headers := [] |};
     chunkResponse := fun _ req => chunk req;
     listBlobsFlat := fun _ _ => blobs;
     blobUploadStream := fun _ _ _ _ _ => Ok tt;
     storageSDKDownload := fun _ _ _ => Ok tt;
     blobStorageDownload := fun _ _ _ _ _ => Ok tt;
     httpClientDownload := fun _ _ => Ok tt;
     getDownloadOptions := fun o =>
       {| useAzureSdk := Some (default false (o ≫= useAzureSdk));
          downloadConcurrency := Some (default 8 (o ≫= downloadConcurrency));
          timeoutInMs := Some (default 30000 (o ≫= timeoutInMs)) |};
     getUploadOptions := fun o =>
       {| uploadConcurrency := Some (default 4 (o ≫= uploadConcurrency));
          uploadChunkSize := Some (default 33554432 (o ≫= uploadChunkSize)) |};
     assertDefined := fun name v =>
       match v with
       | Some x => Ok x
       | None => Throw ("Expected " +:+ name +:+ " but value was undefined")
       end;
     getArchiveFileSizeInBytes := fun _ => Ok fileSize;
     openSync := fun _ => Ok 3 |}.

Definition noLookup : Res (TypedResponse ArtifactCacheEntry) :=
  Ok {| statusCode := 204; result := None; headers := [] |}.

Definition noReserve : Res (TypedResponse ReserveCacheResponse) :=
  Ok {| statusCode := 409; result := None; headers := [] |}.

Definition chunkAlways (status : Z) (req : Res HttpRequest) : Res (option Z) :=
  Ok (Some status).

(** A service that refuses the chunk starting at [bad] with status 500
    (what is left after the retries) and accepts every other. *)
Definition chunkExcept (bad : Z) (req : Res HttpRequest) : Res (option Z) :=
  match chunkOf (Attempted "" req) with
  | Some (start, _) => if start =? bad then Ok (Some 500) else Ok (Some 204)
  | None => Ok (Some 204)
  end.

Definition quietWorld : World :=
  sampleWorld noLookup noReserve (chunkAlways 204) LDone 0.


(** ** The direct-storage lookup, read as a search *)

Definition entryOf (b : Blob) : ArtifactCacheEntry :=
  {| cacheKey := Some (name b);
     creationTime := Some (lastModified b);
     archiveLocation := None |}.

(** The first blob, in listing order, whose name is one of the keys. *)
Fixpoint firstMatch (keys : list string) (blobList : Listing)
  : Res (option ArtifactCacheEntry) :=
  match blobList with
  | LDone => Ok None
  | LFail msg => Throw msg
  | LItem b rest =>
      if bool_decide (name b ∈ keys) then Ok (Some (entryOf b))
      else firstMatch keys rest
  end.

(** The blobs a listing yields before it ends or fails. *)
Fixpoint yielded (blobList : Listing) : list Blob :=
  match blobList with
  | LItem b rest => b :: yielded rest
  | _ => []
  end.

Definition blobA : Blob :=
  {| name := "linux-build-"; lastModified := "2024-05-01T10:00:00.000Z" |}.
Definition blobB : Blob :=
  {| name := "linux-build-8f3a"; lastModified := "2024-05-02T10:00:00.000Z" |}.
Definition blobC : Blob :=
  {| name := "linux-"; lastModified := "2024-04-01T10:00:00.000Z" |}.

Definition blobWorld (blobs : Listing) : World :=
  sampleWorld noLookup noReserve (chunkAlways 204) blobs 0.

(** ** The HTTP lookup and the reservation, by their parts *)

(** The request the closure of [getCacheEntry] builds on an attempt. *)
Definition lookupRequest (w : World) (keys paths : list string)
    (options : option InternalCacheOptions) : M HttpRequest :=
  url ← getCacheApiUrl w
          ("cache?keys=" +:+ encodeURIComponent w (join "," keys)
             +:+ "&version="
             +:+ getCacheVersion paths (options ≫= compressionMethod));
  mret (GetJson (createHttpClient w) url).

(** What the retried lookup comes to. *)
Definition lookupAnswer (w : World) (keys paths : list string)
    (options : option InternalCacheOptions)
  : Res (TypedResponse ArtifactCacheEntry) :=
  lookupResponse w "getCacheEntry" (outcome (lookupRequest w keys paths options)).



(** ** The retry policy behind the reservation *)

(** Modelled from the spec: what one attempt of an operation retried by
    [./requestUtils] comes to, a response of the cache service, or an
    error thrown by the attempt, which is recoverable (a dropped
    connection, a timeout) or a hard failure. *)
Inductive Attempt (T : Type) : Type :=
| Responded (response : TypedResponse T)
| Failed (message : string) (recoverable : bool).
Arguments Responded {T} response.
Arguments Failed {T} message recoverable.

(** Modelled from the spec: the two constants of the retry policy of
    [./requestUtils], the bound on the attempts and the server errors
    after which another attempt is made. *)
Record RetryPolicy : Type := {
  maxAttempts : nat;
  isRetryableStatusCode : Z -> bool
}.

(** Modelled from the spec: the statuses that [./requestUtils] takes for
    server errors, HTTP 5xx. *)
Definition isServerErrorStatusCode (statusCode : Z) : bool := 500 <=? statusCode.

(** Modelled from the spec: the retrying wrapper [retryTypedResponse] of
    [./requestUtils], which is not among the sources, by the retry policy
    of the transport layer. A response that is no server error (a status
    below 500: a success, a 4xx, a conflict) ends the operation and is
    handed to the caller. A server error and a recoverable transport
    error are retried while attempts remain; a failure that is not
    retryable stops at once. What is left when the attempts are used up
    is fatal, and the error names the operation and the last cause.
    [answers] gives the outcome of each attempt, the first being attempt
    1. *)
Fixpoint retryLoop {T : Type} (policy : RetryPolicy) (name : string)
    (answers : nat -> Attempt T) (budget attempt : nat)
    (errorMessage : string) : Res (TypedResponse T) :=
  match budget with
  | O => Throw (name +:+ " failed: " +:+ errorMessage)
  | S budget =>
      match answers attempt with
      | Responded response =>
          if negb (isServerErrorStatusCode (statusCode response)) then
            Ok response
          else
            let errorMessage :=
              "Cache service responded with " +:+ toString (statusCode response) in
            if isRetryableStatusCode policy (statusCode response) then
              retryLoop policy name answers budget (S attempt) errorMessage
            else Throw (name +:+ " failed: " +:+ errorMessage)
      | Failed message recoverable =>
          if recoverable then
            retryLoop policy name answers budget (S attempt) message
          else Throw (name +:+ " failed: " +:+ message)
      end
  end.

Definition retryTypedResponsePolicy {T : Type} (policy : RetryPolicy)
    (name : string) (answers : nat -> Attempt T) : Res (TypedResponse T) :=
  retryLoop policy name answers (maxAttempts policy) 1%nat "".

(** The world [w] with a cache service whose answers to the attempts of
    a reservation are [service], behind the retry policy. *)
Definition reservingThrough (policy : RetryPolicy)
    (service : Res HttpRequest -> nat -> Attempt ReserveCacheResponse)
    (w : World) : World :=
  {| env := env w;
     encodeURIComponent := encodeURIComponent w;
     JSON_stringify := JSON_stringify w;
     URL_hostname := URL_hostname w;
     isSuccessStatusCode := isSuccessStatusCode w;
     lookupResponse := lookupResponse w;
     reserveResponse := fun name req =>
       retryTypedResponsePolicy policy name (service req);
     commitResponse := commitResponse w;
     chunkResponse := chunkResponse w;
     listBlobsFlat := listBlobsFlat w;
     blobUploadStream := blobUploadStream w;
     storageSDKDownload := storageSDKDownload w;
     blobStorageDownload := blobStorageDownload w;
     httpClientDownload := httpClientDownload w;
     getDownloadOptions := getDownloadOptions w;
     getUploadOptions := getUploadOptions w;
     assertDefined := assertDefined w;
     getArchiveFileSizeInBytes := getArchiveFileSizeInBytes w;
     openSync := openSync w |}.

(** Two attempts, and another attempt after 502, 503 and 504 only. *)
Definition twoAttempts : RetryPolicy :=
  {| maxAttempts := 2;
     isRetryableStatusCode := fun statusCode =>
       bool_decide (statusCode ∈ [502; 503; 504]) |}.


Definition sampleEntry : ArtifactCacheEntry :=
  {| cacheKey := Some "linux-build-8f3a";
     creationTime := Some "2024-05-02T10:00:00.000Z";
     archiveLocation := Some "https://artifactcache.example/download/1" |}.

Definition hitWorld : World :=
  sampleWorld (Ok {| statusCode := 200; result := Some sampleEntry; headers := [] |})
              noReserve (chunkAlways 204) LDone 0.

Definition placeholderLocation : string := "https://NoArchiveLocationFound.com".

Definition azureEntry : ArtifactCacheEntry :=
  {| cacheKey := Some "linux-build-8f3a";
     creationTime := Some "2024-05-02T10:00:00.000Z";
     archiveLocation :=
       Some "https://acct.blob.core.windows.net/cache/archive.tzst" |}.

Definition withSdk : option DownloadOptions :=
  Some {| useAzureSdk := Some true;
          downloadConcurrency := None;
          timeoutInMs := None |}.

Definition entryWithoutLocation : ArtifactCacheEntry :=
  {| cacheKey := Some "linux-build-8f3a";
     creationTime := Some "2024-05-02T10:00:00.000Z";
     archiveLocation := None |}.

(** ** Chunk uploads, by their parts *)

(** The name under which a chunk upload is retried. *)
Definition chunkName (start end_ : Z) : string :=
  "uploadChunk (start: " +:+ toString start +:+ ", end: "
    +:+ toString end_ +:+ ")".

(** The range a worker claims when the cursor is at [offset]. *)
Definition chunkEnd (fileSize maxChunkSize offset : Z) : Z :=
  offset + Z.min (fileSize - offset) maxChunkSize - 1.

(** The event that issues the upload of the range claimed at [start]. *)
Definition chunkIssue (httpClient : HttpClient)
    (resourceUrl archivePath : string) (fd start end_ : Z) : Event :=
  Attempted (chunkName start end_)
    (Ok (SendStream httpClient "PATCH" resourceUrl
           {| rs_path := archivePath; rs_fd := fd;
              rs_start := start; rs_end := end_ |}
           [("Content-Type", "application/octet-stream");
            ("Content-Range", getContentRange start end_)])).

(** Whether the cache service ends up accepting an attempted request:
    its answer after the retries is a response with a success status. *)
Definition chunkAccepted (w : World) (ev : Event) : bool :=
  match ev with
  | Attempted opName req =>
      match chunkResponse w opName req with
      | Ok status => isSuccessStatusCode w status
      | _ => false
      end
  | _ => false
  end.

(** The first [k] ranges claimed from [offset] on, one every
    [maxChunkSize] bytes. *)
Fixpoint chunksFrom (fileSize maxChunkSize : Z) (k : nat) (offset : Z)
  : list (Z * Z) :=
  match k with
  | O => []
  | S k' =>
      (offset, chunkEnd fileSize maxChunkSize offset)
        :: chunksFrom fileSize maxChunkSize k' (offset + maxChunkSize)
  end.

(** The number of suspended workers. *)
Fixpoint awaiting (workers : list Worker) : nat :=
  match workers with
  | [] => O
  | Returned :: rest => awaiting rest
  | Awaiting _ _ _ :: rest => S (awaiting rest)
  end.

(** The number of ranges still to claim when the cursor is at [offset]. *)
Definition remaining (fileSize maxChunkSize offset : Z) : nat :=
  Z.to_nat ((fileSize - offset + maxChunkSize - 1) / maxChunkSize).

(** What an upload trace is made of. *)
Definition uploadEvent (ev : Event) : Prop :=
  match ev with
  | Debug _ | ChunkSettled _ _ _ | OpenSync _ | CloseSync _
  | CreateReadStream _ | UploadStream _ _ _ _ _ => True
  | Attempted opName (Ok (SendStream _ _ _ stream _)) =>
      opName = chunkName (rs_start stream) (rs_end stream)
  | _ => False
  end.

(** What [uploadFile] does before (or instead of) running its workers. *)
Definition preparation (ev : Event) : Prop :=
  match ev with
  | Debug _ | OpenSync _ | CreateReadStream _ | UploadStream _ _ _ _ _ => True
  | _ => False
  end.

(** [saveCache] after the upload: measure, report and commit. *)
Definition commitPhase (w : World) (cacheId : Z) (archivePath : string)
  : M unit :=
  debug "Commiting cache";;
  cacheSize ← lift (getArchiveFileSizeInBytes w archivePath);
  info ("Cache Size: ~" +:+ toString (roundMiB cacheSize) +:+ " MB ("
          +:+ toString cacheSize +:+ " B)");;
  commitCacheResponse ← commitCache w (createHttpClient w) cacheId cacheSize;
  if negb (isSuccessStatusCode w (Some (statusCode commitCacheResponse))) then
    throw ("Cache service responded with "
             +:+ toString (statusCode commitCacheResponse)
             +:+ " during commit cache.")
  else
    info "Cache saved successfully".

Definition tenMiBWorld : World :=
  sampleWorld noLookup noReserve (chunkAlways 204) LDone 10485760.

(** The service refuses the second chunk of the 10 MiB archive. *)
Definition refusingWorld : World :=
  sampleWorld noLookup noReserve (chunkExcept 4194304) LDone 10485760.

Definition twoWorkersFourMiB : option UploadOptions :=
  Some {| uploadConcurrency := Some 2; uploadChunkSize := Some 4194304 |}.

Definition noWorkers : option UploadOptions :=
  Some {| uploadConcurrency := Some 0; uploadChunkSize := Some 4194304 |}.
From Stdlib Require Import DecimalZ DecimalPos.


(** ** Further readings of upload traces *)

Definition isIssue (ev : Event) : bool :=
  match chunkOf ev with Some _ => true | None => false end.

Definition isSettle (ev : Event) : bool :=
  match ev with ChunkSettled _ _ _ => true | _ => false end.

Definition isClose (ev : Event) : bool :=
  match ev with CloseSync _ => true | _ => false end.

(** The number of chunk uploads outstanding after an event, when [cur]
    were outstanding before it. *)
Definition outstandingAfter (cur : Z) (ev : Event) : Z :=
  if isIssue ev then cur + 1 else if isSettle ev then cur - 1 else cur.

(** Never more than [n] chunk uploads are outstanding along the trace,
    starting from [cur]. *)
Fixpoint atMost (n cur : Z) (t : list Event) : Prop :=
  match t with
  | [] => cur <= n
  | ev :: rest => cur <= n /\ atMost n (outstandingAfter cur ev) rest
  end.

(** What the workers put in a trace. *)
Definition workerEvent (ev : Event) : Prop :=
  match ev with
  | Debug _ | ChunkSettled _ _ _ => True
  | Attempted _ (Ok (SendStream _ _ _ _ _)) => True
  | _ => False
  end.

(** The number outstanding after a whole trace. *)
Definition outstanding (cur : Z) (t : list Event) : Z :=
  fold_left outstandingAfter t cur.

(** What [uploadFile] may do before it calls [openSync], or instead of
    calling it. *)
Definition beforeOpen (ev : Event) : Prop :=
  match ev with
  | Debug _ | CreateReadStream _ | UploadStream _ _ _ _ _ => True
  | _ => False
  end.

(** ** The workers that outlive the upload

    [Promise.all] rejects with the first worker that throws; [uploadFile]
    then closes the descriptor and throws in its turn. The other workers
    are not cancelled: each is still suspended at its
    [await uploadChunk(...)], and when that settles it goes round its
    loop again, claims the next range and sends it, until the ranges run
    out or its own chunk is refused. *)

Section Stragglers.

Variables (w : World) (httpClient : HttpClient)
          (resourceUrl archivePath : string) (fd fileSize maxChunkSize : Z).

(** The workers along the completions, with nobody waiting for them: a
    worker whose chunk is accepted resumes as in [promiseAll]; a worker
    whose chunk is refused throws and is through (its slot holds
    [Returned] from then on); the others go on. *)
Fixpoint drain (completions : list nat) (workers : list Worker) (offset : Z)
  : list Event :=
  match completions with
  | [] => []
  | i :: later =>
      match workers !! i with
      | Some (Awaiting start end_ (Ok _)) =>
          let '(resumed, t) :=
            uploadWorker w httpClient resourceUrl archivePath fd fileSize
              maxChunkSize offset in
          ChunkSettled start end_ true
            :: t ++ match resumed with
                    | Ok (wk, offset) => drain later (<[i := wk]> workers) offset
                    | _ => []
                    end
      | Some (Awaiting start end_ (Throw _)) =>
          ChunkSettled start end_ false
            :: drain later (<[i := Returned]> workers) offset
      | _ => drain later workers offset
      end
  end.

(** What the workers do once the promise of [promiseAll] has settled:
    nothing when it has resolved (no worker is left) and nothing that is
    observed when it is still pending at the end of the completions;
    after a rejection, what [drain] gives for the completions that are
    left. The function follows [promiseAll] up to the point where that
    one settles. *)
Fixpoint survivors (completions : list nat) (workers : list Worker)
    (offset : Z) : list Event :=
  if forallb isReturned workers then []
  else
    match completions with
    | [] => []
    | i :: later =>
        match workers !! i with
        | Some (Awaiting start end_ (Ok _)) =>
            match outcome (uploadWorker w httpClient resourceUrl archivePath
                             fd fileSize maxChunkSize offset) with
            | Ok (wk, offset) => survivors later (<[i := wk]> workers) offset
            | _ => []
            end
        | Some (Awaiting start end_ (Throw _)) =>
            drain later (<[i := Returned]> workers) offset
        | _ => survivors later workers offset
        end
    end.

End Stragglers.

(** What goes on after [uploadFile] has settled: the chunk uploads of the
    workers that a rejection has left behind. *)
Definition uploadFileStragglers (w : World) (completions : list nat)
    (httpClient : HttpClient) (cacheId : Z) (archivePath key : string)
    (options : option UploadOptions)
    (blobContainerName connectionString : option string) : list Event :=
  let uploadOptions := getUploadOptions w options in
  match assertDefined w "uploadConcurrency" (uploadConcurrency uploadOptions),
        assertDefined w "uploadChunkSize" (uploadChunkSize uploadOptions) with
  | Ok concurrency, Ok maxChunkSize =>
      match outcome (newArrayKeys concurrency) with
      | Ok parallelUploads =>
          if truthy blobContainerName && truthy connectionString then []
          else
            match getArchiveFileSizeInBytes w archivePath,
                  outcome (getCacheApiUrl w ("caches/" +:+ toString cacheId)),
                  openSync w archivePath with
            | Ok fileSize, Ok resourceUrl, Ok fd =>
                match outcome (spawn w httpClient resourceUrl archivePath fd
                                 fileSize maxChunkSize parallelUploads 0) with
                | Ok (workers, offset) =>
                    survivors w httpClient resourceUrl archivePath fd fileSize
                      maxChunkSize completions workers offset
                | _ => []
                end
            | _, _, _ => []
            end
      | _ => []
      end
  | _, _ => []
  end.

(** Everything a call of [uploadFile] brings about: what it does until it
    settles, then what its workers still do. *)
Definition uploadFileRun (w : World) (completions : list nat)
    (httpClient : HttpClient) (cacheId : Z) (archivePath key : string)
    (options : option UploadOptions)
    (blobContainerName connectionString : option string) : list Event :=
  trace (uploadFile w completions httpClient cacheId archivePath key options
           blobContainerName connectionString)
  ++ uploadFileStragglers w completions httpClient cacheId archivePath key
       options blobContainerName connectionString.

(** ** The commit, by its parts *)

(** The request the closure of [commitCache] builds on an attempt. *)
Definition commitRequest (w : World) (cacheId filesize : Z) : M HttpRequest :=
  url ← getCacheApiUrl w ("caches/" +:+ toString cacheId);
  mret (PostCommit (createHttpClient w) url {| size := filesize |}).

(** What the retried commit comes to. *)
Definition commitAnswer (w : World) (cacheId filesize : Z)
  : Res (TypedResponse unit) :=
  commitResponse w "commitCache" (outcome (commitRequest w cacheId filesize)).

(** A world whose cache service answers the commit with [status]. *)
Definition commitWorld (status : Z) : World :=
  {| env := sampleEnv;
     encodeURIComponent := fun s => s;
     JSON_stringify := fun _ => "{}";
     URL_hostname := sampleHostname;
     isSuccessStatusCode := success2xx;
     lookupResponse := fun _ _ => noLookup;
     reserveResponse := fun _ _ => noReserve;
     commitResponse := fun _ _ =>
       Ok {| statusCode := status; result := None; headers := [] |};
     chunkResponse := fun _ req => chunkAlways 204 req;
     listBlobsFlat := fun _ _ => LDone;
     blobUploadStream := fun _ _ _ _ _ => Ok tt;
     storageSDKDownload := fun _ _ _ => Ok tt;
     blobStorageDownload := fun _ _ _ _ _ => Ok tt;
     httpClientDownload := fun _ _ => Ok tt;
     getDownloadOptions := getDownloadOptions quietWorld;
     getUploadOptions := getUploadOptions quietWorld;
     assertDefined := assertDefined quietWorld;
     getArchiveFileSizeInBytes := fun _ => Ok 10485760;
     openSync := fun _ => Ok 3 |}.

(** A world without the cache service URL. *)
Definition offlineWorld : World :=
  {| env := fun _ => None;
     encodeURIComponent := fun s => s;
     JSON_stringify := fun _ => "{}";
     URL_hostname := sampleHostname;
     isSuccessStatusCode := success2xx;
     lookupResponse := fun _ _ => Throw "getCacheEntry failed";
     reserveResponse := fun _ _ => Throw "reserveCache failed";
     commitResponse := fun _ _ => Throw "commitCache failed";
     chunkResponse := fun _ _ => Throw "uploadChunk failed";
     listBlobsFlat := fun _ _ => LDone;
     blobUploadStream := fun _ _ _ _ _ => Throw "RestError: AuthenticationFailed";
     storageSDKDownload := fun _ _ _ => Throw "download failed";
     blobStorageDownload := fun _ _ _ _ _ => Throw "download failed";
     httpClientDownload := fun _ _ => Throw "download failed";
     getDownloadOptions := getDownloadOptions quietWorld;
     getUploadOptions := getUploadOptions quietWorld;
     assertDefined := assertDefined quietWorld;
     getArchiveFileSizeInBytes := fun _ => Ok 10485760;
     openSync := fun _ => Ok 3 |}.

(** ** Strings of digits *)

Fixpoint string_forall (p : ascii -> bool) (s : string) : bool :=
  match s with
  | EmptyString => true
  | String c rest => p c && string_forall p rest
  end.

(** [0-9a-f]. *)
Definition isLowerHex (c : ascii) : bool :=
  let n := N_of_ascii c in
  ((48 <=? n) && (n <=? 57) || (97 <=? n) && (n <=? 102))%N.

(** [0-9]. *)
Definition isDigit (c : ascii) : bool :=
  let n := N_of_ascii c in ((48 <=? n) && (n <=? 57))%N.

(** * The file-system helpers [cp], [mv], [rmRF], [mkdirP] and [which]

    Source: the second part of [cacheHttpClient.ts] (the [io] module).
    The helpers of [./io-util], Node's [fs], [path] and [child_process]
    are the surroundings: each call to one of them is recorded, and its
    answer may depend on the calls made before it (the file system changes
    under the program). *)

Module Io.

(** A thrown value: an [Error] with its [message], and the [code] Node
    puts on system errors. *)
Record JsError : Type := { code : option string; message : string }.

(** [new Error(message)]. *)
Definition newError (message : string) : JsError :=
  {| code := None; message := message |}.

(** [err.code === c] and [err.code !== c]. *)
Definition hasCode (err : JsError) (c : string) : bool :=
  match code err with
  | Some x => String.eqb x c
  | None => false
  end.

(** What an awaited call comes to. [Unfinished] is a run that is cut off
    by the bound the model puts on a loop of unknown length. *)
Inductive Result (A : Type) : Type :=
| Returns (a : A)
| Throws (err : JsError)
| Unfinished.
Arguments Returns {A} a.
Arguments Throws {A} err.
Arguments Unfinished {A}.

(** What the surroundings answer to a call. *)
Inductive Answer (A : Type) : Type :=
| Gives (a : A)
| Fails (err : JsError).
Arguments Gives {A} a.
Arguments Fails {A} err.

Definition settled {A} (answer : Answer A) : Result A :=
  match answer with
  | Gives a => Returns a
  | Fails err => Throws err
  end.

(** The calls that reach the file system or the shell. *)
Inductive Call : Type :=
| Stat (p : string)                              (* fs.promises.stat *)
| Mkdir (p : string)                             (* fs.promises.mkdir *)
| Unlink (p : string)                            (* fs.promises.unlink *)
| Rmdir (p : string)                             (* fs.promises.rmdir *)
| Readdir (p : string)                           (* fs.promises.readdir *)
| CopyFile (src dest : string) (excl : bool)     (* fs.promises.copyFile *)
| Exec (command : string)                        (* child_process.exec *)
| IsDirectory (p : string)                       (* ioUtil.isDirectory *)
| Exists (p : string)                            (* ioUtil.exists *)
| RemoveDirectory (p : string)                   (* ioUtil.removeDirectory *)
| TryGetExecutablePath (filePath : string) (extensions : list string).

(** The surroundings. The answers of the file system take the calls made
    so far; the functions of [path], [ioUtil.isRooted] and the comparison
    of a number with a string are functions of their arguments. For a
    string [s], [atLeast s] is the least array length [n] for which
    JavaScript's [n >= s] holds, if there is one (there is none when [s]
    does not convert to a number). *)
Record System : Type := {
  IS_WINDOWS : bool;
  processEnv : string -> option string;
  atLeast : string -> option Z;
  dirname : string -> string;
  basename : string -> string;
  join : string -> string -> string;
  resolve : string -> string -> string;
  isRooted : string -> bool;
  fsStat : list Call -> string -> Answer bool;
  fsMkdir : list Call -> string -> Answer unit;
  fsUnlink : list Call -> string -> Answer unit;
  fsRmdir : list Call -> string -> Answer unit;
  fsReaddir : list Call -> string -> Answer (list string);
  fsCopyFile : list Call -> string -> string -> bool -> Answer unit;
  childExec : list Call -> string -> Answer unit;
  ioIsDirectory : list Call -> string -> Answer bool;
  ioExists : list Call -> string -> Answer bool;
  ioRemoveDirectory : list Call -> string -> Answer unit;
  ioTryGetExecutablePath : list Call -> string -> list string -> Answer string
}.

(** A computation takes the calls made before it and gives its outcome
    with the calls it made itself, in order. *)
Definition IO (A : Type) : Type := list Call -> Result A * list Call.

Definition ret {A} (a : A) : IO A := fun _ => (Returns a, []).
Definition throw {A} (err : JsError) : IO A := fun _ => (Throws err, []).
Definition unfinished {A} : IO A := fun _ => (Unfinished, []).

Definition bind {A B} (m : IO A) (k : A -> IO B) : IO B :=
  fun before =>
    match m before with
    | (Returns a, t) => let '(r, t') := k a (before ++ t) in (r, t ++ t')
    | (Throws err, t) => (Throws err, t)
    | (Unfinished, t) => (Unfinished, t)
    end.

(** [try { body } catch (err) { handler }]. *)
Definition catch {A} (body : IO A) (handler : JsError -> IO A) : IO A :=
  fun before =>
    match body before with
    | (Throws err, t) =>
        let '(r, t') := handler err (before ++ t) in (r, t ++ t')
    | other => other
    end.

(** One call to the surroundings. *)
Definition call {A} (c : Call) (answer : list Call -> Answer A) : IO A :=
  fun before => (settled (answer before), [c]).

#[local] Instance IO_ret : MRet IO := @ret.
#[local] Instance IO_bind : MBind IO := fun A B k m => bind m k.

Definition outcome {A} (r : Result A * list Call) : Result A := fst r.
Definition calls {A} (r : Result A * list Call) : list Call := snd r.

(** ** Strings *)

(** [s.split(delimiter)] for a delimiter of one character. *)
Fixpoint split (delimiter : ascii) (s : string) : list string :=
  match s with
  | EmptyString => [EmptyString]
  | String c rest =>
      if Ascii.eqb c delimiter then EmptyString :: split delimiter rest
      else match split delimiter rest with
           | [] => [String c EmptyString]
           | x :: xs => String c x :: xs
           end
  end.

(** [s.includes(c)] for a string [c] of one character. *)
Fixpoint includes (c : ascii) (s : string) : bool :=
  match s with
  | EmptyString => false
  | String x rest => Ascii.eqb x c || includes c rest
  end.

(** [if (s)] on a string. *)
Definition nonEmpty (s : string) : bool := negb (String.eqb s "").

(** The double quote. *)
Definition dquote : string := String "034" EmptyString.

(** ** Options of [cp] and [mv] *)

Record CopyOptions : Type := {
  recursive : option bool;
  force : option bool
}.

Definition readCopyOptions (options : CopyOptions) : bool * bool :=
  let force := match force options with None => true | Some f => f end in
  let recursive := default false (recursive options) in
  (force, recursive).

Section Helpers.

Variable sys : System.

(** [path.delimiter] and [path.sep] follow the platform. *)
Definition delimiter : ascii := if IS_WINDOWS sys then ";"%char else ":"%char.
Definition sep : string := if IS_WINDOWS sys then "\" else "/".

Definition stat (p : string) : IO bool := call (Stat p) (fun h => fsStat sys h p).
Definition mkdir (p : string) : IO unit := call (Mkdir p) (fun h => fsMkdir sys h p).
Definition unlink (p : string) : IO unit := call (Unlink p) (fun h => fsUnlink sys h p).
Definition rmdir (p : string) : IO unit := call (Rmdir p) (fun h => fsRmdir sys h p).
Definition readdir (p : string) : IO (list string) :=
  call (Readdir p) (fun h => fsReaddir sys h p).
Definition copyFile (src dest : string) (excl : bool) : IO unit :=
  call (CopyFile src dest excl) (fun h => fsCopyFile sys h src dest excl).
Definition exec (command : string) : IO unit :=
  call (Exec command) (fun h => childExec sys h command).
Definition isDirectory (p : string) : IO bool :=
  call (IsDirectory p) (fun h => ioIsDirectory sys h p).
Definition exists_ (p : string) : IO bool :=
  call (Exists p) (fun h => ioExists sys h p).
Definition removeDirectory (p : string) : IO unit :=
  call (RemoveDirectory p) (fun h => ioRemoveDirectory sys h p).
Definition tryGetExecutablePath (filePath : string) (extensions : list string)
  : IO string :=
  call (TryGetExecutablePath filePath extensions)
       (fun h => ioTryGetExecutablePath sys h filePath extensions).

(** ** [mkdirP] *)

(** [stack.length >= (process.env['TEST_MKDIRP_FAILSAFE'] || 1000)]. *)
Definition failsafeReached (stack : list string) : bool :=
  let length := Z.of_nat (length stack) in
  match processEnv sys "TEST_MKDIRP_FAILSAFE" with
  | Some s =>
      if nonEmpty s then
        match atLeast sys s with
        | Some n => n <=? length
        | None => false
        end
      else 1000 <=? length
  | None => 1000 <=? length
  end.

(** What a round of the first loop leaves: the [stats] of [testDir], or
    the parent directory the loop goes on with ([continue]). *)
Inductive Probe : Type :=
| Stats (isDir : bool)
| Continue (parentDir : string).

(** The first loop, [while (true)], at most [bound] rounds of it. The
    stack is kept with its top first. It gives [None] when the loop
    returns from [mkdirP] (the failsafe) and the stack when it breaks. *)
Fixpoint mkdirP_probe (bound : nat) (fsPath : string) (stack : list string)
    (testDir : string) : IO (option (list string)) :=
  match bound with
  | O => unfinished
  | S bound' =>
      (* validate the loop is not out of control *)
      if failsafeReached stack then
        (* let the framework throw *)
        mkdir fsPath;;
        mret None
      else
        probe ←
          catch
            (stats ← stat testDir; mret (Stats stats))
            (fun err =>
               if hasCode err "ENOENT" then
                 (* validate the directory is not the drive root *)
                 let parentDir := dirname sys testDir in
                 if String.eqb testDir parentDir then
                   throw (newError
                            ("Unable to create directory '" +:+ fsPath
                               +:+ "'. Root directory does not exist: '"
                               +:+ testDir +:+ "'"))
                 else
                   (* push the dir and test the parent *)
                   mret (Continue parentDir)
               else if hasCode err "UNKNOWN" then
                 throw (newError
                          ("Unable to create directory '" +:+ fsPath
                             +:+ "'. Unable to verify the directory exists: '"
                             +:+ testDir
                             +:+ "'. If directory is a file share, please verify the share name is correct, the share is online, and the current process has permission to access the share."))
               else throw err);
        match probe with
        | Continue parentDir =>
            mkdirP_probe bound' fsPath (testDir :: stack) parentDir
        | Stats isDir =>
            if negb isDir then
              throw (newError ("Unable to create directory '" +:+ fsPath
                                 +:+ "'. Conflicting file exists: '"
                                 +:+ testDir +:+ "'"))
            else
              (* testDir exists *)
              mret (Some stack)
        end
  end.

(** The second loop: [let dir = stack.pop(); while (dir != null) ...]. *)
Fixpoint mkdirP_create (stack : list string) : IO unit :=
  match stack with
  | [] => mret tt
  | dir :: rest => mkdir dir;; mkdirP_create rest
  end.

Definition mkdirP (bound : nat) (fsPath : string) : IO unit :=
  if negb (nonEmpty fsPath) then throw (newError "Parameter p is required")
  else
    (* build a stack of directories to create *)
    probed ← mkdirP_probe bound fsPath [] fsPath;
    match probed with
    | None => mret tt
    | Some stack =>
        (* create each directory *)
        mkdirP_create stack
    end.

(** ** [which] *)

(** [for (const x of s.split(path.delimiter)) if (x) list.push(x)]. *)
Definition entries (s : string) : list string :=
  filter (fun x => nonEmpty x = true) (split delimiter s).

(** The [for] loop over the directories: the first match is returned. *)
Fixpoint which_directories (tool : string) (extensions directories : list string)
  : IO string :=
  match directories with
  | [] => mret ""
  | directory :: rest =>
      filePath ← tryGetExecutablePath (directory +:+ sep +:+ tool) extensions;
      if nonEmpty filePath then mret filePath
      else which_directories tool extensions rest
  end.

(** The body of the [try] block. *)
Definition which_search (tool : string) : IO string :=
  (* build the list of extensions to try *)
  let extensions :=
    match processEnv sys "PATHEXT" with
    | Some pathext =>
        if IS_WINDOWS sys && nonEmpty pathext then entries pathext else []
    | None => []
    end in
  (* if it's rooted, return it if exists. otherwise return empty. *)
  if isRooted sys tool then
    filePath ← tryGetExecutablePath tool extensions;
    if nonEmpty filePath then mret filePath else mret ""
  else
    (* if any path separators, return empty *)
    if includes "/" tool || (IS_WINDOWS sys && includes "\" tool) then mret ""
    else
      (* build the list of directories *)
      let directories :=
        match processEnv sys "PATH" with
        | Some path => if nonEmpty path then entries path else []
        | None => []
        end in
      (* return the first match *)
      which_directories tool extensions directories.

(** [which(tool, false)], the call [which] makes on itself. *)
Definition which_unchecked (tool : string) : IO string :=
  if negb (nonEmpty tool) then throw (newError "parameter 'tool' is required")
  else
    catch (which_search tool)
      (fun err =>
         throw (newError ("which failed with message " +:+ message err))).

Definition which (tool : string) (check : bool) : IO string :=
  if negb (nonEmpty tool) then throw (newError "parameter 'tool' is required")
  else
    (* recursive when check=true *)
    (if check then
       result ← which_unchecked tool;
       if negb (nonEmpty result) then
         if IS_WINDOWS sys then
           throw (newError
                    ("Unable to locate executable file: " +:+ tool
                       +:+ ". Please verify either the file path exists or the file can be found within a directory specified by the PATH environment variable. Also verify the file has a valid extension for an executable file."))
         else
           throw (newError
                    ("Unable to locate executable file: " +:+ tool
                       +:+ ". Please verify either the file path exists or the file can be found within a directory specified by the PATH environment variable. Also check the file mode to verify the file is executable."))
       else mret tt
     else mret tt);;
    catch (which_search tool)
      (fun err =>
         throw (newError ("which failed with message " +:+ message err))).

(** ** [rmRF] *)

(** [if (err.code !== 'ENOENT') throw err]. *)
Definition unlessMissing (err : JsError) : IO unit :=
  if negb (hasCode err "ENOENT") then throw err else mret tt.

Definition rmRF (inputPath : string) : IO unit :=
  if IS_WINDOWS sys then
    catch
      (isDir ← isDirectory inputPath;
       if (isDir : bool) then exec ("rd /s /q " +:+ dquote +:+ inputPath +:+ dquote)
       else exec ("del /f /a " +:+ dquote +:+ inputPath +:+ dquote))
      (* if you try to delete a file that doesn't exist, desired result is
         achieved; other errors are valid *)
      unlessMissing;;
    (* Shelling out fails to remove a symlink folder with missing source,
       this unlink catches that *)
    catch (unlink inputPath) unlessMissing
  else
    isDir ←
      catch (isDir ← isDirectory inputPath; mret (Some isDir))
            (fun err =>
               if negb (hasCode err "ENOENT") then throw err else mret None);
    match isDir with
    | None => mret tt
    | Some true => removeDirectory inputPath
    | Some false => unlink inputPath
    end.

(** ** [cp] and [mv] *)

(** [fs.promises.copyFile(source, dest, fs.constants.COPYFILE_EXCL)] is
    [copyFile source dest true]. *)

(** Copies contents of source into dest, making any necessary folders
    along the way. Deletes the original copy if deleteOriginal is true.
    [bound] bounds the depth of the recursion and the probing of
    [mkdirP]. *)
Fixpoint copyDirectoryContents (bound : nat) (source dest : string)
    (force deleteOriginal : bool) : IO unit :=
  match bound with
  | O => unfinished
  | S bound' =>
      isDir ← isDirectory source;
      if (isDir : bool) then
        (destExists ← exists_ dest;
         if (destExists : bool) then
           destIsDir ← isDirectory dest;
           if negb destIsDir then
             throw (newError (dest +:+ " is not a directory"))
           else mret tt
         else mkdirP bound dest);;
        (* Copy all child files, and directories recursively *)
        sourceChildren ← readdir source;
        (fix children (l : list string) : IO unit :=
           match l with
           | [] => mret tt
           | newSource :: rest =>
               let newDest := join sys dest (basename sys newSource) in
               copyDirectoryContents bound' (resolve sys source newSource)
                 newDest force deleteOriginal;;
               children rest
           end) sourceChildren;;
        if deleteOriginal then rmdir source else mret tt
      else
        (if force then copyFile source dest false
         else copyFile source dest true);;
        if deleteOriginal then unlink source else mret tt
  end.

Definition cp (bound : nat) (source dest : string) (options : CopyOptions)
  : IO unit :=
  let '(force, recursive) := readCopyOptions options in
  sourceIsDir ← isDirectory source;
  if (sourceIsDir : bool) then
    if negb recursive then
      throw (newError ("non-recursive cp failed, " +:+ source
                         +:+ " is a directory"))
    else
      (* If directory exists, copy source inside it. Otherwise, create it
         and copy contents of source inside. *)
      dest ←
        (destExists ← exists_ dest;
         if (destExists : bool) then
           destIsDir ← isDirectory dest;
           if negb destIsDir then
             throw (newError (dest +:+ " is not a directory"))
           else mret (join sys dest (basename sys source))
         else mret dest);
      copyDirectoryContents bound source dest force false
  else
    if force then copyFile source dest false
    else copyFile source dest true.

Definition mv (bound : nat) (source dest : string) (options : CopyOptions)
  : IO unit :=
  let '(force, recursive) := readCopyOptions options in
  sourceIsDir ← isDirectory source;
  if (sourceIsDir : bool) then
    if negb recursive then
      throw (newError ("non-recursive cp failed, " +:+ source
                         +:+ " is a directory"))
    else
      (* If directory exists, move source inside it. Otherwise, create it
         and move contents of source inside. *)
      dest ←
        (destExists ← exists_ dest;
         if (destExists : bool) then
           destIsDir ← isDirectory dest;
           if negb destIsDir then
             throw (newError (dest +:+ " is not a directory"))
           else mret (join sys dest (basename sys source))
         else mret dest);
      copyDirectoryContents bound source dest force true
  else
    (if force then copyFile source dest false
     else copyFile source dest true);;
    (* Delete file after copying since this is mv. *)
    unlink source.

(** ** Reading runs *)

(** [dir], its parent, the parent of that, ...: [n] directories. *)
Fixpoint ancestors (n : nat) (dir : string) : list string :=
  match n with
  | O => []
  | S n' => dir :: ancestors n' (dirname sys dir)
  end.

(** The error [mkdirP] throws for the answer [stat] gives on [testDir],
    when it throws for it. *)
Definition statFailure (fsPath testDir : string) (answer : Answer bool)
    (err : JsError) : Prop :=
  match answer with
  | Gives isDir =>
      isDir = false
      /\ err = newError ("Unable to create directory '" +:+ fsPath
                           +:+ "'. Conflicting file exists: '"
                           +:+ testDir +:+ "'")
  | Fails cause =>
      if hasCode cause "ENOENT" then
        testDir = dirname sys testDir
        /\ err = newError ("Unable to create directory '" +:+ fsPath
                             +:+ "'. Root directory does not exist: '"
                             +:+ testDir +:+ "'")
      else if hasCode cause "UNKNOWN" then
        exists advice,
          err = newError ("Unable to create directory '" +:+ fsPath
                            +:+ "'. Unable to verify the directory exists: '"
                            +:+ testDir +:+ "'. " +:+ advice)
      else err = cause
  end.

(** How the first loop of [mkdirP] can end. *)
Inductive ProbeEnd (fsPath : string) (stack : list string) (testDir : string)
    (before : list Call) (k : nat)
  : Result (option (list string)) * list Call -> Prop :=
| probe_break :
    fsStat sys (before ++ map Stat (ancestors k testDir))
      (Nat.iter k (dirname sys) testDir) = Gives true ->
    ProbeEnd fsPath stack testDir before k
      (Returns (Some (rev (ancestors k testDir) ++ stack)),
       map Stat (ancestors (S k) testDir))
| probe_failsafe r :
    failsafeReached (rev (ancestors k testDir) ++ stack) = true ->
    fsMkdir sys (before ++ map Stat (ancestors k testDir)) fsPath = r ->
    ProbeEnd fsPath stack testDir before k
      (match r with
       | Gives _ => Returns None
       | Fails err => Throws err
       end,
       map Stat (ancestors k testDir) ++ [Mkdir fsPath])
| probe_throws err :
    statFailure fsPath (Nat.iter k (dirname sys) testDir)
      (fsStat sys (before ++ map Stat (ancestors k testDir))
         (Nat.iter k (dirname sys) testDir)) err ->
    ProbeEnd fsPath stack testDir before k
      (Throws err, map Stat (ancestors (S k) testDir))
| probe_unfinished t :
    Forall (fun c => exists p, c = Stat p) t ->
    ProbeEnd fsPath stack testDir before k (Unfinished, t).

(** The extensions [which] tries, and the directories it goes through. *)
Definition pathExtensions : list string :=
  match processEnv sys "PATHEXT" with
  | Some pathext =>
      if IS_WINDOWS sys && nonEmpty pathext then entries pathext else []
  | None => []
  end.

Definition pathDirectories : list string :=
  match processEnv sys "PATH" with
  | Some path => if nonEmpty path then entries path else []
  | None => []
  end.

(** [which] takes the tool for a name to look up on [PATH]: it is not
    rooted and holds no path separator. *)
Definition plainName (tool : string) : bool :=
  nonEmpty tool && negb (isRooted sys tool)
  && negb (includes "/" tool || (IS_WINDOWS sys && includes "\" tool)).

(** The error [which] makes of an error of the search. *)
Definition whichFailed (err : JsError) : JsError :=
  newError ("which failed with message " +:+ message err).

(** The error of [which] with [check] for a tool that is not found. *)
Definition unableToLocate (tool : string) : JsError :=
  newError
    ("Unable to locate executable file: " +:+ tool
       +:+ ". Please verify either the file path exists or the file can be found within a directory specified by the PATH environment variable. "
       +:+ (if IS_WINDOWS sys
            then "Also verify the file has a valid extension for an executable file."
            else "Also check the file mode to verify the file is executable.")).

(** The calls that take something away from the file system. *)
Definition deletes (c : Call) : bool :=
  match c with
  | Unlink _ | Rmdir _ | RemoveDirectory _ | Exec _ => true
  | _ => false
  end.

(** The calls that leave the file system as it is. *)
Definition onlyAsks (c : Call) : bool :=
  match c with
  | Stat _ | Readdir _ | IsDirectory _ | Exists _
  | TryGetExecutablePath _ _ => true
  | _ => false
  end.

(** Along the calls [t], made after the calls [before], every [unlink]
    comes right after a [copyFile] of the same file that succeeded. *)
Fixpoint unlinksFollowCopies (before t : list Call) : Prop :=
  match t with
  | [] => True
  | c :: rest =>
      match c with
      | Unlink p =>
          exists earlier dest excl,
            before = earlier ++ [CopyFile p dest excl]
            /\ fsCopyFile sys earlier p dest excl = Gives tt
      | _ => True
      end
      /\ unlinksFollowCopies (before ++ [c]) rest
  end.

(** The commands [rmRF] hands to the shell on Windows. *)
Definition rdCommand (inputPath : string) : string :=
  "rd /s /q " +:+ dquote +:+ inputPath +:+ dquote.
Definition delCommand (inputPath : string) : string :=
  "del /f /a " +:+ dquote +:+ inputPath +:+ dquote.

(** The probe [which] makes for a directory of [PATH]. *)
Definition probeIn (tool : string) (extensions : list string)
    (directory : string) : Call :=
  TryGetExecutablePath (directory +:+ sep +:+ tool) extensions.

End Helpers.

(** ** A machine to run the helpers on *)

(** The part of [p] before its last slash. *)
Fixpoint beforeLastSlash (p : string) : option string :=
  match p with
  | EmptyString => None
  | String c rest =>
      match beforeLastSlash rest with
      | Some d => Some (String c d)
      | None => if Ascii.eqb c "/" then Some EmptyString else None
      end
  end.

Definition posixDirname (p : string) : string :=
  match beforeLastSlash p with
  | Some EmptyString => "/"
  | Some d => d
  | None => "."
  end.

Definition enoent (syscall p : string) : JsError :=
  {| code := Some "ENOENT";
     message := "ENOENT: no such file or directory, " +:+ syscall
                  +:+ " '" +:+ p +:+ "'" |}.

(** A POSIX machine: [/], [/home] and [/usr/bin] are directories,
    [/home/notes] is a file, [/usr/bin/tar] is the one executable, and
    nothing else exists; every change to the file system succeeds. *)
Definition posix : System :=
  {| IS_WINDOWS := false;
     processEnv := fun name =>
       if String.eqb name "PATH" then Some "/usr/local/bin::/usr/bin:/bin"
       else None;
     atLeast := fun _ => None;
     dirname := posixDirname;
     basename := fun p => p;
     join := fun a b => a +:+ "/" +:+ b;
     resolve := fun a b => a +:+ "/" +:+ b;
     isRooted := fun p => match p with String "/" _ => true | _ => false end;
     fsStat := fun _ p =>
       if bool_decide (p ∈ ["/"; "/home"; "/usr/bin"]) then Gives true
       else if String.eqb p "/home/notes" then Gives false
       else Fails (enoent "stat" p);
     fsMkdir := fun _ _ => Gives tt;
     fsUnlink := fun _ _ => Gives tt;
     fsRmdir := fun _ _ => Gives tt;
     fsReaddir := fun _ _ => Gives [];
     fsCopyFile := fun _ _ _ _ => Gives tt;
     childExec := fun _ _ => Gives tt;
     ioIsDirectory := fun _ p =>
       if bool_decide (p ∈ ["/"; "/home"; "/usr/bin"]) then Gives true
       else if String.eqb p "/home/notes" then Gives false
       else Fails (enoent "stat" p);
     ioExists := fun _ p =>
       Gives (bool_decide (p ∈ ["/"; "/home"; "/usr/bin"; "/home/notes"]));
     ioRemoveDirectory := fun _ _ => Gives tt;
     ioTryGetExecutablePath := fun _ p _ =>
       if String.eqb p "/usr/bin/tar" then Gives p else Gives "" |}.

Definition conflictingFile : JsError :=
  newError "Unable to create directory '/home/notes/today'. Conflicting file exists: '/home/notes'".

Definition recursively : CopyOptions :=
  {| recursive := Some true; force := None |}.

(** The same machine with a directory [/home/project] that holds the
    file [a.txt] and the empty directory [lib]; a directory that was made
    is there afterwards. *)
Definition withProject : System :=
  {| IS_WINDOWS := IS_WINDOWS posix;
     processEnv := processEnv posix;
     atLeast := atLeast posix;
     dirname := dirname posix;
     basename := basename posix;
     join := join posix;
     resolve := resolve posix;
     isRooted := isRooted posix;
     fsStat := fun before p =>
       if existsb (fun c => match c with
                            | Mkdir made => String.eqb made p
                            | _ => false
                            end) before
       then Gives true
       else fsStat posix before p;
     fsMkdir := fsMkdir posix;
     fsUnlink := fsUnlink posix;
     fsRmdir := fsRmdir posix;
     fsReaddir := fun _ p =>
       if String.eqb p "/home/project" then Gives ["a.txt"; "lib"]
       else Gives [];
     fsCopyFile := fsCopyFile posix;
     childExec := childExec posix;
     ioIsDirectory := fun _ p =>
       if bool_decide (p ∈ ["/"; "/home"; "/home/project";
                            "/home/project/lib"])
       then Gives true
       else if String.eqb p "/home/project/a.txt" then Gives false
       else Fails (enoent "stat" p);
     ioExists := fun _ p =>
       Gives (bool_decide (p ∈ ["/"; "/home"; "/home/project";
                                "/home/project/lib"; "/home/project/a.txt"]));
     ioRemoveDirectory := ioRemoveDirectory posix;
     ioTryGetExecutablePath := ioTryGetExecutablePath posix |}.

(** A Windows machine on which nothing exists. *)
Definition emptyWindows : System :=
  {| IS_WINDOWS := true;
     processEnv := fun _ => None;
     atLeast := fun _ => None;
     dirname := fun p => p;
     basename := fun p => p;
     join := fun a b => a +:+ "\" +:+ b;
     resolve := fun a b => a +:+ "\" +:+ b;
     isRooted := fun _ => false;
     fsStat := fun _ p => Fails (enoent "stat" p);
     fsMkdir := fun _ _ => Gives tt;
     fsUnlink := fun _ p => Fails (enoent "unlink" p);
     fsRmdir := fun _ p => Fails (enoent "rmdir" p);
     fsReaddir := fun _ p => Fails (enoent "scandir" p);
     fsCopyFile := fun _ p _ _ => Fails (enoent "copyfile" p);
     childExec := fun _ _ => Gives tt;
     ioIsDirectory := fun _ p => Fails (enoent "stat" p);
     ioExists := fun _ _ => Gives false;
     ioRemoveDirectory := fun _ _ => Gives tt;
     ioTryGetExecutablePath := fun _ _ _ => Gives "" |}.

(** The same machine, on which [tar] is removed once three calls have
    been made. *)
Definition fickle : System :=
  {| IS_WINDOWS := IS_WINDOWS posix;
     processEnv := processEnv posix;
     atLeast := atLeast posix;
     dirname := dirname posix;
     basename := basename posix;
     join := join posix;
     resolve := resolve posix;
     isRooted := isRooted posix;
     fsStat := fsStat posix;
     fsMkdir := fsMkdir posix;
     fsUnlink := fsUnlink posix;
     fsRmdir := fsRmdir posix;
     fsReaddir := fsReaddir posix;
     fsCopyFile := fsCopyFile posix;
     childExec := childExec posix;
     ioIsDirectory := ioIsDirectory posix;
     ioExists := ioExists posix;
     ioRemoveDirectory := ioRemoveDirectory posix;
     ioTryGetExecutablePath := fun before p extensions =>
       match before with
       | [] | [_] | [_; _] => ioTryGetExecutablePath posix before p extensions
       | _ => Gives ""
       end |}.

End Io.

(** * Inputs, variables and the search path of an action

    Source: [packages/core/src/core.ts]. The functions read and write
    [process.env] and hand commands to the runner through [./command] and
    [./file-command]. *)

Module Core.

(** What the functions hand to the runner. *)
Inductive Output : Type :=
| IssueCommand (command : string) (properties : list (string * string))
               (message : string)               (* issueCommand of ./command *)
| IssueFileCommand (command : string) (message : string).
                                           (* issueCommand of ./file-command *)

(** A thrown value, by its class. *)
Inductive Thrown : Type :=
| Error (message : string)
| TypeError (message : string).

Inductive Outcome (A : Type) : Type :=
| Returned (a : A)
| Threw (error : Thrown).
Arguments Returned {A} a.
Arguments Threw {A} error.

(** The platform and the built-ins. [envKey] is the name under which
    [process.env] files a variable: names are told apart as they are
    written on POSIX, and without regard to case on Windows.
    [toCommandValue] is the one of [./utils], on the values of type
    [any]. *)
Record Host (Value : Type) : Type := {
  IS_WINDOWS : bool;
  envKey : string -> string;
  toUpperCase : string -> string;
  trim : string -> string;
  toCommandValue : Value -> string
}.
Arguments IS_WINDOWS {Value} _.
Arguments envKey {Value} _ _.
Arguments toUpperCase {Value} _ _.
Arguments trim {Value} _ _.
Arguments toCommandValue {Value} _ _.

(** [process.env], by the filed names. *)
Definition Env : Type := string -> option string.

(** Interface for getInput options *)
Record InputOptions : Type := {
  required : option bool;
  trimWhitespace : option bool
}.

(** [s.replace(/ /g, '_')]. *)
Fixpoint replaceSpaces (s : string) : string :=
  match s with
  | EmptyString => EmptyString
  | String c rest =>
      String (if Ascii.eqb c " " then "_"%char else c) (replaceSpaces rest)
  end.

Definition newline : ascii := "010"%char.
Definition carriageReturn : ascii := "013"%char.
Definition nul : ascii := "000"%char.

(** The names [process.env] takes an assignment for. The assignment goes
    to the [setenv] of the platform, which refuses the empty name and a
    name that holds [=]; Node drops such an assignment without an
    error. *)
Definition storable (name : string) : bool :=
  Io.nonEmpty name && negb (Io.includes "="%char name).

Section Functions.

Context {Value : Type} (host : Host Value).

(** [os.EOL] and [path.delimiter] follow the platform. *)
Definition EOL : string :=
  if IS_WINDOWS host then String carriageReturn (String newline EmptyString)
  else String newline EmptyString.
Definition delimiter : string := if IS_WINDOWS host then ";" else ":".

(** [process.env[name]] and [process.env[name] = value]. An assignment
    to a name that is not [storable] changes nothing. Names and values
    reach the platform as C strings: they are taken to hold no [nul]
    character, at which the platform would end them. *)
Definition getenv (env : Env) (name : string) : option string :=
  env (envKey host name).
Definition setenv (env : Env) (name value : string) : Env :=
  if storable name then
    fun key => if String.eqb key (envKey host name) then Some value else env key
  else env.

(** [`${process.env[name]}`]. *)
Definition interpolated (value : option string) : string :=
  match value with
  | Some s => s
  | None => "undefined"
  end.

(** Sets env variable for this action and future actions in the job *)
Definition exportVariable (env : Env) (name : string) (val : Value)
  : Env * list Output :=
  let convertedVal := toCommandValue host val in
  let env := setenv env name convertedVal in
  let filePath := default "" (getenv env "GITHUB_ENV") in
  if Io.nonEmpty filePath then
    let delimiter := "_GitHubActionsFileCommandDelimeter_" in
    let commandValue :=
      name +:+ "<<" +:+ delimiter +:+ EOL +:+ convertedVal +:+ EOL
        +:+ delimiter in
    (env, [IssueFileCommand "ENV" commandValue])
  else
    (env, [IssueCommand "set-env" [("name", name)] convertedVal]).

(** Prepends inputPath to the PATH (for this action and future actions) *)
Definition addPath (env : Env) (inputPath : string) : Env * list Output :=
  let filePath := default "" (getenv env "GITHUB_PATH") in
  let issued :=
    if Io.nonEmpty filePath then [IssueFileCommand "PATH" inputPath]
    else [IssueCommand "add-path" [] inputPath] in
  (setenv env "PATH"
     (inputPath +:+ delimiter +:+ interpolated (getenv env "PATH")),
   issued).

(** Gets the value of an input. *)
Definition getInput (env : Env) (name : string)
    (options : option InputOptions) : Outcome string :=
  let val :=
    default "" (getenv env ("INPUT_" +:+ toUpperCase host (replaceSpaces name))) in
  if match options with
     | Some o => default false (required o) && negb (Io.nonEmpty val)
     | None => false
     end
  then Threw (Error ("Input required and not supplied: " +:+ name))
  else
    if match options with
       | Some o => match trimWhitespace o with
                   | Some false => true
                   | _ => false
                   end
       | None => false
       end
    then Returned val
    else Returned (trim host val).

(** Gets the values of an multiline input. *)
Definition getMultilineInput (env : Env) (name : string)
    (options : option InputOptions) : Outcome (list string) :=
  match getInput env name options with
  | Returned val =>
      let inputs :=
        filter (fun x => x <> "") (Io.split newline val) in
      Returned inputs
  | Threw error => Threw error
  end.

(** Gets the input value of the boolean type in the YAML 1.2 "core schema"
    specification. *)
Definition getBooleanInput (env : Env) (name : string)
    (options : option InputOptions) : Outcome bool :=
  let trueValue := ["true"; "True"; "TRUE"] in
  let falseValue := ["false"; "False"; "FALSE"] in
  match getInput env name options with
  | Returned val =>
      if bool_decide (val ∈ trueValue) then Returned true
      else if bool_decide (val ∈ falseValue) then Returned false
      else
        Threw (TypeError
                 ("Input does not meet YAML 1.2 " +:+ Io.dquote
                    +:+ "Core Schema" +:+ Io.dquote +:+ " specification: "
                    +:+ name +:+ String newline EmptyString
                    +:+ "Support boolean input list: `true | True | TRUE | false | False | FALSE`"))
  | Threw error => Threw error
  end.

(** Gets whether Actions Step Debug is on or not *)
Definition isDebug (env : Env) : bool :=
  match getenv env "RUNNER_DEBUG" with
  | Some s => String.eqb s "1"
  | None => false
  end.

(** Gets the value of an state set by this action's main execution. *)
Definition getState (env : Env) (name : string) : string :=
  default "" (getenv env ("STATE_" +:+ name)).

(** ** Reading the commands *)

(** The text [exportVariable] writes to the environment file for a
    variable and its converted value. *)
Definition envFileCommand (name convertedVal : string) : string :=
  name +:+ "<<" +:+ "_GitHubActionsFileCommandDelimeter_" +:+ EOL
    +:+ convertedVal +:+ EOL +:+ "_GitHubActionsFileCommandDelimeter_".

(** The file system helpers on the environment [env]. *)
Definition withEnv (sys : Io.System) (env : Env) : Io.System :=
  {| Io.IS_WINDOWS := IS_WINDOWS host;
     Io.processEnv := getenv env;
     Io.atLeast := Io.atLeast sys;
     Io.dirname := Io.dirname sys;
     Io.basename := Io.basename sys;
     Io.join := Io.join sys;
     Io.resolve := Io.resolve sys;
     Io.isRooted := Io.isRooted sys;
     Io.fsStat := Io.fsStat sys;
     Io.fsMkdir := Io.fsMkdir sys;
     Io.fsUnlink := Io.fsUnlink sys;
     Io.fsRmdir := Io.fsRmdir sys;
     Io.fsReaddir := Io.fsReaddir sys;
     Io.fsCopyFile := Io.fsCopyFile sys;
     Io.childExec := Io.childExec sys;
     Io.ioIsDirectory := Io.ioIsDirectory sys;
     Io.ioExists := Io.ioExists sys;
     Io.ioRemoveDirectory := Io.ioRemoveDirectory sys;
     Io.ioTryGetExecutablePath := Io.ioTryGetExecutablePath sys |}.

End Functions.

(** ** A runner to try the functions on *)

(** Upper case and trimming for names and values in ASCII. *)
Definition asciiUpper (c : ascii) : ascii :=
  let n := N_of_ascii c in
  if ((97 <=? n) && (n <=? 122))%N then ascii_of_N (n - 32) else c.

Fixpoint asciiToUpperCase (s : string) : string :=
  match s with
  | EmptyString => EmptyString
  | String c rest => String (asciiUpper c) (asciiToUpperCase rest)
  end.

Definition isBlank (c : ascii) : bool :=
  let n := N_of_ascii c in
  ((n =? 32) || ((9 <=? n) && (n <=? 13)))%N.

Fixpoint trimStart (s : string) : string :=
  match s with
  | EmptyString => EmptyString
  | String c rest => if isBlank c then trimStart rest else s
  end.

Fixpoint trimEnd (s : string) : string :=
  match s with
  | EmptyString => EmptyString
  | String c rest =>
      match trimEnd rest with
      | EmptyString => if isBlank c then EmptyString else String c EmptyString
      | kept => String c kept
      end
  end.

Definition linux : Host string :=
  {| IS_WINDOWS := false;
     envKey := fun name => name;
     toUpperCase := asciiToUpperCase;
     trim := fun s => trimEnd (trimStart s);
     toCommandValue := fun s => s |}.

(** A job with one input that is blank, a boolean input, a list and the
    usual search path. *)
Definition job : Env := fun key =>
  if String.eqb key "INPUT_TOKEN" then Some "   "
  else if String.eqb key "INPUT_DRY_RUN" then Some " true "
  else if String.eqb key "INPUT_PATHS" then
    Some ("src" +:+ String newline
            (String newline (" docs " +:+ String newline
                               ("test" +:+ String newline ""))))
  else if String.eqb key "GITHUB_ENV" then Some "/runner/env"
  else if String.eqb key "PATH" then Some "/usr/local/bin::/usr/bin:/bin"
  else None.

Definition mustHave : option InputOptions :=
  Some {| required := Some true; trimWhitespace := None |}.

Definition asWritten : option InputOptions :=
  Some {| required := None; trimWhitespace := Some false |}.

(** A value that holds the delimiter of the environment file. *)
Definition closing : string :=
  "hello" +:+ EOL linux +:+ "_GitHubActionsFileCommandDelimeter_"
    +:+ EOL linux +:+ "LD_PRELOAD" +:+ "<<"
    +:+ "_GitHubActionsFileCommandDelimeter_" +:+ EOL linux
    +:+ "/tmp/x.so".

End Core.
(** * Properties *)

(** ** SHA-256: the standard test vectors, across the padding boundary *)

Example sha256_constants :
  length Sha256.primes = 64%nat
  /\ nth 0 Sha256.K 0 = 0x428a2f98 /\ nth 63 Sha256.K 0 = 0xc67178f2
  /\ Sha256.ra Sha256.H0 = 0x6a09e667 /\ Sha256.rh Sha256.H0 = 0x5be0cd19.
Proof. vm_compute. repeat split. Qed.

Example sha256_test_empty :
  Sha256.hex "" = "e3b0c44298fc1c149afbf4c8996fb92427ae41e4649b934ca495991b7852b855".
Proof. vm_compute. reflexivity. Qed.

Example sha256_test_abc :
  Sha256.hex "abc" = "ba7816bf8f01cfea414140de5dae2223b00361a396177a9cb410ff61f20015ad".
Proof. vm_compute. reflexivity. Qed.

Example sha256_test_55 :
  Sha256.hex "aaaaaaaaaaaaaaaaaaaaaaaaaaaaaaaaaaaaaaaaaaaaaaaaaaaaaaa" =
  "9f4390f8d30c2dd92ec9f095b65e2b9ae9b0a925a5258e241c9f1e910f734318".
Proof. vm_compute. reflexivity. Qed.

Example sha256_test_56 :
  Sha256.hex "aaaaaaaaaaaaaaaaaaaaaaaaaaaaaaaaaaaaaaaaaaaaaaaaaaaaaaaa" =
  "b35439a4ac6f0948b6d6f9e3c6af0f5f590ce20f1bde7090ef7970686ec6738a".
Proof. vm_compute. reflexivity. Qed.

Example sha256_test_64 :
  Sha256.hex "aaaaaaaaaaaaaaaaaaaaaaaaaaaaaaaaaaaaaaaaaaaaaaaaaaaaaaaaaaaaaaaa" =
  "ffe054fe7ae0cb6dc65c3af9b61d5209f439851db43d0ba5997337df154668eb".
Proof. vm_compute. reflexivity. Qed.

Ltac split5 := split; [|split; [|split; [|split]]].

(** ** The monad *)

Lemma trace_bind {A B} (m : M A) (k : A -> M B) a :
  outcome m = Ok a -> trace (m ≫= k) = trace m ++ trace (k a).
Proof.
  destruct m as [r t]; simpl; intros ->.
  unfold mbind, M_bind, bind. destruct (k a); reflexivity.
Qed.

Lemma outcome_bind {A B} (m : M A) (k : A -> M B) a :
  outcome m = Ok a -> outcome (m ≫= k) = outcome (k a).
Proof.
  destruct m as [r t]; simpl; intros ->.
  unfold mbind, M_bind, bind. destruct (k a); reflexivity.
Qed.

Lemma bind_not_ok {A B} (m : M A) (k : A -> M B) :
  (forall a, outcome m <> Ok a) ->
  trace (m ≫= k) = trace m /\ forall b, outcome (m ≫= k) <> Ok b.
Proof.
  destruct m as [[a|msg|] t]; simpl; intros H.
  - destruct (H a eq_refl).
  - split; [reflexivity | intros b; discriminate].
  - split; [reflexivity | intros b; discriminate].
Qed.

Lemma bind_ok {A B} (a : A) (t : list Event) (k : A -> M B) :
  (Ok a, t) ≫= k = (outcome (k a), t ++ trace (k a)).
Proof. unfold mbind, M_bind, bind. destruct (k a); reflexivity. Qed.

Lemma bind_ret {A B} (a : A) (k : A -> M B) : (Ok a, []) ≫= k = k a.
Proof. unfold mbind, M_bind, bind. destruct (k a); reflexivity. Qed.

Lemma bind_emit {B} (e : Event) (k : unit -> M B) :
  emit e ≫= k = (outcome (k tt), e :: trace (k tt)).
Proof. unfold emit. rewrite bind_ok. reflexivity. Qed.

Lemma bind_throw {A B} msg (t : list Event) (k : A -> M B) :
  (Throw msg, t) ≫= k = (Throw msg, t).
Proof. reflexivity. Qed.

Lemma bind_pending {A B} (t : list Event) (k : A -> M B) :
  (Pending, t) ≫= k = (Pending, t).
Proof. reflexivity. Qed.

Lemma try_finally_emit {A} (m : M A) (e : Event) :
  try_finally m (emit e)
  = (outcome m,
     trace m ++ match outcome m with Pending => [] | _ => [e] end).
Proof. destruct m as [[a|msg|] t]; cbn; rewrite ?app_nil_r; reflexivity. Qed.

(** ** C5: the version fingerprint *)

Lemma getCacheVersion_unfold paths m :
  getCacheVersion paths m = Sha256.hex (versionInput paths m).
Proof.
  unfold getCacheVersion, versionInput, specComponents, versionSalt.
  destruct m as [[]|]; simpl; rewrite <- ?app_assoc; reflexivity.
Qed.

(** C5. [getCacheVersion paths m] is the lowercase-hex SHA-256 digest of
    the '|'-joined list made of the paths, then the compression token iff a
    method is given and is not gzip, then the salt "1.0"; gzip and no
    method give the same version, which carries no token. *)
Theorem C5_getCacheVersion_is_spec_digest (paths : list string)
    (m : option CompressionMethod) :
  getCacheVersion paths m = Sha256.hex (join "|" (specComponents paths m))
  /\ getCacheVersion paths (Some Gzip) = getCacheVersion paths None
  /\ specComponents paths (Some Gzip) = paths ++ ["1.0"]
  /\ (forall c, c <> Gzip ->
        specComponents paths (Some c) = paths ++ [token c; "1.0"]).
Proof.
  split; [apply getCacheVersion_unfold|].
  split; [rewrite !getCacheVersion_unfold; reflexivity|].
  split; [reflexivity|].
  intros c Hc. unfold specComponents.
  rewrite bool_decide_eq_true_2 by exact Hc. reflexivity.
Qed.

Example getCacheVersion_zstd_differs_from_gzip :
  getCacheVersion ["/a"; "/b"] (Some Zstd)
  = "b2a8996727b35069431c9c0b9097aefca21825f5b20e1da4ba1dd559c0b3f736"
  /\ getCacheVersion ["/a"; "/b"] (Some Zstd)
     <> getCacheVersion ["/a"; "/b"] (Some Gzip).
Proof. split; [vm_compute; reflexivity | vm_compute; discriminate]. Qed.

(** ** C4: when two path lists get different versions *)

Lemma splitBar_barFree x : barFree x = true -> splitBar x = [x].
Proof.
  induction x as [|c x IH]; simpl; [reflexivity|].
  unfold barFree; simpl. destruct (Ascii.eqb c "|"); simpl; [discriminate|].
  intros H. rewrite (IH H). reflexivity.
Qed.

Lemma splitBar_append x r :
  barFree x = true -> splitBar (x +:+ "|" +:+ r) = x :: splitBar r.
Proof.
  induction x as [|c x IH]; simpl; [reflexivity|].
  unfold barFree; simpl. destruct (Ascii.eqb c "|"); simpl; [discriminate|].
  intros H. rewrite (IH H). reflexivity.
Qed.

Lemma splitBar_join l :
  l <> [] -> Forall (fun x => barFree x = true) l -> splitBar (join "|" l) = l.
Proof.
  induction l as [|x rest IH]; [congruence|].
  intros _ Hall. inversion Hall as [|? ? Hx Hrest]; subst.
  destruct rest as [|y rest'].
  - simpl. apply splitBar_barFree, Hx.
  - change (join "|" (x :: y :: rest'))
      with (x +:+ "|" +:+ join "|" (y :: rest')).
    rewrite splitBar_append by exact Hx.
    rewrite IH; [reflexivity | discriminate | exact Hrest].
Qed.

Lemma specComponents_barFree paths m :
  Forall (fun x => barFree x = true) paths ->
  Forall (fun x => barFree x = true) (specComponents paths m).
Proof.
  intros H. unfold specComponents. apply Forall_app; split; [exact H|].
  apply Forall_app; split.
  - destruct m as [[]|]; simpl; repeat constructor.
  - repeat constructor.
Qed.

Lemma specComponents_nonempty paths m : specComponents paths m <> [].
Proof.
  unfold specComponents. intros H.
  apply app_eq_nil in H as [_ H]. apply app_eq_nil in H as [_ H]. discriminate.
Qed.

(** C4, as amended. For path lists none of whose paths contains the
    separator '|', and one compression method, two lists that differ (in
    order or in content) give different strings to hash: their versions are
    the SHA-256 digests of two different strings. *)
Theorem C4_distinct_paths_distinct_hash_input (P1 P2 : list string)
    (m : option CompressionMethod) :
  Forall (fun x => barFree x = true) P1 ->
  Forall (fun x => barFree x = true) P2 ->
  P1 <> P2 ->
  versionInput P1 m <> versionInput P2 m
  /\ getCacheVersion P1 m = Sha256.hex (versionInput P1 m)
  /\ getCacheVersion P2 m = Sha256.hex (versionInput P2 m).
Proof.
  intros H1 H2 Hne. split; [|split; apply getCacheVersion_unfold].
  intros Heq. apply Hne.
  assert (Hc : specComponents P1 m = specComponents P2 m).
  { rewrite <- (splitBar_join (specComponents P1 m)),
            <- (splitBar_join (specComponents P2 m));
      auto using specComponents_nonempty, specComponents_barFree.
    unfold versionInput in Heq. rewrite Heq. reflexivity. }
  unfold specComponents in Hc. apply app_inv_tail in Hc. exact Hc.
Qed.

Lemma C4_distinct_paths_witness :
  versionInput ["/a"; "/b"] (Some Zstd) <> versionInput ["/b"; "/a"] (Some Zstd)
  /\ getCacheVersion ["/a"; "/b"] (Some Zstd)
     = Sha256.hex (versionInput ["/a"; "/b"] (Some Zstd))
  /\ getCacheVersion ["/b"; "/a"] (Some Zstd)
     = Sha256.hex (versionInput ["/b"; "/a"] (Some Zstd)).
Proof.
  apply (C4_distinct_paths_distinct_hash_input ["/a"; "/b"] ["/b"; "/a"]).
  - repeat constructor.
  - repeat constructor.
  - discriminate.
Defined.

(** C4 as stated fails: the two lists below are reorderings of each other,
    yet both join to "a|a|a|1.0" and get the same version. *)
Lemma C4_reordered_paths_same_version :
  ["a"; "a|a"] <> ["a|a"; "a"]
  /\ ["a"; "a|a"] ≡ₚ ["a|a"; "a"]
  /\ getCacheVersion ["a"; "a|a"] None = getCacheVersion ["a|a"; "a"] None.
Proof.
  split; [discriminate|]. split; [apply Permutation_swap|].
  rewrite !getCacheVersion_unfold. reflexivity.
Qed.

(** ** C2: the direct-storage lookup *)

Lemma scanKeys_spec blob keys :
  scanKeys blob keys
  = if bool_decide (name blob ∈ keys) then Some (entryOf blob) else None.
Proof.
  induction keys as [|k ks IH]; cbn [scanKeys].
  - rewrite bool_decide_eq_false_2; [reflexivity | apply not_elem_of_nil].
  - destruct (String.eqb_spec (name blob) k) as [Heq|Hne].
    + subst k. rewrite bool_decide_eq_true_2; [reflexivity | apply list_elem_of_here].
    + rewrite IH. destruct (bool_decide_reflect (name blob ∈ ks)) as [Hin|Hout].
      * rewrite bool_decide_eq_true_2; [reflexivity | apply list_elem_of_further, Hin].
      * rewrite bool_decide_eq_false_2; [reflexivity|].
        intros Hin. apply elem_of_cons in Hin as [?|?]; contradiction.
Qed.

(** What the lookup computes: the first blob of the listing, in listing
    order, whose name is any of the keys. *)
Lemma scanBlobs_firstMatch keys blobList :
  scanBlobs (head keys) (tail keys) blobList = firstMatch keys blobList.
Proof.
  induction blobList as [|b rest IH|msg]; cbn [scanBlobs firstMatch];
    [reflexivity| |reflexivity].
  destruct keys as [|k ks]; cbn [head tail scanKeys] in *.
  - rewrite bool_decide_eq_false_2 by apply not_elem_of_nil. apply IH.
  - destruct (String.eqb_spec (name b) k) as [Heq|Hne].
    + subst k. rewrite bool_decide_eq_true_2 by apply list_elem_of_here. reflexivity.
    + rewrite scanKeys_spec.
      destruct (bool_decide_reflect (name b ∈ ks)) as [Hin|Hout].
      * rewrite bool_decide_eq_true_2 by (apply list_elem_of_further, Hin).
        reflexivity.
      * rewrite bool_decide_eq_false_2; [apply IH|].
        intros Hin. apply elem_of_cons in Hin as [?|?]; contradiction.
Qed.

(** The lookup answers null when the listing ends without a blob named
    after a key. *)
Lemma firstMatch_none keys blobList :
  firstMatch keys blobList = Ok None ->
  forall b, b ∈ yielded blobList -> name b ∉ keys.
Proof.
  induction blobList as [|b rest IH|msg]; cbn [firstMatch yielded];
    intros H b' Hin.
  - apply elem_of_nil in Hin as [].
  - destruct (bool_decide_reflect (name b ∈ keys)) as [|Hout]; [discriminate|].
    apply elem_of_cons in Hin as [->|Hin]; [exact Hout | exact (IH H b' Hin)].
  - apply elem_of_nil in Hin as [].
Qed.

(** C2 fails on the code. The container lists its blobs by name, so the
    blob of the fallback key "linux-build-" comes before the blob of the
    primary key "linux-build-8f3a"; the lookup returns the fallback entry.
    With two fallback keys it returns the one listed first, not the one
    the caller ranked first. *)
Theorem C2_listing_order_decides_not_key_priority :
  outcome (getCacheEntryBlob (blobWorld (LItem blobA (LItem blobB LDone)))
             "conn" "container" ["linux-build-8f3a"; "linux-build-"] ["/p"])
  = Ok (Some (entryOf blobA))
  /\ outcome (getCacheEntryBlob (blobWorld (LItem blobC (LItem blobA LDone)))
                "conn" "container"
                ["linux-build-8f3a"; "linux-build-"; "linux-"] ["/p"])
     = Ok (Some (entryOf blobC)).
Proof. split; reflexivity. Qed.

(** ** C6: the HTTP lookup *)

Lemma getCacheEntry_http w keys paths options bc cs :
  truthy bc && truthy cs = false ->
  getCacheEntry w keys paths options bc cs =
  (response ← retryTypedResponse (lookupResponse w) "getCacheEntry"
                 (lookupRequest w keys paths options);
    if statusCode response =? 204 then mret None
    else if negb (isSuccessStatusCode w (Some (statusCode response))) then
      throw ("Cache service responded with " +:+ toString (statusCode response))
    else
      let cacheResult := result response in
      let cacheDownloadUrl := cacheResult ≫= archiveLocation in
      if negb (truthy cacheDownloadUrl) then throw "Cache not found."
      else
        setSecret (default "" cacheDownloadUrl);;
        debug "Cache Result:";;
        debug (JSON_stringify w cacheResult);;
        mret cacheResult).
Proof. intros H. unfold getCacheEntry. rewrite H. reflexivity. Qed.

Lemma retryTypedResponse_outcome {T}
    (respond : string -> Res HttpRequest -> Res (TypedResponse T)) name method :
  outcome (retryTypedResponse respond name method)
  = respond name (outcome method).
Proof. destruct method; reflexivity. Qed.

Lemma retryTypedResponse_trace {T}
    (respond : string -> Res HttpRequest -> Res (TypedResponse T)) name method :
  trace (retryTypedResponse respond name method)
  = trace method ++ [Attempted name (outcome method)].
Proof. destruct method; reflexivity. Qed.

Lemma getCacheApiUrl_trace w resource ev :
  ev ∈ trace (getCacheApiUrl w resource) -> exists msg, ev = Debug msg.
Proof.
  unfold getCacheApiUrl. destruct (negb _); simpl; intros H.
  - apply elem_of_nil in H as [].
  - apply list_elem_of_singleton in H. eauto.
Qed.

Lemma lookupRequest_trace w keys paths options ev :
  ev ∈ trace (lookupRequest w keys paths options) -> exists msg, ev = Debug msg.
Proof.
  unfold lookupRequest. generalize ("cache?keys=" +:+ encodeURIComponent w (join "," keys)
             +:+ "&version="
             +:+ getCacheVersion paths (options ≫= compressionMethod)).
  intros res H.
  destruct (getCacheApiUrl w res) as [[url|msg|] t] eqn:E; simpl in H;
    try rewrite app_nil_r in H;
    apply (getCacheApiUrl_trace w res ev); rewrite E; exact H.
Qed.

(** C6. On the HTTP path, [getCacheEntry] returns null exactly when the
    cache service answers 204, and then registers no secret; it throws on
    any other non-success status, throws when a success answer has no
    archive location, and otherwise registers the location as a secret in
    the course of the call and returns the entry. *)
Theorem C6_getCacheEntry_http_outcomes (w : World) (keys paths : list string)
    (options : option InternalCacheOptions)
    (blobContainerName connectionString : option string) :
  truthy blobContainerName && truthy connectionString = false ->
  let run := getCacheEntry w keys paths options blobContainerName connectionString in
  let answer := lookupAnswer w keys paths options in
  (outcome run = Ok None <-> exists resp, answer = Ok resp /\ statusCode resp = 204)
  /\ (outcome run = Ok None -> forall s, SetSecret s ∉ trace run)
  /\ (forall resp, answer = Ok resp -> statusCode resp <> 204 ->
        isSuccessStatusCode w (Some (statusCode resp)) = false ->
        outcome run
        = Throw ("Cache service responded with " +:+ toString (statusCode resp)))
  /\ (forall resp, answer = Ok resp -> statusCode resp <> 204 ->
        isSuccessStatusCode w (Some (statusCode resp)) = true ->
        truthy (result resp ≫= archiveLocation) = false ->
        outcome run = Throw "Cache not found.")
  /\ (forall resp url, answer = Ok resp -> statusCode resp <> 204 ->
        isSuccessStatusCode w (Some (statusCode resp)) = true ->
        result resp ≫= archiveLocation = Some url -> url <> "" ->
        outcome run = Ok (result resp)
        /\ exists pre post, trace run = pre ++ SetSecret url :: post).
Proof.
  intros Hhttp run answer. subst run.
  rewrite (getCacheEntry_http _ _ _ _ _ _ Hhttp).
  set (m := retryTypedResponse (lookupResponse w) "getCacheEntry"
              (lookupRequest w keys paths options)).
  assert (Hout : outcome m = answer) by apply retryTypedResponse_outcome.
  assert (Htr : trace m = trace (lookupRequest w keys paths options)
                          ++ [Attempted "getCacheEntry"
                                (outcome (lookupRequest w keys paths options))])
    by apply retryTypedResponse_trace.
  clearbody m answer.
  destruct m as [r t]; simpl in Hout, Htr; subst r.
  assert (Hnosecret : forall s, SetSecret s ∉ t).
  { intros s Hin. rewrite Htr in Hin. apply elem_of_app in Hin as [Hin|Hin].
    - apply lookupRequest_trace in Hin as [msg Hmsg]. discriminate.
    - apply list_elem_of_singleton in Hin. discriminate. }
  clear Htr.
  destruct answer as [resp|msg|]; cbn [mbind M_bind bind].
  - destruct (Z.eqb_spec (statusCode resp) 204) as [H204|H204].
    + cbn. rewrite app_nil_r. split5.
      * split; eauto.
      * intros _. exact Hnosecret.
      * intros resp' [= <-] Hne. contradiction.
      * intros resp' [= <-] Hne. contradiction.
      * intros resp' url [= <-] Hne. contradiction.
    + destruct (isSuccessStatusCode w (Some (statusCode resp))) eqn:Hs; cbn [negb].
      * destruct (truthy (result resp ≫= archiveLocation)) eqn:Hloc; cbn.
        -- split5.
           ++ split.
              ** intros [= Hnone]. rewrite Hnone in Hloc. discriminate.
              ** intros (resp' & [= <-] & H'). contradiction.
           ++ intros [= Hnone]. rewrite Hnone in Hloc. discriminate.
           ++ intros resp' [= <-] _ ?. congruence.
           ++ intros resp' [= <-] _ _ ?. congruence.
           ++ intros resp' url [= <-] _ _ Hurl _. rewrite Hurl.
              split; [reflexivity|]. cbn. eauto.
        -- rewrite app_nil_r. split5.
           ++ split; [discriminate|].
              intros (resp' & [= <-] & H'). contradiction.
           ++ discriminate.
           ++ intros resp' [= <-] _ ?. congruence.
           ++ intros resp' [= <-] _ _ _. reflexivity.
           ++ intros resp' url [= <-] _ _ Hurl Hne.
              rewrite Hurl in Hloc. simpl in Hloc.
              destruct (String.eqb_spec url ""); [contradiction | discriminate].
      * cbn. rewrite app_nil_r. split5.
        -- split; [discriminate|].
           intros (resp' & [= <-] & H'). contradiction.
        -- discriminate.
        -- intros resp' [= <-] _ _. reflexivity.
        -- intros resp' [= <-] _ ?. congruence.
        -- intros resp' url [= <-] _ ?. congruence.
  - cbn. split5; try discriminate.
    split; [discriminate | intros (resp' & [=] & _)].
  - cbn. split5; try discriminate.
    split; [discriminate | intros (resp' & [=] & _)].
Qed.

Lemma C6_getCacheEntry_http_witness :
  truthy None && truthy None = false
  /\ (outcome (getCacheEntry quietWorld ["linux-build-8f3a"] ["/a"] None None None)
      = Ok None
      <-> exists resp,
            lookupAnswer quietWorld ["linux-build-8f3a"] ["/a"] None = Ok resp
            /\ statusCode resp = 204).
Proof.
  split; [reflexivity|].
  exact (proj1 (C6_getCacheEntry_http_outcomes quietWorld
                  ["linux-build-8f3a"] ["/a"] None None None eq_refl)).
Defined.

Example getCacheEntry_hit :
  outcome (getCacheEntry hitWorld ["linux-build-8f3a"] ["/a"] None None None)
  = Ok (Some sampleEntry)
  /\ SetSecret "https://artifactcache.example/download/1"
     ∈ trace (getCacheEntry hitWorld ["linux-build-8f3a"] ["/a"] None None None).
Proof.
  split; [vm_compute; reflexivity|].
  vm_compute. apply list_elem_of_further, list_elem_of_further, list_elem_of_here.
Qed.

(** ** C8: the reservation *)






Example reserveCache_retries_a_503 :
  outcome (reserveCache
             (reservingThrough twoAttempts
                (fun _ attempt =>
                   if (attempt =? 1)%nat then
                     Responded {| statusCode := 503; result := None; headers := [] |}
                   else
                     Responded {| statusCode := 201;
                                  result := Some {| cacheId := 7 |};
                                  headers := [] |})
                quietWorld)
             "linux-build-8f3a" ["/a"] None None None)
  = Ok {| statusCode := 201; result := Some {| cacheId := 7 |}; headers := [] |}.
Proof. vm_compute. reflexivity. Qed.

(** ** C9: the direct-storage lookup ignores paths and versions *)

(** C9. With a container name and a connection string, [getCacheEntry]
    is the same computation for any two path lists and options: it lists
    the container and nothing else (no request to the cache service, no
    secret), and returns the first listed blob named after one of the
    keys. *)
Theorem C9_blob_lookup_independent_of_paths (w : World)
    (keys P1 P2 : list string) (o1 o2 : option InternalCacheOptions)
    (blobContainerName connectionString : option string) :
  truthy blobContainerName = true ->
  truthy connectionString = true ->
  getCacheEntry w keys P1 o1 blobContainerName connectionString
  = getCacheEntry w keys P2 o2 blobContainerName connectionString
  /\ outcome (getCacheEntry w keys P1 o1 blobContainerName connectionString)
     = firstMatch keys (listBlobsFlat w (default "" connectionString)
                                        (default "" blobContainerName))
  /\ trace (getCacheEntry w keys P1 o1 blobContainerName connectionString)
     = [ListedBlobs (default "" connectionString) (default "" blobContainerName)].
Proof.
  intros Hb Hc. unfold getCacheEntry, getCacheEntryBlob. rewrite Hb, Hc.
  cbn [andb]. rewrite scanBlobs_firstMatch.
  split; [reflexivity|]. split; reflexivity.
Qed.

Lemma C9_blob_lookup_witness :
  getCacheEntry (blobWorld (LItem blobB LDone)) ["linux-build-8f3a"] ["/a"]
    None (Some "container") (Some "conn")
  = getCacheEntry (blobWorld (LItem blobB LDone)) ["linux-build-8f3a"]
      ["/b"; "/c"] (Some {| compressionMethod := Some Zstd; cacheSize := None |})
      (Some "container") (Some "conn").
Proof.
  apply (C9_blob_lookup_independent_of_paths
           (blobWorld (LItem blobB LDone)) ["linux-build-8f3a"] ["/a"]
           ["/b"; "/c"] None
           (Some {| compressionMethod := Some Zstd; cacheSize := None |})
           (Some "container") (Some "conn")); reflexivity.
Defined.

(** ** C1 and C10: the download strategies *)

(** Without the SDK branch, exactly one strategy runs: the blob download
    when a container, a connection string and a cache key are there, the
    HTTP download otherwise. *)
Lemma downloadCache_without_sdk (w : World) (entry : ArtifactCacheEntry)
    (archivePath : string) (options : option DownloadOptions)
    (blobContainerName connectionString : option string) (host : string) :
  let location := default placeholderLocation (archiveLocation entry) in
  let dopts := getDownloadOptions w options in
  URL_hostname w location = Ok host ->
  default false (useAzureSdk dopts) && endsWith host ".blob.core.windows.net"
  = false ->
  trace (downloadCache w entry archivePath options blobContainerName
           connectionString)
  = [if truthy blobContainerName && truthy connectionString
        && truthy (cacheKey entry)
     then DownloadCacheBlobStorage (default "" (cacheKey entry)) archivePath
            dopts (default "" blobContainerName) (default "" connectionString)
     else DownloadCacheHttpClient location archivePath].
Proof.
  intros location dopts Hhost Hsdk. unfold downloadCache.
  fold placeholderLocation. fold location. rewrite Hhost.
  cbn [lift mbind M_bind bind]. fold dopts.
  rewrite Hsdk. cbn [lift mbind M_bind bind mret M_ret ret].
  destruct (truthy blobContainerName && truthy connectionString
            && truthy (cacheKey entry)); reflexivity.
Qed.

(** C1 fails on the code. When the SDK branch is taken and its download
    succeeds, the second [if] is not an [else if]: a second strategy runs
    right after it on the same call, the blob download when it is
    configured and the HTTP download otherwise. *)
Theorem C1_sdk_download_is_followed_by_a_second_strategy (w : World)
    (entry : ArtifactCacheEntry) (archivePath : string)
    (options : option DownloadOptions)
    (blobContainerName connectionString : option string)
    (location host : string) :
  let dopts := getDownloadOptions w options in
  archiveLocation entry = Some location ->
  URL_hostname w location = Ok host ->
  endsWith host ".blob.core.windows.net" = true ->
  useAzureSdk dopts = Some true ->
  storageSDKDownload w location archivePath dopts = Ok tt ->
  trace (downloadCache w entry archivePath options blobContainerName
           connectionString)
  = [DownloadCacheStorageSDK location archivePath dopts;
     if truthy blobContainerName && truthy connectionString
        && truthy (cacheKey entry)
     then DownloadCacheBlobStorage (default "" (cacheKey entry)) archivePath
            dopts (default "" blobContainerName) (default "" connectionString)
     else DownloadCacheHttpClient location archivePath].
Proof.
  intros dopts Hloc Hhost Hends Hsdk Hok. unfold downloadCache.
  rewrite Hloc. cbn [from_option id]. rewrite Hhost.
  cbn [lift mbind M_bind bind]. fold dopts.
  rewrite Hsdk, Hends. cbn [from_option id andb lift mbind M_bind bind].
  unfold downloadCacheStorageSDK. rewrite Hok.
  cbn [emit lift mbind M_bind bind mret M_ret ret].
  destruct (truthy blobContainerName && truthy connectionString
            && truthy (cacheKey entry)); reflexivity.
Qed.

Lemma C1_sdk_then_http_witness :
  trace (downloadCache quietWorld azureEntry "/tmp/archive.tzst" withSdk None None)
  = [DownloadCacheStorageSDK
       "https://acct.blob.core.windows.net/cache/archive.tzst"
       "/tmp/archive.tzst" (getDownloadOptions quietWorld withSdk);
     DownloadCacheHttpClient
       "https://acct.blob.core.windows.net/cache/archive.tzst"
       "/tmp/archive.tzst"].
Proof.
  apply (C1_sdk_download_is_followed_by_a_second_strategy quietWorld azureEntry
           "/tmp/archive.tzst" withSdk None None
           "https://acct.blob.core.windows.net/cache/archive.tzst"
           "acct.blob.core.windows.net"); reflexivity.
Defined.

Example downloadCache_sdk_then_blob :
  trace (downloadCache quietWorld azureEntry "/tmp/archive.tzst" withSdk
           (Some "container") (Some "conn"))
  = [DownloadCacheStorageSDK
       "https://acct.blob.core.windows.net/cache/archive.tzst"
       "/tmp/archive.tzst" (getDownloadOptions quietWorld withSdk);
     DownloadCacheBlobStorage "linux-build-8f3a" "/tmp/archive.tzst"
       (getDownloadOptions quietWorld withSdk) "container" "conn"].
Proof. reflexivity. Qed.

(** C10. An entry without an archive location does not make
    [downloadCache] fail at once: the placeholder URL stands for the
    location, the strategies are selected as usual, and without a blob
    configuration the HTTP download is attempted against the placeholder
    (its outcome is the outcome of the call). The placeholder's host is not
    a managed-blob-storage host, so the SDK branch is not taken. *)
Theorem C10_missing_location_uses_placeholder (w : World)
    (entry : ArtifactCacheEntry) (archivePath : string)
    (options : option DownloadOptions)
    (blobContainerName connectionString : option string) (host : string) :
  archiveLocation entry = None ->
  URL_hostname w "https://NoArchiveLocationFound.com" = Ok host ->
  endsWith host ".blob.core.windows.net" = false ->
  trace (downloadCache w entry archivePath options blobContainerName
           connectionString)
  = [if truthy blobContainerName && truthy connectionString
        && truthy (cacheKey entry)
     then DownloadCacheBlobStorage (default "" (cacheKey entry)) archivePath
            (getDownloadOptions w options)
            (default "" blobContainerName) (default "" connectionString)
     else DownloadCacheHttpClient "https://NoArchiveLocationFound.com"
            archivePath]
  /\ (truthy blobContainerName && truthy connectionString
      && truthy (cacheKey entry) = false ->
      outcome (downloadCache w entry archivePath options blobContainerName
                 connectionString)
      = httpClientDownload w "https://NoArchiveLocationFound.com" archivePath).
Proof.
  intros Hnone Hhost Hends. split.
  - rewrite (downloadCache_without_sdk w entry archivePath options
               blobContainerName connectionString host).
    + rewrite Hnone. reflexivity.
    + rewrite Hnone. exact Hhost.
    + rewrite Hends. apply andb_false_r.
  - intros Hblob. unfold downloadCache. rewrite Hnone. cbn [from_option id].
    rewrite Hhost. cbn [lift mbind M_bind bind].
    rewrite Hends, andb_false_r, Hblob.
    cbn [lift mbind M_bind bind mret M_ret ret].
    unfold downloadCacheHttpClient. cbn.
    reflexivity.
Qed.

Lemma C10_missing_location_witness :
  trace (downloadCache quietWorld entryWithoutLocation "/tmp/archive.tzst"
           withSdk None None)
  = [DownloadCacheHttpClient "https://NoArchiveLocationFound.com"
       "/tmp/archive.tzst"].
Proof.
  apply (proj1 (C10_missing_location_uses_placeholder quietWorld
                  entryWithoutLocation "/tmp/archive.tzst" withSdk None None
                  "noarchivelocationfound.com" eq_refl eq_refl eq_refl)).
Defined.

(** ** The upload workers *)

Section Pool.

Context (w : World) (httpClient : HttpClient)
        (resourceUrl archivePath : string) (fd fileSize maxChunkSize : Z).

Local Abbreviation worker :=
  (uploadWorker w httpClient resourceUrl archivePath fd fileSize maxChunkSize).
Local Abbreviation spawnAll :=
  (spawn w httpClient resourceUrl archivePath fd fileSize maxChunkSize).
Local Abbreviation awaitAll :=
  (promiseAll w httpClient resourceUrl archivePath fd fileSize maxChunkSize).
Local Abbreviation issue := (chunkIssue httpClient resourceUrl archivePath fd).
Local Abbreviation chunkEnd' := (chunkEnd fileSize maxChunkSize).

Lemma uploadChunk_trace start end_ :
  exists msg,
    trace (uploadChunk w httpClient resourceUrl
             {| rs_path := archivePath; rs_fd := fd;
                rs_start := start; rs_end := end_ |} start end_)
    = [Debug msg; issue start end_].
Proof.
  eexists.
  unfold uploadChunk, retryHttpClientResponse, retry, chunkIssue, chunkName.
  cbn [debug emit mret M_ret ret mbind M_bind bind app].
  destruct (chunkResponse w _ _) as [st| |]; [|reflexivity..].
  destruct (isSuccessStatusCode w st); reflexivity.
Qed.

Lemma uploadChunk_outcome start end_ :
  outcome (uploadChunk w httpClient resourceUrl
             {| rs_path := archivePath; rs_fd := fd;
                rs_start := start; rs_end := end_ |} start end_) = Ok tt
  <-> chunkAccepted w (issue start end_) = true.
Proof.
  unfold uploadChunk, retryHttpClientResponse, retry, chunkIssue, chunkName,
    chunkAccepted.
  cbn [debug emit mret M_ret ret mbind M_bind bind app].
  destruct (chunkResponse w _ _) as [st| |]; cbn; [|split; discriminate..].
  destruct (isSuccessStatusCode w st); cbn; split; congruence.
Qed.

Lemma worker_claims offset :
  offset < fileSize ->
  exists msg settles,
    worker offset
    = (Ok (Awaiting offset (chunkEnd' offset) settles, offset + maxChunkSize),
       [Debug msg; issue offset (chunkEnd' offset)])
    /\ (settles = Ok tt <-> chunkAccepted w (issue offset (chunkEnd' offset)) = true).
Proof.
  intros Hlt. unfold uploadWorker.
  destruct (Z.ltb_spec offset fileSize) as [_|]; [|lia].
  fold (chunkEnd' offset).
  destruct (uploadChunk_trace offset (chunkEnd' offset)) as [msg Ht].
  pose proof (uploadChunk_outcome offset (chunkEnd' offset)) as Ho.
  destruct (uploadChunk _ _ _ _ _ _) as [r t]. cbn in Ht, Ho. subst t.
  exists msg, r. split; [reflexivity | exact Ho].
Qed.

Lemma worker_returns offset :
  fileSize <= offset -> worker offset = (Ok (Returned, offset), []).
Proof.
  intros Hge. unfold uploadWorker.
  destruct (Z.ltb_spec offset fileSize); [lia | reflexivity].
Qed.

Lemma worker_total offset :
  exists wk offset' t, worker offset = (Ok (wk, offset'), t).
Proof.
  destruct (Z.lt_ge_cases offset fileSize) as [Hlt|Hge].
  - destruct (worker_claims offset Hlt) as (msg & r & -> & _). eauto.
  - rewrite (worker_returns offset Hge). eauto.
Qed.

Lemma awaitAll_done completions workers offset :
  forallb isReturned workers = true ->
  awaitAll completions workers offset = (Ok tt, []).
Proof. intros H. destruct completions; cbn; rewrite H; reflexivity. Qed.

(** One completion: the worker it names resumes and claims again or
    returns, or it rejects the whole upload, or the completion names no
    suspended worker and is skipped. *)
Lemma awaitAll_step i later workers offset :
  forallb isReturned workers = false ->
  (exists start end_ u wk offset' t,
      workers !! i = Some (Awaiting start end_ (Ok u))
      /\ worker offset = (Ok (wk, offset'), t)
      /\ outcome (awaitAll (i :: later) workers offset)
         = outcome (awaitAll later (<[i := wk]> workers) offset')
      /\ trace (awaitAll (i :: later) workers offset)
         = ChunkSettled start end_ true
             :: t ++ trace (awaitAll later (<[i := wk]> workers) offset'))
  \/ (exists start end_ msg,
        workers !! i = Some (Awaiting start end_ (Throw msg))
        /\ awaitAll (i :: later) workers offset
           = (Throw msg, [ChunkSettled start end_ false]))
  \/ awaitAll (i :: later) workers offset = awaitAll later workers offset.
Proof.
  intros Hnot. cbn [promiseAll]. rewrite Hnot.
  destruct (workers !! i) as [[start end_ [u|msg|]|]|] eqn:Hi.
  - left. destruct (worker_total offset) as (wk & offset' & t & Hw).
    exists start, end_, u, wk, offset', t. split; [reflexivity|].
    split; [exact Hw|]. rewrite Hw.
    cbn [emit mbind M_bind bind].
    destruct (promiseAll _ _ _ _ _ _ _ later _ _) as [r t']. split; reflexivity.
  - right; left. exists start, end_, msg. split; reflexivity.
  - right; right. reflexivity.
  - right; right. reflexivity.
  - right; right. reflexivity.
Qed.

Lemma uploadEvent_issue start end_ : uploadEvent (issue start end_).
Proof. reflexivity. Qed.

Lemma worker_events offset :
  Forall uploadEvent (trace (worker offset)).
Proof.
  destruct (Z.lt_ge_cases offset fileSize) as [Hlt|Hge].
  - destruct (worker_claims offset Hlt) as (msg & r & -> & _).
    repeat constructor.
  - rewrite (worker_returns offset Hge). constructor.
Qed.

Lemma awaitAll_events completions :
  forall workers offset,
    Forall uploadEvent (trace (awaitAll completions workers offset)).
Proof.
  induction completions as [|i later IH]; intros workers offset.
  - cbn. destruct (forallb isReturned workers); constructor.
  - destruct (forallb isReturned workers) eqn:Hall.
    + rewrite awaitAll_done by exact Hall. constructor.
    + destruct (awaitAll_step i later workers offset Hall)
        as [(s & e & u & wk & offset' & t & _ & Hw & _ & Ht)
           |[(s & e & msg & _ & ->)| ->]].
      * rewrite Ht. constructor; [exact I|]. apply Forall_app; split.
        -- pose proof (worker_events offset) as He. rewrite Hw in He. exact He.
        -- apply IH.
      * repeat constructor.
      * apply IH.
Qed.

(** When the pool resolves, every worker that was suspended had a
    successful chunk whose settlement is in the trace, every chunk issued
    on the way was settled successfully later on, and the cache service
    accepted every one of them. *)
Lemma awaitAll_acked completions :
  forall workers offset,
    outcome (awaitAll completions workers offset) = Ok tt ->
    (forall start end_ r, Awaiting start end_ r ∈ workers ->
       r = Ok tt
       /\ ChunkSettled start end_ true
          ∈ trace (awaitAll completions workers offset))
    /\ allAcked (trace (awaitAll completions workers offset))
    /\ (forall ev, ev ∈ trace (awaitAll completions workers offset) ->
          chunkOf ev <> None -> chunkAccepted w ev = true).
Proof.
  induction completions as [|i later IH]; intros workers offset Hok.
  - cbn in Hok |- *. destruct (forallb isReturned workers) eqn:Hall;
      [|discriminate].
    split; [|split; [exact I | intros ev Hin; apply elem_of_nil in Hin as []]].
    intros s e r Hin. rewrite forallb_forall in Hall.
    apply list_elem_of_In, Hall in Hin. discriminate.
  - destruct (forallb isReturned workers) eqn:Hall.
    + rewrite awaitAll_done by exact Hall.
      split; [|split; [exact I | intros ev Hin; apply elem_of_nil in Hin as []]].
      intros s e r Hin. rewrite forallb_forall in Hall.
      apply list_elem_of_In, Hall in Hin. discriminate.
    + destruct (awaitAll_step i later workers offset Hall)
        as [(s & e & u & wk & offset' & t & Hi & Hw & Ho & Ht)
           |[(s & e & msg & _ & Heq)|Heq]].
      * rewrite Ho in Hok. destruct (IH _ _ Hok) as (IHa & IHb & IHc).
        rewrite Ht. destruct u.
        assert (Hwk : forall s' e' r', wk = Awaiting s' e' r' ->
                  r' = Ok tt
                  /\ ChunkSettled s' e' true
                     ∈ trace (awaitAll later (<[i := wk]> workers) offset')).
        { intros s' e' r' ->. apply IHa.
          apply list_elem_of_lookup. exists i.
          apply list_lookup_insert_eq. apply lookup_lt_is_Some. eauto. }
        split; [|split].
        -- intros s' e' r' Hin. apply list_elem_of_lookup in Hin as [j Hj].
           destruct (decide (j = i)) as [->|Hne].
           ++ rewrite Hi in Hj. injection Hj as <- <- <-.
              split; [reflexivity | apply list_elem_of_here].
           ++ destruct (IHa s' e' r') as [Hr Hs].
              { apply list_elem_of_lookup. exists j.
                rewrite list_lookup_insert_ne by congruence. exact Hj. }
              split; [exact Hr|].
              apply list_elem_of_further, elem_of_app. right. exact Hs.
        -- cbn [allAcked]. split; [intros ? ? [=]|].
           destruct (Z.lt_ge_cases offset fileSize) as [Hlt|Hge].
           ++ destruct (worker_claims offset Hlt) as (msg & r & Hw' & _).
              rewrite Hw' in Hw. injection Hw as <- <- <-.
              cbn [app allAcked]. split; [intros ? ? [=]|].
              split; [|exact IHb].
              intros s' e' [= <- <-].
              apply (Hwk offset (chunkEnd' offset) r eq_refl).
           ++ rewrite (worker_returns offset Hge) in Hw.
              injection Hw as <- <- <-. exact IHb.
        -- intros ev Hin Hchunk.
           apply elem_of_cons in Hin as [->|Hin]; [contradiction|].
           apply elem_of_app in Hin as [Hin|Hin]; [|exact (IHc ev Hin Hchunk)].
           destruct (Z.lt_ge_cases offset fileSize) as [Hlt|Hge].
           ++ destruct (worker_claims offset Hlt) as (msg & r & Hw' & Hacc).
              rewrite Hw' in Hw. injection Hw as <- <- <-.
              apply elem_of_cons in Hin as [->|Hin]; [contradiction|].
              apply list_elem_of_singleton in Hin as ->.
              apply Hacc. apply (Hwk offset (chunkEnd' offset) r eq_refl).
           ++ rewrite (worker_returns offset Hge) in Hw.
              injection Hw as <- <- <-. apply elem_of_nil in Hin as [].
      * rewrite Heq in Hok. discriminate.
      * rewrite Heq in Hok |- *. apply IH. exact Hok.
Qed.

Lemma issuedChunks_claim msg start end_ t :
  issuedChunks (Debug msg :: issue start end_ :: t)
  = (start, end_) :: issuedChunks t.
Proof. reflexivity. Qed.

Lemma issuedChunks_settled start end_ ok t :
  issuedChunks (ChunkSettled start end_ ok :: t) = issuedChunks t.
Proof. reflexivity. Qed.

(** Starting the workers never throws; each chunk it issues belongs to a
    worker that is now suspended on it. *)
Lemma spawn_shape parallelUploads :
  forall offset,
    exists workers offset' t,
      spawnAll parallelUploads offset = (Ok (workers, offset'), t)
      /\ Forall uploadEvent t
      /\ length workers = length parallelUploads
      /\ (forall ev start end_, ev ∈ t -> chunkOf ev = Some (start, end_) ->
            exists r, Awaiting start end_ r ∈ workers
                      /\ (r = Ok tt -> chunkAccepted w ev = true)).
Proof.
  induction parallelUploads as [|x rest IH]; intros offset.
  - exists [], offset, []. repeat split; try constructor.
    intros ev s e Hin. apply elem_of_nil in Hin as [].
  - cbn [spawn].
    assert (Hw : exists wk offset1 t1,
               worker offset = (Ok (wk, offset1), t1)
               /\ Forall uploadEvent t1
               /\ (forall ev start end_, ev ∈ t1 ->
                     chunkOf ev = Some (start, end_) ->
                     exists r, wk = Awaiting start end_ r
                               /\ (r = Ok tt -> chunkAccepted w ev = true))).
    { destruct (Z.lt_ge_cases offset fileSize) as [Hlt|Hge].
      - destruct (worker_claims offset Hlt) as (msg & r & Hw & Hacc).
        do 3 eexists. split; [exact Hw|]. split; [repeat constructor|].
        intros ev s e Hin Hc.
        apply elem_of_cons in Hin as [->|Hin]; [discriminate|].
        apply list_elem_of_singleton in Hin as ->. injection Hc as <- <-.
        exists r. split; [reflexivity | apply Hacc].
      - do 3 eexists. split; [apply (worker_returns offset Hge)|].
        split; [constructor|]. intros ev s e Hin.
        apply elem_of_nil in Hin as []. }
    destruct Hw as (wk & offset1 & t1 & Hw & Hev1 & Hlink1). rewrite Hw.
    destruct (IH offset1) as (wks & offset2 & t2 & Hs & Hev2 & Hlen & Hlink2).
    cbn [mbind M_bind bind]. rewrite Hs. cbn [mbind M_bind bind mret M_ret ret].
    exists (wk :: wks), offset2, (t1 ++ t2 ++ []).
    split; [reflexivity|]. rewrite app_nil_r.
    split; [apply Forall_app; split; assumption|].
    split; [cbn; rewrite Hlen; reflexivity|].
    intros ev s e Hin Hc. apply elem_of_app in Hin as [Hin|Hin].
    + destruct (Hlink1 ev s e Hin Hc) as (r & -> & Hacc).
      exists r. split; [apply list_elem_of_here | exact Hacc].
    + destruct (Hlink2 ev s e Hin Hc) as (r & Hr & Hacc).
      exists r. split; [apply list_elem_of_further, Hr | exact Hacc].
Qed.

Local Abbreviation ranges := (chunksFrom fileSize maxChunkSize).

(** Started in array order, the workers claim consecutive ranges; a worker
    has returned only if the cursor has reached the end of the file. *)
Lemma spawn_chunks parallelUploads :
  0 < maxChunkSize ->
  forall offset workers offset' t,
    spawnAll parallelUploads offset = (Ok (workers, offset'), t) ->
    exists k : nat,
      issuedChunks t = ranges k offset
      /\ offset' = offset + Z.of_nat k * maxChunkSize
      /\ Forall (fun c => c.1 < fileSize) (issuedChunks t)
      /\ (forall i, workers !! i = Some Returned -> fileSize <= offset').
Proof.
  intros HC. induction parallelUploads as [|x rest IH];
    intros offset workers offset' t Hs.
  - cbn in Hs. injection Hs as <- <- <-. exists O.
    repeat split; [lia | constructor | intros i; rewrite lookup_nil; discriminate].
  - cbn [spawn] in Hs.
    destruct (spawn_shape rest (offset + maxChunkSize))
      as (wks1 & off1 & t1 & Hs1 & _).
    destruct (spawn_shape rest offset) as (wks0 & off0 & t0 & Hs0 & _).
    destruct (Z.lt_ge_cases offset fileSize) as [Hlt|Hge].
    + destruct (worker_claims offset Hlt) as (msg & r & Hw & _).
      rewrite Hw in Hs. cbn [mbind M_bind bind] in Hs. rewrite Hs1 in Hs.
      cbn [mbind M_bind bind mret M_ret ret] in Hs.
      injection Hs as <- <- <-.
      destruct (IH _ _ _ _ Hs1) as (k & Hi & Ho & Hf & Hr).
      exists (S k). rewrite app_nil_r. cbn [app].
      rewrite issuedChunks_claim.
      split; [cbn [chunksFrom]; rewrite Hi; reflexivity|].
      split; [lia|]. split; [constructor; [exact Hlt | exact Hf]|].
      intros [|i] Hi'; [discriminate | exact (Hr i Hi')].
    + rewrite (worker_returns offset Hge) in Hs.
      cbn [mbind M_bind bind] in Hs. rewrite Hs0 in Hs.
      cbn [mbind M_bind bind mret M_ret ret] in Hs.
      injection Hs as <- <- <-.
      destruct (IH _ _ _ _ Hs0) as (k & Hi & Ho & Hf & Hr).
      exists k. rewrite app_nil_r. cbn [app].
      split; [exact Hi|]. split; [exact Ho|]. split; [exact Hf|].
      intros [|i] Hi'; [lia | exact (Hr i Hi')].
Qed.

(** When the pool resolves, the ranges claimed on the way continue the
    sequence from the cursor, and with at least one worker the cursor has
    reached the end of the file. *)
Lemma awaitAll_chunks completions :
  0 < maxChunkSize ->
  forall workers offset,
    (forall i, workers !! i = Some Returned -> fileSize <= offset) ->
    outcome (awaitAll completions workers offset) = Ok tt ->
    exists k : nat,
      issuedChunks (trace (awaitAll completions workers offset))
      = ranges k offset
      /\ Forall (fun c => c.1 < fileSize)
           (issuedChunks (trace (awaitAll completions workers offset)))
      /\ (workers <> [] -> fileSize <= offset + Z.of_nat k * maxChunkSize).
Proof.
  intros HC.
  assert (Hdone : forall workers offset,
            (forall i, workers !! i = Some Returned -> fileSize <= offset) ->
            forallb isReturned workers = true ->
            workers <> [] -> fileSize <= offset + Z.of_nat 0 * maxChunkSize).
  { intros [|[|] ws] offset Hret Hall Hne; [congruence | discriminate |].
    specialize (Hret O eq_refl). lia. }
  induction completions as [|i later IH]; intros workers offset Hret Hok.
  - cbn in Hok |- *. destruct (forallb isReturned workers) eqn:Hall;
      [|discriminate].
    exists O. split; [reflexivity|]. split; [constructor | eauto].
  - destruct (forallb isReturned workers) eqn:Hall.
    + rewrite awaitAll_done by exact Hall.
      exists O. split; [reflexivity|]. split; [constructor | eauto].
    + destruct (awaitAll_step i later workers offset Hall)
        as [(s & e & u & wk & offset' & t & Hi & Hw & Ho & Ht)
           |[(s & e & msg & _ & Heq)|Heq]].
      * rewrite Ho in Hok. rewrite Ht.
        assert (Hlen : workers <> [] -> <[i := wk]> workers <> []).
        { intros Hne Hnil. apply (f_equal length) in Hnil.
          rewrite length_insert in Hnil. destruct workers; [congruence|discriminate]. }
        destruct (Z.lt_ge_cases offset fileSize) as [Hlt|Hge].
        -- destruct (worker_claims offset Hlt) as (msg & r & Hw' & _).
           rewrite Hw' in Hw. injection Hw as <- <- <-.
           destruct (IH (<[i := Awaiting offset (chunkEnd' offset) r]> workers)
                        (offset + maxChunkSize)) as (k & Hk & Hf & Hb).
           { intros j Hj. destruct (decide (j = i)) as [->|Hne].
             - rewrite list_lookup_insert_eq in Hj
                 by (apply lookup_lt_is_Some; eauto). discriminate.
             - rewrite list_lookup_insert_ne in Hj by congruence.
               specialize (Hret j Hj). lia. }
           { exact Hok. }
           exists (S k). cbn [app].
           rewrite issuedChunks_settled, issuedChunks_claim.
           split; [cbn [chunksFrom]; rewrite Hk; reflexivity|].
           split; [constructor; [exact Hlt | exact Hf]|].
           intros Hne. specialize (Hb (Hlen Hne)). lia.
        -- rewrite (worker_returns offset Hge) in Hw. injection Hw as <- <- <-.
           destruct (IH (<[i := Returned]> workers) offset) as (k & Hk & Hf & Hb).
           { intros j Hj. exact Hge. }
           { exact Hok. }
           exists k. cbn [app]. rewrite issuedChunks_settled.
           split; [exact Hk|]. split; [exact Hf|].
           intros Hne. exact (Hb (Hlen Hne)).
      * rewrite Heq in Hok. discriminate.
      * rewrite Heq in Hok |- *. apply IH; assumption.
Qed.

Lemma awaitAll_resume i later workers offset start end_ u wk offset' t :
  forallb isReturned workers = false ->
  workers !! i = Some (Awaiting start end_ (Ok u)) ->
  worker offset = (Ok (wk, offset'), t) ->
  outcome (awaitAll (i :: later) workers offset)
  = outcome (awaitAll later (<[i := wk]> workers) offset').
Proof.
  intros Hall Hi Hw. cbn [promiseAll]. rewrite Hall, Hi, Hw.
  cbn [emit mbind M_bind bind].
  destruct (promiseAll _ _ _ _ _ _ _ later _ _) as [r t']. reflexivity.
Qed.

Lemma awaiting_none workers :
  forallb isReturned workers = false ->
  exists i start end_ r, workers !! i = Some (Awaiting start end_ r).
Proof.
  induction workers as [|[s e r|] ws IH]; cbn; intros H.
  - discriminate.
  - exists O, s, e, r. reflexivity.
  - destruct (IH H) as (i & s & e & r & Hi). exists (S i), s, e, r. exact Hi.
Qed.

Lemma awaiting_insert_returned workers :
  forall i start end_ r,
    workers !! i = Some (Awaiting start end_ r) ->
    S (awaiting (<[i := Returned]> workers)) = awaiting workers.
Proof.
  induction workers as [|wk ws IH]; intros [|i] s e r Hi; try discriminate.
  - cbn in Hi. injection Hi as ->. reflexivity.
  - cbn in Hi.
    change (<[S i := Returned]> (wk :: ws)) with (wk :: <[i := Returned]> ws).
    destruct wk; cbn [awaiting]; [f_equal|]; exact (IH i s e r Hi).
Qed.

Lemma awaiting_insert_awaiting workers :
  forall i start end_ r start' end' r',
    workers !! i = Some (Awaiting start end_ r) ->
    awaiting (<[i := Awaiting start' end' r']> workers) = awaiting workers.
Proof.
  induction workers as [|wk ws IH]; intros [|i] s e r s' e' r' Hi;
    try discriminate.
  - cbn in Hi. injection Hi as ->. reflexivity.
  - cbn in Hi.
    change (<[S i := Awaiting s' e' r']> (wk :: ws))
      with (wk :: <[i := Awaiting s' e' r']> ws).
    destruct wk; cbn [awaiting]; [f_equal|]; exact (IH i s e r s' e' r' Hi).
Qed.

Lemma remaining_step offset :
  0 < maxChunkSize -> offset < fileSize ->
  S (remaining fileSize maxChunkSize (offset + maxChunkSize))
  = remaining fileSize maxChunkSize offset.
Proof.
  intros HC Hlt. unfold remaining.
  replace (fileSize - offset + maxChunkSize - 1)
    with (fileSize - offset - 1 + 1 * maxChunkSize) by lia.
  rewrite Z.div_add by lia.
  replace (fileSize - (offset + maxChunkSize) + maxChunkSize - 1)
    with (fileSize - offset - 1) by lia.
  assert (0 <= (fileSize - offset - 1) / maxChunkSize)
    by (apply Z.div_pos; lia).
  lia.
Qed.

(** If the cache service accepts every chunk, the pending completions can
    always be delivered in some order that makes the pool resolve: each
    delivery either claims one of the remaining ranges or retires a
    worker. *)
Lemma awaitAll_can_finish :
  0 < maxChunkSize ->
  (forall start end_, chunkAccepted w (issue start end_) = true) ->
  forall (budget : nat) workers offset,
    (forall start end_ r, Awaiting start end_ r ∈ workers -> r = Ok tt) ->
    (awaiting workers + remaining fileSize maxChunkSize offset <= budget)%nat ->
    exists completions,
      outcome (awaitAll completions workers offset) = Ok tt.
Proof.
  intros HC Hacc. induction budget as [|budget IH]; intros workers offset Hw Hb.
  - exists []. rewrite awaitAll_done; [reflexivity|].
    destruct (forallb isReturned workers) eqn:Hall; [reflexivity|].
    destruct (awaiting_none workers Hall) as (i & s & e & r & Hi).
    pose proof (awaiting_insert_returned workers i s e r Hi). lia.
  - destruct (forallb isReturned workers) eqn:Hall.
    + exists []. rewrite awaitAll_done by exact Hall. reflexivity.
    + destruct (awaiting_none workers Hall) as (i & s & e & r & Hi).
      assert (r = Ok tt) as ->
        by (apply (Hw s e r), list_elem_of_lookup; eauto).
      pose proof (awaiting_insert_returned workers i s e _ Hi) as Hret.
      destruct (Z.lt_ge_cases offset fileSize) as [Hlt|Hge].
      * destruct (worker_claims offset Hlt) as (msg & r' & Hwk & Hr').
        assert (r' = Ok tt) as -> by (apply Hr', Hacc).
        destruct (IH (<[i := Awaiting offset (chunkEnd' offset) (Ok tt)]> workers)
                     (offset + maxChunkSize)) as [later Hlater].
        -- intros s' e' r' Hin. apply list_elem_of_lookup in Hin as [j Hj].
           destruct (decide (j = i)) as [->|Hne].
           ++ rewrite list_lookup_insert_eq in Hj
                by (apply lookup_lt_is_Some; eauto). congruence.
           ++ rewrite list_lookup_insert_ne in Hj by congruence.
              apply (Hw s' e' r'), list_elem_of_lookup; eauto.
        -- rewrite (awaiting_insert_awaiting workers i s e _ _ _ _ Hi).
           pose proof (remaining_step offset HC Hlt). lia.
        -- exists (i :: later).
           rewrite (awaitAll_resume i later workers offset s e tt _ _ _ Hall Hi Hwk).
           exact Hlater.
      * destruct (IH (<[i := Returned]> workers) offset) as [later Hlater].
        -- intros s' e' r' Hin. apply list_elem_of_lookup in Hin as [j Hj].
           destruct (decide (j = i)) as [->|Hne].
           ++ rewrite list_lookup_insert_eq in Hj
                by (apply lookup_lt_is_Some; eauto). discriminate.
           ++ rewrite list_lookup_insert_ne in Hj by congruence.
              apply (Hw s' e' r'), list_elem_of_lookup; eauto.
        -- lia.
        -- exists (i :: later).
           rewrite (awaitAll_resume i later workers offset s e tt _ _ _ Hall Hi
                      (worker_returns offset Hge)).
           exact Hlater.
Qed.

End Pool.

(** ** The ranges tile the file *)

(** What [tiles] says of the ranges: every byte of [lo .. hi] lies in one
    of them, each of them lies inside [lo .. hi], and a later range starts
    after an earlier one ends. *)
Lemma tiles_cover maxChunkSize ranges :
  forall lo hi, tiles maxChunkSize lo ranges hi ->
    forall b, lo <= b <= hi
              <-> exists start end_, (start, end_) ∈ ranges /\ start <= b <= end_.
Proof.
  induction ranges as [|[s e] rest IH]; intros lo hi Ht b; cbn [tiles] in Ht.
  - split; [lia|]. intros (s & e & Hin & _). apply elem_of_nil in Hin as [].
  - destruct Ht as (-> & Hse & _ & Heh & Hrest). split.
    + intros Hb. destruct (Z.le_gt_cases b e) as [Hle|Hgt].
      * exists lo, e. split; [apply list_elem_of_here | lia].
      * destruct (proj1 (IH _ _ Hrest b)) as (s' & e' & Hin & Hb'); [lia|].
        exists s', e'. split; [apply list_elem_of_further, Hin | exact Hb'].
    + intros (s' & e' & Hin & Hb). apply elem_of_cons in Hin as [Heq|Hin].
      * injection Heq as -> ->. lia.
      * pose proof (proj2 (IH _ _ Hrest b)
                      (ex_intro _ s' (ex_intro _ e' (conj Hin Hb)))). lia.
Qed.

Lemma tiles_inside maxChunkSize ranges :
  forall lo hi, tiles maxChunkSize lo ranges hi ->
    forall start end_, (start, end_) ∈ ranges ->
      lo <= start /\ start <= end_ /\ end_ <= hi
      /\ end_ - start + 1 <= maxChunkSize.
Proof.
  induction ranges as [|[s e] rest IH]; intros lo hi Ht s' e' Hin;
    cbn [tiles] in Ht.
  - apply elem_of_nil in Hin as [].
  - destruct Ht as (-> & Hse & Hlen & Heh & Hrest).
    apply elem_of_cons in Hin as [Heq|Hin].
    + injection Heq as -> ->. lia.
    + pose proof (IH _ _ Hrest s' e' Hin). lia.
Qed.

Lemma tiles_disjoint maxChunkSize ranges :
  forall lo hi, tiles maxChunkSize lo ranges hi ->
    forall (i j : nat) s1 e1 s2 e2,
      ranges !! i = Some (s1, e1) -> ranges !! j = Some (s2, e2) ->
      (i < j)%nat -> e1 < s2.
Proof.
  induction ranges as [|[s e] rest IH];
    intros lo hi Ht i j s1 e1 s2 e2 Hi Hj Hlt; cbn [tiles] in Ht.
  - rewrite lookup_nil in Hi. discriminate.
  - destruct Ht as (-> & Hse & _ & Heh & Hrest).
    destruct j as [|j]; [lia|]. cbn in Hj. destruct i as [|i].
    + cbn in Hi. injection Hi as <- <-.
      assert (Hin : (s2, e2) ∈ rest) by (apply list_elem_of_lookup; eauto).
      pose proof (tiles_inside _ _ _ _ Hrest s2 e2 Hin). lia.
    + cbn in Hi. apply (IH _ _ Hrest i j s1 e1 s2 e2 Hi Hj). lia.
Qed.

Lemma chunksFrom_app fileSize maxChunkSize (k1 k2 : nat) offset :
  chunksFrom fileSize maxChunkSize k1 offset
  ++ chunksFrom fileSize maxChunkSize k2 (offset + Z.of_nat k1 * maxChunkSize)
  = chunksFrom fileSize maxChunkSize (k1 + k2) offset.
Proof.
  revert offset. induction k1 as [|k1 IH]; intros offset.
  - cbn. f_equal. lia.
  - cbn [chunksFrom app Nat.add]. f_equal. rewrite <- IH. do 2 f_equal. lia.
Qed.

Lemma length_chunksFrom fileSize maxChunkSize k offset :
  length (chunksFrom fileSize maxChunkSize k offset) = k.
Proof.
  revert offset. induction k as [|k IH]; intros offset; cbn; [|rewrite IH];
    reflexivity.
Qed.

(** Ranges claimed from [offset] that all start inside the file and take
    the cursor to its end are [ceil((fileSize - offset) / maxChunkSize)] in
    number and tile the bytes from [offset] to the last one. *)
Lemma chunksFrom_tiles fileSize maxChunkSize :
  0 < maxChunkSize ->
  forall (k : nat) offset,
    offset <= fileSize ->
    Forall (fun c => c.1 < fileSize) (chunksFrom fileSize maxChunkSize k offset) ->
    fileSize <= offset + Z.of_nat k * maxChunkSize ->
    tiles maxChunkSize offset (chunksFrom fileSize maxChunkSize k offset)
      (fileSize - 1)
    /\ Z.of_nat k = (fileSize - offset + maxChunkSize - 1) / maxChunkSize.
Proof.
  intros HC. induction k as [|k IH]; intros offset Hle Hstarts Hend.
  - cbn. assert (offset = fileSize) as -> by lia. split; [lia|].
    replace (fileSize - fileSize + maxChunkSize - 1) with (maxChunkSize - 1)
      by lia.
    rewrite Z.div_small; lia.
  - cbn [chunksFrom] in Hstarts |- *.
    inversion Hstarts as [|? ? Hlt Hrest]; subst. cbn in Hlt.
    cbn [tiles]. unfold chunkEnd at 1 2 3 4.
    destruct (Z.le_gt_cases maxChunkSize (fileSize - offset)) as [Hfull|Hlast].
    + rewrite Z.min_r by lia.
      destruct (IH (offset + maxChunkSize)) as [Ht Hk]; [lia | exact Hrest | lia |].
      replace (offset + maxChunkSize - 1 + 1) with (offset + maxChunkSize) by lia.
      split; [repeat split; try lia; exact Ht|].
      replace (fileSize - offset + maxChunkSize - 1)
        with (fileSize - (offset + maxChunkSize) + maxChunkSize - 1
              + 1 * maxChunkSize) by lia.
      rewrite Z.div_add by lia. lia.
    + rewrite Z.min_l by lia.
      destruct k as [|k].
      * cbn. split; [repeat split; lia|].
        change (Z.of_nat 1) with 1.
        apply (Z.div_unique _ _ 1 (fileSize - offset - 1)); lia.
      * cbn [chunksFrom] in Hrest. inversion Hrest as [|? ? Hlt' _]; subst.
        cbn in Hlt'. lia.
Qed.

(** ** [uploadFile] and [saveCache] *)

Lemma allAcked_app t1 t2 :
  (forall ev start end_, ev ∈ t1 -> chunkOf ev = Some (start, end_) ->
     ChunkSettled start end_ true ∈ t2) ->
  allAcked t2 -> allAcked (t1 ++ t2).
Proof.
  induction t1 as [|ev t1 IH]; intros H1 H2; [exact H2|].
  cbn [app allAcked]. split.
  - intros s e Hc. apply elem_of_app. right.
    apply (H1 ev s e); [apply list_elem_of_here | exact Hc].
  - apply IH; [|exact H2]. intros ev' s e Hin.
    apply H1. apply list_elem_of_further, Hin.
Qed.

Lemma allAcked_quiet t :
  (forall ev, ev ∈ t -> chunkOf ev = None) -> allAcked t.
Proof.
  induction t as [|ev t IH]; intros H; [exact I|]. cbn [allAcked]. split.
  - intros s e Hc. rewrite (H ev) in Hc by apply list_elem_of_here.
    discriminate.
  - apply IH. intros ev' Hin. apply H, list_elem_of_further, Hin.
Qed.

Lemma allAcked_app_quiet t1 t2 :
  allAcked t1 -> (forall ev, ev ∈ t2 -> chunkOf ev = None) ->
  allAcked (t1 ++ t2).
Proof.
  induction t1 as [|ev t1 IH]; intros H1 H2; [apply allAcked_quiet, H2|].
  cbn [app allAcked] in H1 |- *. destruct H1 as [Hev H1]. split.
  - intros s e Hc. apply elem_of_app. left. exact (Hev s e Hc).
  - apply IH; assumption.
Qed.

Lemma getCacheApiUrl_quiet w resource ev :
  ev ∈ trace (getCacheApiUrl w resource) -> preparation ev.
Proof. intros H. apply getCacheApiUrl_trace in H as [msg ->]. exact I. Qed.

Lemma preparation_quiet ev :
  preparation ev -> chunkOf ev = None /\ uploadEvent ev.
Proof. destruct ev; cbn; intros []; split; constructor. Qed.

Lemma uploadFileBlob_quiet w blobContainerName connectionString archivePath
    key concurrency ev :
  ev ∈ trace (uploadFileBlob w blobContainerName connectionString archivePath
                key concurrency) ->
  preparation ev.
Proof.
  unfold uploadFileBlob, rethrow, debug, emit, lift.
  cbn [mbind M_bind bind].
  destruct (blobUploadStream w _ _ _ _ _); cbn; intros Hin;
    repeat (apply elem_of_cons in Hin as [->|Hin]; [exact I|]);
    apply elem_of_nil in Hin as [].
Qed.

(** [uploadFile] on the chunked path, once its preparations succeed: it
    opens the file, starts the workers, awaits them and closes the file. *)
Lemma uploadFile_chunked (w : World) (completions : list nat)
    (httpClient : HttpClient) (cacheId : Z) (archivePath key : string)
    (options : option UploadOptions)
    (blobContainerName connectionString : option string)
    concurrency maxChunkSize fileSize resourceUrl tu fd workers offset ts :
  truthy blobContainerName && truthy connectionString = false ->
  assertDefined w "uploadConcurrency"
    (uploadConcurrency (getUploadOptions w options)) = Ok concurrency ->
  (concurrency <? 0) || (4294967295 <? concurrency) = false ->
  assertDefined w "uploadChunkSize"
    (uploadChunkSize (getUploadOptions w options)) = Ok maxChunkSize ->
  getArchiveFileSizeInBytes w archivePath = Ok fileSize ->
  getCacheApiUrl w ("caches/" +:+ toString cacheId) = (Ok resourceUrl, tu) ->
  openSync w archivePath = Ok fd ->
  spawn w httpClient resourceUrl archivePath fd fileSize maxChunkSize
    (seqZ 0 concurrency) 0 = (Ok (workers, offset), ts) ->
  let pool := promiseAll w httpClient resourceUrl archivePath fd fileSize
                maxChunkSize completions workers offset in
  uploadFile w completions httpClient cacheId archivePath key options
    blobContainerName connectionString
  = (outcome pool,
     Debug "Awaiting all uploads" :: tu ++ OpenSync archivePath :: ts
       ++ trace pool
       ++ match outcome pool with Pending => [] | _ => [CloseSync fd] end).
Proof.
  intros Hblob Hn Hlen HC HF Hurl Hfd Hs pool.
  unfold uploadFile, newArrayKeys, lift, mret, M_ret, ret, debug.
  rewrite Hn, bind_ret, HC, bind_ret, Hlen, bind_ret.
  rewrite bind_emit. cbn [outcome trace fst snd].
  rewrite Hblob, HF, bind_ret, Hurl, bind_ok. cbn [outcome trace fst snd].
  rewrite bind_emit. cbn [outcome trace fst snd].
  rewrite Hfd, bind_ok. cbn [outcome trace fst snd].
  rewrite try_finally_emit, Hs, bind_ok. cbn [outcome trace fst snd].
  fold pool. f_equal. cbn [app]. rewrite ?app_nil_r, <- ?app_assoc.
  reflexivity.
Qed.

(** [uploadFile] either stops before it starts a worker (an option is
    missing, the array length is invalid, the storage SDK takes the whole
    file, the size, the URL or the descriptor cannot be had), and on the
    chunked path this is a failure, or it runs the workers as above. *)
Lemma uploadFile_cases (w : World) (completions : list nat)
    (httpClient : HttpClient) (cacheId : Z) (archivePath key : string)
    (options : option UploadOptions)
    (blobContainerName connectionString : option string) :
  let m := uploadFile w completions httpClient cacheId archivePath key options
             blobContainerName connectionString in
  ((forall ev, ev ∈ trace m -> preparation ev)
   /\ (truthy blobContainerName && truthy connectionString = false ->
       forall u, outcome m <> Ok u))
  \/ exists concurrency maxChunkSize fileSize resourceUrl tu fd workers offset ts,
       truthy blobContainerName && truthy connectionString = false
       /\ assertDefined w "uploadConcurrency"
            (uploadConcurrency (getUploadOptions w options)) = Ok concurrency
       /\ (concurrency <? 0) || (4294967295 <? concurrency) = false
       /\ assertDefined w "uploadChunkSize"
            (uploadChunkSize (getUploadOptions w options)) = Ok maxChunkSize
       /\ getArchiveFileSizeInBytes w archivePath = Ok fileSize
       /\ getCacheApiUrl w ("caches/" +:+ toString cacheId) = (Ok resourceUrl, tu)
       /\ openSync w archivePath = Ok fd
       /\ spawn w httpClient resourceUrl archivePath fd fileSize maxChunkSize
            (seqZ 0 concurrency) 0 = (Ok (workers, offset), ts).
Proof.
  intros m. subst m.
  destruct (truthy blobContainerName && truthy connectionString) eqn:Hblob;
  destruct (assertDefined w "uploadConcurrency"
              (uploadConcurrency (getUploadOptions w options)))
    as [n|msg|] eqn:Hn;
  destruct (assertDefined w "uploadChunkSize"
              (uploadChunkSize (getUploadOptions w options)))
    as [C|msg'|] eqn:HC;
  try (left; unfold uploadFile, lift; rewrite Hn, ?bind_ret, ?HC;
       split; [intros ev Hin; apply elem_of_nil in Hin as []
              | intros _ u; discriminate]).
  - left. split; [|discriminate].
    unfold uploadFile, newArrayKeys, lift, mret, M_ret, ret, debug.
    rewrite Hn, bind_ret, HC, bind_ret.
    destruct ((n <? 0) || (4294967295 <? n));
      [intros ev Hin; apply elem_of_nil in Hin as []|].
    rewrite bind_ret, bind_emit.
    cbn [outcome trace fst snd]. rewrite Hblob.
    intros ev Hin.
    apply elem_of_cons in Hin as [->|Hin]; [exact I|].
    exact (uploadFileBlob_quiet _ _ _ _ _ _ _ Hin).
  - assert (Hstart :
      uploadFile w completions httpClient cacheId archivePath key options
        blobContainerName connectionString
      = if (n <? 0) || (4294967295 <? n) then (Throw "Invalid array length", [])
        else match getArchiveFileSizeInBytes w archivePath with
             | Ok F =>
                 emit (Debug "Awaiting all uploads")
                 ≫= (fun _ =>
                 getCacheApiUrl w ("caches/" +:+ toString cacheId)
                 ≫= (fun resourceUrl =>
                 (emit (OpenSync archivePath)
                  ≫= (fun _ => (openSync w archivePath, [])))
                 ≫= (fun fd =>
                 try_finally
                   (spawn w httpClient resourceUrl archivePath fd F C
                      (seqZ 0 n) 0
                    ≫= (fun '(workers, offset) =>
                          promiseAll w httpClient resourceUrl archivePath fd
                            F C completions workers offset))
                   (emit (CloseSync fd)))))
             | Throw msg => (Throw msg, [Debug "Awaiting all uploads"])
             | Pending => (Pending, [Debug "Awaiting all uploads"])
             end).
    { unfold uploadFile, newArrayKeys, lift, mret, M_ret, ret, debug.
      rewrite Hn, bind_ret, HC, bind_ret.
      destruct ((n <? 0) || (4294967295 <? n)); [reflexivity|].
      rewrite bind_ret, Hblob.
      destruct (getArchiveFileSizeInBytes w archivePath);
        [rewrite bind_ret; reflexivity | reflexivity..]. }
    rewrite Hstart. clear Hstart.
    destruct ((n <? 0) || (4294967295 <? n)) eqn:Hlen;
      [left; split; [intros ev Hin; apply elem_of_nil in Hin as []
                    | intros _ u; discriminate]|].
    destruct (getArchiveFileSizeInBytes w archivePath) as [F|msg|] eqn:HF.
    2,3: left; split; [|intros _ u; discriminate]; intros ev Hin; cbn in Hin;
         apply list_elem_of_singleton in Hin as ->; exact I.
    rewrite bind_emit. cbn [outcome trace fst snd].
    destruct (getCacheApiUrl w ("caches/" +:+ toString cacheId))
      as [[url|msg|] tu] eqn:Hurl.
    2,3: left; split; [|intros _ u; discriminate]; intros ev Hin; cbn in Hin;
         apply elem_of_cons in Hin as [->|Hin]; [exact I|];
         apply (getCacheApiUrl_quiet w ("caches/" +:+ toString cacheId));
         rewrite Hurl; exact Hin.
    rewrite bind_ok. cbn [outcome trace fst snd].
    rewrite bind_emit. cbn [outcome trace fst snd].
    destruct (openSync w archivePath) as [fd|msg|] eqn:Hfd.
    2,3: left; split; [|intros _ u; discriminate]; intros ev Hin; cbn in Hin;
         rewrite ?app_nil_r in Hin;
         apply elem_of_cons in Hin as [->|Hin]; [exact I|];
         apply elem_of_app in Hin as [Hin|Hin];
         [apply (getCacheApiUrl_quiet w ("caches/" +:+ toString cacheId));
          rewrite Hurl; exact Hin
         |apply list_elem_of_singleton in Hin as ->; exact I].
    right.
    destruct (spawn_shape w httpClient url archivePath fd F C (seqZ 0 n) 0)
      as (ws & off & ts & Hs & _).
    exists n, C, F, url, tu, fd, ws, off, ts. repeat split; assumption.
Qed.

Section PoolRuns.

Context (w : World) (httpClient : HttpClient)
        (resourceUrl archivePath : string) (fd fileSize maxChunkSize : Z).

Local Abbreviation spawnAll :=
  (spawn w httpClient resourceUrl archivePath fd fileSize maxChunkSize).
Local Abbreviation awaitAll :=
  (promiseAll w httpClient resourceUrl archivePath fd fileSize maxChunkSize).
Local Abbreviation issue := (chunkIssue httpClient resourceUrl archivePath fd).

(** With the cursor at the end of the file, every worker returns at once
    and nothing is issued. *)
Lemma spawn_at_end parallelUploads offset :
  fileSize <= offset ->
  exists workers,
    spawnAll parallelUploads offset = (Ok (workers, offset), [])
    /\ forallb isReturned workers = true.
Proof.
  intros Hge. induction parallelUploads as [|x rest IH].
  - exists []. split; reflexivity.
  - destruct IH as (ws & Hs & Hall). exists (Returned :: ws).
    cbn [spawn]. rewrite (worker_returns w _ _ _ _ _ _ offset Hge), bind_ret.
    rewrite Hs, bind_ret. split; [reflexivity | exact Hall].
Qed.

(** If the cache service accepts every chunk, the workers that are
    suspended after the start are suspended on successful uploads. *)
Lemma spawn_accepted parallelUploads :
  (forall start end_, chunkAccepted w (issue start end_) = true) ->
  forall offset workers offset' t,
    spawnAll parallelUploads offset = (Ok (workers, offset'), t) ->
    forall start end_ r, Awaiting start end_ r ∈ workers -> r = Ok tt.
Proof.
  intros Hacc. induction parallelUploads as [|x rest IH];
    intros offset workers offset' t Hs s e r Hin.
  - cbn in Hs. injection Hs as <- <- <-. apply elem_of_nil in Hin as [].
  - cbn [spawn] in Hs.
    destruct (worker_total w httpClient resourceUrl archivePath fd fileSize
                maxChunkSize offset) as (wk & off1 & t1 & Hw).
    destruct (spawn_shape w httpClient resourceUrl archivePath fd fileSize
                maxChunkSize rest off1) as (wks & off2 & t2 & Hs2 & _).
    rewrite Hw, bind_ok in Hs. cbn [outcome trace fst snd] in Hs.
    rewrite Hs2, bind_ok in Hs. cbn [outcome trace fst snd mret M_ret ret] in Hs.
    injection Hs as <- <- <-.
    apply elem_of_cons in Hin as [Heq|Hin]; [|exact (IH _ _ _ _ Hs2 s e r Hin)].
    subst wk. destruct (Z.lt_ge_cases offset fileSize) as [Hlt|Hge].
    + destruct (worker_claims w httpClient resourceUrl archivePath fd fileSize
                  maxChunkSize offset Hlt) as (msg & r' & Hw' & Hr').
      rewrite Hw' in Hw. injection Hw as <- <- <- <- <-.
      apply Hr', Hacc.
    + rewrite (worker_returns w _ _ _ _ _ _ offset Hge) in Hw. discriminate.
Qed.

(** The start of the workers settles nothing. *)
Lemma spawn_settles_nothing parallelUploads :
  forall offset start end_ ok,
    ChunkSettled start end_ ok ∉ trace (spawnAll parallelUploads offset).
Proof.
  induction parallelUploads as [|x rest IH]; intros offset s e ok Hin.
  - apply elem_of_nil in Hin as [].
  - cbn [spawn] in Hin.
    destruct (spawn_shape w httpClient resourceUrl archivePath fd fileSize
                maxChunkSize rest offset) as (wks0 & o0 & t0 & Hs0 & _).
    destruct (spawn_shape w httpClient resourceUrl archivePath fd fileSize
                maxChunkSize rest (offset + maxChunkSize))
      as (wks1 & o1 & t1 & Hs1 & _).
    destruct (Z.lt_ge_cases offset fileSize) as [Hlt|Hge].
    + destruct (worker_claims w httpClient resourceUrl archivePath fd fileSize
                  maxChunkSize offset Hlt) as (msg & r' & Hw' & _).
      rewrite Hw', bind_ok in Hin. cbn [outcome trace fst snd] in Hin.
      pose proof (IH (offset + maxChunkSize) s e ok) as Hrest.
      rewrite Hs1 in Hrest, Hin. rewrite bind_ok in Hin.
      cbn [outcome trace fst snd mret M_ret ret app] in Hin, Hrest.
      rewrite app_nil_r in Hin.
      apply elem_of_cons in Hin as [?|Hin]; [discriminate|].
      apply elem_of_cons in Hin as [?|Hin]; [discriminate|]. contradiction.
    + rewrite (worker_returns w _ _ _ _ _ _ offset Hge), bind_ret in Hin.
      pose proof (IH offset s e ok) as Hrest.
      rewrite Hs0 in Hrest, Hin. rewrite bind_ok in Hin.
      cbn [outcome trace fst snd mret M_ret ret app] in Hin, Hrest.
      rewrite app_nil_r in Hin. contradiction.
Qed.

(** A failed settlement in the trace of the pool is its rejection. *)
Lemma awaitAll_rejected completions :
  forall workers offset start end_,
    ChunkSettled start end_ false
      ∈ trace (awaitAll completions workers offset) ->
    exists msg, outcome (awaitAll completions workers offset) = Throw msg.
Proof.
  induction completions as [|i later IH]; intros workers offset s e Hin.
  - cbn in Hin. destruct (forallb isReturned workers);
      apply elem_of_nil in Hin as [].
  - destruct (forallb isReturned workers) eqn:Hall.
    + rewrite awaitAll_done in Hin by exact Hall. apply elem_of_nil in Hin as [].
    + destruct (awaitAll_step w httpClient resourceUrl archivePath fd fileSize
                  maxChunkSize i later workers offset Hall)
        as [(s' & e' & u & wk & offset' & t & Hi & Hw & Ho & Ht)
           |[(s' & e' & msg & _ & Heq)|Heq]].
      * rewrite Ho. rewrite Ht in Hin.
        apply elem_of_cons in Hin as [?|Hin]; [discriminate|].
        apply elem_of_app in Hin as [Hin|Hin]; [|exact (IH _ _ _ _ Hin)].
        exfalso. destruct (Z.lt_ge_cases offset fileSize) as [Hlt|Hge].
        -- destruct (worker_claims w httpClient resourceUrl archivePath fd
                       fileSize maxChunkSize offset Hlt)
             as (msg & r' & Hw' & _).
           rewrite Hw' in Hw. injection Hw as <- <- <-.
           apply elem_of_cons in Hin as [?|Hin]; [discriminate|].
           apply list_elem_of_singleton in Hin. discriminate.
        -- rewrite (worker_returns w _ _ _ _ _ _ offset Hge) in Hw.
           injection Hw as <- <- <-. apply elem_of_nil in Hin as [].
      * rewrite Heq. eauto.
      * rewrite Heq in Hin |- *. exact (IH _ _ _ _ Hin).
Qed.

End PoolRuns.

Lemma getCacheApiUrl_ok w resource :
  truthy (env w "ACTIONS_CACHE_URL") = true ->
  exists url msg, getCacheApiUrl w resource = (Ok url, [Debug msg]).
Proof.
  intros H. unfold getCacheApiUrl.
  destruct (env w "ACTIONS_CACHE_URL") as [base|]; [|discriminate].
  cbn [from_option id]. rewrite H. cbn [negb]. unfold debug.
  rewrite bind_emit. eauto.
Qed.

Lemma length_seqZ_nat n : 1 <= n -> seqZ 0 n <> [].
Proof.
  intros Hn Hnil. apply (f_equal length) in Hnil.
  rewrite length_seqZ in Hnil. cbn in Hnil. lia.
Qed.

Lemma issuedChunks_app t1 t2 :
  issuedChunks (t1 ++ t2) = issuedChunks t1 ++ issuedChunks t2.
Proof. apply omap_app. Qed.

(** ** C3: the chunks of an upload *)

(** C3. On the chunked path, with at least one worker, a positive chunk
    size and an archive of [fileSize >= 0] bytes that can be opened:
    - an upload that completes has issued exactly
      [ceil(fileSize / maxChunkSize)] chunk uploads, whose inclusive ranges
      tile [0 .. fileSize - 1] from left to right with between 1 and
      [maxChunkSize] bytes each;
    - an empty archive issues no chunk and completes, whatever the
      completions;
    - if the cache service accepts every chunk, there is an order of
      completions for which the upload completes. *)
Theorem C3_uploadFile_chunks_tile_the_archive (w : World)
    (completions : list nat) (httpClient : HttpClient) (cacheId : Z)
    (archivePath key : string) (options : option UploadOptions)
    (blobContainerName connectionString : option string)
    (concurrency maxChunkSize fileSize fd : Z) :
  truthy blobContainerName && truthy connectionString = false ->
  assertDefined w "uploadConcurrency"
    (uploadConcurrency (getUploadOptions w options)) = Ok concurrency ->
  1 <= concurrency <= 4294967295 ->
  assertDefined w "uploadChunkSize"
    (uploadChunkSize (getUploadOptions w options)) = Ok maxChunkSize ->
  0 < maxChunkSize ->
  getArchiveFileSizeInBytes w archivePath = Ok fileSize ->
  0 <= fileSize ->
  truthy (env w "ACTIONS_CACHE_URL") = true ->
  openSync w archivePath = Ok fd ->
  let upload c := uploadFile w c httpClient cacheId archivePath key options
                    blobContainerName connectionString in
  (outcome (upload completions) = Ok tt ->
     Z.of_nat (length (issuedChunks (trace (upload completions))))
     = (fileSize + maxChunkSize - 1) / maxChunkSize
     /\ tiles maxChunkSize 0 (issuedChunks (trace (upload completions)))
          (fileSize - 1))
  /\ (fileSize = 0 ->
        outcome (upload completions) = Ok tt
        /\ issuedChunks (trace (upload completions)) = [])
  /\ ((forall ev, chunkOf ev <> None -> chunkAccepted w ev = true) ->
        exists c, outcome (upload c) = Ok tt).
Proof.
  intros Hblob Hn Hn1 HC HC0 HF HF0 Henv Hfd upload.
  destruct (getCacheApiUrl_ok w ("caches/" +:+ toString cacheId) Henv)
    as (url & msg & Hurl).
  destruct (spawn_shape w httpClient url archivePath fd fileSize maxChunkSize
              (seqZ 0 concurrency) 0) as (ws & off & ts & Hs & _ & Hlen & _).
  assert (Hrange : (concurrency <? 0) || (4294967295 <? concurrency) = false).
  { apply orb_false_iff. split; apply Z.ltb_ge; lia. }
  assert (Heq : forall c, upload c = _)
    by (intros c; exact (uploadFile_chunked w c httpClient cacheId archivePath
                           key options blobContainerName connectionString
                           _ _ _ _ _ _ _ _ _
                           Hblob Hn Hrange HC HF Hurl Hfd Hs)).
  cbv zeta in Heq.
  assert (Hchunks : forall c,
            issuedChunks (trace (upload c))
            = issuedChunks ts
              ++ issuedChunks (trace (promiseAll w httpClient url archivePath
                                        fd fileSize maxChunkSize c ws off))).
  { intros c. rewrite Heq. cbn [trace snd].
    change (Debug "Awaiting all uploads" :: [Debug msg] ++ OpenSync archivePath :: ?t)
      with ([Debug "Awaiting all uploads"; Debug msg; OpenSync archivePath] ++ t).
    rewrite !issuedChunks_app. cbn [app issuedChunks omap chunkOf].
    destruct (outcome (promiseAll _ _ _ _ _ _ _ c ws off));
      cbn [issuedChunks omap chunkOf]; rewrite ?app_nil_r; reflexivity. }
  split; [|split].
  - intros Hok. rewrite Hchunks. rewrite Heq in Hok. cbn [outcome fst] in Hok.
    destruct (spawn_chunks w httpClient url archivePath fd fileSize maxChunkSize
                (seqZ 0 concurrency) HC0 0 ws off ts Hs)
      as (k1 & Hk1 & Hoff & Hf1 & Hret).
    destruct (awaitAll_chunks w httpClient url archivePath fd fileSize
                maxChunkSize completions HC0 ws off Hret Hok)
      as (k2 & Hk2 & Hf2 & Hend).
    assert (Hne : ws <> []).
    { intros ->. cbn in Hlen. symmetry in Hlen.
      apply length_zero_iff_nil in Hlen.
      exact (length_seqZ_nat concurrency (proj1 Hn1) Hlen). }
    specialize (Hend Hne).
    assert (Hall : issuedChunks ts
                   ++ issuedChunks (trace (promiseAll w httpClient url
                        archivePath fd fileSize maxChunkSize completions ws off))
                   = chunksFrom fileSize maxChunkSize (k1 + k2) 0).
    { rewrite Hk1, Hk2, Hoff. apply chunksFrom_app. }
    destruct (chunksFrom_tiles fileSize maxChunkSize HC0 (k1 + k2)%nat 0)
      as [Ht Hk]; [lia | | lia |].
    { rewrite <- Hall. apply Forall_app; split; assumption. }
    rewrite Hall, length_chunksFrom. split; [|exact Ht].
    rewrite Hk. f_equal. lia.
  - intros ->. rewrite Hchunks, Heq. cbn [outcome fst].
    destruct (spawn_at_end w httpClient url archivePath fd 0 maxChunkSize
                (seqZ 0 concurrency) 0 (Z.le_refl 0)) as (ws' & Hs' & Hall).
    rewrite Hs in Hs'. injection Hs' as -> -> ->.
    rewrite awaitAll_done by exact Hall. split; reflexivity.
  - intros Hacc.
    assert (Hacc' : forall s e,
              chunkAccepted w (chunkIssue httpClient url archivePath fd s e)
              = true)
      by (intros s e; apply Hacc; discriminate).
    destruct (awaitAll_can_finish w httpClient url archivePath fd fileSize
                maxChunkSize HC0 Hacc' _ ws off
                (spawn_accepted w httpClient url archivePath fd fileSize
                   maxChunkSize (seqZ 0 concurrency) Hacc' 0 ws off ts Hs)
                (Nat.le_refl _)) as [c Hc].
    exists c. rewrite Heq. exact Hc.
Qed.

Lemma C3_ten_MiB_witness :
  Z.of_nat (length (issuedChunks (trace
     (uploadFile tenMiBWorld [0; 1; 0; 1]%nat (createHttpClient tenMiBWorld) 7
        "/tmp/archive.tzst" "linux-build-8f3a" twoWorkersFourMiB None None))))
  = (10485760 + 4194304 - 1) / 4194304
  /\ tiles 4194304 0
       (issuedChunks (trace
          (uploadFile tenMiBWorld [0; 1; 0; 1]%nat (createHttpClient tenMiBWorld)
             7 "/tmp/archive.tzst" "linux-build-8f3a" twoWorkersFourMiB
             None None)))
       (10485760 - 1).
Proof.
  apply (proj1 (C3_uploadFile_chunks_tile_the_archive tenMiBWorld
                  [0; 1; 0; 1]%nat (createHttpClient tenMiBWorld) 7
                  "/tmp/archive.tzst" "linux-build-8f3a" twoWorkersFourMiB
                  None None 2 4194304 10485760 3
                  eq_refl eq_refl ltac:(lia) eq_refl ltac:(lia) eq_refl
                  ltac:(lia) eq_refl eq_refl)).
  vm_compute. reflexivity.
Defined.

Example uploadFile_ten_MiB_in_three_chunks :
  issuedChunks (trace
    (uploadFile tenMiBWorld [0; 1; 0; 1]%nat (createHttpClient tenMiBWorld) 7
       "/tmp/archive.tzst" "linux-build-8f3a" twoWorkersFourMiB None None))
  = [(0, 4194303); (4194304, 8388607); (8388608, 10485759)].
Proof. vm_compute. reflexivity. Qed.

(** C3 as stated fails: the workers are what issues chunks, and their
    number is the configured concurrency. With [uploadConcurrency: 0] the
    array of workers is empty: the upload of an archive of 10 MiB in
    chunks of 4 MiB opens and closes the archive and returns without
    having issued one of the [ceil(10485760 / 4194304) = 3] chunks. *)
Lemma C3_no_worker_sends_no_chunk :
  getArchiveFileSizeInBytes tenMiBWorld "/tmp/archive.tzst" = Ok 10485760
  /\ (10485760 + 4194304 - 1) / 4194304 = 3
  /\ uploadFile tenMiBWorld [] (createHttpClient tenMiBWorld) 7
       "/tmp/archive.tzst" "linux-build-8f3a" noWorkers None None
     = (Ok tt,
        [Debug "Awaiting all uploads";
         Debug "Resource Url: https://artifactcache.example/_apis/artifactcache/caches/7";
         OpenSync "/tmp/archive.tzst"; CloseSync 3])
  /\ issuedChunks (trace
        (uploadFile tenMiBWorld [] (createHttpClient tenMiBWorld) 7
           "/tmp/archive.tzst" "linux-build-8f3a" noWorkers None None))
     = [].
Proof. vm_compute. repeat split; reflexivity. Qed.

(** ** C7: the commit comes after every chunk *)

Lemma saveCache_phases (w : World) (completions : list nat) (cacheId : Z)
    (archivePath key : string) (options : option UploadOptions)
    (blobContainerName connectionString : option string) :
  let up := uploadFile w completions (createHttpClient w) cacheId archivePath
              key options blobContainerName connectionString in
  saveCache w completions cacheId archivePath key options blobContainerName
    connectionString
  = (match outcome up with
     | Ok _ => outcome (commitPhase w cacheId archivePath)
     | Throw msg => Throw msg
     | Pending => Pending
     end,
     Debug "Upload cache"
       :: trace up
       ++ match outcome up with
          | Ok _ => trace (commitPhase w cacheId archivePath)
          | _ => []
          end).
Proof.
  intros up. unfold saveCache. fold up. fold (commitPhase w cacheId archivePath).
  unfold debug at 1. rewrite bind_emit. cbn [outcome trace fst snd].
  destruct up as [[u|msg|] t]; cbn [outcome trace fst snd].
  - rewrite bind_ok. reflexivity.
  - rewrite bind_throw, app_nil_r. reflexivity.
  - rewrite bind_pending, app_nil_r. reflexivity.
Qed.

Lemma commitCache_trace w httpClient cacheId filesize ev :
  ev ∈ trace (commitCache w httpClient cacheId filesize) ->
  (exists m, ev = Debug m)
  \/ (exists req, ev = Attempted "commitCache" req /\ chunkOf ev = None).
Proof.
  unfold commitCache. rewrite retryTypedResponse_trace. intros Hin.
  apply elem_of_app in Hin as [Hin|Hin].
  - left. destruct (getCacheApiUrl w ("caches/" +:+ toString cacheId))
      as [[url|msg|] t] eqn:Hurl;
      rewrite ?bind_ok, ?bind_throw, ?bind_pending in Hin;
      cbn [trace snd outcome fst mret M_ret ret] in Hin;
      rewrite ?app_nil_r in Hin;
      apply (getCacheApiUrl_trace w ("caches/" +:+ toString cacheId));
      rewrite Hurl; exact Hin.
  - right. apply list_elem_of_singleton in Hin as ->.
    eexists. split; [reflexivity|].
    destruct (getCacheApiUrl w ("caches/" +:+ toString cacheId))
      as [[url|msg|] t];
      rewrite ?bind_ok, ?bind_throw, ?bind_pending; reflexivity.
Qed.

Lemma commitCache_commits w httpClient cacheId filesize :
  exists req,
    Attempted "commitCache" req ∈ trace (commitCache w httpClient cacheId filesize).
Proof.
  unfold commitCache. rewrite retryTypedResponse_trace. eexists.
  apply elem_of_app. right. apply list_elem_of_here.
Qed.

(** After the upload, [saveCache] logs, measures and commits: nothing in
    this phase is a chunk upload or a settlement, and it cannot succeed
    without having issued the commit. *)
Lemma commitPhase_trace w cacheId archivePath ev :
  ev ∈ trace (commitPhase w cacheId archivePath) ->
  chunkOf ev = None /\ forall start end_ ok, ev <> ChunkSettled start end_ ok.
Proof.
  unfold commitPhase, debug, info, lift. rewrite bind_emit.
  cbn [outcome trace fst snd]. intros Hin.
  apply elem_of_cons in Hin as [->|Hin]; [split; [reflexivity|discriminate]|].
  destruct (getArchiveFileSizeInBytes w archivePath) as [sz|msg|];
    [|apply elem_of_nil in Hin as []..].
  rewrite bind_ret, bind_emit in Hin. cbn [outcome trace fst snd] in Hin.
  apply elem_of_cons in Hin as [->|Hin]; [split; [reflexivity|discriminate]|].
  assert (Hcommit : forall ev,
            ev ∈ trace (commitCache w (createHttpClient w) cacheId sz) ->
            chunkOf ev = None /\ forall s e ok, ev <> ChunkSettled s e ok).
  { intros ev' H. apply commitCache_trace in H as [[m ->]|(req & -> & Hq)].
    - split; [reflexivity|discriminate].
    - split; [exact Hq|discriminate]. }
  destruct (commitCache w (createHttpClient w) cacheId sz) as [[resp|msg|] t];
    rewrite ?bind_ok, ?bind_throw, ?bind_pending in Hin;
    cbn [outcome trace fst snd] in Hin, Hcommit; [|exact (Hcommit _ Hin)..].
  apply elem_of_app in Hin as [Hin|Hin]; [exact (Hcommit _ Hin)|].
  destruct (isSuccessStatusCode w (Some (statusCode resp))); cbn in Hin.
  - apply list_elem_of_singleton in Hin as ->. split; [reflexivity|discriminate].
  - apply elem_of_nil in Hin as [].
Qed.

Lemma commitPhase_commits w cacheId archivePath u :
  outcome (commitPhase w cacheId archivePath) = Ok u ->
  exists req,
    Attempted "commitCache" req ∈ trace (commitPhase w cacheId archivePath).
Proof.
  unfold commitPhase, debug, info, lift. rewrite bind_emit.
  cbn [outcome trace fst snd].
  destruct (getArchiveFileSizeInBytes w archivePath) as [sz|msg|];
    [|discriminate..].
  rewrite bind_ret, bind_emit. cbn [outcome trace fst snd].
  destruct (commitCache_commits w (createHttpClient w) cacheId sz) as [req Hreq].
  destruct (commitCache w (createHttpClient w) cacheId sz) as [[resp|msg|] t];
    rewrite ?bind_ok, ?bind_throw, ?bind_pending;
    cbn [outcome trace fst snd] in *; [|discriminate..].
  intros _. exists req.
  apply list_elem_of_further, list_elem_of_further, elem_of_app. left. exact Hreq.
Qed.

Lemma uploadEvent_not_commit ev req :
  uploadEvent ev -> ev <> Attempted "commitCache" req.
Proof.
  intros Hev ->. destruct req as [[]| |]; cbn in Hev; try contradiction.
  unfold chunkName in Hev. discriminate.
Qed.

Lemma split_after (l1 l2 pre post : list Event) (x : Event) :
  l1 ++ l2 = pre ++ x :: post -> x ∉ l1 ->
  exists pre2, pre = l1 ++ pre2 /\ l2 = pre2 ++ x :: post.
Proof.
  revert pre. induction l1 as [|y l1 IH]; intros pre Heq Hnot.
  - exists pre. split; [reflexivity | exact Heq].
  - destruct pre as [|p pre]; cbn in Heq; injection Heq as Hhead Htail.
    + subst y. exfalso. apply Hnot, list_elem_of_here.
    + subst p. destruct (IH pre Htail) as (pre2 & -> & ->).
      * intros Hin. apply Hnot, list_elem_of_further, Hin.
      * exists pre2. split; reflexivity.
Qed.

(** What a run of [uploadFile] guarantees: its trace holds upload events
    only; if it returns, every chunk it issued has been settled
    successfully later in the trace and was accepted by the cache service;
    and a failed settlement in its trace makes it throw. *)
Lemma uploadFile_acked (w : World) (completions : list nat)
    (httpClient : HttpClient) (cacheId : Z) (archivePath key : string)
    (options : option UploadOptions)
    (blobContainerName connectionString : option string) :
  let m := uploadFile w completions httpClient cacheId archivePath key options
             blobContainerName connectionString in
  (forall ev, ev ∈ trace m -> uploadEvent ev)
  /\ (forall u, outcome m = Ok u ->
        allAcked (trace m)
        /\ forall ev, ev ∈ trace m -> chunkOf ev <> None ->
             chunkAccepted w ev = true)
  /\ (forall start end_, ChunkSettled start end_ false ∈ trace m ->
        exists msg, outcome m = Throw msg).
Proof.
  intros m. subst m.
  destruct (uploadFile_cases w completions httpClient cacheId archivePath key
              options blobContainerName connectionString)
    as [[Hprep _]
       |(n & C & F & url & tu & fd & ws & off & ts
         & Hblob & Hn & Hlen & HC & HF & Hurl & Hfd & Hs)].
  - split; [|split].
    + intros ev Hin. apply preparation_quiet, Hprep, Hin.
    + intros u _. split.
      * apply allAcked_quiet. intros ev Hin.
        apply preparation_quiet, Hprep, Hin.
      * intros ev Hin Hc. apply Hprep, preparation_quiet in Hin as [Hq _].
        contradiction.
    + intros s e Hin. apply Hprep in Hin. destruct Hin.
  - pose proof (uploadFile_chunked w completions httpClient cacheId archivePath
                  key options blobContainerName connectionString
                  _ _ _ _ _ _ _ _ _ Hblob Hn Hlen HC HF Hurl Hfd Hs) as Heq.
    cbv zeta in Heq.
    set (pool := promiseAll w httpClient url archivePath fd F C completions
                   ws off) in *.
    destruct (spawn_shape w httpClient url archivePath fd F C (seqZ 0 n) 0)
      as (ws' & off' & ts' & Hs' & Hev & _ & Hlink).
    rewrite Hs in Hs'. injection Hs' as <- <- <-.
    assert (Htu : forall ev, ev ∈ tu -> preparation ev).
    { intros ev Hin.
      apply (getCacheApiUrl_quiet w ("caches/" +:+ toString cacheId)).
      rewrite Hurl. exact Hin. }
    assert (Hclose : forall ev,
              ev ∈ match outcome pool with Pending => [] | _ => [CloseSync fd] end ->
              ev = CloseSync fd).
    { intros ev Hin. destruct (outcome pool);
        [apply list_elem_of_singleton in Hin; exact Hin
        |apply list_elem_of_singleton in Hin; exact Hin
        |apply elem_of_nil in Hin as []]. }
    assert (Hparts : forall ev,
              ev ∈ trace (uploadFile w completions httpClient cacheId
                            archivePath key options blobContainerName
                            connectionString) ->
              preparation ev \/ ev ∈ ts \/ ev ∈ trace pool \/ ev = CloseSync fd).
    { intros ev Hin. rewrite Heq in Hin. cbn [trace snd] in Hin.
      apply elem_of_cons in Hin as [->|Hin]; [left; exact I|].
      apply elem_of_app in Hin as [Hin|Hin]; [left; exact (Htu _ Hin)|].
      apply elem_of_cons in Hin as [->|Hin]; [left; exact I|].
      apply elem_of_app in Hin as [Hin|Hin]; [right; left; exact Hin|].
      apply elem_of_app in Hin as [Hin|Hin]; [right; right; left; exact Hin|].
      right; right; right. exact (Hclose _ Hin). }
    split; [|split].
    + intros ev Hin.
      destruct (Hparts ev Hin) as [Hp|[Hin'|[Hin'| ->]]].
      * apply preparation_quiet, Hp.
      * rewrite Forall_forall in Hev. apply Hev, Hin'.
      * pose proof (awaitAll_events w httpClient url archivePath fd F C
                      completions ws off) as Hall.
        rewrite Forall_forall in Hall. apply Hall, Hin'.
      * exact I.
    + intros u Hok. rewrite Heq in Hok. cbn [outcome fst] in Hok.
      destruct u.
      destruct (awaitAll_acked w httpClient url archivePath fd F C completions
                  ws off Hok) as (Hws & Hacked & Hacc).
      fold pool in Hws, Hacked, Hacc.
      split.
      * rewrite Heq. cbn [trace snd].
        change (Debug "Awaiting all uploads" :: tu ++ OpenSync archivePath :: ?t)
          with ([Debug "Awaiting all uploads"] ++ tu ++ [OpenSync archivePath] ++ t).
        apply allAcked_app;
          [intros ev s e Hin Hc; apply list_elem_of_singleton in Hin as ->;
           discriminate|].
        apply allAcked_app;
          [intros ev s e Hin Hc; apply Htu, preparation_quiet in Hin as [Hq _];
           congruence|].
        apply allAcked_app;
          [intros ev s e Hin Hc; apply list_elem_of_singleton in Hin as ->;
           discriminate|].
        apply allAcked_app.
        -- intros ev s e Hin Hc.
           destruct (Hlink ev s e Hin Hc) as (r & Hr & _).
           apply elem_of_app. left. apply (Hws s e r Hr).
        -- apply allAcked_app_quiet; [exact Hacked|].
           intros ev Hin. apply Hclose in Hin as ->. reflexivity.
      * intros ev Hin Hc.
        destruct (Hparts ev Hin) as [Hp|[Hin'|[Hin'| ->]]].
        -- apply preparation_quiet in Hp as [Hq _]. contradiction.
        -- destruct (chunkOf ev) as [[s e]|] eqn:Hce; [|contradiction].
           destruct (Hlink ev s e Hin' Hce) as (r & Hr & Hra).
           apply Hra. apply (Hws s e r Hr).
        -- exact (Hacc ev Hin' Hc).
        -- contradiction.
    + intros s e Hin.
      destruct (Hparts _ Hin) as [Hp|[Hin'|[Hin'| ?]]].
      * destruct Hp.
      * exfalso.
        apply (spawn_settles_nothing w httpClient url archivePath fd F C
                 (seqZ 0 n) 0 s e false).
        rewrite Hs. exact Hin'.
      * destruct (awaitAll_rejected w httpClient url archivePath fd F C
                    completions ws off s e Hin') as [msg Hmsg].
        exists msg. rewrite Heq. exact Hmsg.
      * discriminate.
Qed.

(** C7. In every run of [saveCache]: whenever the commit request is in
    the trace, every chunk upload of the run was issued before it, had its
    promise settled successfully before it, and was accepted by the cache
    service, and nothing is uploaded after it; so a run that issues a chunk
    the service does not accept (retries exhausted, or a non-success
    status) never issues the commit and does not succeed, and once the
    failed settlement is delivered [saveCache] throws. *)
Theorem C7_commit_only_after_every_chunk_is_acknowledged (w : World)
    (completions : list nat) (cacheId : Z) (archivePath key : string)
    (options : option UploadOptions)
    (blobContainerName connectionString : option string) :
  let run := saveCache w completions cacheId archivePath key options
               blobContainerName connectionString in
  (forall pre req post,
     trace run = pre ++ Attempted "commitCache" req :: post ->
     allAcked pre
     /\ (forall ev, ev ∈ pre -> chunkOf ev <> None -> chunkAccepted w ev = true)
     /\ chunkOf (Attempted "commitCache" req) = None
     /\ (forall ev, ev ∈ post -> chunkOf ev = None))
  /\ (forall ev, ev ∈ trace run -> chunkOf ev <> None ->
        chunkAccepted w ev = false ->
        (forall u, outcome run <> Ok u)
        /\ forall req, Attempted "commitCache" req ∉ trace run)
  /\ (forall start end_, ChunkSettled start end_ false ∈ trace run ->
        (exists msg, outcome run = Throw msg)
        /\ forall req, Attempted "commitCache" req ∉ trace run).
Proof.
  intros run. subst run. rewrite saveCache_phases. cbv zeta.
  set (up := uploadFile w completions (createHttpClient w) cacheId archivePath
               key options blobContainerName connectionString).
  destruct (uploadFile_acked w completions (createHttpClient w) cacheId
              archivePath key options blobContainerName connectionString)
    as (Hev & Hok & Hrej). fold up in Hev, Hok, Hrej.
  set (tail := match outcome up with
               | Ok _ => trace (commitPhase w cacheId archivePath)
               | _ => []
               end).
  cbn [outcome trace fst snd].
  assert (Htail : forall ev, ev ∈ tail ->
            (exists u, outcome up = Ok u)
            /\ ev ∈ trace (commitPhase w cacheId archivePath)).
  { intros ev Hin. subst tail. destruct (outcome up) as [u| |];
      [split; [eauto | exact Hin] | apply elem_of_nil in Hin as [] ..]. }
  assert (Hfront : forall req,
            Attempted "commitCache" req ∉ Debug "Upload cache" :: trace up).
  { intros req Hin. apply elem_of_cons in Hin as [?|Hin]; [discriminate|].
    exact (uploadEvent_not_commit _ req (Hev _ Hin) eq_refl). }
  assert (Hsplit : forall pre req post,
     Debug "Upload cache" :: trace up ++ tail
     = pre ++ Attempted "commitCache" req :: post ->
     allAcked pre
     /\ (forall ev, ev ∈ pre -> chunkOf ev <> None -> chunkAccepted w ev = true)
     /\ chunkOf (Attempted "commitCache" req) = None
     /\ (forall ev, ev ∈ post -> chunkOf ev = None)).
  { intros pre req post Heq.
    destruct (split_after (Debug "Upload cache" :: trace up) tail pre post
                (Attempted "commitCache" req) Heq (Hfront req))
      as (pre2 & -> & Htl).
    assert (Hin : Attempted "commitCache" req ∈ tail)
      by (rewrite Htl; apply elem_of_app; right; apply list_elem_of_here).
    destruct (Htail _ Hin) as [[u Hu] _]. destruct (Hok u Hu) as [Hacked Hacc].
    assert (Hq : forall ev, ev ∈ tail -> chunkOf ev = None).
    { intros ev Hev'. apply Htail in Hev' as [_ Hev'].
      apply (commitPhase_trace w cacheId archivePath ev Hev'). }
    split; [|split; [|split]].
    - apply allAcked_app_quiet.
      + cbn [allAcked]. split; [intros ? ? [=] | exact Hacked].
      + intros ev Hev'. apply Hq. rewrite Htl. apply elem_of_app. left.
        exact Hev'.
    - intros ev Hev' Hc. apply elem_of_app in Hev' as [Hev'|Hev'].
      + apply elem_of_cons in Hev' as [->|Hev']; [contradiction|].
        exact (Hacc ev Hev' Hc).
      + exfalso. apply Hc, Hq. rewrite Htl. apply elem_of_app. left. exact Hev'.
    - apply Hq, Hin.
    - intros ev Hev'. apply Hq. rewrite Htl. apply elem_of_app. right.
      apply list_elem_of_further, Hev'. }
  assert (Hcommit : forall u,
            match outcome up with
            | Ok _ => outcome (commitPhase w cacheId archivePath)
            | Throw msg => Throw msg
            | Pending => Pending
            end = Ok u ->
            exists req, Attempted "commitCache" req
                        ∈ Debug "Upload cache" :: trace up ++ tail).
  { intros u Hu. subst tail. destruct (outcome up); [|discriminate..].
    destruct (commitPhase_commits w cacheId archivePath u Hu) as [req Hreq].
    exists req. apply list_elem_of_further, elem_of_app. right. exact Hreq. }
  split; [exact Hsplit | split].
  - intros ev Hin Hc Hrefused.
    assert (Hnone : forall req,
              Attempted "commitCache" req
              ∉ Debug "Upload cache" :: trace up ++ tail).
    { intros req Hreq. apply list_elem_of_split in Hreq as (pre & post & Heq).
      destruct (Hsplit pre req post Heq) as (_ & Hacc & Hcq & Hpost).
      rewrite Heq in Hin. apply elem_of_app in Hin as [Hin|Hin].
      - rewrite (Hacc ev Hin Hc) in Hrefused. discriminate.
      - apply elem_of_cons in Hin as [->|Hin]; [contradiction|].
        apply Hc, Hpost, Hin. }
    split; [|exact Hnone].
    intros u Hu. destruct (Hcommit u Hu) as [req Hreq]. exact (Hnone req Hreq).
  - intros s e Hin.
    apply elem_of_cons in Hin as [?|Hin]; [discriminate|].
    apply elem_of_app in Hin as [Hin|Hin].
    + destruct (Hrej s e Hin) as [msg Hmsg]. split.
      * exists msg. rewrite Hmsg. reflexivity.
      * intros req Hreq.
        apply elem_of_cons in Hreq as [?|Hreq]; [discriminate|].
        apply elem_of_app in Hreq as [Hreq|Hreq].
        -- exact (uploadEvent_not_commit _ req (Hev _ Hreq) eq_refl).
        -- apply Htail in Hreq as [[u Hu] _]. congruence.
    + exfalso. apply Htail in Hin as [_ Hin].
      apply (proj2 (commitPhase_trace w cacheId archivePath _ Hin) s e false).
      reflexivity.
Qed.

Ltac find_event :=
  match goal with
  | |- ?x ∈ ?l => let l' := eval vm_compute in l in change (x ∈ l')
  end;
  repeat first [apply list_elem_of_here | apply list_elem_of_further].

Lemma C7_refused_chunk_witness :
  (exists msg,
     outcome (saveCache refusingWorld [1; 0]%nat 7 "/tmp/archive.tzst"
                "linux-build-8f3a" twoWorkersFourMiB None None) = Throw msg)
  /\ forall req,
       Attempted "commitCache" req
       ∉ trace (saveCache refusingWorld [1; 0]%nat 7 "/tmp/archive.tzst"
                  "linux-build-8f3a" twoWorkersFourMiB None None).
Proof.
  apply (proj2 (proj2 (C7_commit_only_after_every_chunk_is_acknowledged
                         refusingWorld [1; 0]%nat 7 "/tmp/archive.tzst"
                         "linux-build-8f3a" twoWorkersFourMiB None None))
           4194304 8388607).
  find_event.
Defined.

Example saveCache_ten_MiB_commits_last :
  outcome (saveCache tenMiBWorld [0; 1; 0; 1]%nat 7 "/tmp/archive.tzst"
             "linux-build-8f3a" twoWorkersFourMiB None None) = Ok tt
  /\ filter (fun ev => bool_decide (chunkOf ev <> None))
       (trace (saveCache tenMiBWorld [0; 1; 0; 1]%nat 7 "/tmp/archive.tzst"
                 "linux-build-8f3a" twoWorkersFourMiB None None))
     = map (fun c => chunkIssue (createHttpClient tenMiBWorld)
                       "https://artifactcache.example/_apis/artifactcache/caches/7"
                       "/tmp/archive.tzst" 3 c.1 c.2)
           [(0, 4194303); (4194304, 8388607); (8388608, 10485759)]
  /\ last (trace (saveCache tenMiBWorld [0; 1; 0; 1]%nat 7 "/tmp/archive.tzst"
                    "linux-build-8f3a" twoWorkersFourMiB None None))
     = Some (Info "Cache saved successfully").
Proof. vm_compute. repeat split. Qed.

(** * Further properties of the client *)

(** ** The upload workers, for every service and every order of completions *)

Section PoolInvariants.

Context (w : World) (httpClient : HttpClient)
        (resourceUrl archivePath : string) (fd fileSize maxChunkSize : Z).

Local Abbreviation worker :=
  (uploadWorker w httpClient resourceUrl archivePath fd fileSize maxChunkSize).
Local Abbreviation spawnAll :=
  (spawn w httpClient resourceUrl archivePath fd fileSize maxChunkSize).
Local Abbreviation awaitAll :=
  (promiseAll w httpClient resourceUrl archivePath fd fileSize maxChunkSize).
Local Abbreviation drainAll :=
  (drain w httpClient resourceUrl archivePath fd fileSize maxChunkSize).
Local Abbreviation survive :=
  (survivors w httpClient resourceUrl archivePath fd fileSize maxChunkSize).
Local Abbreviation issue := (chunkIssue httpClient resourceUrl archivePath fd).
Local Abbreviation ranges := (chunksFrom fileSize maxChunkSize).
Local Abbreviation chunkEnd' := (chunkEnd fileSize maxChunkSize).

(** A worker at the head of its loop: it claims (two events, one more
    suspended upload, the cursor one chunk further) or returns. *)
Lemma worker_cases offset :
  (offset < fileSize
   /\ exists msg settles,
        worker offset
        = (Ok (Awaiting offset (chunkEnd' offset) settles,
               offset + maxChunkSize),
           [Debug msg; issue offset (chunkEnd' offset)]))
  \/ (fileSize <= offset /\ worker offset = (Ok (Returned, offset), [])).
Proof.
  destruct (Z.lt_ge_cases offset fileSize) as [Hlt|Hge].
  - left. split; [exact Hlt|].
    destruct (worker_claims w httpClient resourceUrl archivePath fd fileSize
                maxChunkSize offset Hlt) as (msg & r & Hw & _). eauto.
  - right. split; [exact Hge|]. apply worker_returns, Hge.
Qed.

Lemma spawn_cons x rest offset :
  exists wk offset1 t1 wks offset2 t2,
    worker offset = (Ok (wk, offset1), t1)
    /\ spawnAll rest offset1 = (Ok (wks, offset2), t2)
    /\ spawnAll (x :: rest) offset = (Ok (wk :: wks, offset2), t1 ++ t2).
Proof.
  destruct (worker_total w httpClient resourceUrl archivePath fd fileSize
              maxChunkSize offset) as (wk & offset1 & t1 & Hw).
  destruct (spawn_shape w httpClient resourceUrl archivePath fd fileSize
              maxChunkSize rest offset1) as (wks & offset2 & t2 & Hs & _).
  exists wk, offset1, t1, wks, offset2, t2. split; [exact Hw|].
  split; [exact Hs|]. cbn [spawn]. rewrite Hw, bind_ok.
  cbn [outcome trace fst snd]. rewrite Hs, bind_ok.
  cbn [outcome trace fst snd mret M_ret ret]. rewrite app_nil_r. reflexivity.
Qed.

(** Whatever holds of log lines, chunk uploads and settlements holds of
    every event the workers produce. *)
Lemma spawn_events_are (P : Event -> Prop) :
  (forall msg, P (Debug msg)) ->
  (forall start end_ ok, P (ChunkSettled start end_ ok)) ->
  (forall start end_, P (issue start end_)) ->
  forall parallelUploads offset,
    Forall P (trace (spawnAll parallelUploads offset)).
Proof.
  intros Hd Hs' Hi. induction parallelUploads as [|x rest IH]; intros offset.
  - constructor.
  - destruct (spawn_cons x rest offset)
      as (wk & o1 & t1 & wks & o2 & t2 & Hw & Hs & ->).
    cbn [trace snd]. apply Forall_app. split.
    + destruct (worker_cases offset) as [(_ & msg & r & Hw')|[_ Hw']];
        rewrite Hw' in Hw; injection Hw as <- <- <-;
        repeat constructor; auto.
    + specialize (IH o1). rewrite Hs in IH. exact IH.
Qed.

Lemma awaitAll_events_are (P : Event -> Prop) :
  (forall msg, P (Debug msg)) ->
  (forall start end_ ok, P (ChunkSettled start end_ ok)) ->
  (forall start end_, P (issue start end_)) ->
  forall completions workers offset,
    Forall P (trace (awaitAll completions workers offset)).
Proof.
  intros Hd Hs' Hi.
  induction completions as [|i later IH]; intros workers offset.
  - cbn. destruct (forallb isReturned workers); constructor.
  - destruct (forallb isReturned workers) eqn:Hall.
    + rewrite awaitAll_done by exact Hall. constructor.
    + destruct (awaitAll_step w httpClient resourceUrl archivePath fd fileSize
                  maxChunkSize i later workers offset Hall)
        as [(s & e & u & wk & offset' & t & _ & Hw & _ & Ht)
           |[(s & e & msg & _ & ->)| ->]].
      * rewrite Ht. constructor; [apply Hs'|]. apply Forall_app; split.
        -- destruct (worker_cases offset) as [(_ & msg & r & Hw')|[_ Hw']];
             rewrite Hw' in Hw; injection Hw as <- <- <-;
             repeat constructor; auto.
        -- apply IH.
      * repeat constructor. apply Hs'.
      * apply IH.
Qed.

(** The ranges are claimed in the order of the cursor, whatever the order
    of completions and whatever the service answers. *)
Lemma spawn_prefix parallelUploads :
  forall offset,
    exists k : nat,
      issuedChunks (trace (spawnAll parallelUploads offset)) = ranges k offset
      /\ (exists workers t,
            spawnAll parallelUploads offset
            = (Ok (workers, offset + Z.of_nat k * maxChunkSize), t))
      /\ Forall (fun c => c.1 < fileSize)
           (issuedChunks (trace (spawnAll parallelUploads offset))).
Proof.
  induction parallelUploads as [|x rest IH]; intros offset.
  - exists O. split; [reflexivity|]. split; [|constructor].
    exists [], [].
    replace (offset + Z.of_nat 0 * maxChunkSize) with offset by lia.
    reflexivity.
  - destruct (spawn_cons x rest offset)
      as (wk & o1 & t1 & wks & o2 & t2 & Hw & Hs & Heq).
    destruct (IH o1) as (k & Hk & (ws' & t' & Hs') & Hf).
    rewrite Hs in Hs', Hk, Hf. injection Hs' as <- -> <-.
    cbn [trace snd] in Hk, Hf. rewrite Heq. cbn [trace snd].
    destruct (worker_cases offset) as [(Hlt & msg & r & Hw')|[Hge Hw']];
      rewrite Hw' in Hw; injection Hw as <- <- <-.
    + exists (S k). cbn [app]. rewrite issuedChunks_claim.
      split; [cbn [chunksFrom]; rewrite Hk; reflexivity|].
      split; [|constructor; [exact Hlt | exact Hf]].
      do 2 eexists.
      replace (offset + Z.of_nat (S k) * maxChunkSize)
        with (offset + maxChunkSize + Z.of_nat k * maxChunkSize) by lia.
      reflexivity.
    + exists k. cbn [app]. split; [exact Hk|]. split; [|exact Hf].
      do 2 eexists. reflexivity.
Qed.

Lemma awaitAll_prefix completions :
  forall workers offset,
    exists k : nat,
      issuedChunks (trace (awaitAll completions workers offset))
      = ranges k offset
      /\ Forall (fun c => c.1 < fileSize)
           (issuedChunks (trace (awaitAll completions workers offset))).
Proof.
  induction completions as [|i later IH]; intros workers offset.
  - exists O. cbn. destruct (forallb isReturned workers);
      split; first [reflexivity | constructor].
  - destruct (forallb isReturned workers) eqn:Hall.
    + rewrite awaitAll_done by exact Hall. exists O.
      split; [reflexivity | constructor].
    + destruct (awaitAll_step w httpClient resourceUrl archivePath fd fileSize
                  maxChunkSize i later workers offset Hall)
        as [(s & e & u & wk & offset' & t & _ & Hw & _ & Ht)
           |[(s & e & msg & _ & ->)| ->]].
      * rewrite Ht, issuedChunks_settled.
        destruct (IH (<[i := wk]> workers) offset') as (k & Hk & Hf).
        destruct (worker_cases offset) as [(Hlt & msg & r & Hw')|[Hge Hw']];
          rewrite Hw' in Hw; injection Hw as <- <- <-.
        -- exists (S k). cbn [app]. rewrite issuedChunks_claim.
           split; [cbn [chunksFrom]; rewrite Hk; reflexivity|].
           constructor; [exact Hlt | exact Hf].
        -- exists k. split; assumption.
      * exists O. split; [reflexivity | constructor].
      * apply IH.
Qed.

Lemma outstandingAfter_debug cur msg :
  outstandingAfter cur (Debug msg) = cur.
Proof. reflexivity. Qed.

Lemma outstandingAfter_issue cur start end_ :
  outstandingAfter cur (issue start end_) = cur + 1.
Proof. reflexivity. Qed.

Lemma outstandingAfter_settle cur start end_ ok :
  outstandingAfter cur (ChunkSettled start end_ ok) = cur - 1.
Proof. reflexivity. Qed.

Lemma outstanding_cons cur ev t :
  outstanding cur (ev :: t) = outstanding (outstandingAfter cur ev) t.
Proof. reflexivity. Qed.

Lemma atMost_app n t1 : forall cur t2,
  atMost n cur (t1 ++ t2)
  <-> atMost n cur t1 /\ atMost n (outstanding cur t1) t2.
Proof.
  induction t1 as [|ev t1 IH]; intros cur t2; cbn [app atMost outstanding fold_left].
  - split; [|tauto]. intros H. split; [|exact H]. destruct t2; cbn in H; tauto.
  - rewrite IH. unfold outstanding. tauto.
Qed.

Lemma atMost_start n t : forall cur, atMost n cur t -> cur <= n.
Proof. destruct t; cbn; tauto. Qed.

Lemma awaiting_le_length workers :
  (awaiting workers <= length workers)%nat.
Proof. induction workers as [|[|] ws IH]; cbn; lia. Qed.

(** While the workers start, each claim adds one outstanding upload. *)
Lemma spawn_outstanding n parallelUploads :
  forall offset cur,
    cur + Z.of_nat (length parallelUploads) <= n ->
    exists workers offset' t,
      spawnAll parallelUploads offset = (Ok (workers, offset'), t)
      /\ atMost n cur t
      /\ outstanding cur t = cur + Z.of_nat (awaiting workers).
Proof.
  induction parallelUploads as [|x rest IH]; intros offset cur Hn.
  - exists [], offset, []. cbn in *. repeat split; lia.
  - destruct (spawn_cons x rest offset)
      as (wk & o1 & t1 & wks & o2 & t2 & Hw & Hs & Heq).
    cbn [length] in Hn.
    destruct (worker_cases offset) as [(Hlt & msg & r & Hw')|[Hge Hw']];
      rewrite Hw' in Hw; injection Hw as <- <- <-.
    + destruct (IH (offset + maxChunkSize) (cur + 1))
        as (ws' & o' & t' & Hs' & Hat & Hout); [lia|].
      rewrite Hs in Hs'. injection Hs' as <- <- <-.
      do 3 eexists. split; [exact Heq|].
      cbn [app atMost awaiting].
      rewrite !outstanding_cons, !outstandingAfter_debug, !outstandingAfter_issue.
      split; [|rewrite Hout; lia].
      split; [lia|]. split; [lia | exact Hat].
    + destruct (IH offset cur) as (ws' & o' & t' & Hs' & Hat & Hout); [lia|].
      rewrite Hs in Hs'. injection Hs' as <- <- <-.
      do 3 eexists. split; [exact Heq|]. cbn [app awaiting].
      split; assumption.
Qed.

(** While the pool runs, the uploads outstanding are those of the suspended
    workers: never more than there are workers. *)
Lemma awaitAll_outstanding completions :
  forall workers offset,
    atMost (Z.of_nat (length workers)) (Z.of_nat (awaiting workers))
      (trace (awaitAll completions workers offset)).
Proof.
  induction completions as [|i later IH]; intros workers offset;
    pose proof (awaiting_le_length workers) as Hle.
  - cbn. destruct (forallb isReturned workers); cbn; lia.
  - destruct (forallb isReturned workers) eqn:Hall.
    + rewrite awaitAll_done by exact Hall. cbn. lia.
    + destruct (awaitAll_step w httpClient resourceUrl archivePath fd fileSize
                  maxChunkSize i later workers offset Hall)
        as [(s & e & u & wk & offset' & t & Hi & Hw & _ & Ht)
           |[(s & e & msg & _ & ->)| ->]].
      * rewrite Ht. cbn [atMost]. split; [lia|].
        rewrite outstandingAfter_settle.
        pose proof (awaiting_insert_returned workers i s e _ Hi) as Hret.
        specialize (IH (<[i := wk]> workers) offset').
        rewrite length_insert in IH.
        destruct (worker_cases offset) as [(Hlt & msg & r & Hw')|[Hge Hw']];
          rewrite Hw' in Hw; injection Hw as <- <- <-.
        -- rewrite (awaiting_insert_awaiting workers i s e _ _ _ _ Hi) in IH.
           cbn [app atMost].
           rewrite outstandingAfter_debug, outstandingAfter_issue.
           split; [lia|]. split; [lia|].
           replace (Z.of_nat (awaiting workers) - 1 + 1)
             with (Z.of_nat (awaiting workers)) by lia.
           exact IH.
        -- cbn [app].
           replace (Z.of_nat (awaiting workers) - 1)
             with (Z.of_nat (awaiting (<[i := Returned]> workers))) by lia.
           exact IH.
      * cbn [trace snd atMost]. rewrite outstandingAfter_settle. lia.
      * apply IH.
Qed.

(** *** The workers after a rejection *)

Lemma returned_lookup workers :
  forallb isReturned workers = true ->
  forall i wk, workers !! i = Some wk -> wk = Returned.
Proof.
  induction workers as [|[s e r|] ws IH]; cbn [forallb isReturned andb];
    intros Hall [|i] wk Hi; try discriminate.
  - injection Hi as <-. reflexivity.
  - exact (IH Hall i wk Hi).
Qed.

(** One completion of the workers left to themselves. *)
Lemma drain_step i later workers offset :
  (exists start end_ u wk offset' t,
      workers !! i = Some (Awaiting start end_ (Ok u))
      /\ worker offset = (Ok (wk, offset'), t)
      /\ drainAll (i :: later) workers offset
         = ChunkSettled start end_ true
             :: t ++ drainAll later (<[i := wk]> workers) offset')
  \/ (exists start end_ msg,
        workers !! i = Some (Awaiting start end_ (Throw msg))
        /\ drainAll (i :: later) workers offset
           = ChunkSettled start end_ false
               :: drainAll later (<[i := Returned]> workers) offset)
  \/ ((forall start end_ r,
         workers !! i = Some (Awaiting start end_ r) -> r = Pending)
      /\ drainAll (i :: later) workers offset = drainAll later workers offset).
Proof.
  cbn [drain]. destruct (workers !! i) as [[start end_ [u|msg|]|]|] eqn:Hi.
  - left. destruct (worker_total w httpClient resourceUrl archivePath fd
                      fileSize maxChunkSize offset) as (wk & offset' & t & Hw).
    exists start, end_, u, wk, offset', t. rewrite Hw. repeat split.
  - right; left. exists start, end_, msg. split; reflexivity.
  - right; right. split; [intros s e r [= _ _ <-] |]; reflexivity.
  - right; right. split; [intros s e r [=] | reflexivity].
  - right; right. split; [intros s e r [=] | reflexivity].
Qed.

Lemma drain_idle completions :
  forall workers offset,
    forallb isReturned workers = true ->
    drainAll completions workers offset = [].
Proof.
  induction completions as [|i later IH]; intros workers offset Hall;
    [reflexivity|].
  destruct (drain_step i later workers offset)
    as [(s & e & u & wk & offset' & t & Hi & _)
       |[(s & e & msg & Hi & _)|[_ ->]]].
  - discriminate (returned_lookup workers Hall i _ Hi).
  - discriminate (returned_lookup workers Hall i _ Hi).
  - apply IH, Hall.
Qed.

(** What [promiseAll] sees and what goes on after it has settled are,
    together, the workers left to themselves. *)
Lemma pool_whole completions :
  forall workers offset,
    trace (awaitAll completions workers offset)
      ++ survive completions workers offset
    = drainAll completions workers offset.
Proof.
  induction completions as [|i later IH]; intros workers offset.
  - cbn. destruct (forallb isReturned workers); reflexivity.
  - destruct (forallb isReturned workers) eqn:Hall.
    + rewrite awaitAll_done, drain_idle by exact Hall.
      cbn [survivors]. rewrite Hall. reflexivity.
    + specialize (IH workers offset) as IHsame.
      cbn [promiseAll survivors drain]. rewrite Hall.
      destruct (workers !! i) as [[start end_ [u|msg|]|]|] eqn:Hi;
        try exact IHsame.
      * destruct (worker_total w httpClient resourceUrl archivePath fd
                    fileSize maxChunkSize offset) as (wk & offset' & t & Hw).
        rewrite Hw. cbn [outcome fst emit mbind M_bind bind].
        rewrite <- (IH (<[i := wk]> workers) offset').
        destruct (awaitAll later (<[i := wk]> workers) offset') as [r t'].
        cbn [trace snd app]. rewrite <- app_assoc. reflexivity.
      * reflexivity.
Qed.

(** After a promise that resolved or is still pending nothing goes on. *)
Lemma survivors_after_rejection completions :
  forall workers offset,
    (forall msg, outcome (awaitAll completions workers offset) <> Throw msg) ->
    survive completions workers offset = [].
Proof.
  induction completions as [|i later IH]; intros workers offset Hout.
  - cbn. destruct (forallb isReturned workers); reflexivity.
  - specialize (IH workers offset) as IHsame.
    revert Hout. cbn [promiseAll survivors].
    destruct (forallb isReturned workers); [reflexivity|].
    destruct (workers !! i) as [[start end_ [u|msg|]|]|] eqn:Hi;
      try exact IHsame.
    + destruct (worker_total w httpClient resourceUrl archivePath fd
                  fileSize maxChunkSize offset) as (wk & offset' & t & Hw).
      rewrite Hw. cbn [outcome fst emit mbind M_bind bind].
      intros Hout. apply IH. intros msg' Hthrow. apply (Hout msg').
      destruct (awaitAll later (<[i := wk]> workers) offset') as [r t'].
      cbn [outcome fst] in Hthrow |- *. exact Hthrow.
    + intros Hout. destruct (Hout msg eq_refl).
Qed.

Lemma drain_events_are (P : Event -> Prop) :
  (forall msg, P (Debug msg)) ->
  (forall start end_ ok, P (ChunkSettled start end_ ok)) ->
  (forall start end_, P (issue start end_)) ->
  forall completions workers offset,
    Forall P (drainAll completions workers offset).
Proof.
  intros Hd Hs' Hi.
  induction completions as [|i later IH]; intros workers offset;
    [constructor|].
  destruct (drain_step i later workers offset)
    as [(s & e & u & wk & offset' & t & _ & Hw & ->)
       |[(s & e & msg & _ & ->)|[_ ->]]].
  - constructor; [apply Hs'|]. apply Forall_app; split; [|apply IH].
    destruct (worker_cases offset) as [(_ & msg & r & Hw')|[_ Hw']];
      rewrite Hw' in Hw; injection Hw as <- <- <-;
      repeat constructor; auto.
  - constructor; [apply Hs' | apply IH].
  - apply IH.
Qed.

Lemma drain_prefix completions :
  forall workers offset,
    exists k : nat,
      issuedChunks (drainAll completions workers offset) = ranges k offset
      /\ Forall (fun c => c.1 < fileSize)
           (issuedChunks (drainAll completions workers offset)).
Proof.
  induction completions as [|i later IH]; intros workers offset.
  - exists O. split; [reflexivity | constructor].
  - destruct (drain_step i later workers offset)
      as [(s & e & u & wk & offset' & t & _ & Hw & ->)
         |[(s & e & msg & _ & ->)|[_ ->]]].
    + rewrite issuedChunks_settled.
      destruct (IH (<[i := wk]> workers) offset') as (k & Hk & Hf).
      destruct (worker_cases offset) as [(Hlt & msg & r & Hw')|[Hge Hw']];
        rewrite Hw' in Hw; injection Hw as <- <- <-.
      * exists (S k). cbn [app]. rewrite issuedChunks_claim.
        split; [cbn [chunksFrom]; rewrite Hk; reflexivity|].
        constructor; [exact Hlt | exact Hf].
      * exists k. split; assumption.
    + rewrite issuedChunks_settled. apply IH.
    + apply IH.
Qed.

Lemma drain_outstanding completions :
  forall workers offset,
    atMost (Z.of_nat (length workers)) (Z.of_nat (awaiting workers))
      (drainAll completions workers offset).
Proof.
  induction completions as [|i later IH]; intros workers offset;
    pose proof (awaiting_le_length workers) as Hle.
  - cbn. lia.
  - destruct (drain_step i later workers offset)
      as [(s & e & u & wk & offset' & t & Hi & Hw & ->)
         |[(s & e & msg & Hi & ->)|[_ ->]]].
    + cbn [atMost]. split; [lia|].
      rewrite outstandingAfter_settle.
      pose proof (awaiting_insert_returned workers i s e _ Hi) as Hret.
      specialize (IH (<[i := wk]> workers) offset').
      rewrite length_insert in IH.
      destruct (worker_cases offset) as [(Hlt & msg & r & Hw')|[Hge Hw']];
        rewrite Hw' in Hw; injection Hw as <- <- <-.
      * rewrite (awaiting_insert_awaiting workers i s e _ _ _ _ Hi) in IH.
        cbn [app atMost].
        rewrite outstandingAfter_debug, outstandingAfter_issue.
        split; [lia|]. split; [lia|].
        replace (Z.of_nat (awaiting workers) - 1 + 1)
          with (Z.of_nat (awaiting workers)) by lia.
        exact IH.
      * cbn [app].
        replace (Z.of_nat (awaiting workers) - 1)
          with (Z.of_nat (awaiting (<[i := Returned]> workers))) by lia.
        exact IH.
    + cbn [atMost]. split; [lia|].
      rewrite outstandingAfter_settle.
      pose proof (awaiting_insert_returned workers i s e _ Hi) as Hret.
      specialize (IH (<[i := Returned]> workers) offset).
      rewrite length_insert in IH.
      replace (Z.of_nat (awaiting workers) - 1)
        with (Z.of_nat (awaiting (<[i := Returned]> workers))) by lia.
      exact IH.
    + apply IH.
Qed.

End PoolInvariants.

Lemma issuedChunks_cons ev t :
  issuedChunks (ev :: t)
  = match chunkOf ev with
    | Some c => c :: issuedChunks t
    | None => issuedChunks t
    end.
Proof. reflexivity. Qed.

Lemma outstanding_count t : forall cur,
  outstanding cur t
  = cur + Z.of_nat (length (issuedChunks t))
    - Z.of_nat (length (List.filter isSettle t)).
Proof.
  induction t as [|ev t IH]; intros cur.
  - cbn. lia.
  - rewrite outstanding_cons, IH, issuedChunks_cons.
    unfold outstandingAfter, isIssue. cbn [List.filter].
    destruct (chunkOf ev) as [c|] eqn:Hc.
    + assert (isSettle ev = false) as Hs
        by (destruct ev; try reflexivity; discriminate).
      rewrite Hs. cbn [length]. lia.
    + destruct (isSettle ev); cbn [length]; lia.
Qed.

Lemma atMost_neutral n t :
  (forall ev, ev ∈ t -> isIssue ev = false /\ isSettle ev = false) ->
  forall cur, cur <= n -> atMost n cur t /\ outstanding cur t = cur.
Proof.
  induction t as [|ev t IH]; intros Hq cur Hn; [cbn; split; [lia|reflexivity]|].
  destruct (Hq ev (list_elem_of_here _ _)) as [Hi Hs].
  cbn [atMost outstanding fold_left]. unfold outstandingAfter. rewrite Hi, Hs.
  destruct (IH (fun ev' H => Hq ev' (list_elem_of_further _ _ _ H)) cur Hn)
    as [Hat Hout].
  split; [split; [exact Hn | exact Hat] | exact Hout].
Qed.

Lemma atMost_end n t : forall cur, atMost n cur t -> outstanding cur t <= n.
Proof.
  induction t as [|ev t IH]; intros cur; cbn [atMost].
  - intros H. exact H.
  - intros [_ H]. rewrite outstanding_cons. exact (IH _ H).
Qed.

Lemma issuedChunks_quiet t :
  (forall ev, ev ∈ t -> chunkOf ev = None) -> issuedChunks t = [].
Proof.
  induction t as [|ev t IH]; intros H; [reflexivity|].
  rewrite issuedChunks_cons, (H ev) by apply list_elem_of_here.
  apply IH. intros ev' Hin. apply H, list_elem_of_further, Hin.
Qed.

Lemma preparation_neutral ev :
  preparation ev ->
  chunkOf ev = None /\ isIssue ev = false /\ isSettle ev = false
  /\ isClose ev = false.
Proof. destruct ev; cbn; intros []; repeat split. Qed.

Lemma workerEvent_not_close ev : workerEvent ev -> isClose ev = false.
Proof. destruct ev; cbn; intros H; try reflexivity; destruct H. Qed.

Lemma workerEvent_not_open ev path : workerEvent ev -> ev <> OpenSync path.
Proof. intros H ->. destruct H. Qed.

Lemma chunksFrom_inside fileSize maxChunkSize :
  0 < maxChunkSize ->
  forall (k : nat) offset,
    0 <= offset ->
    Forall (fun c => c.1 < fileSize) (chunksFrom fileSize maxChunkSize k offset) ->
    Forall (fun c => 0 <= c.1 /\ c.1 <= c.2 /\ c.2 < fileSize
                     /\ c.2 - c.1 + 1 <= maxChunkSize)
      (chunksFrom fileSize maxChunkSize k offset).
Proof.
  intros HC. induction k as [|k IH]; intros offset H0 Hf; [constructor|].
  cbn [chunksFrom] in Hf |- *. inversion Hf as [|? ? Hlt Hrest]; subst.
  cbn in Hlt. constructor.
  - cbn. unfold chunkEnd. lia.
  - apply IH; [lia | exact Hrest].
Qed.

(** ** The whole run of [uploadFile] *)

Lemma issuedChunks_insert t1 mid t2 :
  (forall ev, ev ∈ mid -> chunkOf ev = None) ->
  issuedChunks (t1 ++ mid ++ t2) = issuedChunks (t1 ++ t2).
Proof.
  intros H. rewrite !issuedChunks_app, (issuedChunks_quiet mid H). reflexivity.
Qed.

Lemma atMost_insert n cur t1 mid t2 :
  (forall ev, ev ∈ mid -> isIssue ev = false /\ isSettle ev = false) ->
  atMost n cur (t1 ++ t2) -> atMost n cur (t1 ++ mid ++ t2).
Proof.
  intros Hmid H. apply atMost_app in H as [H1 H2].
  apply atMost_app. split; [exact H1|].
  destruct (atMost_neutral n mid Hmid (outstanding cur t1)
              (atMost_start _ _ _ H2)) as [Hm Ho].
  apply atMost_app. split; [exact Hm|]. rewrite Ho. exact H2.
Qed.

(** The closing of the descriptor, when the promise has settled. *)
Lemma closing_is_neutral {A} (r : Res A) fd ev :
  ev ∈ match r with Pending => [] | _ => [CloseSync fd] end ->
  ev = CloseSync fd.
Proof.
  destruct r; intros Hin;
    [apply list_elem_of_singleton in Hin; exact Hin..
    |apply elem_of_nil in Hin as []].
Qed.

(** On the chunked path the stragglers are the survivors of the pool. *)
Lemma uploadFileStragglers_chunked (w : World) (completions : list nat)
    (httpClient : HttpClient) (cacheId : Z) (archivePath key : string)
    (options : option UploadOptions)
    (blobContainerName connectionString : option string)
    concurrency maxChunkSize fileSize resourceUrl tu fd workers offset ts :
  truthy blobContainerName && truthy connectionString = false ->
  assertDefined w "uploadConcurrency"
    (uploadConcurrency (getUploadOptions w options)) = Ok concurrency ->
  (concurrency <? 0) || (4294967295 <? concurrency) = false ->
  assertDefined w "uploadChunkSize"
    (uploadChunkSize (getUploadOptions w options)) = Ok maxChunkSize ->
  getArchiveFileSizeInBytes w archivePath = Ok fileSize ->
  getCacheApiUrl w ("caches/" +:+ toString cacheId) = (Ok resourceUrl, tu) ->
  openSync w archivePath = Ok fd ->
  spawn w httpClient resourceUrl archivePath fd fileSize maxChunkSize
    (seqZ 0 concurrency) 0 = (Ok (workers, offset), ts) ->
  uploadFileStragglers w completions httpClient cacheId archivePath key
    options blobContainerName connectionString
  = survivors w httpClient resourceUrl archivePath fd fileSize maxChunkSize
      completions workers offset.
Proof.
  intros Hblob Hn Hlen HC HF Hurl Hfd Hs.
  unfold uploadFileStragglers, newArrayKeys. rewrite Hn, HC, Hlen.
  cbn [outcome fst mret M_ret ret]. rewrite Hblob, HF, Hurl.
  cbn [outcome fst]. rewrite Hfd, Hs. reflexivity.
Qed.

(** There are no stragglers unless [uploadFile] got to run its workers. *)
Lemma uploadFileStragglers_cases (w : World) (completions : list nat)
    (httpClient : HttpClient) (cacheId : Z) (archivePath key : string)
    (options : option UploadOptions)
    (blobContainerName connectionString : option string) :
  uploadFileStragglers w completions httpClient cacheId archivePath key
    options blobContainerName connectionString = []
  \/ exists concurrency maxChunkSize fileSize resourceUrl tu fd workers offset ts,
       truthy blobContainerName && truthy connectionString = false
       /\ assertDefined w "uploadConcurrency"
            (uploadConcurrency (getUploadOptions w options)) = Ok concurrency
       /\ (concurrency <? 0) || (4294967295 <? concurrency) = false
       /\ assertDefined w "uploadChunkSize"
            (uploadChunkSize (getUploadOptions w options)) = Ok maxChunkSize
       /\ getArchiveFileSizeInBytes w archivePath = Ok fileSize
       /\ getCacheApiUrl w ("caches/" +:+ toString cacheId) = (Ok resourceUrl, tu)
       /\ openSync w archivePath = Ok fd
       /\ spawn w httpClient resourceUrl archivePath fd fileSize maxChunkSize
            (seqZ 0 concurrency) 0 = (Ok (workers, offset), ts).
Proof.
  unfold uploadFileStragglers, newArrayKeys.
  destruct (assertDefined w "uploadConcurrency" _) as [n|msg|] eqn:Hn;
    [|left; reflexivity..].
  destruct (assertDefined w "uploadChunkSize" _) as [C|msg|] eqn:HC;
    [|left; reflexivity..].
  destruct ((n <? 0) || (4294967295 <? n)) eqn:Hlen; [left; reflexivity|].
  cbn [outcome fst mret M_ret ret].
  destruct (truthy blobContainerName && truthy connectionString) eqn:Hblob;
    [left; reflexivity|].
  destruct (getArchiveFileSizeInBytes w archivePath) as [F|msg|] eqn:HF;
    [|left; reflexivity..].
  destruct (getCacheApiUrl w ("caches/" +:+ toString cacheId))
    as [[url|msg|] tu] eqn:Hurl; cbn [outcome fst]; [|left; reflexivity..].
  destruct (openSync w archivePath) as [fd|msg|] eqn:Hfd;
    [|left; reflexivity..].
  destruct (spawn_shape w httpClient url archivePath fd F C (seqZ 0 n) 0)
    as (ws & off & ts & Hs & _).
  right. exists n, C, F, url, tu, fd, ws, off, ts. repeat split; assumption.
Qed.

(** The whole run on the chunked path. *)
Lemma uploadFileRun_chunked (w : World) (completions : list nat)
    (httpClient : HttpClient) (cacheId : Z) (archivePath key : string)
    (options : option UploadOptions)
    (blobContainerName connectionString : option string)
    concurrency maxChunkSize fileSize resourceUrl tu fd workers offset ts :
  truthy blobContainerName && truthy connectionString = false ->
  assertDefined w "uploadConcurrency"
    (uploadConcurrency (getUploadOptions w options)) = Ok concurrency ->
  (concurrency <? 0) || (4294967295 <? concurrency) = false ->
  assertDefined w "uploadChunkSize"
    (uploadChunkSize (getUploadOptions w options)) = Ok maxChunkSize ->
  getArchiveFileSizeInBytes w archivePath = Ok fileSize ->
  getCacheApiUrl w ("caches/" +:+ toString cacheId) = (Ok resourceUrl, tu) ->
  openSync w archivePath = Ok fd ->
  spawn w httpClient resourceUrl archivePath fd fileSize maxChunkSize
    (seqZ 0 concurrency) 0 = (Ok (workers, offset), ts) ->
  let pool := promiseAll w httpClient resourceUrl archivePath fd fileSize
                maxChunkSize completions workers offset in
  uploadFileRun w completions httpClient cacheId archivePath key options
    blobContainerName connectionString
  = Debug "Awaiting all uploads" :: tu ++ OpenSync archivePath :: ts
      ++ trace pool
      ++ match outcome pool with Pending => [] | _ => [CloseSync fd] end
      ++ survivors w httpClient resourceUrl archivePath fd fileSize
           maxChunkSize completions workers offset.
Proof.
  intros Hblob Hn Hlen HC HF Hurl Hfd Hs pool. unfold uploadFileRun.
  rewrite (uploadFile_chunked w completions httpClient cacheId archivePath
             key options blobContainerName connectionString
             _ _ _ _ _ _ _ _ _ Hblob Hn Hlen HC HF Hurl Hfd Hs).
  rewrite (uploadFileStragglers_chunked w completions httpClient cacheId
             archivePath key options blobContainerName connectionString
             _ _ _ _ _ _ _ _ _ Hblob Hn Hlen HC HF Hurl Hfd Hs).
  cbn [trace snd app]. fold pool. rewrite <- app_assoc. cbn [app].
  rewrite <- !app_assoc. reflexivity.
Qed.

(** Stragglers are what a rejection leaves behind. *)
Lemma uploadFileStragglers_after_rejection (w : World)
    (completions : list nat) (httpClient : HttpClient) (cacheId : Z)
    (archivePath key : string) (options : option UploadOptions)
    (blobContainerName connectionString : option string) :
  (forall msg,
     outcome (uploadFile w completions httpClient cacheId archivePath key
                options blobContainerName connectionString) <> Throw msg) ->
  uploadFileStragglers w completions httpClient cacheId archivePath key
    options blobContainerName connectionString = [].
Proof.
  intros Hout.
  destruct (uploadFileStragglers_cases w completions httpClient cacheId
              archivePath key options blobContainerName connectionString)
    as [Hnil
       |(n & C & F & url & tu & fd & ws & off & ts
         & Hblob & Hn & Hlen & HC & HF & Hurl & Hfd & Hs)]; [exact Hnil|].
  rewrite (uploadFileStragglers_chunked w completions httpClient cacheId
             archivePath key options blobContainerName connectionString
             _ _ _ _ _ _ _ _ _ Hblob Hn Hlen HC HF Hurl Hfd Hs).
  apply survivors_after_rejection. intros msg Hthrow. apply (Hout msg).
  rewrite (uploadFile_chunked w completions httpClient cacheId archivePath
             key options blobContainerName connectionString
             _ _ _ _ _ _ _ _ _ Hblob Hn Hlen HC HF Hurl Hfd Hs).
  exact Hthrow.
Qed.

(** Whatever holds of log lines, settlements and the chunk uploads
    against the resource URL that name the descriptor [openSync] gave,
    holds of every event of the stragglers. *)
Lemma uploadFileStragglers_events (P : Event -> Prop) (w : World)
    (completions : list nat) (httpClient : HttpClient) (cacheId : Z)
    (archivePath key : string) (options : option UploadOptions)
    (blobContainerName connectionString : option string) :
  (forall msg, P (Debug msg)) ->
  (forall start end_ ok, P (ChunkSettled start end_ ok)) ->
  (forall url tu fd start end_,
     getCacheApiUrl w ("caches/" +:+ toString cacheId) = (Ok url, tu) ->
     openSync w archivePath = Ok fd ->
     P (chunkIssue httpClient url archivePath fd start end_)) ->
  Forall P (uploadFileStragglers w completions httpClient cacheId archivePath
              key options blobContainerName connectionString).
Proof.
  intros Hd Hse Hi.
  destruct (uploadFileStragglers_cases w completions httpClient cacheId
              archivePath key options blobContainerName connectionString)
    as [->
       |(n & C & F & url & tu & fd & ws & off & ts
         & Hblob & Hn & Hlen & HC & HF & Hurl & Hfd & Hs)]; [constructor|].
  rewrite (uploadFileStragglers_chunked w completions httpClient cacheId
             archivePath key options blobContainerName connectionString
             _ _ _ _ _ _ _ _ _ Hblob Hn Hlen HC HF Hurl Hfd Hs).
  pose proof (drain_events_are w httpClient url archivePath fd F C P
                Hd Hse (fun s e => Hi url tu fd s e Hurl Hfd)
                completions ws off) as Hall.
  rewrite <- pool_whole in Hall. apply Forall_app in Hall as [_ Hall].
  exact Hall.
Qed.

(** ** Chunks are claimed in file order and stay inside the file *)

(** Until it settles, [uploadFile] issues an initial run of the ranges
    0, C, 2C, ... in that order. *)
Lemma uploadFile_awaited_claims_in_file_order (w : World) (completions : list nat)
    (httpClient : HttpClient) (cacheId : Z) (archivePath key : string)
    (options : option UploadOptions)
    (blobContainerName connectionString : option string)
    (fileSize maxChunkSize : Z) :
  getArchiveFileSizeInBytes w archivePath = Ok fileSize ->
  assertDefined w "uploadChunkSize"
    (uploadChunkSize (getUploadOptions w options)) = Ok maxChunkSize ->
  0 < maxChunkSize ->
  let issued := issuedChunks (trace
        (uploadFile w completions httpClient cacheId archivePath key options
           blobContainerName connectionString)) in
  (exists k : nat, issued = chunksFrom fileSize maxChunkSize k 0)
  /\ Forall (fun c => 0 <= c.1 /\ c.1 <= c.2 /\ c.2 < fileSize
                      /\ c.2 - c.1 + 1 <= maxChunkSize) issued.
Proof.
  intros HF HC HC0 issued.
  assert (Hk : exists k : nat,
             issued = chunksFrom fileSize maxChunkSize k 0
             /\ Forall (fun c => c.1 < fileSize) issued).
  { subst issued.
    destruct (uploadFile_cases w completions httpClient cacheId archivePath key
                options blobContainerName connectionString)
      as [[Hprep _]
         |(n & C & F & url & tu & fd & ws & off & ts
           & Hblob & Hn & Hlen & HC' & HF' & Hurl & Hfd & Hs)].
    - exists O. rewrite issuedChunks_quiet; [split; [reflexivity|constructor]|].
      intros ev Hin. apply preparation_neutral, Hprep, Hin.
    - rewrite (uploadFile_chunked w completions httpClient cacheId archivePath
                 key options blobContainerName connectionString
                 _ _ _ _ _ _ _ _ _ Hblob Hn Hlen HC' HF' Hurl Hfd Hs).
      rewrite HF in HF'. injection HF' as <-.
      rewrite HC in HC'. injection HC' as <-.
      cbn [trace snd].
      destruct (spawn_prefix w httpClient url archivePath fd fileSize
                  maxChunkSize (seqZ 0 n) 0) as (k1 & Hk1 & (ws' & t' & Hs') & Hf1).
      rewrite Hs in Hs', Hk1, Hf1. injection Hs' as <- -> <-.
      cbn [trace snd] in Hk1, Hf1.
      destruct (awaitAll_prefix w httpClient url archivePath fd fileSize
                  maxChunkSize completions ws (0 + Z.of_nat k1 * maxChunkSize))
        as (k2 & Hk2 & Hf2).
      assert (Hsplit :
        issuedChunks (Debug "Awaiting all uploads" :: tu ++ OpenSync archivePath
           :: ts ++ trace (promiseAll w httpClient url archivePath fd fileSize
                             maxChunkSize completions ws
                             (0 + Z.of_nat k1 * maxChunkSize))
           ++ match outcome (promiseAll w httpClient url archivePath fd fileSize
                               maxChunkSize completions ws
                               (0 + Z.of_nat k1 * maxChunkSize)) with
              | Pending => []
              | _ => [CloseSync fd]
              end)
        = issuedChunks ts
          ++ issuedChunks (trace (promiseAll w httpClient url archivePath fd
                                    fileSize maxChunkSize completions ws
                                    (0 + Z.of_nat k1 * maxChunkSize)))).
      { rewrite issuedChunks_cons. cbn [chunkOf].
        rewrite !issuedChunks_app, issuedChunks_cons. cbn [chunkOf].
        rewrite !issuedChunks_app.
        rewrite (issuedChunks_quiet tu).
        2:{ intros ev Hin. apply preparation_neutral.
            apply (getCacheApiUrl_quiet w ("caches/" +:+ toString cacheId)).
            rewrite Hurl. exact Hin. }
        rewrite (issuedChunks_quiet (match outcome _ with
                                     | Pending => [] | _ => [CloseSync fd] end)).
        2:{ intros ev Hin. destruct (outcome _);
              [apply list_elem_of_singleton in Hin as ->; reflexivity
              |apply list_elem_of_singleton in Hin as ->; reflexivity
              |apply elem_of_nil in Hin as []]. }
        rewrite app_nil_r. reflexivity. }
      rewrite Hsplit. exists (k1 + k2)%nat. split.
      + rewrite Hk1, Hk2. apply chunksFrom_app.
      + apply Forall_app. split; assumption. }
  destruct Hk as (k & Hk & Hf). split; [eauto|].
  rewrite Hk in Hf |- *. apply chunksFrom_inside; [exact HC0 | lia | exact Hf].
Qed.

(** Whatever the cache service answers and in whatever order the uploads
    complete, the chunk uploads of a call of [uploadFile], those it issues
    until it settles and those its surviving workers issue after a
    rejection, are an initial run of the ranges 0, C, 2C, ... in that
    order: each lies inside the file, holds between 1 and C bytes, and
    none is issued twice or out of order. *)
Theorem uploadFile_claims_in_file_order (w : World) (completions : list nat)
    (httpClient : HttpClient) (cacheId : Z) (archivePath key : string)
    (options : option UploadOptions)
    (blobContainerName connectionString : option string)
    (fileSize maxChunkSize : Z) :
  getArchiveFileSizeInBytes w archivePath = Ok fileSize ->
  assertDefined w "uploadChunkSize"
    (uploadChunkSize (getUploadOptions w options)) = Ok maxChunkSize ->
  0 < maxChunkSize ->
  let issued := issuedChunks
        (uploadFileRun w completions httpClient cacheId archivePath key
           options blobContainerName connectionString) in
  (exists k : nat, issued = chunksFrom fileSize maxChunkSize k 0)
  /\ Forall (fun c => 0 <= c.1 /\ c.1 <= c.2 /\ c.2 < fileSize
                      /\ c.2 - c.1 + 1 <= maxChunkSize) issued.
Proof.
  intros HF HC HC0 issued.
  assert (Hk : exists k : nat,
             issued = chunksFrom fileSize maxChunkSize k 0
             /\ Forall (fun c => c.1 < fileSize) issued).
  { subst issued.
    destruct (uploadFileStragglers_cases w completions httpClient cacheId
                archivePath key options blobContainerName connectionString)
      as [Hnil
         |(n & C & F & url & tu & fd & ws & off & ts
           & Hblob & Hn & Hlen & HC' & HF' & Hurl & Hfd & Hs)].
    - unfold uploadFileRun. rewrite Hnil, app_nil_r.
      destruct (uploadFile_awaited_claims_in_file_order w completions
                  httpClient cacheId archivePath key options
                  blobContainerName connectionString fileSize maxChunkSize
                  HF HC HC0) as [[k Hk] Hf].
      exists k. split; [exact Hk|].
      eapply Forall_impl; [exact Hf|]. intros c (_ & ? & ? & _). lia.
    - rewrite (uploadFileRun_chunked w completions httpClient cacheId
                 archivePath key options blobContainerName connectionString
                 _ _ _ _ _ _ _ _ _ Hblob Hn Hlen HC' HF' Hurl Hfd Hs).
      rewrite HF in HF'. injection HF' as <-.
      rewrite HC in HC'. injection HC' as <-.
      destruct (spawn_prefix w httpClient url archivePath fd fileSize
                  maxChunkSize (seqZ 0 n) 0) as (k1 & Hk1 & (ws' & t' & Hs') & Hf1).
      rewrite Hs in Hs', Hk1, Hf1. injection Hs' as <- -> <-.
      cbn [trace snd] in Hk1, Hf1.
      destruct (drain_prefix w httpClient url archivePath fd fileSize
                  maxChunkSize completions ws (0 + Z.of_nat k1 * maxChunkSize))
        as (k2 & Hk2 & Hf2).
      cbv zeta.
      rewrite issuedChunks_cons. cbn [chunkOf].
      rewrite issuedChunks_app, (issuedChunks_quiet tu).
      2:{ intros ev Hin. apply preparation_neutral.
          apply (getCacheApiUrl_quiet w ("caches/" +:+ toString cacheId)).
          rewrite Hurl. exact Hin. }
      cbn [app]. rewrite issuedChunks_cons. cbn [chunkOf].
      rewrite issuedChunks_app, issuedChunks_insert, pool_whole.
      2:{ intros ev Hin. apply closing_is_neutral in Hin as ->. reflexivity. }
      exists (k1 + k2)%nat. split.
      + rewrite Hk1, Hk2. apply chunksFrom_app.
      + apply Forall_app. split; assumption. }
  destruct Hk as (k & Hk & Hf). split; [eauto|].
  rewrite Hk in Hf |- *. apply chunksFrom_inside; [exact HC0 | lia | exact Hf].
Qed.

Lemma uploadFile_claims_in_file_order_witness :
  (exists k : nat,
     issuedChunks
       (uploadFileRun refusingWorld [1; 0]%nat (createHttpClient refusingWorld)
          7 "/tmp/archive.tzst" "linux-build-8f3a" twoWorkersFourMiB None None)
     = chunksFrom 10485760 4194304 k 0)
  /\ Forall (fun c => 0 <= c.1 /\ c.1 <= c.2 /\ c.2 < 10485760
                      /\ c.2 - c.1 + 1 <= 4194304)
       (issuedChunks
          (uploadFileRun refusingWorld [1; 0]%nat
             (createHttpClient refusingWorld) 7 "/tmp/archive.tzst"
             "linux-build-8f3a" twoWorkersFourMiB None None)).
Proof.
  apply (uploadFile_claims_in_file_order refusingWorld [1; 0]%nat
           (createHttpClient refusingWorld) 7 "/tmp/archive.tzst"
           "linux-build-8f3a" twoWorkersFourMiB None None 10485760 4194304
           eq_refl eq_refl).
  lia.
Defined.

(** When the second chunk of three is refused, [uploadFile] throws after
    two chunk uploads and closes the descriptor; the worker that holds
    the first chunk is not cancelled, and when that chunk is accepted it
    goes on and sends the third one, naming the same descriptor. *)
Example uploadFile_straggler_sends_the_third_chunk :
  issuedChunks (trace
    (uploadFile refusingWorld [1; 0]%nat (createHttpClient refusingWorld) 7
       "/tmp/archive.tzst" "linux-build-8f3a" twoWorkersFourMiB None None))
  = [(0, 4194303); (4194304, 8388607)]
  /\ uploadFileStragglers refusingWorld [1; 0]%nat
       (createHttpClient refusingWorld) 7 "/tmp/archive.tzst"
       "linux-build-8f3a" twoWorkersFourMiB None None
     = [ChunkSettled 0 4194303 true;
        Debug "Uploading chunk of size 2097152 bytes at offset 8388608 with content range: bytes 8388608-10485759/*";
        chunkIssue (createHttpClient refusingWorld)
          "https://artifactcache.example/_apis/artifactcache/caches/7"
          "/tmp/archive.tzst" 3 8388608 10485759].
Proof. split; vm_compute; reflexivity. Qed.

(** ** Never more uploads outstanding than workers *)

(** Until it settles, [uploadFile] has never more chunk uploads
    outstanding than the configured concurrency. *)
Lemma uploadFile_awaited_outstanding (w : World)
    (completions : list nat) (httpClient : HttpClient) (cacheId : Z)
    (archivePath key : string) (options : option UploadOptions)
    (blobContainerName connectionString : option string) (concurrency : Z) :
  assertDefined w "uploadConcurrency"
    (uploadConcurrency (getUploadOptions w options)) = Ok concurrency ->
  0 <= concurrency ->
  atMost concurrency 0
    (trace (uploadFile w completions httpClient cacheId archivePath key
              options blobContainerName connectionString)).
Proof.
  intros Hn Hn0.
  destruct (uploadFile_cases w completions httpClient cacheId archivePath key
              options blobContainerName connectionString)
    as [[Hprep _]
       |(n & C & F & url & tu & fd & ws & off & ts
         & Hblob & Hn' & Hlen & HC & HF & Hurl & Hfd & Hs)].
  - apply atMost_neutral; [|exact Hn0]. intros ev Hin.
    destruct (preparation_neutral ev (Hprep ev Hin)) as (_ & ? & ? & _).
    split; assumption.
  - rewrite Hn in Hn'. injection Hn' as <-.
    rewrite (uploadFile_chunked w completions httpClient cacheId archivePath
               key options blobContainerName connectionString
               _ _ _ _ _ _ _ _ _ Hblob Hn Hlen HC HF Hurl Hfd Hs).
    cbn [trace snd].
    assert (Hlenseq : Z.of_nat (length (seqZ 0 concurrency)) = concurrency)
      by (rewrite length_seqZ; lia).
    destruct (spawn_outstanding w httpClient url archivePath fd F C
                concurrency (seqZ 0 concurrency) 0 0 ltac:(lia))
      as (ws' & off' & ts' & Hs' & Hats & Houts).
    rewrite Hs in Hs'. injection Hs' as <- <- <-.
    destruct (spawn_shape w httpClient url archivePath fd F C
                (seqZ 0 concurrency) 0) as (ws' & off' & ts' & Hs' & _ & Hlw & _).
    rewrite Hs in Hs'. injection Hs' as <- <- <-.
    pose proof (awaitAll_outstanding w httpClient url archivePath fd F C
                  completions ws off) as Hatp.
    rewrite Hlw, Hlenseq in Hatp.
    assert (Htu : forall ev, ev ∈ tu ->
              isIssue ev = false /\ isSettle ev = false).
    { intros ev Hin.
      destruct (preparation_neutral ev) as (_ & ? & ? & _); [|split; assumption].
      apply (getCacheApiUrl_quiet w ("caches/" +:+ toString cacheId)).
      rewrite Hurl. exact Hin. }
    change (Debug "Awaiting all uploads" :: tu ++ OpenSync archivePath :: ?t)
      with ([Debug "Awaiting all uploads"] ++ tu ++ [OpenSync archivePath] ++ t).
    apply atMost_app. split; [cbn; lia|].
    change (outstanding 0 [Debug "Awaiting all uploads"]) with 0.
    destruct (atMost_neutral concurrency tu Htu 0 Hn0) as [Hatu Houtu].
    apply atMost_app. split; [exact Hatu|]. rewrite Houtu.
    apply atMost_app. split; [cbn; lia|].
    change (outstanding 0 [OpenSync archivePath]) with 0.
    apply atMost_app. split; [exact Hats|]. rewrite Houts, Z.add_0_l.
    apply atMost_app. split; [exact Hatp|].
    apply atMost_neutral.
    + intros ev Hin. destruct (outcome _);
        [apply list_elem_of_singleton in Hin as ->; split; reflexivity
        |apply list_elem_of_singleton in Hin as ->; split; reflexivity
        |apply elem_of_nil in Hin as []].
    + apply atMost_end, Hatp.
Qed.

(** Along the whole run of [uploadFile], stragglers included, the chunk
    uploads outstanding never exceed the configured concurrency. *)
Lemma uploadFileRun_outstanding (w : World)
    (completions : list nat) (httpClient : HttpClient) (cacheId : Z)
    (archivePath key : string) (options : option UploadOptions)
    (blobContainerName connectionString : option string) (concurrency : Z) :
  assertDefined w "uploadConcurrency"
    (uploadConcurrency (getUploadOptions w options)) = Ok concurrency ->
  0 <= concurrency ->
  atMost concurrency 0
    (uploadFileRun w completions httpClient cacheId archivePath key options
       blobContainerName connectionString).
Proof.
  intros Hn Hn0.
  destruct (uploadFileStragglers_cases w completions httpClient cacheId
              archivePath key options blobContainerName connectionString)
    as [Hnil
       |(n & C & F & url & tu & fd & ws & off & ts
         & Hblob & Hn' & Hlen & HC & HF & Hurl & Hfd & Hs)].
  - unfold uploadFileRun. rewrite Hnil, app_nil_r.
    exact (uploadFile_awaited_outstanding w completions httpClient cacheId
             archivePath key options blobContainerName connectionString
             concurrency Hn Hn0).
  - rewrite Hn in Hn'. injection Hn' as <-.
    rewrite (uploadFileRun_chunked w completions httpClient cacheId archivePath
               key options blobContainerName connectionString
               _ _ _ _ _ _ _ _ _ Hblob Hn Hlen HC HF Hurl Hfd Hs).
    cbv zeta.
    assert (Hlenseq : Z.of_nat (length (seqZ 0 concurrency)) = concurrency)
      by (rewrite length_seqZ; lia).
    destruct (spawn_outstanding w httpClient url archivePath fd F C
                concurrency (seqZ 0 concurrency) 0 0 ltac:(lia))
      as (ws' & off' & ts' & Hs' & Hats & Houts).
    rewrite Hs in Hs'. injection Hs' as <- <- <-.
    destruct (spawn_shape w httpClient url archivePath fd F C
                (seqZ 0 concurrency) 0) as (ws' & off' & ts' & Hs' & _ & Hlw & _).
    rewrite Hs in Hs'. injection Hs' as <- <- <-.
    pose proof (drain_outstanding w httpClient url archivePath fd F C
                  completions ws off) as Hatp.
    rewrite Hlw, Hlenseq in Hatp.
    assert (Htu : forall ev, ev ∈ tu ->
              isIssue ev = false /\ isSettle ev = false).
    { intros ev Hin.
      destruct (preparation_neutral ev) as (_ & ? & ? & _); [|split; assumption].
      apply (getCacheApiUrl_quiet w ("caches/" +:+ toString cacheId)).
      rewrite Hurl. exact Hin. }
    change (Debug "Awaiting all uploads" :: tu ++ OpenSync archivePath :: ?t)
      with ([Debug "Awaiting all uploads"] ++ tu ++ [OpenSync archivePath] ++ t).
    apply atMost_app. split; [cbn; lia|].
    change (outstanding 0 [Debug "Awaiting all uploads"]) with 0.
    destruct (atMost_neutral concurrency tu Htu 0 Hn0) as [Hatu Houtu].
    apply atMost_app. split; [exact Hatu|]. rewrite Houtu.
    apply atMost_app. split; [cbn; lia|].
    change (outstanding 0 [OpenSync archivePath]) with 0.
    apply atMost_app. split; [exact Hats|]. rewrite Houts, Z.add_0_l.
    apply atMost_insert.
    + intros ev Hin. apply closing_is_neutral in Hin as ->. split; reflexivity.
    + rewrite pool_whole. exact Hatp.
Qed.

(** At every point of a run of [uploadFile], and of what its surviving
    workers do after a rejection, the chunk uploads issued and not yet
    settled number at most the configured concurrency. *)
Theorem uploadFile_outstanding_at_most_concurrency (w : World)
    (completions : list nat) (httpClient : HttpClient) (cacheId : Z)
    (archivePath key : string) (options : option UploadOptions)
    (blobContainerName connectionString : option string) (concurrency : Z) :
  assertDefined w "uploadConcurrency"
    (uploadConcurrency (getUploadOptions w options)) = Ok concurrency ->
  0 <= concurrency ->
  forall before after,
    uploadFileRun w completions httpClient cacheId archivePath key options
      blobContainerName connectionString = before ++ after ->
    Z.of_nat (length (issuedChunks before))
    - Z.of_nat (length (List.filter isSettle before)) <= concurrency.
Proof.
  intros Hn Hn0 before after Hsplit.
  pose proof (uploadFileRun_outstanding w completions httpClient cacheId
                archivePath key options blobContainerName connectionString
                concurrency Hn Hn0) as Hat.
  rewrite Hsplit in Hat. apply atMost_app in Hat as [_ Hat].
  apply atMost_start in Hat. rewrite outstanding_count in Hat. lia.
Qed.

Lemma uploadFile_outstanding_witness :
  Z.of_nat (length (issuedChunks
     (take 10 (uploadFileRun refusingWorld [1; 0]%nat
                 (createHttpClient refusingWorld) 7 "/tmp/archive.tzst"
                 "linux-build-8f3a" twoWorkersFourMiB None None))))
  - Z.of_nat (length (List.filter isSettle
     (take 10 (uploadFileRun refusingWorld [1; 0]%nat
                 (createHttpClient refusingWorld) 7 "/tmp/archive.tzst"
                 "linux-build-8f3a" twoWorkersFourMiB None None))))
  <= 2.
Proof.
  apply (uploadFile_outstanding_at_most_concurrency refusingWorld [1; 0]%nat
           (createHttpClient refusingWorld) 7 "/tmp/archive.tzst"
           "linux-build-8f3a" twoWorkersFourMiB None None 2 eq_refl ltac:(lia)
           _
           (drop 10 (uploadFileRun refusingWorld [1; 0]%nat
                       (createHttpClient refusingWorld) 7
                       "/tmp/archive.tzst" "linux-build-8f3a"
                       twoWorkersFourMiB None None))).
  symmetry. apply take_drop.
Defined.

(** ** The archive descriptor *)

Lemma uploadFileBlob_run w blobContainerName connectionString archivePath key
    concurrency :
  uploadFileBlob w blobContainerName connectionString archivePath key
    concurrency
  = (match blobUploadStream w connectionString blobContainerName key
             archivePath concurrency with
     | Ok u => Ok u
     | Throw msg => Throw ("Cache upload failed because " +:+ msg)
     | Pending => Pending
     end,
     [Debug ("Start upload to (blobContainerName: " +:+ blobContainerName
               +:+ ")");
      CreateReadStream archivePath;
      UploadStream connectionString blobContainerName key archivePath
        concurrency]).
Proof.
  unfold uploadFileBlob, rethrow, debug, lift. rewrite !bind_emit.
  cbn [outcome trace fst snd].
  destruct (blobUploadStream w _ _ _ _ _); reflexivity.
Qed.

(** The course of [uploadFile]: it stops before opening the archive, or
    the opening fails, or it runs the workers. *)
Lemma uploadFile_stages (w : World) (completions : list nat)
    (httpClient : HttpClient) (cacheId : Z) (archivePath key : string)
    (options : option UploadOptions)
    (blobContainerName connectionString : option string) :
  let m := uploadFile w completions httpClient cacheId archivePath key options
             blobContainerName connectionString in
  (forall ev, ev ∈ trace m -> beforeOpen ev)
  \/ (exists tu,
        (forall fd, openSync w archivePath <> Ok fd)
        /\ (forall ev, ev ∈ tu -> beforeOpen ev)
        /\ trace m = Debug "Awaiting all uploads" :: tu ++ [OpenSync archivePath])
  \/ exists concurrency maxChunkSize fileSize resourceUrl tu fd workers offset ts,
       truthy blobContainerName && truthy connectionString = false
       /\ assertDefined w "uploadConcurrency"
            (uploadConcurrency (getUploadOptions w options)) = Ok concurrency
       /\ (concurrency <? 0) || (4294967295 <? concurrency) = false
       /\ assertDefined w "uploadChunkSize"
            (uploadChunkSize (getUploadOptions w options)) = Ok maxChunkSize
       /\ getArchiveFileSizeInBytes w archivePath = Ok fileSize
       /\ getCacheApiUrl w ("caches/" +:+ toString cacheId) = (Ok resourceUrl, tu)
       /\ openSync w archivePath = Ok fd
       /\ spawn w httpClient resourceUrl archivePath fd fileSize maxChunkSize
            (seqZ 0 concurrency) 0 = (Ok (workers, offset), ts).
Proof.
  intros m. subst m.
  assert (Hurlq : forall resource ev,
            ev ∈ trace (getCacheApiUrl w resource) -> beforeOpen ev).
  { intros resource ev Hin. apply getCacheApiUrl_trace in Hin as [msg ->].
    exact I. }
  destruct (truthy blobContainerName && truthy connectionString) eqn:Hblob;
  destruct (assertDefined w "uploadConcurrency"
              (uploadConcurrency (getUploadOptions w options)))
    as [n|msg|] eqn:Hn;
  destruct (assertDefined w "uploadChunkSize"
              (uploadChunkSize (getUploadOptions w options)))
    as [C|msg'|] eqn:HC;
  try (left; unfold uploadFile, lift; rewrite Hn, ?bind_ret, ?HC;
       intros ev Hin; apply elem_of_nil in Hin as []).
  - left.
    unfold uploadFile, newArrayKeys, lift, mret, M_ret, ret, debug.
    rewrite Hn, bind_ret, HC, bind_ret.
    destruct ((n <? 0) || (4294967295 <? n));
      [intros ev Hin; apply elem_of_nil in Hin as []|].
    rewrite bind_ret, bind_emit.
    cbn [outcome trace fst snd]. rewrite Hblob.
    intros ev Hin.
    apply elem_of_cons in Hin as [->|Hin]; [exact I|].
    rewrite uploadFileBlob_run in Hin. cbn [trace snd] in Hin.
    apply elem_of_cons in Hin as [->|Hin]; [exact I|].
    apply elem_of_cons in Hin as [->|Hin]; [exact I|].
    apply list_elem_of_singleton in Hin as ->. exact I.
  - assert (Hstart :
      uploadFile w completions httpClient cacheId archivePath key options
        blobContainerName connectionString
      = if (n <? 0) || (4294967295 <? n) then (Throw "Invalid array length", [])
        else match getArchiveFileSizeInBytes w archivePath with
             | Ok F =>
                 emit (Debug "Awaiting all uploads")
                 ≫= (fun _ =>
                 getCacheApiUrl w ("caches/" +:+ toString cacheId)
                 ≫= (fun resourceUrl =>
                 (emit (OpenSync archivePath)
                  ≫= (fun _ => (openSync w archivePath, [])))
                 ≫= (fun fd =>
                 try_finally
                   (spawn w httpClient resourceUrl archivePath fd F C
                      (seqZ 0 n) 0
                    ≫= (fun '(workers, offset) =>
                          promiseAll w httpClient resourceUrl archivePath fd
                            F C completions workers offset))
                   (emit (CloseSync fd)))))
             | Throw msg => (Throw msg, [Debug "Awaiting all uploads"])
             | Pending => (Pending, [Debug "Awaiting all uploads"])
             end).
    { unfold uploadFile, newArrayKeys, lift, mret, M_ret, ret, debug.
      rewrite Hn, bind_ret, HC, bind_ret.
      destruct ((n <? 0) || (4294967295 <? n)); [reflexivity|].
      rewrite bind_ret, Hblob.
      destruct (getArchiveFileSizeInBytes w archivePath);
        [rewrite bind_ret; reflexivity | reflexivity..]. }
    rewrite Hstart. clear Hstart.
    destruct ((n <? 0) || (4294967295 <? n)) eqn:Hlen;
      [left; intros ev Hin; apply elem_of_nil in Hin as []|].
    destruct (getArchiveFileSizeInBytes w archivePath) as [F|msg|] eqn:HF.
    2,3: left; intros ev Hin; cbn in Hin;
         apply list_elem_of_singleton in Hin as ->; exact I.
    rewrite bind_emit. cbn [outcome trace fst snd].
    destruct (getCacheApiUrl w ("caches/" +:+ toString cacheId))
      as [[url|msg|] tu] eqn:Hurl.
    2,3: left; intros ev Hin; cbn in Hin;
         apply elem_of_cons in Hin as [->|Hin]; [exact I|];
         apply (Hurlq ("caches/" +:+ toString cacheId));
         rewrite Hurl; exact Hin.
    rewrite bind_ok. cbn [outcome trace fst snd].
    rewrite bind_emit. cbn [outcome trace fst snd].
    assert (Htu : forall ev, ev ∈ tu -> beforeOpen ev).
    { intros ev Hin. apply (Hurlq ("caches/" +:+ toString cacheId)).
      rewrite Hurl. exact Hin. }
    destruct (openSync w archivePath) as [fd|msg|] eqn:Hfd.
    2,3: right; left; exists tu; split; [intros fd; discriminate|];
         split; [exact Htu|]; cbn; rewrite ?app_nil_r; reflexivity.
    right; right.
    destruct (spawn_shape w httpClient url archivePath fd F C (seqZ 0 n) 0)
      as (ws & off & ts & Hs & _).
    exists n, C, F, url, tu, fd, ws, off, ts. repeat split; assumption.
Qed.

(** Until it settles, [uploadFile] closes nothing but the descriptor it
    opened, once, at the very end; and the chunk uploads it issues name
    that descriptor. *)
Lemma uploadFile_awaited_descriptor (w : World)
    (completions : list nat) (httpClient : HttpClient) (cacheId : Z)
    (archivePath key : string) (options : option UploadOptions)
    (blobContainerName connectionString : option string) :
  let m := uploadFile w completions httpClient cacheId archivePath key options
             blobContainerName connectionString in
  (forall fd, CloseSync fd ∈ trace m ->
     openSync w archivePath = Ok fd
     /\ exists pre, trace m = pre ++ [CloseSync fd]
                    /\ OpenSync archivePath ∈ pre
                    /\ Forall (fun ev => isClose ev = false) pre)
  /\ (forall fd, OpenSync archivePath ∈ trace m ->
        openSync w archivePath = Ok fd -> outcome m <> Pending ->
        CloseSync fd ∈ trace m)
  /\ (forall name client verb url stream hdrs,
        Attempted name (Ok (SendStream client verb url stream hdrs)) ∈ trace m ->
        openSync w archivePath = Ok (rs_fd stream)
        /\ rs_path stream = archivePath).
Proof.
  intros m. subst m.
  destruct (uploadFile_stages w completions httpClient cacheId archivePath key
              options blobContainerName connectionString)
    as [Hbefore
       |[(tu & Hfail & Htu & Ht)
        |(n & C & F & url & tu & fd & ws & off & ts
          & Hblob & Hn & Hlen & HC & HF & Hurl & Hfd & Hs)]].
  - split; [|split].
    + intros fd Hin. destruct (Hbefore _ Hin).
    + intros fd Hin. destruct (Hbefore _ Hin).
    + intros name client verb url stream hdrs Hin. destruct (Hbefore _ Hin).
  - assert (Hno : forall ev, ev ∈ Debug "Awaiting all uploads" :: tu
                                    ++ [OpenSync archivePath] ->
                             beforeOpen ev \/ ev = OpenSync archivePath).
    { intros ev Hin. apply elem_of_cons in Hin as [->|Hin]; [left; exact I|].
      apply elem_of_app in Hin as [Hin|Hin]; [left; exact (Htu _ Hin)|].
      apply list_elem_of_singleton in Hin. right. exact Hin. }
    rewrite Ht. split; [|split].
    + intros fd Hin. destruct (Hno _ Hin) as [[]|?]; discriminate.
    + intros fd _ Hok. destruct (Hfail fd Hok).
    + intros name client verb url stream hdrs Hin.
      destruct (Hno _ Hin) as [[]|?]; discriminate.
  - rewrite (uploadFile_chunked w completions httpClient cacheId archivePath
               key options blobContainerName connectionString
               _ _ _ _ _ _ _ _ _ Hblob Hn Hlen HC HF Hurl Hfd Hs).
    cbn [trace snd outcome fst].
    set (pool := promiseAll w httpClient url archivePath fd F C completions
                   ws off).
    set (P := fun ev : Event =>
                isClose ev = false
                /\ forall name client verb url' stream hdrs,
                     ev = Attempted name (Ok (SendStream client verb url'
                                                stream hdrs)) ->
                     rs_fd stream = fd /\ rs_path stream = archivePath).
    assert (Hd : forall msg, P (Debug msg))
      by (intros msg; split; [reflexivity | discriminate]).
    assert (Hse : forall s e ok, P (ChunkSettled s e ok))
      by (intros s e ok; split; [reflexivity | discriminate]).
    assert (Hi : forall s e, P (chunkIssue httpClient url archivePath fd s e)).
    { intros s e. split; [reflexivity|].
      intros name client verb url' stream hdrs [= _ _ _ _ <- _].
      split; reflexivity. }
    pose proof (spawn_events_are w httpClient url archivePath fd F C P
                  Hd Hse Hi (seqZ 0 n) 0) as Hts.
    rewrite Hs in Hts. cbn [trace snd] in Hts.
    pose proof (awaitAll_events_are w httpClient url archivePath fd F C P
                  Hd Hse Hi completions ws off) as Htp. fold pool in Htp.
    assert (Htu : Forall P tu).
    { apply Forall_forall. intros ev Hin.
      assert (Hq : ev ∈ trace (getCacheApiUrl w ("caches/" +:+ toString cacheId)))
        by (rewrite Hurl; exact Hin).
      apply getCacheApiUrl_trace in Hq as [msg ->]. apply Hd. }
    assert (Hpre : Forall P (Debug "Awaiting all uploads" :: tu
                               ++ OpenSync archivePath :: ts ++ trace pool)).
    { constructor; [apply Hd|]. apply Forall_app. split; [exact Htu|].
      constructor; [split; [reflexivity | discriminate]|].
      apply Forall_app. split; assumption. }
    assert (Hshape :
      Debug "Awaiting all uploads" :: tu ++ OpenSync archivePath :: ts
        ++ trace pool ++ match outcome pool with
                         | Pending => []
                         | _ => [CloseSync fd]
                         end
      = (Debug "Awaiting all uploads" :: tu ++ OpenSync archivePath :: ts
           ++ trace pool)
        ++ match outcome pool with Pending => [] | _ => [CloseSync fd] end).
    { cbn [app]. rewrite <- !app_assoc. cbn [app]. rewrite <- !app_assoc.
      reflexivity. }
    rewrite Hshape. rewrite Forall_forall in Hpre.
    split; [|split].
    + intros fd' Hin. apply elem_of_app in Hin as [Hin|Hin].
      { apply Hpre in Hin as [Hc _]. discriminate. }
      assert (fd' = fd /\ match outcome pool with
                          | Pending => []
                          | _ => [CloseSync fd]
                          end = [CloseSync fd]) as [-> ->].
      { destruct (outcome pool);
          [apply list_elem_of_singleton in Hin; injection Hin as ->;
           split; reflexivity..
          |apply elem_of_nil in Hin as []]. }
      split; [exact Hfd|]. eexists. split; [reflexivity|]. split.
      * apply list_elem_of_further, elem_of_app. right. apply list_elem_of_here.
      * apply Forall_forall. intros ev Hev. apply (Hpre ev Hev).
    + intros fd' _ Hfd' Hpend. rewrite Hfd in Hfd'. injection Hfd' as <-.
      apply elem_of_app. right. destruct (outcome pool);
        [apply list_elem_of_here.. | contradiction].
    + intros name client verb url' stream hdrs Hin.
      apply elem_of_app in Hin as [Hin|Hin].
      * destruct (proj2 (Hpre _ Hin) _ _ _ _ _ _ eq_refl) as [-> ->].
        split; [exact Hfd | reflexivity].
      * destruct (outcome pool);
          [apply list_elem_of_singleton in Hin; discriminate..
          |apply elem_of_nil in Hin as []].
Qed.

(** [uploadFile] closes the descriptor it opened exactly once, at the
    moment it settles, on success and on failure alike, and nothing ever
    closes another descriptor. Every chunk upload of the run names that
    descriptor and the archive path in its stream. When [uploadFile]
    returns or is still pending, no worker is left behind, so the closing
    comes after every chunk upload. When it throws, its surviving workers
    are not cancelled: what they still send names the descriptor that
    [uploadFile] closes. *)
Theorem uploadFile_closes_the_descriptor_once (w : World)
    (completions : list nat) (httpClient : HttpClient) (cacheId : Z)
    (archivePath key : string) (options : option UploadOptions)
    (blobContainerName connectionString : option string) :
  let m := uploadFile w completions httpClient cacheId archivePath key options
             blobContainerName connectionString in
  let later := uploadFileStragglers w completions httpClient cacheId
                 archivePath key options blobContainerName connectionString in
  (forall fd, CloseSync fd ∈ trace m ++ later ->
     openSync w archivePath = Ok fd
     /\ exists pre, trace m = pre ++ [CloseSync fd]
                    /\ OpenSync archivePath ∈ pre
                    /\ Forall (fun ev => isClose ev = false) (pre ++ later))
  /\ (forall fd, OpenSync archivePath ∈ trace m ->
        openSync w archivePath = Ok fd -> outcome m <> Pending ->
        CloseSync fd ∈ trace m)
  /\ (forall name client verb url stream hdrs,
        Attempted name (Ok (SendStream client verb url stream hdrs))
        ∈ trace m ++ later ->
        openSync w archivePath = Ok (rs_fd stream)
        /\ rs_path stream = archivePath)
  /\ ((forall msg, outcome m <> Throw msg) -> later = []).
Proof.
  intros m later.
  destruct (uploadFile_awaited_descriptor w completions httpClient cacheId
              archivePath key options blobContainerName connectionString)
    as (Hclose & Hopen & Hstream). fold m in Hclose, Hopen, Hstream.
  set (P := fun ev : Event =>
              isClose ev = false
              /\ forall name client verb url stream hdrs,
                   ev = Attempted name (Ok (SendStream client verb url
                                              stream hdrs)) ->
                   openSync w archivePath = Ok (rs_fd stream)
                   /\ rs_path stream = archivePath).
  assert (Hlater : Forall P later).
  { subst later. apply uploadFileStragglers_events; subst P; cbv beta.
    - intros msg. split; [reflexivity | discriminate].
    - intros s e ok. split; [reflexivity | discriminate].
    - intros url tu fd s e _ Hfd. split; [reflexivity|].
      intros name client verb url' stream hdrs [= _ _ _ _ <- _].
      split; [exact Hfd | reflexivity]. }
  rewrite Forall_forall in Hlater.
  split; [|split; [exact Hopen|split]].
  - intros fd Hin. apply elem_of_app in Hin as [Hin|Hin].
    + destruct (Hclose fd Hin) as (Hfd & pre & Ht & Ho & Hpre).
      split; [exact Hfd|]. exists pre. split; [exact Ht|].
      split; [exact Ho|]. apply Forall_app. split; [exact Hpre|].
      apply Forall_forall. intros ev Hev. exact (proj1 (Hlater ev Hev)).
    + destruct (Hlater _ Hin) as [Hc _]. discriminate.
  - intros name client verb url stream hdrs Hin.
    apply elem_of_app in Hin as [Hin|Hin].
    + exact (Hstream name client verb url stream hdrs Hin).
    + exact (proj2 (Hlater _ Hin) _ _ _ _ _ _ eq_refl).
  - apply uploadFileStragglers_after_rejection.
Qed.

Lemma uploadFile_closes_the_descriptor_witness :
  CloseSync 3
  ∈ trace (uploadFile refusingWorld [1; 0]%nat (createHttpClient refusingWorld)
             7 "/tmp/archive.tzst" "linux-build-8f3a" twoWorkersFourMiB
             None None).
Proof.
  apply (proj1 (proj2 (uploadFile_closes_the_descriptor_once refusingWorld
                         [1; 0]%nat (createHttpClient refusingWorld) 7
                         "/tmp/archive.tzst" "linux-build-8f3a"
                         twoWorkersFourMiB None None)) 3).
  - find_event.
  - reflexivity.
  - vm_compute. discriminate.
Defined.

(** ** [saveCache]: what makes it return, and what it commits *)

Lemma commitCache_parts w cacheId filesize :
  commitCache w (createHttpClient w) cacheId filesize
  = (commitAnswer w cacheId filesize,
     trace (commitRequest w cacheId filesize)
       ++ [Attempted "commitCache" (outcome (commitRequest w cacheId filesize))]).
Proof.
  unfold commitCache, commitAnswer. fold (commitRequest w cacheId filesize).
  unfold retryTypedResponse, retry.
  destruct (commitRequest w cacheId filesize). reflexivity.
Qed.

Lemma getCacheApiUrl_present w resource base :
  env w "ACTIONS_CACHE_URL" = Some base -> base <> "" ->
  getCacheApiUrl w resource
  = (Ok (base +:+ "_apis/artifactcache/" +:+ resource),
     [Debug ("Resource Url: " +:+ base +:+ "_apis/artifactcache/" +:+ resource)]).
Proof.
  intros Henv Hne. unfold getCacheApiUrl. rewrite Henv. cbn [from_option id truthy].
  destruct (String.eqb_spec base ""); [contradiction|]. cbn [negb].
  unfold debug. rewrite bind_emit. reflexivity.
Qed.

Lemma getCacheApiUrl_missing w resource :
  truthy (env w "ACTIONS_CACHE_URL") = false ->
  getCacheApiUrl w resource
  = (Throw "Cache Service Url not found, unable to restore cache.", []).
Proof.
  intros H. unfold getCacheApiUrl.
  destruct (env w "ACTIONS_CACHE_URL") as [base|]; cbn [from_option id truthy] in *.
  - rewrite H. reflexivity.
  - reflexivity.
Qed.

Lemma commitPhase_run w cacheId archivePath :
  commitPhase w cacheId archivePath
  = match getArchiveFileSizeInBytes w archivePath with
    | Ok cacheSize =>
        let front :=
          Debug "Commiting cache"
            :: Info ("Cache Size: ~" +:+ toString (roundMiB cacheSize)
                       +:+ " MB (" +:+ toString cacheSize +:+ " B)")
            :: trace (commitRequest w cacheId cacheSize)
            ++ [Attempted "commitCache"
                  (outcome (commitRequest w cacheId cacheSize))] in
        match commitAnswer w cacheId cacheSize with
        | Ok resp =>
            if isSuccessStatusCode w (Some (statusCode resp))
            then (Ok tt, front ++ [Info "Cache saved successfully"])
            else (Throw ("Cache service responded with "
                           +:+ toString (statusCode resp)
                           +:+ " during commit cache."), front)
        | Throw msg => (Throw msg, front)
        | Pending => (Pending, front)
        end
    | Throw msg => (Throw msg, [Debug "Commiting cache"])
    | Pending => (Pending, [Debug "Commiting cache"])
    end.
Proof.
  unfold commitPhase, debug, info, lift. rewrite bind_emit.
  cbn [outcome trace fst snd].
  destruct (getArchiveFileSizeInBytes w archivePath) as [sz|msg|];
    [|reflexivity..].
  rewrite bind_ret, bind_emit. cbn [outcome trace fst snd].
  rewrite commitCache_parts. cbv zeta.
  destruct (commitAnswer w cacheId sz) as [resp|msg|];
    rewrite ?bind_ok, ?bind_throw, ?bind_pending; [|reflexivity..].
  cbn [outcome trace fst snd].
  destruct (isSuccessStatusCode w (Some (statusCode resp))); cbn.
  - rewrite <- app_assoc. reflexivity.
  - rewrite app_nil_r. reflexivity.
Qed.

(** [saveCache] returns exactly when the upload completes, the archive can
    be measured and the cache service answers the commit with a success
    status; the commit carries the measured size to [caches/<cacheId>];
    a commit answered with another status makes [saveCache] throw with that
    status in the message. *)
Theorem saveCache_returns_iff_committed (w : World) (completions : list nat)
    (cacheId : Z) (archivePath key : string) (options : option UploadOptions)
    (blobContainerName connectionString : option string) :
  let run := saveCache w completions cacheId archivePath key options
               blobContainerName connectionString in
  let up := uploadFile w completions (createHttpClient w) cacheId archivePath
              key options blobContainerName connectionString in
  (outcome run = Ok tt
   <-> outcome up = Ok tt
       /\ exists cacheSize resp,
            getArchiveFileSizeInBytes w archivePath = Ok cacheSize
            /\ commitAnswer w cacheId cacheSize = Ok resp
            /\ isSuccessStatusCode w (Some (statusCode resp)) = true)
  /\ (forall cacheSize resp,
        outcome up = Ok tt ->
        getArchiveFileSizeInBytes w archivePath = Ok cacheSize ->
        commitAnswer w cacheId cacheSize = Ok resp ->
        isSuccessStatusCode w (Some (statusCode resp)) = false ->
        outcome run
        = Throw ("Cache service responded with " +:+ toString (statusCode resp)
                   +:+ " during commit cache."))
  /\ (forall cacheSize base,
        env w "ACTIONS_CACHE_URL" = Some base -> base <> "" ->
        outcome (commitRequest w cacheId cacheSize)
        = Ok (PostCommit (createHttpClient w)
                (base +:+ "_apis/artifactcache/caches/" +:+ toString cacheId)
                {| size := cacheSize |})).
Proof.
  intros run up. subst run. rewrite saveCache_phases. fold up.
  cbn [outcome fst]. rewrite commitPhase_run.
  split; [|split].
  - destruct (outcome up) as [[]|msg|]; [|split; [discriminate
      | intros [? _]; discriminate]..].
    destruct (getArchiveFileSizeInBytes w archivePath) as [sz|msg|];
      [|split; [discriminate | intros (_ & sz & resp & [=] & _)]..].
    cbv zeta.
    destruct (commitAnswer w cacheId sz) as [resp|msg|] eqn:Hans;
      [|split; [discriminate | intros (_ & sz' & resp & [= <-] & Hr & _);
          rewrite Hans in Hr; discriminate]..].
    destruct (isSuccessStatusCode w (Some (statusCode resp))) eqn:Hs; cbn.
    + split; [|reflexivity]. intros _. split; [reflexivity|]. eauto.
    + split; [discriminate|]. intros (_ & sz' & resp' & [= <-] & Hr & Hs').
      rewrite Hans in Hr. injection Hr as <-. congruence.
  - intros sz resp Hup Hsz Hans Hs. rewrite Hup, Hsz. cbv zeta.
    rewrite Hans, Hs. reflexivity.
  - intros sz base Henv Hne. unfold commitRequest.
    rewrite (getCacheApiUrl_present w _ base Henv Hne), bind_ok. reflexivity.
Qed.

Lemma saveCache_commit_refused_witness :
  outcome (saveCache (commitWorld 429) [0; 1; 0; 1]%nat 7 "/tmp/archive.tzst"
             "linux-build-8f3a" twoWorkersFourMiB None None)
  = Throw "Cache service responded with 429 during commit cache.".
Proof.
  apply (proj1 (proj2 (saveCache_returns_iff_committed (commitWorld 429)
                         [0; 1; 0; 1]%nat 7 "/tmp/archive.tzst"
                         "linux-build-8f3a" twoWorkersFourMiB None None))
           10485760 {| statusCode := 429; result := None; headers := [] |});
    vm_compute; reflexivity.
Defined.

(** ** Without the cache service URL, and with a storage container *)

(** [uploadFile] once its two options are there and the array length is
    valid: the log line, then the blob upload or the chunked upload. *)
Lemma uploadFile_start (w : World) (completions : list nat)
    (httpClient : HttpClient) (cacheId : Z) (archivePath key : string)
    (options : option UploadOptions)
    (blobContainerName connectionString : option string) n C :
  assertDefined w "uploadConcurrency"
    (uploadConcurrency (getUploadOptions w options)) = Ok n ->
  assertDefined w "uploadChunkSize"
    (uploadChunkSize (getUploadOptions w options)) = Ok C ->
  (n <? 0) || (4294967295 <? n) = false ->
  uploadFile w completions httpClient cacheId archivePath key options
    blobContainerName connectionString
  = emit (Debug "Awaiting all uploads")
    ≫= (fun _ =>
    if truthy blobContainerName && truthy connectionString then
      uploadFileBlob w (default "" blobContainerName)
        (default "" connectionString) archivePath key n
    else
      (getArchiveFileSizeInBytes w archivePath, [])
      ≫= (fun F =>
      getCacheApiUrl w ("caches/" +:+ toString cacheId)
      ≫= (fun resourceUrl =>
      (emit (OpenSync archivePath) ≫= (fun _ => (openSync w archivePath, [])))
      ≫= (fun fd =>
      try_finally
        (spawn w httpClient resourceUrl archivePath fd F C (seqZ 0 n) 0
         ≫= (fun '(workers, offset) =>
               promiseAll w httpClient resourceUrl archivePath fd F C
                 completions workers offset))
        (emit (CloseSync fd)))))).
Proof.
  intros Hn HC Hlen.
  unfold uploadFile, newArrayKeys, lift, mret, M_ret, ret, debug.
  rewrite Hn, bind_ret, HC, bind_ret, Hlen, bind_ret. reflexivity.
Qed.

(** Without [ACTIONS_CACHE_URL], a chunked [saveCache] fails before it
    opens the archive or sends anything: its trace holds log lines only,
    there is no chunk upload and no commit, and with valid options and a
    measurable archive the error is the missing-URL error. *)
Theorem saveCache_without_service_url (w : World) (completions : list nat)
    (cacheId : Z) (archivePath key : string) (options : option UploadOptions)
    (blobContainerName connectionString : option string) :
  truthy (env w "ACTIONS_CACHE_URL") = false ->
  truthy blobContainerName && truthy connectionString = false ->
  let run := saveCache w completions cacheId archivePath key options
               blobContainerName connectionString in
  (forall ev, ev ∈ trace run -> exists msg, ev = Debug msg)
  /\ (forall u, outcome run <> Ok u)
  /\ (forall n C F,
        assertDefined w "uploadConcurrency"
          (uploadConcurrency (getUploadOptions w options)) = Ok n ->
        assertDefined w "uploadChunkSize"
          (uploadChunkSize (getUploadOptions w options)) = Ok C ->
        0 <= n <= 4294967295 ->
        getArchiveFileSizeInBytes w archivePath = Ok F ->
        outcome run
        = Throw "Cache Service Url not found, unable to restore cache.").
Proof.
  intros Henv Hblob run. subst run. rewrite saveCache_phases. cbv zeta.
  set (up := uploadFile w completions (createHttpClient w) cacheId archivePath
               key options blobContainerName connectionString).
  assert (Hup : (forall ev, ev ∈ trace up -> exists msg, ev = Debug msg)
                /\ (forall u, outcome up <> Ok u)
                /\ (forall n C F,
                      assertDefined w "uploadConcurrency"
                        (uploadConcurrency (getUploadOptions w options)) = Ok n ->
                      assertDefined w "uploadChunkSize"
                        (uploadChunkSize (getUploadOptions w options)) = Ok C ->
                      0 <= n <= 4294967295 ->
                      getArchiveFileSizeInBytes w archivePath = Ok F ->
                      outcome up
                      = Throw "Cache Service Url not found, unable to restore cache.")).
  { subst up.
    destruct (assertDefined w "uploadConcurrency"
                (uploadConcurrency (getUploadOptions w options)))
      as [n|msg|] eqn:Hn;
    [|unfold uploadFile, lift; rewrite Hn;
      (split; [intros ev Hin; apply elem_of_nil in Hin as []|]);
      (split; [intros u; discriminate | intros ? ? ? [=]])..].
    destruct (assertDefined w "uploadChunkSize"
                (uploadChunkSize (getUploadOptions w options)))
      as [C|msg|] eqn:HC;
    [|unfold uploadFile, lift; rewrite Hn, bind_ret, HC;
      (split; [intros ev Hin; apply elem_of_nil in Hin as []|]);
      (split; [intros u; discriminate | intros ? ? ? _ [=]])..].
    destruct ((n <? 0) || (4294967295 <? n)) eqn:Hlen.
    { unfold uploadFile, newArrayKeys, lift. rewrite Hn, bind_ret, HC, bind_ret, Hlen.
      split; [intros ev Hin; apply elem_of_nil in Hin as []|].
      split; [intros u; discriminate|].
      intros n' C' F [= <-] _ Hrange _. exfalso.
      apply orb_true_iff in Hlen as [H|H]; apply Z.ltb_lt in H; lia. }
    rewrite (uploadFile_start w completions (createHttpClient w) cacheId
               archivePath key options blobContainerName connectionString
               n C Hn HC Hlen).
    rewrite bind_emit, Hblob. cbn [outcome trace fst snd].
    rewrite (getCacheApiUrl_missing w _ Henv).
    destruct (getArchiveFileSizeInBytes w archivePath) as [F|msg|];
      rewrite ?bind_ret, ?bind_throw, ?bind_pending; cbn [outcome trace fst snd].
    - split; [|split; [intros u; discriminate | reflexivity]].
      intros ev Hin. apply list_elem_of_singleton in Hin as ->. eauto.
    - split; [|split; [intros u; discriminate | intros ? ? ? _ _ _ [=]]].
      intros ev Hin. apply list_elem_of_singleton in Hin as ->. eauto.
    - split; [|split; [intros u; discriminate | intros ? ? ? _ _ _ [=]]].
      intros ev Hin. apply list_elem_of_singleton in Hin as ->. eauto. }
  destruct Hup as (Hev & Hnot & Hmsg). cbn [outcome trace fst snd].
  destruct (outcome up) as [u|msg|] eqn:Hout; [destruct (Hnot u eq_refl)|..].
  - rewrite app_nil_r. split; [|split].
    + intros ev Hin. apply elem_of_cons in Hin as [->|Hin]; eauto.
    + intros u; discriminate.
    + intros n C F Hn HC Hr HF. exact (Hmsg n C F Hn HC Hr HF).
  - rewrite app_nil_r. split; [|split].
    + intros ev Hin. apply elem_of_cons in Hin as [->|Hin]; eauto.
    + intros u; discriminate.
    + intros n C F Hn HC Hr HF. exact (Hmsg n C F Hn HC Hr HF).
Qed.

Lemma saveCache_without_service_url_witness :
  outcome (saveCache offlineWorld [0; 1]%nat 7 "/tmp/archive.tzst"
             "linux-build-8f3a" twoWorkersFourMiB None None)
  = Throw "Cache Service Url not found, unable to restore cache.".
Proof.
  apply (proj2 (proj2 (saveCache_without_service_url offlineWorld [0; 1]%nat 7
                         "/tmp/archive.tzst" "linux-build-8f3a"
                         twoWorkersFourMiB None None eq_refl eq_refl))
           2 4194304 10485760 eq_refl eq_refl ltac:(lia) eq_refl).
Defined.

(** With a container name and a connection string, [saveCache] does not
    chunk: it calls neither [openSync] nor [closeSync] and sends no chunk
    upload. It creates one read stream of the archive
    ([fs.createReadStream(archivePath)], which opens the file on its own)
    and hands that stream once to the storage SDK with the configured
    concurrency; an SDK failure is rethrown as "Cache upload failed
    because ..." and no commit follows; after an SDK success the commit
    to the cache service follows all the same. *)
Theorem saveCache_with_container_uploads_once (w : World)
    (completions : list nat) (cacheId : Z) (archivePath key : string)
    (options : option UploadOptions)
    (blobContainerName connectionString : option string) (n C : Z) :
  truthy blobContainerName && truthy connectionString = true ->
  assertDefined w "uploadConcurrency"
    (uploadConcurrency (getUploadOptions w options)) = Ok n ->
  assertDefined w "uploadChunkSize"
    (uploadChunkSize (getUploadOptions w options)) = Ok C ->
  0 <= n <= 4294967295 ->
  let run := saveCache w completions cacheId archivePath key options
               blobContainerName connectionString in
  let handOver :=
    [Debug "Upload cache"; Debug "Awaiting all uploads";
     Debug ("Start upload to (blobContainerName: "
              +:+ default "" blobContainerName +:+ ")");
     CreateReadStream archivePath;
     UploadStream (default "" connectionString) (default "" blobContainerName)
       key archivePath n] in
  match blobUploadStream w (default "" connectionString)
          (default "" blobContainerName) key archivePath n with
  | Ok _ =>
      trace run = handOver ++ trace (commitPhase w cacheId archivePath)
      /\ outcome run = outcome (commitPhase w cacheId archivePath)
  | Throw msg =>
      trace run = handOver
      /\ outcome run = Throw ("Cache upload failed because " +:+ msg)
  | Pending => trace run = handOver /\ outcome run = Pending
  end.
Proof.
  intros Hblob Hn HC Hrange run handOver. subst run handOver.
  assert (Hlen : (n <? 0) || (4294967295 <? n) = false)
    by (apply orb_false_iff; split; apply Z.ltb_ge; lia).
  rewrite saveCache_phases. cbv zeta.
  rewrite (uploadFile_start w completions (createHttpClient w) cacheId
             archivePath key options blobContainerName connectionString
             n C Hn HC Hlen).
  rewrite bind_emit, Hblob, uploadFileBlob_run. cbn [outcome trace fst snd].
  destruct (blobUploadStream w _ _ _ _ _) as [[]|msg|]; split; reflexivity.
Qed.

Lemma saveCache_with_container_witness :
  trace (saveCache offlineWorld [] 7 "/tmp/archive.tzst" "linux-build-8f3a"
           twoWorkersFourMiB (Some "container") (Some "conn"))
  = [Debug "Upload cache"; Debug "Awaiting all uploads";
     Debug "Start upload to (blobContainerName: container)";
     CreateReadStream "/tmp/archive.tzst";
     UploadStream "conn" "container" "linux-build-8f3a" "/tmp/archive.tzst" 2]
  /\ outcome (saveCache offlineWorld [] 7 "/tmp/archive.tzst" "linux-build-8f3a"
                twoWorkersFourMiB (Some "container") (Some "conn"))
     = Throw "Cache upload failed because RestError: AuthenticationFailed".
Proof.
  apply (saveCache_with_container_uploads_once offlineWorld [] 7
           "/tmp/archive.tzst" "linux-build-8f3a" twoWorkersFourMiB
           (Some "container") (Some "conn") 2 4194304 eq_refl eq_refl eq_refl).
  lia.
Defined.

(** ** The download: where it stops *)

Ltac run_m :=
  cbn [mbind M_bind bind lift emit mret M_ret ret throw outcome trace
       fst snd app from_option id andb].

Ltac not_among :=
  let Hin := fresh "Hin" in
  intros Hin;
  repeat (apply elem_of_cons in Hin as [Hin|Hin]; [discriminate|]);
  apply elem_of_nil in Hin as [].

(** [downloadCache] stops at the first failure: an archive location that
    does not parse as a URL fails the call before any download, and a
    failed SDK download is the failure of the call, with no other strategy
    tried after it. When the call returns, its last step was the blob
    download or the HTTP download, never both, and that one succeeded. *)
Theorem downloadCache_stops_at_first_failure (w : World)
    (entry : ArtifactCacheEntry) (archivePath : string)
    (options : option DownloadOptions)
    (blobContainerName connectionString : option string) :
  let location := default placeholderLocation (archiveLocation entry) in
  let dopts := getDownloadOptions w options in
  let key := default "" (cacheKey entry) in
  let container := default "" blobContainerName in
  let connection := default "" connectionString in
  let run := downloadCache w entry archivePath options blobContainerName
               connectionString in
  (forall msg, URL_hostname w location = Throw msg -> run = (Throw msg, []))
  /\ (forall host msg,
        URL_hostname w location = Ok host ->
        endsWith host ".blob.core.windows.net" = true ->
        useAzureSdk dopts = Some true ->
        storageSDKDownload w location archivePath dopts = Throw msg ->
        run = (Throw msg, [DownloadCacheStorageSDK location archivePath dopts]))
  /\ (outcome run = Ok tt ->
        (last (trace run)
         = Some (DownloadCacheBlobStorage key archivePath dopts container
                   connection)
         /\ blobStorageDownload w key archivePath dopts container connection
            = Ok tt
         /\ DownloadCacheHttpClient location archivePath ∉ trace run)
        \/ (last (trace run)
            = Some (DownloadCacheHttpClient location archivePath)
            /\ httpClientDownload w location archivePath = Ok tt
            /\ DownloadCacheBlobStorage key archivePath dopts container
                 connection ∉ trace run)).
Proof.
  intros location dopts key container connection run.
  subst run. unfold downloadCache. fold placeholderLocation.
  fold location dopts key container connection.
  unfold downloadCacheStorageSDK, downloadCacheBlobStorage,
    downloadCacheHttpClient.
  split; [|split].
  - intros msg ->. reflexivity.
  - intros host msg Hh He Hu Hsdk. rewrite Hh. run_m. rewrite He, Hu. run_m.
    rewrite Hsdk. reflexivity.
  - destruct (URL_hostname w location) as [host|msg|]; run_m;
      [|intros [=]..].
    destruct (default false (useAzureSdk dopts)
              && endsWith host ".blob.core.windows.net"); run_m.
    + destruct (storageSDKDownload w location archivePath dopts) as [[]|msg|];
        run_m; [|intros [=]..].
      destruct (truthy blobContainerName && truthy connectionString
                && truthy (cacheKey entry)); run_m.
      * destruct (blobStorageDownload w key archivePath dopts container
                    connection) as [[]|msg|] eqn:Hb; run_m; [|intros [=]..].
        intros _. left. split; [reflexivity|]. split; [reflexivity|not_among].
      * destruct (httpClientDownload w location archivePath)
          as [[]|msg|] eqn:Hh; run_m; [|intros [=]..].
        intros _. right. split; [reflexivity|]. split; [reflexivity|not_among].
    + destruct (truthy blobContainerName && truthy connectionString
                && truthy (cacheKey entry)); run_m.
      * destruct (blobStorageDownload w key archivePath dopts container
                    connection) as [[]|msg|] eqn:Hb; run_m; [|intros [=]..].
        intros _. left. split; [reflexivity|]. split; [reflexivity|not_among].
      * destruct (httpClientDownload w location archivePath)
          as [[]|msg|] eqn:Hh; run_m; [|intros [=]..].
        intros _. right. split; [reflexivity|]. split; [reflexivity|not_among].
Qed.

Lemma downloadCache_failed_sdk_witness :
  downloadCache offlineWorld azureEntry "/tmp/archive.tzst" withSdk
    (Some "container") (Some "conn")
  = (Throw "download failed",
     [DownloadCacheStorageSDK
        "https://acct.blob.core.windows.net/cache/archive.tzst"
        "/tmp/archive.tzst" (getDownloadOptions offlineWorld withSdk)]).
Proof.
  apply (proj1 (proj2 (downloadCache_stops_at_first_failure offlineWorld
                         azureEntry "/tmp/archive.tzst" withSdk
                         (Some "container") (Some "conn")))
           "acct.blob.core.windows.net" "download failed"
           eq_refl eq_refl eq_refl eq_refl).
Defined.

(** ** From the direct-storage lookup to the download *)

Lemma firstMatch_some keys blobList entry :
  firstMatch keys blobList = Ok (Some entry) ->
  exists b, b ∈ yielded blobList /\ name b ∈ keys /\ entry = entryOf b.
Proof.
  induction blobList as [|b rest IH|msg]; cbn [firstMatch yielded];
    [intros [=]| |intros [=]].
  destruct (bool_decide_reflect (name b ∈ keys)) as [Hin|Hout].
  - intros [= <-]. exists b. split; [apply list_elem_of_here|].
    split; [exact Hin | reflexivity].
  - intros H. destruct (IH H) as (b' & Hb' & Hk & ->).
    exists b'. split; [apply list_elem_of_further, Hb'|].
    split; [exact Hk | reflexivity].
Qed.

(** A hit of the direct-storage lookup carries one of the requested keys,
    the name of a listed blob, and no archive location; handed to
    [downloadCache] with the same container and connection string it is
    fetched from that container under that key, and the outcome of the
    blob download is the outcome of the call. *)
Theorem blob_hit_is_downloaded_by_its_key (w : World)
    (keys paths : list string) (options : option InternalCacheOptions)
    (downloadOptions : option DownloadOptions) (archivePath : string)
    (blobContainerName connectionString : option string)
    (entry : ArtifactCacheEntry) (host : string) :
  truthy blobContainerName = true ->
  truthy connectionString = true ->
  outcome (getCacheEntry w keys paths options blobContainerName
             connectionString) = Ok (Some entry) ->
  URL_hostname w "https://NoArchiveLocationFound.com" = Ok host ->
  endsWith host ".blob.core.windows.net" = false ->
  exists b,
    b ∈ yielded (listBlobsFlat w (default "" connectionString)
                   (default "" blobContainerName))
    /\ name b ∈ keys
    /\ cacheKey entry = Some (name b)
    /\ creationTime entry = Some (lastModified b)
    /\ archiveLocation entry = None
    /\ (name b <> "" ->
        downloadCache w entry archivePath downloadOptions blobContainerName
          connectionString
        = (blobStorageDownload w (name b) archivePath
             (getDownloadOptions w downloadOptions)
             (default "" blobContainerName) (default "" connectionString),
           [DownloadCacheBlobStorage (name b) archivePath
              (getDownloadOptions w downloadOptions)
              (default "" blobContainerName) (default "" connectionString)])).
Proof.
  intros Hb Hc Hhit Hhost Hends.
  unfold getCacheEntry, getCacheEntryBlob in Hhit. rewrite Hb, Hc in Hhit.
  cbn [andb] in Hhit. rewrite scanBlobs_firstMatch in Hhit.
  rewrite bind_emit in Hhit. cbn [outcome trace fst snd lift] in Hhit.
  apply firstMatch_some in Hhit as (b & Hin & Hk & ->).
  exists b. split; [exact Hin|]. split; [exact Hk|].
  split; [reflexivity|]. split; [reflexivity|]. split; [reflexivity|].
  intros Hne. unfold downloadCache, downloadCacheBlobStorage.
  cbn [entryOf archiveLocation cacheKey from_option id].
  rewrite Hhost. run_m. rewrite Hends, andb_false_r. run_m.
  rewrite Hb, Hc. cbn [truthy andb].
  destruct (String.eqb_spec (name b) ""); [contradiction|]. cbn [negb].
  run_m. destruct (blobStorageDownload w _ _ _ _ _); reflexivity.
Qed.

Lemma blob_hit_witness :
  exists b,
    b ∈ [blobA; blobB]
    /\ cacheKey (entryOf blobB) = Some (name b)
    /\ trace (downloadCache (blobWorld (LItem blobA (LItem blobB LDone)))
                (entryOf blobB) "/tmp/archive.tzst" None
                (Some "container") (Some "conn"))
       = [DownloadCacheBlobStorage (name b) "/tmp/archive.tzst"
            (getDownloadOptions quietWorld None) "container" "conn"].
Proof.
  destruct (blob_hit_is_downloaded_by_its_key
              (blobWorld (LItem blobA (LItem blobB LDone)))
              ["linux-build-8f3a"] ["/p"] None None "/tmp/archive.tzst"
              (Some "container") (Some "conn") (entryOf blobB)
              "noarchivelocationfound.com"
              eq_refl eq_refl eq_refl eq_refl eq_refl)
    as (b & Hin & Hk & Hkey & Htime & Hloc & Hrun).
  exists b. split; [exact Hin|]. split; [exact Hkey|].
  assert (Hb : name b = "linux-build-8f3a") by (injection Hkey as <-; reflexivity).
  rewrite Hrun; [reflexivity|]. rewrite Hb. discriminate.
Defined.

(** ** The version is a hexadecimal string *)

Lemma hex_digit_lower d :
  0 <= d < 16 -> isLowerHex (Sha256.hex_digit d) = true.
Proof.
  intros H.
  assert (Hd : d = 0 \/ d = 1 \/ d = 2 \/ d = 3 \/ d = 4 \/ d = 5 \/ d = 6
               \/ d = 7 \/ d = 8 \/ d = 9 \/ d = 10 \/ d = 11 \/ d = 12
               \/ d = 13 \/ d = 14 \/ d = 15) by lia.
  repeat (destruct Hd as [->|Hd]; [reflexivity|]). subst d. reflexivity.
Qed.

Lemma hex_of_bytes_lower bs :
  Forall (fun b => 0 <= b < 256) bs ->
  String.length (Sha256.hex_of_bytes bs) = (2 * length bs)%nat
  /\ string_forall isLowerHex (Sha256.hex_of_bytes bs) = true.
Proof.
  induction 1 as [|b bs Hb _ [IHl IHf]]; [split; reflexivity|].
  cbn [Sha256.hex_of_bytes String.length string_forall length].
  split; [rewrite IHl; lia|].
  rewrite IHf, !hex_digit_lower; [reflexivity| |].
  - change 15 with (Z.ones 4). rewrite Z.land_ones by lia.
    apply Z.mod_pos_bound. lia.
  - rewrite Z.shiftr_div_pow2 by lia. change (2 ^ 4) with 16.
    split; [apply Z.div_pos; lia | apply Z.div_lt_upper_bound; lia].
Qed.

Lemma be_bytes_range n x : Forall (fun b => 0 <= b < 256) (Sha256.be_bytes n x).
Proof.
  induction n as [|n IH]; cbn [Sha256.be_bytes]; constructor; [|exact IH].
  change 255 with (Z.ones 8). rewrite Z.land_ones by lia.
  apply Z.mod_pos_bound. lia.
Qed.

(** [getCacheVersion] always yields 64 characters out of [0-9a-f]: the
    version goes into the lookup URL as it is, and needs no escaping. *)
Theorem getCacheVersion_is_64_hex_digits (paths : list string)
    (compressionMethod : option CompressionMethod) :
  String.length (getCacheVersion paths compressionMethod) = 64%nat
  /\ string_forall isLowerHex (getCacheVersion paths compressionMethod) = true.
Proof.
  rewrite getCacheVersion_unfold. unfold Sha256.hex, Sha256.digest_bytes.
  set (h := Sha256.blocks _ _ _).
  destruct (hex_of_bytes_lower
              (flat_map (Sha256.be_bytes 4)
                 [Sha256.ra h; Sha256.rb h; Sha256.rc h; Sha256.rd h;
                  Sha256.re h; Sha256.rf h; Sha256.rg h; Sha256.rh h]))
    as [Hl Hf].
  - cbn [flat_map]. repeat (apply Forall_app; split; [apply be_bytes_range|]).
    constructor.
  - split; [|exact Hf]. rewrite Hl. reflexivity.
Qed.

(** ** Chunk requests and their Content-Range *)

Lemma toString_inj a b : toString a = toString b -> a = b.
Proof.
  unfold toString. intros H. apply DecimalZ.to_int_inj.
  assert (Hnil : forall z, Z.to_int z <> Decimal.Pos Decimal.Nil
                           /\ Z.to_int z <> Decimal.Neg Decimal.Nil).
  { intros [|p|p]; cbn; split; try discriminate;
      intros [= Hp]; exact (Unsigned.to_uint_nonnil p Hp). }
  destruct (Hnil a) as [Ha1 Ha2]. destruct (Hnil b) as [Hb1 Hb2].
  pose proof (NilZero.isi _ Ha1 Ha2) as Ea.
  pose proof (NilZero.isi _ Hb1 Hb2) as Eb.
  rewrite H in Ea. rewrite Ea in Eb. injection Eb as ->. reflexivity.
Qed.

Lemma uint_digits d : string_forall isDigit (NilEmpty.string_of_uint d) = true.
Proof.
  induction d; cbn [NilEmpty.string_of_uint string_forall];
    rewrite ?IHd; reflexivity.
Qed.

Lemma toString_digits n : 0 <= n -> string_forall isDigit (toString n) = true.
Proof.
  intros Hn. unfold toString. destruct n as [|p|p]; [reflexivity| |lia].
  cbn [Z.to_int NilZero.string_of_int]. unfold NilZero.string_of_uint.
  pose proof (uint_digits (Pos.to_uint p)) as H.
  destruct (Pos.to_uint p); [reflexivity|exact H..].
Qed.

Lemma digits_then_dash a a' r r' :
  string_forall isDigit a = true -> string_forall isDigit a' = true ->
  a +:+ String "-" r = a' +:+ String "-" r' -> a = a' /\ r = r'.
Proof.
  revert a'. induction a as [|c a IH]; intros [|c' a'];
    cbn [string_forall String.append]; intros Ha Ha' E.
  - injection E as ->. split; reflexivity.
  - injection E as <- _. discriminate.
  - injection E as -> _. discriminate.
  - injection E as -> E. apply andb_prop in Ha as [_ Ha].
    apply andb_prop in Ha' as [_ Ha'].
    destruct (IH a' Ha Ha' E) as [-> ->]. split; reflexivity.
Qed.

Lemma length_append_string s t :
  String.length (s +:+ t) = (String.length s + String.length t)%nat.
Proof.
  induction s as [|c s IH]; [reflexivity|].
  change (String c s +:+ t) with (String c (s +:+ t)).
  cbn [String.length]. rewrite IH. reflexivity.
Qed.

Lemma append_inv_tail s1 s2 t : s1 +:+ t = s2 +:+ t -> s1 = s2.
Proof.
  revert s2. induction s1 as [|c s1 IH]; intros [|c' s2] E.
  - reflexivity.
  - exfalso. apply (f_equal String.length) in E.
    change (String c' s2 +:+ t) with (String c' (s2 +:+ t)) in E.
    change ("" +:+ t) with t in E.
    cbn [String.length] in E. rewrite length_append_string in E. lia.
  - exfalso. apply (f_equal String.length) in E.
    change (String c s1 +:+ t) with (String c (s1 +:+ t)) in E.
    change ("" +:+ t) with t in E.
    cbn [String.length] in E. rewrite length_append_string in E. lia.
  - change (String c s1 +:+ t) with (String c (s1 +:+ t)) in E.
    change (String c' s2 +:+ t) with (String c' (s2 +:+ t)) in E.
    injection E as -> E. rewrite (IH s2 E). reflexivity.
Qed.

(** A [Content-Range] header names the range it was made from: when two
    ranges get the same header, they are the same range. *)
Theorem getContentRange_names_its_range (start1 end1 start2 end2 : Z) :
  0 <= start1 -> 0 <= start2 ->
  getContentRange start1 end1 = getContentRange start2 end2 ->
  start1 = start2 /\ end1 = end2.
Proof.
  intros H1 H2 E. unfold getContentRange in E.
  injection E as E.
  change ("-" +:+ ?x) with (String "-" x) in E.
  apply digits_then_dash in E as [Es Ee]; [|apply toString_digits; assumption..].
  apply append_inv_tail in Ee.
  apply toString_inj in Es. apply toString_inj in Ee.
  split; assumption.
Qed.

Lemma getContentRange_names_its_range_witness :
  4194304 = 4194304 /\ 8388607 = 8388607.
Proof.
  apply (getContentRange_names_its_range 4194304 8388607 4194304 8388607);
    [lia | lia | reflexivity].
Defined.

(** Whatever holds of log lines, settlements, the read stream and the
    SDK upload, the opening and closing of the archive and the chunk
    uploads against the resource URL that name the descriptor [openSync]
    gave, holds of every event of [uploadFile] until it settles. *)
Lemma uploadFile_events (P : Event -> Prop) (w : World)
    (completions : list nat) (httpClient : HttpClient) (cacheId : Z)
    (archivePath key : string) (options : option UploadOptions)
    (blobContainerName connectionString : option string) :
  (forall msg, P (Debug msg)) ->
  (forall start end_ ok, P (ChunkSettled start end_ ok)) ->
  (forall path, P (CreateReadStream path)) ->
  (forall a b c d n, P (UploadStream a b c d n)) ->
  P (OpenSync archivePath) ->
  (forall fd, P (CloseSync fd)) ->
  (forall url tu fd start end_,
     getCacheApiUrl w ("caches/" +:+ toString cacheId) = (Ok url, tu) ->
     openSync w archivePath = Ok fd ->
     P (chunkIssue httpClient url archivePath fd start end_)) ->
  forall ev,
    ev ∈ trace (uploadFile w completions httpClient cacheId archivePath key
                  options blobContainerName connectionString) ->
    P ev.
Proof.
  intros Hd Hse Hr Hu Ho Hc Hi.
  assert (Hb : forall ev, beforeOpen ev -> P ev).
  { intros [] H; destruct H; auto. }
  destruct (uploadFile_stages w completions httpClient cacheId archivePath key
              options blobContainerName connectionString)
    as [Hbefore
       |[(tu & Hfail & Htu & Ht)
        |(n & C & F & url & tu & fd & ws & off & ts
          & Hblob & Hn & Hlen & HC & HF & Hurl & Hfd & Hs)]].
  - intros ev Hin. exact (Hb _ (Hbefore _ Hin)).
  - rewrite Ht. intros ev Hin.
    apply elem_of_cons in Hin as [->|Hin]; [apply Hd|].
    apply elem_of_app in Hin as [Hin|Hin]; [exact (Hb _ (Htu _ Hin))|].
    apply list_elem_of_singleton in Hin as ->. exact Ho.
  - rewrite (uploadFile_chunked w completions httpClient cacheId archivePath
               key options blobContainerName connectionString
               _ _ _ _ _ _ _ _ _ Hblob Hn Hlen HC HF Hurl Hfd Hs).
    cbn [trace snd outcome fst].
    set (pool := promiseAll w httpClient url archivePath fd F C completions
                   ws off).
    pose proof (spawn_events_are w httpClient url archivePath fd F C P
                  Hd Hse (fun s e => Hi url tu fd s e Hurl Hfd) (seqZ 0 n) 0) as Hts.
    rewrite Hs in Hts. cbn [trace snd] in Hts.
    pose proof (awaitAll_events_are w httpClient url archivePath fd F C P
                  Hd Hse (fun s e => Hi url tu fd s e Hurl Hfd) completions ws off) as Htp.
    fold pool in Htp. rewrite Forall_forall in Hts, Htp.
    intros ev Hin.
    apply elem_of_cons in Hin as [->|Hin]; [apply Hd|].
    apply elem_of_app in Hin as [Hin|Hin].
    { assert (Hq : ev ∈ trace (getCacheApiUrl w ("caches/" +:+ toString cacheId)))
        by (rewrite Hurl; exact Hin).
      apply getCacheApiUrl_trace in Hq as [msg ->]. apply Hd. }
    apply elem_of_cons in Hin as [->|Hin]; [exact Ho|].
    apply elem_of_app in Hin as [Hin|Hin]; [exact (Hts _ Hin)|].
    apply elem_of_app in Hin as [Hin|Hin]; [exact (Htp _ Hin)|].
    destruct (outcome pool);
      [apply list_elem_of_singleton in Hin as ->; apply Hc..
      |apply elem_of_nil in Hin as []].
Qed.

(** Every request of a run of [uploadFile], stragglers included, is a
    chunk upload: a PATCH of the cache's own resource, [caches/<cacheId>]
    under the service URL, whose stream is the bytes [start .. end] of
    the archive read from the descriptor [openSync] returned, and which
    announces exactly that range in its Content-Range header, as an octet
    stream. *)
Theorem uploadFile_sends_only_chunk_patches (w : World)
    (completions : list nat) (httpClient : HttpClient) (cacheId : Z)
    (archivePath key : string) (options : option UploadOptions)
    (blobContainerName connectionString : option string) (base : string) :
  env w "ACTIONS_CACHE_URL" = Some base ->
  forall name req,
    Attempted name req
    ∈ uploadFileRun w completions httpClient cacheId archivePath key
        options blobContainerName connectionString ->
    exists fd start end_,
      openSync w archivePath = Ok fd
      /\ name = "uploadChunk (start: " +:+ toString start +:+ ", end: "
                  +:+ toString end_ +:+ ")"
      /\ req = Ok (SendStream httpClient "PATCH"
                     (base +:+ "_apis/artifactcache/caches/"
                        +:+ toString cacheId)
                     {| rs_path := archivePath; rs_fd := fd;
                        rs_start := start; rs_end := end_ |}
                     [("Content-Type", "application/octet-stream");
                      ("Content-Range",
                       "bytes " +:+ toString start +:+ "-"
                         +:+ toString end_ +:+ "/*")]).
Proof.
  intros Henv name req Hin.
  set (P := fun ev : Event =>
              forall name req, ev = Attempted name req ->
              exists fd start end_,
                openSync w archivePath = Ok fd
                /\ name = "uploadChunk (start: " +:+ toString start
                            +:+ ", end: " +:+ toString end_ +:+ ")"
                /\ req = Ok (SendStream httpClient "PATCH"
                               (base +:+ "_apis/artifactcache/caches/"
                                  +:+ toString cacheId)
                               {| rs_path := archivePath; rs_fd := fd;
                                  rs_start := start; rs_end := end_ |}
                               [("Content-Type", "application/octet-stream");
                                ("Content-Range",
                                 "bytes " +:+ toString start +:+ "-"
                                   +:+ toString end_ +:+ "/*")])).
  assert (Hissue : forall url tu fd s e,
            getCacheApiUrl w ("caches/" +:+ toString cacheId) = (Ok url, tu) ->
            openSync w archivePath = Ok fd ->
            P (chunkIssue httpClient url archivePath fd s e)).
  { intros url tu fd s e Hurl Hfd name' req' [= <- <-].
    exists fd, s, e. split; [exact Hfd|]. split; [reflexivity|].
    destruct (String.eqb_spec base "") as [->|Hne].
    - rewrite getCacheApiUrl_missing in Hurl; [discriminate|].
      rewrite Henv. reflexivity.
    - rewrite (getCacheApiUrl_present w _ base Henv Hne) in Hurl.
      injection Hurl as <- _. reflexivity. }
  unfold uploadFileRun in Hin. apply elem_of_app in Hin as [Hin|Hin].
  - apply (uploadFile_events P w completions httpClient cacheId archivePath key
             options blobContainerName connectionString)
      with (ev := Attempted name req);
      subst P; cbv beta; try (intros; discriminate);
      [exact Hissue | exact Hin | reflexivity].
  - pose proof (uploadFileStragglers_events P w completions httpClient cacheId
                  archivePath key options blobContainerName connectionString)
      as Hall.
    rewrite Forall_forall in Hall.
    apply (Hall ltac:(subst P; cbv beta; intros; discriminate)
                ltac:(subst P; cbv beta; intros; discriminate)
                Hissue _ Hin).
    reflexivity.
Qed.

Lemma uploadFile_sends_only_chunk_patches_witness :
  exists fd start end_,
    openSync refusingWorld "/tmp/archive.tzst" = Ok fd
    /\ chunkName 8388608 10485759
       = "uploadChunk (start: " +:+ toString start +:+ ", end: "
           +:+ toString end_ +:+ ")"
    /\ Ok (SendStream (createHttpClient refusingWorld) "PATCH"
             "https://artifactcache.example/_apis/artifactcache/caches/7"
             {| rs_path := "/tmp/archive.tzst"; rs_fd := 3;
                rs_start := 8388608; rs_end := 10485759 |}
             [("Content-Type", "application/octet-stream");
              ("Content-Range", "bytes 8388608-10485759/*")])
       = Ok (SendStream (createHttpClient refusingWorld) "PATCH"
               ("https://artifactcache.example/" +:+ "_apis/artifactcache/caches/"
                  +:+ toString 7)
               {| rs_path := "/tmp/archive.tzst"; rs_fd := fd;
                  rs_start := start; rs_end := end_ |}
               [("Content-Type", "application/octet-stream");
                ("Content-Range",
                 "bytes " +:+ toString start +:+ "-"
                   +:+ toString end_ +:+ "/*")]).
Proof.
  apply (uploadFile_sends_only_chunk_patches refusingWorld [1; 0]%nat
           (createHttpClient refusingWorld) 7 "/tmp/archive.tzst"
           "linux-build-8f3a" twoWorkersFourMiB None None
           "https://artifactcache.example/" eq_refl).
  find_event.
Defined.

(** ** No workers *)

(** With an upload concurrency of zero there is no worker to claim a
    range: [uploadFile] opens and closes the archive, sends nothing and
    returns, whatever the size of the archive, and [saveCache] goes on to
    commit the full size of an archive of which no byte was uploaded. *)
Theorem zero_concurrency_commits_without_upload (w : World)
    (completions : list nat) (cacheId : Z) (archivePath key : string)
    (options : option UploadOptions)
    (blobContainerName connectionString : option string)
    (maxChunkSize fileSize fd : Z) (base : string) :
  truthy blobContainerName && truthy connectionString = false ->
  assertDefined w "uploadConcurrency"
    (uploadConcurrency (getUploadOptions w options)) = Ok 0 ->
  assertDefined w "uploadChunkSize"
    (uploadChunkSize (getUploadOptions w options)) = Ok maxChunkSize ->
  getArchiveFileSizeInBytes w archivePath = Ok fileSize ->
  env w "ACTIONS_CACHE_URL" = Some base -> base <> "" ->
  openSync w archivePath = Ok fd ->
  let resourceUrl :=
    base +:+ "_apis/artifactcache/" +:+ "caches/" +:+ toString cacheId in
  uploadFile w completions (createHttpClient w) cacheId archivePath key
    options blobContainerName connectionString
  = (Ok tt, [Debug "Awaiting all uploads";
             Debug ("Resource Url: " +:+ resourceUrl);
             OpenSync archivePath; CloseSync fd])
  /\ Attempted "commitCache"
       (Ok (PostCommit (createHttpClient w) resourceUrl {| size := fileSize |}))
     ∈ trace (saveCache w completions cacheId archivePath key options
                blobContainerName connectionString).
Proof.
  intros Hblob Hn HC HF Henv Hne Hfd resourceUrl.
  assert (Hup :
    uploadFile w completions (createHttpClient w) cacheId archivePath key
      options blobContainerName connectionString
    = (Ok tt, [Debug "Awaiting all uploads";
               Debug ("Resource Url: " +:+ resourceUrl);
               OpenSync archivePath; CloseSync fd])).
  { rewrite (uploadFile_chunked w completions (createHttpClient w) cacheId
               archivePath key options blobContainerName connectionString
               0 maxChunkSize fileSize resourceUrl
               [Debug ("Resource Url: " +:+ resourceUrl)] fd [] 0 []
               Hblob Hn eq_refl HC HF
               (getCacheApiUrl_present w _ base Henv Hne) Hfd eq_refl).
    destruct completions; reflexivity. }
  split; [exact Hup|].
  rewrite saveCache_phases. cbv zeta. rewrite Hup. cbn [outcome trace fst snd].
  rewrite commitPhase_run, HF. cbv zeta.
  assert (Hreq : commitRequest w cacheId fileSize
                 = (Ok (PostCommit (createHttpClient w) resourceUrl
                          {| size := fileSize |}),
                    [Debug ("Resource Url: " +:+ resourceUrl)])).
  { unfold commitRequest.
    rewrite (getCacheApiUrl_present w _ base Henv Hne), bind_ok. reflexivity. }
  rewrite Hreq. cbn [outcome trace fst snd app].
  assert (Hin : forall rest,
            Attempted "commitCache"
              (Ok (PostCommit (createHttpClient w) resourceUrl
                     {| size := fileSize |}))
            ∈ Debug "Upload cache"
               :: [Debug "Awaiting all uploads";
                   Debug ("Resource Url: " +:+ resourceUrl);
                   OpenSync archivePath; CloseSync fd]
               ++ Debug "Commiting cache"
               :: Info ("Cache Size: ~" +:+ toString (roundMiB fileSize)
                          +:+ " MB (" +:+ toString fileSize +:+ " B)")
               :: Debug ("Resource Url: " +:+ resourceUrl)
               :: Attempted "commitCache"
                    (Ok (PostCommit (createHttpClient w) resourceUrl
                           {| size := fileSize |}))
               :: rest).
  { intros rest. cbn [app]. do 8 apply list_elem_of_further.
    apply list_elem_of_here. }
  destruct (commitAnswer w cacheId fileSize) as [resp|msg|];
    [destruct (isSuccessStatusCode w (Some (statusCode resp)))|..];
    cbn [trace snd]; apply Hin.
Qed.

Lemma zero_concurrency_witness :
  uploadFile tenMiBWorld [] (createHttpClient tenMiBWorld) 7
    "/tmp/archive.tzst" "linux-build-8f3a" noWorkers None None
  = (Ok tt, [Debug "Awaiting all uploads";
             Debug ("Resource Url: "
                      +:+ "https://artifactcache.example/"
                      +:+ "_apis/artifactcache/" +:+ "caches/" +:+ toString 7);
             OpenSync "/tmp/archive.tzst"; CloseSync 3]).
Proof.
  apply (proj1 (zero_concurrency_commits_without_upload tenMiBWorld [] 7
                  "/tmp/archive.tzst" "linux-build-8f3a" noWorkers None None
                  4194304 10485760 3 "https://artifactcache.example/"
                  eq_refl eq_refl eq_refl eq_refl eq_refl
                  ltac:(discriminate) eq_refl)).
Defined.

(** * The file-system helpers *)

Section IoFacts.

Import Io.

Variable sys : System.

Lemma run_bind {A B} (m : IO A) (k : A -> IO B) before :
  Io.bind m k before
  = match m before with
    | (Returns a, t) =>
        (Io.outcome (k a (before ++ t)), t ++ calls (k a (before ++ t)))
    | (Throws err, t) => (Throws err, t)
    | (Unfinished, t) => (Unfinished, t)
    end.
Proof.
  unfold Io.bind. destruct (m before) as [[a|err|] t]; [|reflexivity..].
  destruct (k a (before ++ t)). reflexivity.
Qed.

Lemma run_catch {A} (m : IO A) (handler : JsError -> IO A) before :
  catch m handler before
  = match m before with
    | (Throws err, t) =>
        (Io.outcome (handler err (before ++ t)),
         t ++ calls (handler err (before ++ t)))
    | other => other
    end.
Proof.
  unfold catch. destruct (m before) as [[a|err|] t]; [reflexivity| |reflexivity].
  destruct (handler err (before ++ t)). reflexivity.
Qed.

Lemma ancestors_snoc k dir :
  ancestors sys (S k) dir
  = ancestors sys k dir ++ [Nat.iter k (dirname sys) dir].
Proof.
  revert dir. induction k as [|k IH]; intros dir; [reflexivity|].
  change (ancestors sys (S (S k)) dir)
    with (dir :: ancestors sys (S k) (dirname sys dir)).
  rewrite IH, Nat.iter_swap. reflexivity.
Qed.

Lemma length_ancestors k dir : length (ancestors sys k dir) = k.
Proof.
  revert dir. induction k as [|k IH]; intros dir; cbn [ancestors length];
    [reflexivity | rewrite IH; reflexivity].
Qed.

Lemma mkdirP_probe_spec (fsPath : string) (bound : nat) :
  forall stack testDir before,
  exists k,
    (k <= bound)%nat
    /\ (forall i d,
          ancestors sys k testDir !! i = Some d ->
          exists err,
            fsStat sys (before ++ map Stat (take i (ancestors sys k testDir))) d
            = Fails err
            /\ hasCode err "ENOENT" = true)
    /\ ProbeEnd sys fsPath stack testDir before k
         (mkdirP_probe sys bound fsPath stack testDir before).
Proof.
  induction bound as [|bound IH]; intros stack testDir before.
  { exists 0%nat. split; [lia|]. split; [intros i d [=]|].
    apply (probe_unfinished sys). constructor. }
  cbn [mkdirP_probe].
  destruct (failsafeReached sys stack) eqn:Hsafe.
  { exists 0%nat. split; [lia|]. split; [intros i d [=]|].
    unfold mbind, IO_bind, mret, IO_ret. rewrite run_bind.
    unfold mkdir, call. cbn [ancestors map rev app].
    pose proof (probe_failsafe sys fsPath stack testDir before 0
                  (fsMkdir sys before fsPath)) as H.
    cbn [ancestors map rev app] in H. rewrite app_nil_r in H.
    specialize (H Hsafe eq_refl).
    destruct (fsMkdir sys before fsPath) as [[]|err]; exact H. }
  unfold mbind, IO_bind, mret, IO_ret. rewrite run_bind, run_catch, run_bind.
  unfold stat at 1, call.
  destruct (fsStat sys before testDir) as [isDir|err] eqn:Hstat;
    cbn [settled].
  - unfold Io.ret at 1. cbn [Io.outcome calls fst snd app].
    exists 0%nat. split; [lia|]. split; [intros i d [=]|].
    destruct isDir; cbn [negb].
    + pose proof (probe_break sys fsPath stack testDir before 0) as H.
      cbn [ancestors map rev app Nat.iter nat_rect] in H. rewrite app_nil_r in H.
      exact (H Hstat).
    + apply (probe_throws sys fsPath stack testDir before 0).
      cbn [ancestors map Nat.iter nat_rect]. rewrite app_nil_r, Hstat.
      split; reflexivity.
  - destruct (hasCode err "ENOENT") eqn:Hcode.
    + destruct (String.eqb testDir (dirname sys testDir)) eqn:Hroot.
      * exists 0%nat. split; [lia|]. split; [intros i d [=]|].
        apply (probe_throws sys fsPath stack testDir before 0).
        cbn [ancestors map Nat.iter nat_rect]. rewrite app_nil_r, Hstat.
        cbn [statFailure]. rewrite Hcode.
        apply String.eqb_eq in Hroot. split; [exact Hroot | reflexivity].
      * cbv beta delta [Io.ret]. cbn [Io.outcome calls fst snd app].
        destruct (IH (testDir :: stack) (dirname sys testDir)
                    (before ++ [Stat testDir])) as (k & Hk & Hmissing & Hend).
        remember (mkdirP_probe sys bound fsPath (testDir :: stack)
                    (dirname sys testDir) (before ++ [Stat testDir])) as run
          eqn:Hrun.
        clear Hrun.
        exists (S k). split; [lia|]. split.
        -- intros [|i] d Hd.
           ++ injection Hd as <-. exists err. rewrite app_nil_r.
              split; [exact Hstat | exact Hcode].
           ++ cbn [ancestors lookup list_lookup] in Hd.
              destruct (Hmissing i d Hd) as (err' & Herr' & Hc').
              exists err'. split; [|exact Hc'].
              cbn [ancestors take map]. rewrite <- Herr'.
              rewrite <- app_assoc. reflexivity.
        -- destruct Hend as [Hb|r Hf Hr|err' H|t Ht].
           ++ cbn [Io.outcome calls fst snd].
              pose proof (probe_break sys fsPath stack testDir before (S k)) as H.
              cbn [ancestors map rev Nat.iter] in H.
              rewrite <- !app_assoc in H. cbn [app] in H.
              rewrite Nat.iter_succ, <- Nat.iter_swap in H.
              rewrite <- app_assoc in Hb. cbn [app] in Hb.
              exact (H Hb).
           ++ cbn [Io.outcome calls fst snd].
              pose proof (probe_failsafe sys fsPath stack testDir before (S k) r)
                as H.
              cbn [ancestors map rev] in H.
              rewrite <- !app_assoc in H. cbn [app] in H.
              rewrite <- app_assoc in Hr. cbn [app] in Hr.
              exact (H Hf Hr).
           ++ cbn [Io.outcome calls fst snd].
              apply (probe_throws sys fsPath stack testDir before (S k)).
              cbn [ancestors map]. rewrite Nat.iter_succ, <- Nat.iter_swap.
              rewrite <- app_assoc in H. exact H.
           ++ cbn [Io.outcome calls fst snd].
              apply (probe_unfinished sys). constructor; [eauto | exact Ht].
    + exists 0%nat. split; [lia|]. split; [intros i d [=]|].
      destruct (hasCode err "UNKNOWN") eqn:Hunknown;
        apply (probe_throws sys fsPath stack testDir before 0);
        cbn [ancestors map Nat.iter nat_rect]; rewrite app_nil_r, Hstat;
        cbn [statFailure]; rewrite Hcode, Hunknown; [|reflexivity].
      eexists. reflexivity.
Qed.

Lemma mkdirP_create_spec (stack : list string) :
  forall before,
  exists n,
    (n <= length stack)%nat
    /\ calls (mkdirP_create sys stack before) = map Mkdir (take n stack)
    /\ match Io.outcome (mkdirP_create sys stack before) with
       | Returns _ => n = length stack
       | Throws err =>
           exists i d,
             n = S i /\ stack !! i = Some d
             /\ fsMkdir sys (before ++ map Mkdir (take i stack)) d = Fails err
       | Unfinished => True
       end.
Proof.
  induction stack as [|dir rest IH]; intros before.
  { exists 0%nat. split; [cbn; lia|]. split; reflexivity. }
  assert (Hrun :
    mkdirP_create sys (dir :: rest) before
    = match fsMkdir sys before dir with
      | Gives _ =>
          (Io.outcome (mkdirP_create sys rest (before ++ [Mkdir dir])),
           Mkdir dir :: calls (mkdirP_create sys rest (before ++ [Mkdir dir])))
      | Fails err => (Throws err, [Mkdir dir])
      end).
  { cbn [mkdirP_create]. unfold mbind, IO_bind. rewrite run_bind.
    unfold mkdir, call. destruct (fsMkdir sys before dir) as [[]|err];
      reflexivity. }
  rewrite Hrun. clear Hrun.
  destruct (fsMkdir sys before dir) as [[]|err] eqn:Hmk.
  - destruct (IH (before ++ [Mkdir dir])) as (n & Hn & Hcalls & Hout).
    exists (S n). split; [cbn [length]; lia|].
    cbn [Io.outcome calls fst snd]. rewrite Hcalls. split; [reflexivity|].
    destruct (Io.outcome (mkdirP_create sys rest (before ++ [Mkdir dir])))
      as [[]|err|].
    + cbn [length]. f_equal. exact Hout.
    + destruct Hout as (i & d & -> & Hd & Herr).
      exists (S i), d. split; [reflexivity|]. split; [exact Hd|].
      cbn [take map]. rewrite <- Herr, <- app_assoc. reflexivity.
    + exact I.
  - exists 1%nat. split; [cbn [length]; lia|]. split; [reflexivity|].
    exists 0%nat, dir. split; [reflexivity|]. split; [reflexivity|].
    cbn [take map]. rewrite app_nil_r. exact Hmk.
Qed.

(** [mkdirP] after its argument check. *)
Lemma mkdirP_run bound fsPath before :
  fsPath <> "" ->
  mkdirP sys bound fsPath before
  = match mkdirP_probe sys bound fsPath [] fsPath before with
    | (Returns (Some stack), t) =>
        (Io.outcome (mkdirP_create sys stack (before ++ t)),
         t ++ calls (mkdirP_create sys stack (before ++ t)))
    | (Returns None, t) => (Returns tt, t)
    | (Throws err, t) => (Throws err, t)
    | (Unfinished, t) => (Unfinished, t)
    end.
Proof.
  intros Hne. unfold mkdirP, nonEmpty.
  destruct (String.eqb_spec fsPath ""); [contradiction|]. cbn [negb].
  unfold mbind, IO_bind. rewrite run_bind.
  destruct (mkdirP_probe sys bound fsPath [] fsPath before)
    as [[[stack|]|err|] t]; try reflexivity.
  cbv beta delta [mret IO_ret Io.ret]. cbn [Io.outcome calls fst snd].
  rewrite app_nil_r. reflexivity.
Qed.

(** When [mkdirP] returns, it has looked at [fsPath] and at its parents,
    one after the other, until it found a directory; every path on the
    way was reported missing; and it has then made exactly these missing
    directories, each one after its parent, [fsPath] last. (Or the
    failsafe stopped the search, and it made [fsPath] alone.) *)
Theorem mkdirP_creates_missing_ancestors_top_down (bound : nat)
    (fsPath : string) (before : list Call) :
  Io.outcome (mkdirP sys bound fsPath before) = Returns tt ->
  exists k,
    let missing := ancestors sys k fsPath in
    let found := Nat.iter k (dirname sys) fsPath in
    (forall i d,
       missing !! i = Some d ->
       exists err,
         fsStat sys (before ++ map Stat (take i missing)) d = Fails err
         /\ hasCode err "ENOENT" = true)
    /\ ((fsStat sys (before ++ map Stat missing) found = Gives true
         /\ calls (mkdirP sys bound fsPath before)
            = map Stat missing ++ [Stat found] ++ map Mkdir (rev missing))
        \/ (failsafeReached sys (rev missing) = true
            /\ calls (mkdirP sys bound fsPath before)
               = map Stat missing ++ [Mkdir fsPath])).
Proof.
  intros Hout.
  assert (Hne : fsPath <> "").
  { intros ->. discriminate Hout. }
  rewrite (mkdirP_run bound fsPath before Hne) in Hout |- *.
  destruct (mkdirP_probe_spec fsPath bound [] fsPath before)
    as (k & _ & Hmissing & Hend).
  exists k. cbv zeta. split; [exact Hmissing|].
  remember (mkdirP_probe sys bound fsPath [] fsPath before) as run eqn:Hrun.
  clear Hrun.
  destruct Hend as [Hb|r Hf Hr|err H|t Ht]; cbn [Io.outcome calls fst snd] in *.
  - left. split; [exact Hb|]. rewrite app_nil_r in *.
    destruct (mkdirP_create_spec (rev (ancestors sys k fsPath))
                (before ++ map Stat (ancestors sys (S k) fsPath)))
      as (n & Hn & Hcalls & Hres).
    rewrite Hout in Hres. subst n. rewrite firstn_all in Hcalls.
    rewrite Hcalls, ancestors_snoc, map_app, <- app_assoc. reflexivity.
  - right. rewrite app_nil_r in Hf. split; [exact Hf|].
    destruct r; [reflexivity | discriminate Hout].
  - discriminate Hout.
  - discriminate Hout.
Qed.

(** When [mkdirP] throws, the error is the one of a [mkdir] call, which
    was its last call, or no directory was made at all: the path was
    empty, or the search ended on a path that is no directory, on a
    missing root, or on a [stat] that failed otherwise, and the error
    names that path. *)
Theorem mkdirP_makes_nothing_unless_the_search_succeeds (bound : nat)
    (fsPath : string) (before : list Call) (err : JsError) :
  Io.outcome (mkdirP sys bound fsPath before) = Throws err ->
  (fsPath = "" /\ err = newError "Parameter p is required"
   /\ calls (mkdirP sys bound fsPath before) = [])
  \/ (exists k,
        statFailure sys fsPath (Nat.iter k (dirname sys) fsPath)
          (fsStat sys (before ++ map Stat (ancestors sys k fsPath))
             (Nat.iter k (dirname sys) fsPath)) err
        /\ calls (mkdirP sys bound fsPath before)
           = map Stat (ancestors sys (S k) fsPath))
  \/ (exists pre p,
        calls (mkdirP sys bound fsPath before) = pre ++ [Mkdir p]
        /\ fsMkdir sys (before ++ pre) p = Fails err).
Proof.
  intros Hout.
  destruct (String.eqb_spec fsPath "") as [->|Hne].
  { left. injection Hout as <-. repeat split. }
  right.
  rewrite (mkdirP_run bound fsPath before Hne) in Hout |- *.
  destruct (mkdirP_probe_spec fsPath bound [] fsPath before)
    as (k & _ & Hmissing & Hend).
  remember (mkdirP_probe sys bound fsPath [] fsPath before) as run eqn:Hrun.
  clear Hrun.
  destruct Hend as [Hb|r Hf Hr|err' H|t Ht]; cbn [Io.outcome calls fst snd] in *.
  - right. rewrite app_nil_r in *.
    destruct (mkdirP_create_spec (rev (ancestors sys k fsPath))
                (before ++ map Stat (ancestors sys (S k) fsPath)))
      as (n & Hn & Hcalls & Hres).
    rewrite Hout in Hres. destruct Hres as (i & d & -> & Hd & Herr).
    exists (map Stat (ancestors sys (S k) fsPath)
              ++ map Mkdir (take i (rev (ancestors sys k fsPath)))), d.
    split.
    + rewrite Hcalls, (take_S_r _ _ _ Hd), map_app, <- app_assoc. reflexivity.
    + rewrite <- Herr, <- app_assoc. reflexivity.
  - right. exists (map Stat (ancestors sys k fsPath)), fsPath.
    rewrite Hr. destruct r as [[]|e]; [discriminate Hout|].
    injection Hout as ->. split; reflexivity.
  - left. injection Hout as ->. exists k. split; [exact H | reflexivity].
  - discriminate Hout.
Qed.

(** One round of the search, written out. *)
Lemma mkdirP_probe_round (fsPath : string) (bound : nat) stack testDir before :
  mkdirP_probe sys (S bound) fsPath stack testDir before
  = if failsafeReached sys stack then
      match fsMkdir sys before fsPath with
      | Gives _ => (Returns None, [Mkdir fsPath])
      | Fails err => (Throws err, [Mkdir fsPath])
      end
    else
      match fsStat sys before testDir with
      | Gives true => (Returns (Some stack), [Stat testDir])
      | Gives false =>
          (Throws (newError ("Unable to create directory '" +:+ fsPath
                               +:+ "'. Conflicting file exists: '"
                               +:+ testDir +:+ "'")), [Stat testDir])
      | Fails err =>
          if hasCode err "ENOENT" then
            if String.eqb testDir (dirname sys testDir) then
              (Throws (newError
                         ("Unable to create directory '" +:+ fsPath
                            +:+ "'. Root directory does not exist: '"
                            +:+ testDir +:+ "'")), [Stat testDir])
            else
              (Io.outcome (mkdirP_probe sys bound fsPath (testDir :: stack)
                             (dirname sys testDir) (before ++ [Stat testDir])),
               Stat testDir
                 :: calls (mkdirP_probe sys bound fsPath (testDir :: stack)
                             (dirname sys testDir) (before ++ [Stat testDir])))
          else if hasCode err "UNKNOWN" then
            (Throws (newError
                       ("Unable to create directory '" +:+ fsPath
                          +:+ "'. Unable to verify the directory exists: '"
                          +:+ testDir
                          +:+ "'. If directory is a file share, please verify the share name is correct, the share is online, and the current process has permission to access the share.")),
             [Stat testDir])
          else (Throws err, [Stat testDir])
      end.
Proof.
  cbn [mkdirP_probe]. destruct (failsafeReached sys stack).
  { unfold mbind, IO_bind. rewrite run_bind. unfold mkdir, call.
    destruct (fsMkdir sys before fsPath) as [[]|err]; reflexivity. }
  unfold mbind, IO_bind. rewrite run_bind, run_catch, run_bind.
  unfold stat, call.
  destruct (fsStat sys before testDir) as [isDir|err]; cbn [settled].
  - cbv beta delta [mret IO_ret Io.ret]. cbn [Io.outcome calls fst snd].
    destruct isDir; reflexivity.
  - destruct (hasCode err "ENOENT").
    + destruct (String.eqb testDir (dirname sys testDir)); [reflexivity|].
      cbv beta delta [mret IO_ret Io.ret]. cbn [Io.outcome calls fst snd app].
      reflexivity.
    + destruct (hasCode err "UNKNOWN"); reflexivity.
Qed.

(** One more round than needed changes nothing. *)
Lemma mkdirP_probe_stable (fsPath : string) (bound : nat) :
  forall stack testDir before,
    Io.outcome (mkdirP_probe sys bound fsPath stack testDir before)
    <> Unfinished ->
    mkdirP_probe sys (S bound) fsPath stack testDir before
    = mkdirP_probe sys bound fsPath stack testDir before.
Proof.
  induction bound as [|bound IH]; intros stack testDir before Hout.
  { destruct Hout. reflexivity. }
  revert Hout. rewrite (mkdirP_probe_round fsPath (S bound)).
  rewrite (mkdirP_probe_round fsPath bound).
  destruct (failsafeReached sys stack); [reflexivity|].
  destruct (fsStat sys before testDir) as [isDir|err]; [reflexivity|].
  destruct (hasCode err "ENOENT"); [|reflexivity].
  destruct (String.eqb testDir (dirname sys testDir)); [reflexivity|].
  cbn [Io.outcome fst]. intros Hout. rewrite IH; [reflexivity | exact Hout].
Qed.

Lemma mkdirP_probe_settles (fsPath : string) :
  processEnv sys "TEST_MKDIRP_FAILSAFE" = None ->
  forall bound stack testDir before,
    (1 <= bound)%nat -> (1001 <= bound + length stack)%nat ->
    Io.outcome (mkdirP_probe sys bound fsPath stack testDir before)
    <> Unfinished.
Proof.
  intros Henv. induction bound as [|bound IH];
    intros stack testDir before Hb Hlen; [lia|].
  rewrite mkdirP_probe_round. unfold failsafeReached. rewrite Henv.
  destruct (Z.leb_spec 1000 (Z.of_nat (length stack))) as [Hge|Hlt].
  { destruct (fsMkdir sys before fsPath) as [[]|err]; discriminate. }
  destruct (fsStat sys before testDir) as [[]|err]; [discriminate..|].
  destruct (hasCode err "ENOENT").
  - destruct (String.eqb testDir (dirname sys testDir)); [discriminate|].
    cbn [Io.outcome fst]. apply IH; cbn [length]; lia.
  - destruct (hasCode err "UNKNOWN"); discriminate.
Qed.

Lemma mkdirP_create_settles stack :
  forall before, Io.outcome (mkdirP_create sys stack before) <> Unfinished.
Proof.
  induction stack as [|dir rest IH]; intros before; [discriminate|].
  cbn [mkdirP_create]. unfold mbind, IO_bind. rewrite run_bind.
  unfold mkdir, call.
  destruct (fsMkdir sys before dir) as [[]|err]; cbn [settled];
    [|discriminate].
  cbn [Io.outcome fst]. apply IH.
Qed.

(** Without [TEST_MKDIRP_FAILSAFE] the search of [mkdirP] ends within
    1001 rounds, on any file system: a larger bound gives the same run,
    and the run is a return or a throw. *)
Theorem mkdirP_ends_within_the_failsafe (bound : nat) (fsPath : string)
    (before : list Call) :
  processEnv sys "TEST_MKDIRP_FAILSAFE" = None ->
  (1001 <= bound)%nat ->
  mkdirP sys bound fsPath before = mkdirP sys 1001 fsPath before
  /\ Io.outcome (mkdirP sys bound fsPath before) <> Unfinished.
Proof.
  intros Henv Hbound.
  assert (Hprobe : mkdirP_probe sys bound fsPath [] fsPath before
                   = mkdirP_probe sys 1001 fsPath [] fsPath before).
  { replace bound with ((bound - 1001) + 1001)%nat by lia.
    induction (bound - 1001)%nat as [|n IHn]; [reflexivity|].
    change (S n + 1001)%nat with (S (n + 1001)).
    rewrite mkdirP_probe_stable; [exact IHn|].
    rewrite IHn. apply (mkdirP_probe_settles fsPath Henv); cbn [length]; lia. }
  assert (Hsettles :
    Io.outcome (mkdirP_probe sys 1001 fsPath [] fsPath before) <> Unfinished)
    by (apply (mkdirP_probe_settles fsPath Henv); cbn [length]; lia).
  destruct (String.eqb_spec fsPath "") as [->|Hne].
  { split; [reflexivity | discriminate]. }
  rewrite !(mkdirP_run _ fsPath before Hne), Hprobe.
  split; [reflexivity|].
  destruct (mkdirP_probe sys 1001 fsPath [] fsPath before)
    as [[[stack|]|err|] t]; cbn [Io.outcome fst] in *;
    [|discriminate|discriminate|contradiction].
  apply mkdirP_create_settles.
Qed.

End IoFacts.

Lemma mkdirP_creates_missing_ancestors_witness :
  exists k,
    let missing := Io.ancestors Io.posix k "/home/runner/work" in
    let found := Nat.iter k (Io.dirname Io.posix) "/home/runner/work" in
    (forall i d,
       missing !! i = Some d ->
       exists err,
         Io.fsStat Io.posix ([] ++ map Io.Stat (take i missing)) d
         = Io.Fails err
         /\ Io.hasCode err "ENOENT" = true)
    /\ ((Io.fsStat Io.posix ([] ++ map Io.Stat missing) found = Io.Gives true
         /\ Io.calls (Io.mkdirP Io.posix 1001 "/home/runner/work" [])
            = map Io.Stat missing ++ [Io.Stat found]
                ++ map Io.Mkdir (rev missing))
        \/ (Io.failsafeReached Io.posix (rev missing) = true
            /\ Io.calls (Io.mkdirP Io.posix 1001 "/home/runner/work" [])
               = map Io.Stat missing ++ [Io.Mkdir "/home/runner/work"])).
Proof.
  exact (mkdirP_creates_missing_ancestors_top_down Io.posix 1001
           "/home/runner/work" [] eq_refl).
Defined.

Example mkdirP_on_the_sample_machine :
  Io.mkdirP Io.posix 1001 "/home/runner/work" []
  = (Io.Returns tt,
     [Io.Stat "/home/runner/work"; Io.Stat "/home/runner"; Io.Stat "/home";
      Io.Mkdir "/home/runner"; Io.Mkdir "/home/runner/work"]).
Proof. vm_compute. reflexivity. Qed.

Lemma mkdirP_conflicting_file_witness :
  ("/home/notes/today" = "" /\ Io.conflictingFile = Io.newError "Parameter p is required"
   /\ Io.calls (Io.mkdirP Io.posix 1001 "/home/notes/today" []) = [])
  \/ (exists k,
        Io.statFailure Io.posix "/home/notes/today"
          (Nat.iter k (Io.dirname Io.posix) "/home/notes/today")
          (Io.fsStat Io.posix
             ([] ++ map Io.Stat (Io.ancestors Io.posix k "/home/notes/today"))
             (Nat.iter k (Io.dirname Io.posix) "/home/notes/today"))
          Io.conflictingFile
        /\ Io.calls (Io.mkdirP Io.posix 1001 "/home/notes/today" [])
           = map Io.Stat (Io.ancestors Io.posix (S k) "/home/notes/today"))
  \/ (exists pre p,
        Io.calls (Io.mkdirP Io.posix 1001 "/home/notes/today" [])
        = pre ++ [Io.Mkdir p]
        /\ Io.fsMkdir Io.posix ([] ++ pre) p = Io.Fails Io.conflictingFile).
Proof.
  exact (mkdirP_makes_nothing_unless_the_search_succeeds Io.posix 1001
           "/home/notes/today" [] Io.conflictingFile eq_refl).
Defined.

Example mkdirP_conflicting_file :
  Io.mkdirP Io.posix 1001 "/home/notes/today" []
  = (Io.Throws Io.conflictingFile,
     [Io.Stat "/home/notes/today"; Io.Stat "/home/notes"]).
Proof. vm_compute. reflexivity. Qed.

Lemma mkdirP_ends_within_the_failsafe_witness :
  Io.mkdirP Io.posix 2000 "/home/runner/work" []
  = Io.mkdirP Io.posix 1001 "/home/runner/work" []
  /\ Io.outcome (Io.mkdirP Io.posix 2000 "/home/runner/work" [])
     <> Io.Unfinished.
Proof.
  apply (mkdirP_ends_within_the_failsafe Io.posix 2000 "/home/runner/work" []).
  - reflexivity.
  - lia.
Defined.

(** ** [which] *)

Section WhichFacts.

Import Io.

Variable sys : System.

Lemma which_directories_round (tool : string) (extensions : list string)
    (directory : string) (others : list string) before :
  which_directories sys tool extensions (directory :: others) before
  = match ioTryGetExecutablePath sys before (directory +:+ sep sys +:+ tool)
            extensions with
    | Gives found =>
        if nonEmpty found then
          (Returns found, [probeIn sys tool extensions directory])
        else
          (Io.outcome
             (which_directories sys tool extensions others
                (before ++ [probeIn sys tool extensions directory])),
           probeIn sys tool extensions directory
             :: calls (which_directories sys tool extensions others
                         (before ++ [probeIn sys tool extensions directory])))
    | Fails err => (Throws err, [probeIn sys tool extensions directory])
    end.
Proof.
  cbn [which_directories]. unfold mbind, IO_bind. rewrite run_bind.
  unfold tryGetExecutablePath, call, probeIn.
  destruct (ioTryGetExecutablePath sys before (directory +:+ sep sys +:+ tool)
              extensions) as [found|err]; cbn [settled]; [|reflexivity].
  destruct (nonEmpty found); reflexivity.
Qed.

Lemma which_directories_spec (tool : string) (extensions : list string)
    (directories : list string) :
  forall before,
  exists skipped rest,
    directories = skipped ++ rest
    /\ (forall i d,
          skipped !! i = Some d ->
          ioTryGetExecutablePath sys
            (before ++ map (probeIn sys tool extensions) (take i skipped))
            (d +:+ sep sys +:+ tool) extensions = Gives "")
    /\ ((rest = []
         /\ which_directories sys tool extensions directories before
            = (Returns "", map (probeIn sys tool extensions) skipped))
        \/ exists d rest',
             rest = d :: rest'
             /\ match ioTryGetExecutablePath sys
                        (before ++ map (probeIn sys tool extensions) skipped)
                        (d +:+ sep sys +:+ tool) extensions with
                | Gives found =>
                    found <> ""
                    /\ which_directories sys tool extensions directories before
                       = (Returns found,
                          map (probeIn sys tool extensions) (skipped ++ [d]))
                | Fails err =>
                    which_directories sys tool extensions directories before
                    = (Throws err,
                       map (probeIn sys tool extensions) (skipped ++ [d]))
                end).
Proof.
  induction directories as [|directory others IH]; intros before.
  { exists [], []. split; [reflexivity|]. split; [intros i d [=]|].
    left. split; reflexivity. }
  rewrite which_directories_round.
  destruct (ioTryGetExecutablePath sys before (directory +:+ sep sys +:+ tool)
              extensions) as [found|err] eqn:Hans.
  - unfold nonEmpty. destruct (String.eqb_spec found "") as [->|Hne];
      cbn [negb].
    + destruct (IH (before ++ [probeIn sys tool extensions directory]))
        as (skipped & rest & -> & Hskipped & Hend).
      exists (directory :: skipped), rest. split; [reflexivity|]. split.
      * intros [|i] d Hd.
        -- injection Hd as <-. cbn [take map]. rewrite app_nil_r. exact Hans.
        -- cbn [take map]. rewrite cons_middle, app_assoc.
           apply Hskipped. exact Hd.
      * destruct Hend as [[-> Hrun]|(d & rest' & -> & Hd)].
        -- left. split; [reflexivity|]. rewrite Hrun. reflexivity.
        -- right. exists d, rest'. split; [reflexivity|].
           cbn [map]. rewrite (cons_middle _ before), app_assoc.
           destruct (ioTryGetExecutablePath sys _ (d +:+ sep sys +:+ tool)
                       extensions) as [found|err].
           ++ destruct Hd as [Hne Hrun]. split; [exact Hne|].
              rewrite Hrun. reflexivity.
           ++ rewrite Hd. reflexivity.
    + exists [], (directory :: others). split; [reflexivity|].
      split; [intros i d [=]|]. right. exists directory, others.
      split; [reflexivity|]. cbn [map app]. rewrite app_nil_r, Hans.
      split; [exact Hne | reflexivity].
  - exists [], (directory :: others). split; [reflexivity|].
    split; [intros i d [=]|]. right. exists directory, others.
    split; [reflexivity|]. cbn [map app]. rewrite app_nil_r, Hans. reflexivity.
Qed.

(** The [try] block of [which] with its [catch]. *)
Lemma which_search_caught (tool : string) before :
  catch (which_search sys tool)
    (fun err =>
       Io.throw (newError ("which failed with message " +:+ message err)))
    before
  = match which_search sys tool before with
    | (Throws err, t) => (Throws (whichFailed err), t)
    | other => other
    end.
Proof.
  rewrite run_catch.
  destruct (which_search sys tool before) as [[found|err|] t];
    [reflexivity| |reflexivity].
  cbn [Io.outcome calls fst snd Io.throw]. rewrite app_nil_r. reflexivity.
Qed.

Lemma which_false (tool : string) before :
  which sys tool false before = which_unchecked sys tool before.
Proof.
  unfold which, which_unchecked. destruct (negb (nonEmpty tool)); [reflexivity|].
  unfold mbind, IO_bind, mret, IO_ret. rewrite run_bind.
  cbn [Io.ret Io.outcome calls fst snd app]. rewrite app_nil_r.
  destruct (catch _ _ before). reflexivity.
Qed.

Lemma which_unchecked_run (tool : string) before :
  tool <> "" ->
  which_unchecked sys tool before
  = match which_search sys tool before with
    | (Throws err, t) => (Throws (whichFailed err), t)
    | other => other
    end.
Proof.
  intros Hne. unfold which_unchecked, nonEmpty.
  destruct (String.eqb_spec tool ""); [contradiction|]. cbn [negb].
  apply which_search_caught.
Qed.

Lemma which_search_plain (tool : string) before :
  plainName sys tool = true ->
  which_search sys tool before
  = which_directories sys tool (pathExtensions sys) (pathDirectories sys)
      before.
Proof.
  unfold plainName. intros H.
  apply andb_prop in H as [H Hsep]. apply andb_prop in H as [_ Hroot].
  apply negb_true_iff in Hsep, Hroot.
  unfold which_search. fold (pathExtensions sys). rewrite Hroot, Hsep.
  reflexivity.
Qed.

Lemma plainName_nonEmpty (tool : string) :
  plainName sys tool = true -> tool <> "".
Proof.
  unfold plainName, nonEmpty. intros H ->. discriminate H.
Qed.

(** For a plain tool name, [which] goes through the directories of
    [PATH] in their order, skipping empty entries, and asks for
    [directory + sep + tool] in each: it returns the first answer that is
    not empty, and asks no further; it returns [''] only after every
    directory has given nothing. *)
Theorem which_returns_the_first_match_on_PATH (tool : string)
    (before : list Call) (found : string) :
  plainName sys tool = true ->
  Io.outcome (which sys tool false before) = Returns found ->
  let probe := probeIn sys tool (pathExtensions sys) in
  let answer := fun asked directory =>
    ioTryGetExecutablePath sys (before ++ map probe asked)
      (directory +:+ sep sys +:+ tool) (pathExtensions sys) in
  exists skipped,
    (forall i d, skipped !! i = Some d -> answer (take i skipped) d = Gives "")
    /\ ((found = ""
         /\ skipped = pathDirectories sys
         /\ calls (which sys tool false before) = map probe skipped)
        \/ (found <> ""
            /\ exists directory rest,
                 pathDirectories sys = skipped ++ directory :: rest
                 /\ answer skipped directory = Gives found
                 /\ calls (which sys tool false before)
                    = map probe (skipped ++ [directory]))).
Proof.
  intros Hplain Hout probe answer. subst probe answer. cbv beta.
  rewrite which_false in Hout |- *.
  rewrite (which_unchecked_run tool before (plainName_nonEmpty tool Hplain))
    in Hout |- *.
  rewrite (which_search_plain tool before Hplain) in Hout |- *.
  destruct (which_directories_spec tool (pathExtensions sys)
              (pathDirectories sys) before)
    as (skipped & rest & Hdirs & Hskipped & Hend).
  exists skipped. split; [exact Hskipped|].
  destruct Hend as [[-> Hrun]|(d & rest' & -> & Hd)].
  - rewrite Hrun in Hout |- *. injection Hout as <-. left.
    rewrite app_nil_r in Hdirs. split; [reflexivity|].
    split; [symmetry; exact Hdirs | reflexivity].
  - destruct (ioTryGetExecutablePath sys _ (d +:+ sep sys +:+ tool)
                (pathExtensions sys)) as [found'|err] eqn:Hans.
    + destruct Hd as [Hne Hrun]. rewrite Hrun in Hout |- *.
      injection Hout as <-. right. split; [exact Hne|].
      exists d, rest'. split; [exact Hdirs|]. split; [exact Hans | reflexivity].
    + rewrite Hd in Hout. discriminate Hout.
Qed.

(** What the search of [which] asks of the file system. *)
Lemma which_directories_calls (tool : string) (extensions : list string)
    (directories : list string) before c :
  c ∈ calls (which_directories sys tool extensions directories before) ->
  exists directory,
    directory ∈ directories /\ c = probeIn sys tool extensions directory.
Proof.
  revert before. induction directories as [|directory others IH];
    intros before Hin.
  { apply elem_of_nil in Hin as []. }
  rewrite which_directories_round in Hin.
  destruct (ioTryGetExecutablePath sys before (directory +:+ sep sys +:+ tool)
              extensions) as [found|err].
  - destruct (nonEmpty found); cbn [calls snd] in Hin.
    + apply list_elem_of_singleton in Hin as ->.
      exists directory. split; [apply list_elem_of_here | reflexivity].
    + apply elem_of_cons in Hin as [->|Hin].
      * exists directory. split; [apply list_elem_of_here | reflexivity].
      * destruct (IH _ Hin) as (d & Hd & ->).
        exists d. split; [apply list_elem_of_further, Hd | reflexivity].
  - apply list_elem_of_singleton in Hin as ->.
    exists directory. split; [apply list_elem_of_here | reflexivity].
Qed.

Lemma which_search_calls (tool : string) before c :
  tool <> "" ->
  c ∈ calls (which_search sys tool before) ->
  (isRooted sys tool = true
   /\ c = TryGetExecutablePath tool (pathExtensions sys))
  \/ (plainName sys tool = true
      /\ exists directory,
           directory ∈ pathDirectories sys
           /\ c = probeIn sys tool (pathExtensions sys) directory).
Proof.
  intros Hne.
  destruct (isRooted sys tool) eqn:Hroot.
  { unfold which_search. fold (pathExtensions sys). rewrite Hroot.
    unfold mbind, IO_bind. rewrite run_bind.
    unfold tryGetExecutablePath, call.
    destruct (ioTryGetExecutablePath sys before tool (pathExtensions sys))
      as [found|err]; cbn [settled calls snd].
    - destruct (nonEmpty found); cbn [mret IO_ret Io.ret calls snd app];
        intros Hin; apply list_elem_of_singleton in Hin; left;
        (split; [reflexivity | exact Hin]).
    - intros Hin. apply list_elem_of_singleton in Hin. left.
      split; [reflexivity | exact Hin]. }
  destruct (includes "/" tool || (IS_WINDOWS sys && includes "\" tool))
    eqn:Hsep.
  { unfold which_search. rewrite Hroot, Hsep.
    intros Hin. apply elem_of_nil in Hin as []. }
  assert (Hplain : plainName sys tool = true).
  { unfold plainName, nonEmpty. rewrite Hroot, Hsep.
    destruct (String.eqb_spec tool ""); [contradiction | reflexivity]. }
  rewrite (which_search_plain tool before Hplain). intros Hin. right.
  split; [exact Hplain|]. exact (which_directories_calls _ _ _ _ _ Hin).
Qed.

Lemma which_checked_run (tool : string) before :
  tool <> "" ->
  which sys tool true before
  = match which_unchecked sys tool before with
    | (Returns found, t) =>
        if nonEmpty found then
          (Io.outcome (which_unchecked sys tool (before ++ t)),
           t ++ calls (which_unchecked sys tool (before ++ t)))
        else (Throws (unableToLocate sys tool), t)
    | (Throws err, t) => (Throws err, t)
    | (Unfinished, t) => (Unfinished, t)
    end.
Proof.
  intros Hne. unfold which, nonEmpty.
  destruct (String.eqb_spec tool ""); [contradiction|]. cbn [negb].
  unfold mbind, IO_bind, mret, IO_ret. rewrite run_bind, run_bind.
  destruct (which_unchecked sys tool before) as [[found|err|] t];
    [|reflexivity..].
  destruct (String.eqb_spec found "") as [->|Hfound]; cbn [negb].
  - unfold unableToLocate. destruct (IS_WINDOWS sys);
      cbn [Io.throw Io.outcome calls fst snd app]; rewrite app_nil_r;
      reflexivity.
  - cbn [Io.ret Io.outcome calls fst snd app]. rewrite !app_nil_r.
    rewrite which_search_caught, (which_unchecked_run tool _ Hne).
    destruct (which_search sys tool (before ++ t)) as [[f|e|] t'];
      reflexivity.
Qed.

(** With [check], [which] looks the tool up twice. It throws "Unable to
    locate executable file" when the first lookup finds nothing, and
    passes on the error of a failed first lookup as it is; otherwise it
    repeats the lookup and returns what the second one gives, which is
    [''] when the file has gone in between. *)
Theorem which_with_check_looks_twice (tool : string) (before : list Call) :
  tool <> "" ->
  let first := which sys tool false before in
  let second := which sys tool false (before ++ calls first) in
  match Io.outcome first with
  | Returns found =>
      if nonEmpty found then
        which sys tool true before
        = (Io.outcome second, calls first ++ calls second)
      else
        which sys tool true before
        = (Throws (unableToLocate sys tool), calls first)
  | Throws err => which sys tool true before = (Throws err, calls first)
  | Unfinished => which sys tool true before = (Unfinished, calls first)
  end.
Proof.
  intros Hne first second. subst first second.
  rewrite (which_checked_run tool before Hne), !which_false.
  destruct (which_unchecked sys tool before) as [[found|err|] t];
    cbn [Io.outcome calls fst snd]; [|reflexivity..].
  destruct (nonEmpty found); reflexivity.
Qed.

(** Every question [which] asks of the file system is
    [tryGetExecutablePath], with the extensions of [PATHEXT]: for a rooted
    tool, of the tool path as it was given; for a name without a
    separator, of [<directory><sep><tool>] for a directory that is an
    entry of [PATH] (whatever that entry is: a relative entry such as [.]
    is probed like any other). For a relative path with a separator
    [which] asks nothing at all and returns the empty string. *)
Theorem which_probes_the_rooted_tool_or_PATH_entries (tool : string) (check : bool)
    (before : list Call) :
  (forall c,
     c ∈ calls (which sys tool check before) ->
     (isRooted sys tool = true
      /\ c = TryGetExecutablePath tool (pathExtensions sys))
     \/ (plainName sys tool = true
         /\ exists directory,
              directory ∈ pathDirectories sys
              /\ c = probeIn sys tool (pathExtensions sys) directory))
  /\ (tool <> "" -> isRooted sys tool = false -> plainName sys tool = false ->
      which sys tool false before = (Returns "", [])).
Proof.
  split.
  - destruct (String.eqb_spec tool "") as [->|Hne].
    { intros c Hin. destruct check; apply elem_of_nil in Hin as []. }
    assert (Hun : forall h c,
              c ∈ calls (which_unchecked sys tool h) ->
              c ∈ calls (which_search sys tool h)).
    { intros h c. rewrite (which_unchecked_run tool h Hne).
      destruct (which_search sys tool h) as [[found|err|] t]; auto. }
    destruct check; [|intros c Hin; rewrite which_false in Hin;
                       exact (which_search_calls tool before c Hne
                                (Hun _ _ Hin))].
    rewrite (which_checked_run tool before Hne).
    intros c Hin.
    destruct (which_unchecked sys tool before) as [[found|err|] t] eqn:Hfirst;
      cbn [Io.outcome calls fst snd] in Hin.
    + assert (Ht : forall c, c ∈ t -> c ∈ calls (which_search sys tool before)).
      { intros c' Hc'. apply Hun. rewrite Hfirst. exact Hc'. }
      destruct (nonEmpty found); cbn [calls snd] in Hin.
      * apply elem_of_app in Hin as [Hin|Hin].
        -- exact (which_search_calls tool before c Hne (Ht _ Hin)).
        -- exact (which_search_calls tool (before ++ t) c Hne (Hun _ _ Hin)).
      * exact (which_search_calls tool before c Hne (Ht _ Hin)).
    + apply (which_search_calls tool before c Hne), Hun.
      rewrite Hfirst. exact Hin.
    + apply (which_search_calls tool before c Hne), Hun.
      rewrite Hfirst. exact Hin.
  - intros Hne Hroot Hplain. rewrite which_false.
    rewrite (which_unchecked_run tool before Hne).
    unfold which_search. rewrite Hroot.
    unfold plainName, nonEmpty in Hplain. rewrite Hroot in Hplain.
    destruct (String.eqb_spec tool ""); [contradiction|].
    cbn [negb andb] in Hplain. apply negb_false_iff in Hplain.
    rewrite Hplain. reflexivity.
Qed.

End WhichFacts.

Lemma which_returns_the_first_match_witness :
  exists skipped directory rest,
    Io.pathDirectories Io.posix = skipped ++ directory :: rest
    /\ Io.calls (Io.which Io.posix "tar" false [])
       = map (Io.probeIn Io.posix "tar" (Io.pathExtensions Io.posix))
           (skipped ++ [directory]).
Proof.
  destruct (which_returns_the_first_match_on_PATH Io.posix "tar" []
              "/usr/bin/tar" eq_refl eq_refl)
    as (skipped & _ & [(H & _)|(_ & directory & rest & Hdirs & _ & Hcalls)]).
  - discriminate H.
  - exists skipped, directory, rest. split; [exact Hdirs | exact Hcalls].
Defined.

Example which_on_the_sample_machine :
  Io.pathDirectories Io.posix = ["/usr/local/bin"; "/usr/bin"; "/bin"]
  /\ Io.which Io.posix "tar" false []
     = (Io.Returns "/usr/bin/tar",
        [Io.TryGetExecutablePath "/usr/local/bin/tar" [];
         Io.TryGetExecutablePath "/usr/bin/tar" []]).
Proof. split; vm_compute; reflexivity. Qed.

Lemma which_relative_path_witness :
  Io.which Io.posix "bin/tar" false [] = (Io.Returns "", []).
Proof.
  apply (proj2 (which_probes_the_rooted_tool_or_PATH_entries Io.posix "bin/tar" false []));
    [discriminate | reflexivity | reflexivity].
Defined.

Lemma which_with_check_witness :
  Io.which Io.fickle "tar" true []
  = (Io.Returns "",
     [Io.TryGetExecutablePath "/usr/local/bin/tar" [];
      Io.TryGetExecutablePath "/usr/bin/tar" [];
      Io.TryGetExecutablePath "/usr/local/bin/tar" [];
      Io.TryGetExecutablePath "/usr/bin/tar" [];
      Io.TryGetExecutablePath "/bin/tar" []]).
Proof.
  exact (which_with_check_looks_twice Io.fickle "tar" [] ltac:(discriminate)).
Defined.

(** ** [rmRF] *)

Section RemoveFacts.

Import Io.

Variable sys : System.

(** [catch body unlessMissing], for a body of one call. *)
Lemma unlessMissing_caught (c : Call) (answer : list Call -> Answer unit)
    before :
  catch (call c answer) unlessMissing before
  = (match answer before with
     | Gives _ => Returns tt
     | Fails err => if hasCode err "ENOENT" then Returns tt else Throws err
     end, [c]).
Proof.
  rewrite run_catch. unfold call, unlessMissing.
  destruct (answer before) as [[]|err]; cbn [settled]; [reflexivity|].
  destruct (hasCode err "ENOENT"); reflexivity.
Qed.

(** [rmRF] on each platform, by the answers it gets. *)
Lemma rmRF_run (inputPath : string) before :
  rmRF sys inputPath before
  = if IS_WINDOWS sys then
      let shell :=
        match ioIsDirectory sys before inputPath with
        | Gives isDir =>
            let command := if isDir then rdCommand inputPath
                           else delCommand inputPath in
            (match childExec sys (before ++ [IsDirectory inputPath]) command with
             | Gives _ => Returns tt
             | Fails err =>
                 if hasCode err "ENOENT" then Returns tt else Throws err
             end, [IsDirectory inputPath; Exec command])
        | Fails err =>
            (if hasCode err "ENOENT" then Returns tt else Throws err,
             [IsDirectory inputPath])
        end in
      match fst shell with
      | Returns _ =>
          (match fsUnlink sys (before ++ snd shell) inputPath with
           | Gives _ => Returns tt
           | Fails err =>
               if hasCode err "ENOENT" then Returns tt else Throws err
           end, snd shell ++ [Unlink inputPath])
      | other => (other, snd shell)
      end
    else
      match ioIsDirectory sys before inputPath with
      | Fails err =>
          (if hasCode err "ENOENT" then Returns tt else Throws err,
           [IsDirectory inputPath])
      | Gives true =>
          (settled (ioRemoveDirectory sys (before ++ [IsDirectory inputPath])
                      inputPath),
           [IsDirectory inputPath; RemoveDirectory inputPath])
      | Gives false =>
          (settled (fsUnlink sys (before ++ [IsDirectory inputPath]) inputPath),
           [IsDirectory inputPath; Unlink inputPath])
      end.
Proof.
  unfold rmRF. destruct (IS_WINDOWS sys); cbv zeta.
  - unfold mbind, IO_bind, mret, IO_ret. rewrite run_bind, run_catch, run_bind.
    unfold isDirectory at 1, call at 1.
    destruct (ioIsDirectory sys before inputPath) as [isDir|err];
      cbn [settled].
    + fold (rdCommand inputPath) (delCommand inputPath).
      assert (Hexec :
        (if isDir then exec sys (rdCommand inputPath)
         else exec sys (delCommand inputPath))
        = exec sys (if isDir then rdCommand inputPath
                    else delCommand inputPath))
        by (destruct isDir; reflexivity).
      rewrite Hexec. set (command := if isDir then _ else _).
      unfold exec, call. cbn [fst snd Io.outcome calls].
      destruct (childExec sys (before ++ [IsDirectory inputPath]) command)
        as [[]|err]; cbn [settled app fst snd].
      * unfold unlink. rewrite unlessMissing_caught.
        cbn [Io.outcome calls fst snd app]. reflexivity.
      * unfold unlessMissing. destruct (hasCode err "ENOENT");
          cbn [Io.ret Io.throw Io.outcome calls fst snd app].
        -- unfold unlink. rewrite unlessMissing_caught.
           cbn [Io.outcome calls fst snd app]. reflexivity.
        -- reflexivity.
    + unfold unlessMissing. destruct (hasCode err "ENOENT");
        cbn [Io.ret Io.throw Io.outcome calls fst snd app].
      * unfold unlink. rewrite unlessMissing_caught.
        cbn [Io.outcome calls fst snd app]. reflexivity.
      * reflexivity.
  - unfold mbind, IO_bind, mret, IO_ret. rewrite run_bind, run_catch, run_bind.
    unfold isDirectory, call.
    destruct (ioIsDirectory sys before inputPath) as [isDir|err];
      cbn [settled].
    + cbn [Io.ret Io.outcome calls fst snd app].
      destruct isDir; unfold removeDirectory, unlink, call; reflexivity.
    + destruct (hasCode err "ENOENT"); reflexivity.
Qed.

(** Removing what is not there is a success. On POSIX a path that
    [isDirectory] reports missing is left alone, and [rmRF] returns
    after that one question; on Windows no call of [rmRF] lets a
    "no such file" error through, so that [rmRF] never throws one. *)
Theorem rmRF_of_a_missing_path_succeeds (inputPath : string)
    (before : list Call) :
  (IS_WINDOWS sys = false ->
   forall err,
     ioIsDirectory sys before inputPath = Fails err ->
     hasCode err "ENOENT" = true ->
     rmRF sys inputPath before = (Returns tt, [IsDirectory inputPath]))
  /\ (IS_WINDOWS sys = true ->
      forall err,
        Io.outcome (rmRF sys inputPath before) = Throws err ->
        hasCode err "ENOENT" = false).
Proof.
  rewrite rmRF_run. split; intros Hwin; rewrite Hwin.
  - intros err Hans Hcode. rewrite Hans, Hcode. reflexivity.
  - intros err. cbv zeta.
    destruct (ioIsDirectory sys before inputPath) as [isDir|e1].
    + set (command := if isDir then _ else _).
      destruct (childExec sys _ command) as [[]|e2]; cbn [fst snd Io.outcome].
      * destruct (fsUnlink sys _ inputPath) as [[]|e3]; [intros [=]|].
        destruct (hasCode e3 "ENOENT") eqn:H3; intros [= <-]. exact H3.
      * destruct (hasCode e2 "ENOENT") eqn:H2; cbn [fst snd Io.outcome].
        -- destruct (fsUnlink sys _ inputPath) as [[]|e3]; [intros [=]|].
           destruct (hasCode e3 "ENOENT") eqn:H3; intros [= <-]. exact H3.
        -- intros [= <-]. exact H2.
    + destruct (hasCode e1 "ENOENT") eqn:H1; cbn [fst snd Io.outcome].
      * destruct (fsUnlink sys _ inputPath) as [[]|e3]; [intros [=]|].
        destruct (hasCode e3 "ENOENT") eqn:H3; intros [= <-]. exact H3.
      * intros [= <-]. exact H1.
Qed.


End RemoveFacts.

Lemma rmRF_of_a_missing_path_witness :
  Io.rmRF Io.posix "/home/runner/work" []
  = (Io.Returns tt, [Io.IsDirectory "/home/runner/work"]).
Proof.
  apply (proj1 (rmRF_of_a_missing_path_succeeds Io.posix "/home/runner/work" [])
           eq_refl (Io.enoent "stat" "/home/runner/work") eq_refl eq_refl).
Defined.

Example rmRF_on_an_empty_Windows_machine :
  Io.rmRF Io.emptyWindows "C:\work" []
  = (Io.Returns tt, [Io.IsDirectory "C:\work"; Io.Unlink "C:\work"]).
Proof. vm_compute. reflexivity. Qed.

(** ** [cp] and [mv] *)

Section CopyFacts.

Import Io.

Variable sys : System.

Lemma calls_bind {A B} (P : Call -> Prop) (m : IO A) (k : A -> IO B) before :
  Forall P (calls (m before)) ->
  (forall a h, Forall P (calls (k a h))) ->
  Forall P (calls (Io.bind m k before)).
Proof.
  intros Hm Hk. rewrite run_bind.
  destruct (m before) as [[a|err|] t]; cbn [calls snd] in *; [|exact Hm..].
  apply Forall_app. split; [exact Hm | apply Hk].
Qed.

Lemma calls_call {A} (P : Call -> Prop) (c : Call)
    (answer : list Call -> Answer A) before :
  P c -> Forall P (calls (call c answer before)).
Proof. intros Hc. repeat constructor. exact Hc. Qed.

Lemma mkdirP_calls (P : Call -> Prop) :
  (forall p, P (Stat p)) -> (forall p, P (Mkdir p)) ->
  forall bound fsPath before, Forall P (calls (mkdirP sys bound fsPath before)).
Proof.
  intros Hstat Hmkdir bound fsPath before.
  assert (Hcreate : forall stack h, Forall P (calls (mkdirP_create sys stack h))).
  { induction stack as [|dir rest IH]; intros h; [constructor|].
    cbn [mkdirP_create]. unfold mbind, IO_bind.
    apply calls_bind; [apply calls_call, Hmkdir | intros _ h'; apply IH]. }
  assert (Hprobe : forall b stack testDir h,
            Forall P (calls (mkdirP_probe sys b fsPath stack testDir h))).
  { induction b as [|b IH]; intros stack testDir h; [constructor|].
    rewrite mkdirP_probe_round.
    destruct (failsafeReached sys stack).
    { destruct (fsMkdir sys h fsPath); repeat constructor; apply Hmkdir. }
    destruct (fsStat sys h testDir) as [[]|err];
      [repeat constructor; apply Hstat..|].
    destruct (hasCode err "ENOENT");
      [|destruct (hasCode err "UNKNOWN"); repeat constructor; apply Hstat].
    destruct (String.eqb testDir (dirname sys testDir));
      [repeat constructor; apply Hstat|].
    cbn [calls snd]. constructor; [apply Hstat | apply IH]. }
  unfold mkdirP. destruct (negb (nonEmpty fsPath)); [constructor|].
  unfold mbind, IO_bind. apply calls_bind; [apply Hprobe|].
  intros [stack|] h; [apply Hcreate | constructor].
Qed.

(** Whatever holds of the questions, of [mkdir] and of the copies with
    the flag that [force] asks for, and of [unlink] and [rmdir] when the
    original is to be deleted, holds of every call of
    [copyDirectoryContents]. *)
Lemma copyDirectoryContents_calls (P : Call -> Prop)
    (force deleteOriginal : bool) :
  (forall c, onlyAsks c = true -> P c) ->
  (forall p, P (Mkdir p)) ->
  (forall s d, P (CopyFile s d (negb force))) ->
  (deleteOriginal = true -> forall p, P (Unlink p) /\ P (Rmdir p)) ->
  forall bound source dest before,
    Forall P (calls (copyDirectoryContents sys bound source dest force
                       deleteOriginal before)).
Proof.
  intros Hask Hmkdir Hcopy Hdelete.
  induction bound as [|bound IH]; intros source dest before; [constructor|].
  cbn [copyDirectoryContents]. unfold mbind, IO_bind, mret, IO_ret.
  apply calls_bind; [apply calls_call, Hask; reflexivity|].
  intros [] h.
  - apply calls_bind.
    { apply calls_bind; [apply calls_call, Hask; reflexivity|].
      intros [] h1.
      - apply calls_bind; [apply calls_call, Hask; reflexivity|].
        intros [] h2; constructor.
      - apply mkdirP_calls; [intros p; apply Hask; reflexivity | exact Hmkdir]. }
    intros _ h1. apply calls_bind; [apply calls_call, Hask; reflexivity|].
    intros sourceChildren h2. apply calls_bind.
    { revert h2. induction sourceChildren as [|newSource rest IHc]; intros h2;
        [constructor|].
      apply calls_bind; [apply IH | intros _ h3; apply IHc]. }
    intros _ h3. destruct deleteOriginal eqn:Hdel; [|constructor].
    apply calls_call. apply (Hdelete eq_refl).
  - apply calls_bind.
    { destruct force; apply calls_call; apply Hcopy. }
    intros _ h1. destruct deleteOriginal eqn:Hdel; [|constructor].
    apply calls_call. apply (Hdelete eq_refl).
Qed.

(** [cp] takes nothing away: it asks, makes directories and copies
    files, and never unlinks, removes a directory or runs a shell. And at
    every depth it copies with [COPYFILE_EXCL] exactly when [force] is
    [false]; a [force] left out counts as [true]. *)
Theorem cp_never_deletes_and_honours_force (bound : nat)
    (source dest : string) (options : CopyOptions) (before : list Call) :
  forall c,
    c ∈ calls (cp sys bound source dest options before) ->
    deletes c = false
    /\ forall s d excl,
         c = CopyFile s d excl ->
         excl = match force options with
                | Some false => true
                | _ => false
                end.
Proof.
  set (P := fun c : Call =>
              deletes c = false
              /\ forall s d excl,
                   c = CopyFile s d excl ->
                   excl = match force options with
                          | Some false => true
                          | _ => false
                          end).
  assert (Hask : forall c, onlyAsks c = true -> P c).
  { intros [] H; try discriminate H; split; try reflexivity;
      intros s d excl [=]. }
  assert (Hmkdir : forall p, P (Mkdir p)).
  { intros p. split; [reflexivity | intros s d excl [=]]. }
  assert (Hcopy : forall s d,
            P (CopyFile s d (negb (fst (readCopyOptions options))))).
  { intros s d. split; [reflexivity|]. intros s' d' excl [= _ _ <-].
    unfold readCopyOptions. cbn [fst].
    destruct (force options) as [[]|]; reflexivity. }
  enough (H : Forall P (calls (cp sys bound source dest options before))).
  { intros c Hin. rewrite Forall_forall in H. exact (H c Hin). }
  unfold cp.
  destruct (readCopyOptions options) as [force recursive] eqn:Hopts.
  cbn [fst] in Hcopy.
  unfold mbind, IO_bind, mret, IO_ret.
  apply calls_bind; [apply calls_call, Hask; reflexivity|].
  intros [] h.
  - destruct (negb recursive); [constructor|].
    apply calls_bind.
    { apply calls_bind; [apply calls_call, Hask; reflexivity|].
      intros [] h1; [|constructor].
      apply calls_bind; [apply calls_call, Hask; reflexivity|].
      intros [] h2; constructor. }
    intros dest' h1.
    apply copyDirectoryContents_calls;
      [exact Hask | exact Hmkdir | exact Hcopy | discriminate].
  - destruct force; apply calls_call; apply Hcopy.
Qed.

Lemma unlinksFollowCopies_app before t1 t2 :
  unlinksFollowCopies sys before t1 ->
  unlinksFollowCopies sys (before ++ t1) t2 ->
  unlinksFollowCopies sys before (t1 ++ t2).
Proof.
  revert before. induction t1 as [|c t1 IH]; intros before H1 H2.
  - rewrite app_nil_r in H2. exact H2.
  - destruct H1 as [Hc H1]. split; [exact Hc|].
    apply IH; [exact H1|]. rewrite <- app_assoc. exact H2.
Qed.

Lemma unlinksFollowCopies_none before t :
  Forall (fun c => forall p, c <> Unlink p) t ->
  unlinksFollowCopies sys before t.
Proof.
  intros H. revert before. induction H as [|c t Hc _ IH]; intros before;
    [exact I|].
  split; [|apply IH]. destruct c; try exact I. destruct (Hc p eq_refl).
Qed.

Lemma unlinksFollowCopies_bind {A B} (m : IO A) (k : A -> IO B) before :
  unlinksFollowCopies sys before (calls (m before)) ->
  (forall a h, unlinksFollowCopies sys h (calls (k a h))) ->
  unlinksFollowCopies sys before (calls (Io.bind m k before)).
Proof.
  intros Hm Hk. rewrite run_bind.
  destruct (m before) as [[a|err|] t]; cbn [calls snd] in *; [|exact Hm..].
  apply unlinksFollowCopies_app; [exact Hm | apply Hk].
Qed.

Lemma unlinksFollowCopies_call {A} (c : Call)
    (answer : list Call -> Answer A) before :
  (forall p, c <> Unlink p) ->
  unlinksFollowCopies sys before (calls (call c answer before)).
Proof.
  intros Hc. apply unlinksFollowCopies_none. repeat constructor. exact Hc.
Qed.

(** A copy, and the [unlink] of the original when it is to be deleted. *)
Lemma unlinksFollowCopies_copy (source dest : string)
    (force deleteOriginal : bool) before :
  unlinksFollowCopies sys before
    (calls (Io.bind (if force then copyFile sys source dest false
                     else copyFile sys source dest true)
              (fun _ => if deleteOriginal then unlink sys source
                        else Io.ret tt) before)).
Proof.
  assert (Hone : forall excl,
    unlinksFollowCopies sys before
      (calls (Io.bind (copyFile sys source dest excl)
                (fun _ => if deleteOriginal then unlink sys source
                          else Io.ret tt) before))).
  { intros excl. rewrite run_bind. unfold copyFile, call.
    destruct (fsCopyFile sys before source dest excl) as [[]|err] eqn:Hcopy;
      cbn [settled calls snd]; [|split; exact I].
    destruct deleteOriginal; cbn [unlink call Io.ret calls snd app];
      [|split; exact I].
    split; [exact I|]. split; [|exact I].
    exists before, dest, excl. split; [reflexivity | exact Hcopy]. }
  destruct force; apply Hone.
Qed.

Lemma copyDirectoryContents_unlinks (force deleteOriginal : bool) :
  forall bound source dest before,
    unlinksFollowCopies sys before
      (calls (copyDirectoryContents sys bound source dest force
                deleteOriginal before)).
Proof.
  induction bound as [|bound IH]; intros source dest before; [exact I|].
  cbn [copyDirectoryContents]. unfold mbind, IO_bind, mret, IO_ret.
  apply unlinksFollowCopies_bind;
    [apply unlinksFollowCopies_call; discriminate|].
  intros [] h.
  - apply unlinksFollowCopies_bind.
    { apply unlinksFollowCopies_bind;
        [apply unlinksFollowCopies_call; discriminate|].
      intros [] h1.
      - apply unlinksFollowCopies_bind;
          [apply unlinksFollowCopies_call; discriminate|].
        intros [] h2; exact I.
      - apply unlinksFollowCopies_none.
        apply mkdirP_calls; discriminate. }
    intros _ h1. apply unlinksFollowCopies_bind;
      [apply unlinksFollowCopies_call; discriminate|].
    intros sourceChildren h2. apply unlinksFollowCopies_bind.
    { revert h2. induction sourceChildren as [|newSource rest IHc]; intros h2;
        [exact I|].
      apply unlinksFollowCopies_bind; [apply IH | intros _ h3; apply IHc]. }
    intros _ h3. destruct deleteOriginal; [|exact I].
    apply unlinksFollowCopies_call; discriminate.
  - apply unlinksFollowCopies_copy.
Qed.

Lemma unlinksFollowCopies_split before t pre p post :
  unlinksFollowCopies sys before t ->
  t = pre ++ Unlink p :: post ->
  exists earlier dest excl,
    before ++ pre = earlier ++ [CopyFile p dest excl]
    /\ fsCopyFile sys earlier p dest excl = Gives tt.
Proof.
  revert before t. induction pre as [|c pre IH]; intros before t H ->.
  - destruct H as [(earlier & dest & excl & -> & Hcopy) _].
    exists earlier, dest, excl. rewrite app_nil_r. split; [reflexivity|exact Hcopy].
  - destruct H as [_ H].
    destruct (IH (before ++ [c]) _ H eq_refl) as (earlier & dest & excl & E & Hcopy).
    exists earlier, dest, excl. split; [|exact Hcopy].
    rewrite <- E, <- app_assoc. reflexivity.
Qed.

(** [mv] never unlinks a file it has not copied: wherever an [unlink]
    stands among its calls, the call just before it is the [copyFile] of
    that very file, and the copy succeeded. A file whose copy fails stays
    where it was. *)
Theorem mv_unlinks_only_what_it_has_copied (bound : nat)
    (source dest : string) (options : CopyOptions) (before : list Call)
    (pre post : list Call) (p : string) :
  calls (mv sys bound source dest options before) = pre ++ Unlink p :: post ->
  exists earlier target excl,
    before ++ pre = earlier ++ [CopyFile p target excl]
    /\ fsCopyFile sys earlier p target excl = Gives tt.
Proof.
  apply unlinksFollowCopies_split.
  unfold mv. destruct (readCopyOptions options) as [force recursive].
  unfold mbind, IO_bind, mret, IO_ret.
  apply unlinksFollowCopies_bind;
    [apply unlinksFollowCopies_call; discriminate|].
  intros [] h.
  - destruct (negb recursive); [exact I|].
    apply unlinksFollowCopies_bind.
    { apply unlinksFollowCopies_bind;
        [apply unlinksFollowCopies_call; discriminate|].
      intros [] h1; [|exact I].
      apply unlinksFollowCopies_bind;
        [apply unlinksFollowCopies_call; discriminate|].
      intros [] h2; exact I. }
    intros dest' h1. apply copyDirectoryContents_unlinks.
  - apply (unlinksFollowCopies_copy source dest force true).
Qed.

(** [cp] and [mv] refuse a directory before they change anything: without
    [recursive] both throw "non-recursive cp failed" after one question,
    and with it both throw when the destination exists and is no
    directory, after three questions. *)
Theorem cp_and_mv_refuse_before_they_change_anything (bound : nat)
    (source dest : string) (options : CopyOptions) (before : list Call) :
  ioIsDirectory sys before source = Gives true ->
  let copy := cp sys bound source dest options before in
  let move := mv sys bound source dest options before in
  (default false (recursive options) = false ->
   let refusal :=
     (Throws (newError ("non-recursive cp failed, " +:+ source
                          +:+ " is a directory")),
      [IsDirectory source]) in
   copy = refusal /\ move = refusal)
  /\ (default false (recursive options) = true ->
      ioExists sys (before ++ [IsDirectory source]) dest = Gives true ->
      ioIsDirectory sys (before ++ [IsDirectory source; Exists dest]) dest
      = Gives false ->
      let refusal :=
        (Throws (newError (dest +:+ " is not a directory")),
         [IsDirectory source; Exists dest; IsDirectory dest]) in
      copy = refusal /\ move = refusal).
Proof.
  intros Hdir copy move. subst copy move. unfold cp, mv, readCopyOptions.
  unfold mbind, IO_bind, mret, IO_ret. rewrite !run_bind.
  unfold isDirectory, exists_, call. cbv beta. rewrite Hdir. cbn [settled].
  split.
  - intros ->. cbn [negb Io.throw Io.outcome calls fst snd app].
    split; reflexivity.
  - intros -> Hexists Hfile. cbn [negb].
    rewrite ?run_bind. rewrite Hexists. cbn [settled]. cbv beta iota.
    rewrite ?run_bind. cbv beta. rewrite <- !app_assoc. cbn [app].
    rewrite Hfile.
    cbn [settled negb Io.throw Io.outcome calls fst snd app].
    split; reflexivity.
Qed.

End CopyFacts.

Lemma cp_never_deletes_witness :
  Io.deletes (Io.CopyFile "/home/project/a.txt" "/home/backup/a.txt" false)
  = false.
Proof.
  apply (cp_never_deletes_and_honours_force Io.withProject 10 "/home/project"
           "/home/backup" Io.recursively []).
  find_event.
Defined.

Example cp_on_the_sample_machine :
  Io.cp Io.withProject 10 "/home/project" "/home/backup" Io.recursively []
  = (Io.Returns tt,
     [Io.IsDirectory "/home/project"; Io.Exists "/home/backup";
      Io.IsDirectory "/home/project"; Io.Exists "/home/backup";
      Io.Stat "/home/backup"; Io.Stat "/home"; Io.Mkdir "/home/backup";
      Io.Readdir "/home/project";
      Io.IsDirectory "/home/project/a.txt";
      Io.CopyFile "/home/project/a.txt" "/home/backup/a.txt" false;
      Io.IsDirectory "/home/project/lib"; Io.Exists "/home/backup/lib";
      Io.Stat "/home/backup/lib"; Io.Stat "/home/backup";
      Io.Mkdir "/home/backup/lib";
      Io.Readdir "/home/project/lib"]).
Proof. vm_compute. reflexivity. Qed.

Lemma mv_unlinks_only_what_it_has_copied_witness :
  exists earlier target excl,
    [] ++ [Io.IsDirectory "/home/project"; Io.Exists "/home/backup";
           Io.IsDirectory "/home/project"; Io.Exists "/home/backup";
           Io.Stat "/home/backup"; Io.Stat "/home"; Io.Mkdir "/home/backup";
           Io.Readdir "/home/project";
           Io.IsDirectory "/home/project/a.txt";
           Io.CopyFile "/home/project/a.txt" "/home/backup/a.txt" false]
    = earlier ++ [Io.CopyFile "/home/project/a.txt" target excl]
    /\ Io.fsCopyFile Io.withProject earlier "/home/project/a.txt" target excl
       = Io.Gives tt.
Proof.
  apply (mv_unlinks_only_what_it_has_copied Io.withProject 10 "/home/project"
           "/home/backup" Io.recursively [] _
           [Io.IsDirectory "/home/project/lib"; Io.Exists "/home/backup/lib";
            Io.Stat "/home/backup/lib"; Io.Stat "/home/backup";
            Io.Mkdir "/home/backup/lib";
            Io.Readdir "/home/project/lib"; Io.Rmdir "/home/project/lib";
            Io.Rmdir "/home/project"]).
  vm_compute. reflexivity.
Defined.

Lemma cp_and_mv_refuse_witness :
  Io.cp Io.withProject 10 "/home/project" "/home/backup"
    {| Io.recursive := None; Io.force := None |} []
  = (Io.Throws (Io.newError "non-recursive cp failed, /home/project is a directory"),
     [Io.IsDirectory "/home/project"])
  /\ Io.mv Io.withProject 10 "/home/project" "/home/backup"
       {| Io.recursive := None; Io.force := None |} []
     = (Io.Throws (Io.newError "non-recursive cp failed, /home/project is a directory"),
        [Io.IsDirectory "/home/project"]).
Proof.
  apply (proj1 (cp_and_mv_refuse_before_they_change_anything Io.withProject 10
                  "/home/project" "/home/backup"
                  {| Io.recursive := None; Io.force := None |} [] eq_refl));
    reflexivity.
Defined.

(** * Inputs, variables and the search path *)

Lemma returned_among (val a b c : string) :
  val ∈ [a; b; c]
  <-> Core.Returned val = Core.Returned a \/ Core.Returned val = Core.Returned b
      \/ Core.Returned val = Core.Returned c.
Proof.
  split.
  - intros H. apply elem_of_cons in H as [-> |H]; [left; reflexivity|].
    apply elem_of_cons in H as [-> |H]; [right; left; reflexivity|].
    apply list_elem_of_singleton in H as ->. right. right. reflexivity.
  - intros [[= ->]|[[= ->]|[= ->]]].
    + apply list_elem_of_here.
    + apply list_elem_of_further, list_elem_of_here.
    + apply list_elem_of_further, list_elem_of_further, list_elem_of_here.
Qed.

Section CoreFacts.

Context {Value : Type} (host : Core.Host Value).

(** [getBooleanInput] is strict: it returns [true] for the three
    spellings of true and [false] for the three spellings of false, of the
    value as [getInput] gives it, and throws a [TypeError] for any other
    value, the empty one included; an error of [getInput] is passed on. *)
Theorem getBooleanInput_accepts_six_spellings (env : Core.Env)
    (name : string) (options : option Core.InputOptions) :
  let input := Core.getInput host env name options in
  let result := Core.getBooleanInput host env name options in
  (result = Core.Returned true
   <-> input = Core.Returned "true" \/ input = Core.Returned "True"
       \/ input = Core.Returned "TRUE")
  /\ (result = Core.Returned false
      <-> input = Core.Returned "false" \/ input = Core.Returned "False"
          \/ input = Core.Returned "FALSE")
  /\ (forall val,
        input = Core.Returned val ->
        val ∉ ["true"; "True"; "TRUE"; "false"; "False"; "FALSE"] ->
        result
        = Core.Threw
            (Core.TypeError
               ("Input does not meet YAML 1.2 " +:+ Io.dquote
                  +:+ "Core Schema" +:+ Io.dquote +:+ " specification: "
                  +:+ name +:+ String Core.newline EmptyString
                  +:+ "Support boolean input list: `true | True | TRUE | false | False | FALSE`")))
  /\ (forall error, input = Core.Threw error -> result = Core.Threw error).
Proof.
  intros input result. subst input result. unfold Core.getBooleanInput.
  destruct (Core.getInput host env name options) as [val|error].
  - pose proof (returned_among val "true" "True" "TRUE") as Htrue.
    pose proof (returned_among val "false" "False" "FALSE") as Hfalse.
    destruct (bool_decide_reflect (val ∈ ["true"; "True"; "TRUE"]))
      as [Ht|Ht].
    { split; [split; [intros _; apply Htrue, Ht | reflexivity]|].
      split; [split; [discriminate|]|].
      - intros Hf. apply Hfalse in Hf. exfalso.
        apply elem_of_cons in Ht as [-> |Ht];
          [|apply elem_of_cons in Ht as [-> |Ht];
            [|apply list_elem_of_singleton in Ht as ->]];
          repeat (apply elem_of_cons in Hf as [Hf|Hf]; [discriminate Hf|]);
          apply elem_of_nil in Hf as [].
      - split; [|discriminate]. intros val' [= <-] Hnot. exfalso.
        apply Hnot.
        change (val ∈ ["true"; "True"; "TRUE"] ++ ["false"; "False"; "FALSE"]).
        apply elem_of_app. left. exact Ht. }
    destruct (bool_decide_reflect (val ∈ ["false"; "False"; "FALSE"]))
      as [Hf|Hf].
    { split; [split; [discriminate | intros H; destruct (Ht (proj2 Htrue H))]|].
      split; [split; [intros _; apply Hfalse, Hf | reflexivity]|].
      split; [|discriminate]. intros val' [= <-] Hnot. exfalso.
      apply Hnot.
      change (val ∈ ["true"; "True"; "TRUE"] ++ ["false"; "False"; "FALSE"]).
      apply elem_of_app. right. exact Hf. }
    split; [split; [discriminate | intros H; destruct (Ht (proj2 Htrue H))]|].
    split; [split; [discriminate | intros H; destruct (Hf (proj2 Hfalse H))]|].
    split; [|discriminate]. intros val' [= <-] _. reflexivity.
  - split; [split; [discriminate | intros [H|[H|H]]; discriminate H]|].
    split; [split; [discriminate | intros [H|[H|H]]; discriminate H]|].
    split; [discriminate|]. intros e [= ->]. reflexivity.
Qed.

(** [required] is checked on the value as it is set, before trimming: an
    input that is not set, or set to the empty string, makes [getInput]
    throw, and any other value is returned, trimmed unless
    [trimWhitespace] is [false]; so a required input of blanks only is
    accepted, and comes back empty. *)
Theorem getInput_checks_required_before_trimming (env : Core.Env)
    (name : string) (o : Core.InputOptions) :
  Core.required o = Some true ->
  let val :=
    default "" (Core.getenv host env
                  ("INPUT_" +:+ Core.toUpperCase host (Core.replaceSpaces name))) in
  let result := Core.getInput host env name (Some o) in
  (val = ""
   -> result
      = Core.Threw (Core.Error ("Input required and not supplied: " +:+ name)))
  /\ (val <> "" -> Core.trimWhitespace o = Some false ->
      result = Core.Returned val)
  /\ (val <> "" -> Core.trimWhitespace o <> Some false ->
      result = Core.Returned (Core.trim host val))
  /\ (val <> "" -> Core.trimWhitespace o <> Some false ->
      Core.trim host val = "" -> result = Core.Returned "").
Proof.
  intros Hreq val result. subst result. unfold Core.getInput. fold val.
  rewrite Hreq. cbn [from_option id andb]. unfold Io.nonEmpty.
  destruct (String.eqb_spec val "") as [Hval|Hval]; cbn [negb].
  - split; [reflexivity|]. split; [contradiction|].
    split; contradiction.
  - split; [contradiction|].
    destruct (Core.trimWhitespace o) as [[]|].
    + split; [discriminate|]. split; [reflexivity|]. intros _ _ ->. reflexivity.
    + split; [reflexivity|]. split; [contradiction|]. contradiction.
    + split; [discriminate|]. split; [reflexivity|]. intros _ _ ->. reflexivity.
Qed.

End CoreFacts.

Lemma getBooleanInput_missing_input_witness :
  Core.getBooleanInput Core.linux Core.job "verbose" None
  = Core.Threw
      (Core.TypeError
         ("Input does not meet YAML 1.2 " +:+ Io.dquote
            +:+ "Core Schema" +:+ Io.dquote +:+ " specification: "
            +:+ "verbose" +:+ String Core.newline EmptyString
            +:+ "Support boolean input list: `true | True | TRUE | false | False | FALSE`")).
Proof.
  apply (proj1 (proj2 (proj2 (getBooleanInput_accepts_six_spellings Core.linux
                                Core.job "verbose" None))) "").
  - reflexivity.
  - vm_compute. intros H. repeat (apply elem_of_cons in H as [H|H];
                                  [discriminate H|]).
    apply elem_of_nil in H as [].
Defined.

Example getBooleanInput_trims_by_default :
  Core.getBooleanInput Core.linux Core.job "dry run" None = Core.Returned true
  /\ exists error,
       Core.getBooleanInput Core.linux Core.job "dry run" Core.asWritten
       = Core.Threw error.
Proof. split; [vm_compute; reflexivity|]. eexists. vm_compute. reflexivity. Qed.

Lemma getInput_blank_required_witness :
  Core.getInput Core.linux Core.job "token" Core.mustHave = Core.Returned "".
Proof.
  apply (proj2 (proj2 (proj2 (getInput_checks_required_before_trimming
                                Core.linux Core.job "token"
                                {| Core.required := Some true;
                                   Core.trimWhitespace := None |} eq_refl)))).
  - discriminate.
  - discriminate.
  - reflexivity.
Defined.

(** ** Splitting *)

Lemma split_not_nil (c : ascii) (s : string) : Io.split c s <> [].
Proof.
  destruct s as [|x rest]; cbn [Io.split]; [discriminate|].
  destruct (Ascii.eqb x c); [discriminate|].
  destruct (Io.split c rest); discriminate.
Qed.

Lemma split_has_no_delimiter (c : ascii) (s : string) :
  Forall (fun part => Io.includes c part = false) (Io.split c s).
Proof.
  induction s as [|x rest IH]; cbn [Io.split].
  - repeat constructor.
  - destruct (Ascii.eqb x c) eqn:Hx; [constructor; [reflexivity | exact IH]|].
    destruct (Io.split c rest) as [|part parts]; [repeat constructor|].
    + cbn [Io.includes]. rewrite Hx. reflexivity.
    + inversion IH as [|? ? Hpart Hparts]; subst.
      constructor; [|exact Hparts]. cbn [Io.includes]. rewrite Hx, Hpart.
      reflexivity.
Qed.

(** A part without the delimiter, the delimiter, and the rest. *)
Lemma split_part (c : ascii) (part rest : string) :
  Io.includes c part = false ->
  Io.split c (part +:+ String c rest) = part :: Io.split c rest.
Proof.
  induction part as [|x part IH]; intros Hpart.
  - change ("" +:+ String c rest) with (String c rest). cbn [Io.split].
    rewrite Ascii.eqb_refl. reflexivity.
  - change (String x part +:+ String c rest)
      with (String x (part +:+ String c rest)).
    cbn [Io.includes] in Hpart. apply orb_false_iff in Hpart as [Hx Hpart].
    cbn [Io.split]. rewrite Hx, (IH Hpart). reflexivity.
Qed.

Lemma split_last_part (c : ascii) (part : string) :
  Io.includes c part = false -> Io.split c part = [part].
Proof.
  induction part as [|x part IH]; intros Hpart; [reflexivity|].
  cbn [Io.includes] in Hpart. apply orb_false_iff in Hpart as [Hx Hpart].
  cbn [Io.split]. rewrite Hx, (IH Hpart). reflexivity.
Qed.

Lemma split_join (c : ascii) (parts : list string) :
  parts <> [] ->
  Forall (fun part => Io.includes c part = false) parts ->
  Io.split c (join (String c EmptyString) parts) = parts.
Proof.
  induction parts as [|part rest IH]; intros Hne Hparts; [contradiction|].
  inversion Hparts as [|? ? Hpart Hrest]; subst.
  destruct rest as [|next rest].
  - cbn [join]. apply split_last_part, Hpart.
  - change (join (String c EmptyString) (part :: next :: rest))
      with (part +:+ String c EmptyString
              +:+ join (String c EmptyString) (next :: rest)).
    change (String c EmptyString +:+ ?x) with (String c x).
    rewrite (split_part c part _ Hpart), IH; [reflexivity|discriminate|exact Hrest].
Qed.

Section MoreCoreFacts.

Context {Value : Type} (host : Core.Host Value).

(** The lines of [getMultilineInput] are never empty and hold no line
    break; and a list of such lines, joined by line breaks, is read back
    as it was: the lines themselves are not trimmed. *)
Theorem getMultilineInput_reads_back_the_lines (env : Core.Env)
    (name : string) (options : option Core.InputOptions) :
  (forall lines,
     Core.getMultilineInput host env name options = Core.Returned lines ->
     Forall (fun line => line <> "" /\ Io.includes Core.newline line = false)
       lines)
  /\ (forall lines,
        Forall (fun line => line <> "" /\ Io.includes Core.newline line = false)
          lines ->
        Core.getInput host env name options
        = Core.Returned (join (String Core.newline EmptyString) lines) ->
        Core.getMultilineInput host env name options = Core.Returned lines).
Proof.
  unfold Core.getMultilineInput. split.
  - intros lines.
    destruct (Core.getInput host env name options) as [val|error];
      [|discriminate].
    intros [= <-]. apply Forall_forall. intros line Hin.
    apply list_elem_of_filter in Hin as [Hne Hin]. split; [exact Hne|].
    pose proof (split_has_no_delimiter Core.newline val) as H.
    rewrite Forall_forall in H. exact (H line Hin).
  - intros lines Hlines ->. f_equal.
    destruct lines as [|line rest]; [reflexivity|].
    rewrite split_join; [|discriminate|].
    + induction Hlines as [|l ls [Hl _] _ IH]; [reflexivity|].
      rewrite filter_cons_True by exact Hl. rewrite IH. reflexivity.
    + eapply Forall_impl; [exact Hlines|]. intros l [_ H]. exact H.
Qed.

End MoreCoreFacts.

Lemma getMultilineInput_witness :
  Core.getMultilineInput Core.linux
    (fun key => if String.eqb key "INPUT_PATHS"
                then Some (join (String Core.newline EmptyString)
                             ["src"; " docs "; "test"])
                else None)
    "paths" Core.asWritten
  = Core.Returned ["src"; " docs "; "test"].
Proof.
  apply (proj2 (getMultilineInput_reads_back_the_lines Core.linux _ "paths"
                  Core.asWritten)).
  - repeat constructor; discriminate.
  - reflexivity.
Defined.

Example getMultilineInput_drops_empty_lines_only :
  Core.getMultilineInput Core.linux Core.job "paths" None
  = Core.Returned ["src"; " docs "; "test"].
Proof. vm_compute. reflexivity. Qed.

(** ** Variables and the search path *)

Lemma append_assoc_string (a b c : string) :
  (a +:+ b) +:+ c = a +:+ (b +:+ c).
Proof.
  induction a as [|x a IH]; [reflexivity|].
  change ((String x a +:+ b) +:+ c) with (String x ((a +:+ b) +:+ c)).
  rewrite IH. reflexivity.
Qed.

Section VariableFacts.

Context {Value : Type} (host : Core.Host Value).

Lemma getenv_setenv (env : Core.Env) (name value : string) :
  Core.storable name = true ->
  Core.getenv host (Core.setenv host env name value) name = Some value.
Proof.
  intros Hname. unfold Core.getenv, Core.setenv.
  rewrite Hname, String.eqb_refl. reflexivity.
Qed.

Lemma getenv_setenv_other (env : Core.Env) (name value other : string) :
  Core.envKey host other <> Core.envKey host name ->
  Core.getenv host (Core.setenv host env name value) other
  = Core.getenv host env other.
Proof.
  intros Hne. unfold Core.getenv, Core.setenv.
  destruct (Core.storable name); [|reflexivity].
  destruct (String.eqb_spec (Core.envKey host other) (Core.envKey host name));
    [contradiction | reflexivity].
Qed.

Lemma exportVariable_env (env : Core.Env) (name : string) (val : Value) :
  fst (Core.exportVariable host env name val)
  = Core.setenv host env name (Core.toCommandValue host val).
Proof. unfold Core.exportVariable. destruct (Io.nonEmpty _); reflexivity. Qed.

(** [exportVariable] tells the runner once, whatever the name: through
    the environment file when [GITHUB_ENV] is set after the assignment
    (exporting [GITHUB_ENV] itself counts), and by the [set-env] command
    otherwise. For a name that [process.env] stores (not empty, without
    [=]), when neither the name nor the converted value holds a NUL
    character, it sets the variable in the process itself to the
    converted value and leaves the other variables as they are; so a
    state exported as [STATE_<name>] is what [getState] reads next. For a
    name that [process.env] does not store, the process keeps its
    variables as they were, and the runner is told all the same. *)
Theorem exportVariable_sets_the_variable_and_tells_the_runner
    (env : Core.Env) (name : string) (val : Value) :
  let env' := fst (Core.exportVariable host env name val) in
  let converted := Core.toCommandValue host val in
  (Core.storable name = true ->
   Io.includes Core.nul name = false ->
   Io.includes Core.nul converted = false ->
   Core.getenv host env' name = Some converted
   /\ (forall other,
         Core.envKey host other <> Core.envKey host name ->
         Core.getenv host env' other = Core.getenv host env other)
   /\ (forall state,
         name = "STATE_" +:+ state ->
         Core.getState host env' state = converted))
  /\ (Core.storable name = false ->
      forall other, Core.getenv host env' other = Core.getenv host env other)
  /\ snd (Core.exportVariable host env name val)
     = [if Io.nonEmpty (default "" (Core.getenv host env' "GITHUB_ENV"))
        then Core.IssueFileCommand "ENV"
               (Core.envFileCommand host name converted)
        else Core.IssueCommand "set-env" [("name", name)] converted].
Proof.
  intros env' converted.
  assert (Henv : env' = Core.setenv host env name converted)
    by apply exportVariable_env.
  rewrite Henv. split; [|split].
  - intros Hname _ _. split; [apply getenv_setenv, Hname|].
    split; [intros other Hne; apply getenv_setenv_other, Hne|].
    intros state ->. unfold Core.getState.
    rewrite getenv_setenv by exact Hname. reflexivity.
  - intros Hname other. unfold Core.setenv. rewrite Hname. reflexivity.
  - unfold Core.exportVariable. fold converted.
    destruct (Io.nonEmpty _); reflexivity.
Qed.

(** [exportVariable] writes the value between the two delimiter lines as
    it is. A value that holds the delimiter on a line of its own, and
    after it the heading of another variable, gives the very text that
    exporting the two variables one after the other would put into the
    environment file. *)
Theorem exportVariable_value_can_close_the_heredoc (env : Core.Env)
    (name other : string) (val : Value) (first second : string) :
  Core.toCommandValue host val
  = first +:+ Core.EOL host +:+ "_GitHubActionsFileCommandDelimeter_"
      +:+ Core.EOL host +:+ other +:+ "<<"
      +:+ "_GitHubActionsFileCommandDelimeter_" +:+ Core.EOL host +:+ second ->
  Io.nonEmpty
    (default "" (Core.getenv host
                   (fst (Core.exportVariable host env name val)) "GITHUB_ENV"))
  = true ->
  snd (Core.exportVariable host env name val)
  = [Core.IssueFileCommand "ENV"
       (Core.envFileCommand host name first +:+ Core.EOL host
          +:+ Core.envFileCommand host other second)].
Proof.
  intros Hval Hfile.
  rewrite exportVariable_env in Hfile. unfold Core.exportVariable.
  rewrite Hfile.
  cbn [snd]. rewrite Hval. unfold Core.envFileCommand.
  do 2 f_equal. rewrite !append_assoc_string. reflexivity.
Qed.

(** After [addPath] the directory is the first one [which] looks into:
    [PATH] starts with it, a tool found there is returned after that one
    question, whatever the rest of [PATH] holds. When [PATH] was not set,
    the text "undefined" is taken for the old value, and becomes a
    directory to look into. *)
Theorem addPath_puts_the_directory_first_for_which (sys : Io.System)
    (env : Core.Env) (inputPath : string) :
  inputPath <> "" ->
  Io.includes (if Core.IS_WINDOWS host then ";" else ":")%char inputPath
  = false ->
  let env' := fst (Core.addPath host env inputPath) in
  let sys' := Core.withEnv host sys env' in
  Io.pathDirectories sys'
  = inputPath
      :: Io.entries sys' (Core.interpolated (Core.getenv host env "PATH"))
  /\ (Core.getenv host env "PATH" = None ->
      Io.pathDirectories sys' = [inputPath; "undefined"])
  /\ (forall tool before found,
        Io.plainName sys' tool = true ->
        Io.ioTryGetExecutablePath sys before
          (inputPath +:+ Io.sep sys' +:+ tool) (Io.pathExtensions sys')
        = Io.Gives found ->
        found <> "" ->
        Io.which sys' tool false before
        = (Io.Returns found,
           [Io.TryGetExecutablePath (inputPath +:+ Io.sep sys' +:+ tool)
              (Io.pathExtensions sys')])).
Proof.
  intros Hne Hplain env' sys'.
  set (d := (if Core.IS_WINDOWS host then ";" else ":")%char) in *.
  assert (Hdel : Core.delimiter host = String d EmptyString).
  { unfold Core.delimiter. subst d. destruct (Core.IS_WINDOWS host); reflexivity. }
  assert (Hentries : forall s,
            Io.entries sys' s
            = filter (fun x => Io.nonEmpty x = true) (Io.split d s))
    by reflexivity.
  assert (Hpath : Io.processEnv sys' "PATH"
                  = Some (inputPath +:+ String d
                            (Core.interpolated (Core.getenv host env "PATH")))).
  { subst sys' env'. cbn [Io.processEnv Core.withEnv Core.addPath fst].
    rewrite getenv_setenv by reflexivity. rewrite Hdel. reflexivity. }
  assert (Hdirs :
    Io.pathDirectories sys'
    = inputPath
        :: Io.entries sys' (Core.interpolated (Core.getenv host env "PATH"))).
  { unfold Io.pathDirectories. rewrite Hpath.
    assert (Hfull : Io.nonEmpty
                      (inputPath +:+ String d
                         (Core.interpolated (Core.getenv host env "PATH")))
                    = true).
    { destruct inputPath; [contradiction | reflexivity]. }
    rewrite Hfull, !Hentries, (split_part d inputPath _ Hplain).
    rewrite filter_cons_True; [reflexivity|].
    unfold Io.nonEmpty. destruct (String.eqb_spec inputPath "");
      [contradiction | reflexivity]. }
  split; [exact Hdirs|]. split.
  - intros Hnone. rewrite Hdirs, Hnone, Hentries. f_equal.
    cbn [Core.interpolated]. subst d.
    destruct (Core.IS_WINDOWS host); reflexivity.
  - intros tool before found Htool Hans Hfound.
    rewrite which_false.
    rewrite (which_unchecked_run sys' tool before
               (plainName_nonEmpty sys' tool Htool)).
    rewrite (which_search_plain sys' tool before Htool), Hdirs.
    rewrite which_directories_round.
    change (Io.ioTryGetExecutablePath sys' before)
      with (Io.ioTryGetExecutablePath sys before).
    rewrite Hans. unfold Io.nonEmpty.
    destruct (String.eqb_spec found ""); [contradiction|]. reflexivity.
Qed.

End VariableFacts.

Lemma exportVariable_state_witness :
  Core.getState Core.linux
    (fst (Core.exportVariable Core.linux Core.job "STATE_phase" "build"))
    "phase"
  = "build".
Proof.
  apply (proj1 (exportVariable_sets_the_variable_and_tells_the_runner
                  Core.linux Core.job "STATE_phase" "build"));
    reflexivity.
Defined.

Lemma exportVariable_heredoc_witness :
  snd (Core.exportVariable Core.linux Core.job "GREETING" Core.closing)
  = [Core.IssueFileCommand "ENV"
       (Core.envFileCommand Core.linux "GREETING" "hello"
          +:+ Core.EOL Core.linux
          +:+ Core.envFileCommand Core.linux "LD_PRELOAD" "/tmp/x.so")].
Proof.
  apply (exportVariable_value_can_close_the_heredoc Core.linux Core.job
           "GREETING" "LD_PRELOAD" Core.closing "hello" "/tmp/x.so");
    reflexivity.
Defined.

Lemma addPath_witness :
  Io.pathDirectories
    (Core.withEnv Core.linux Io.posix
       (fst (Core.addPath Core.linux Core.job "/opt/tools/bin")))
  = "/opt/tools/bin"
      :: Io.entries
           (Core.withEnv Core.linux Io.posix
              (fst (Core.addPath Core.linux Core.job "/opt/tools/bin")))
           (Core.interpolated (Core.getenv Core.linux Core.job "PATH")).
Proof.
  apply (proj1 (addPath_puts_the_directory_first_for_which Core.linux Io.posix
                  Core.job "/opt/tools/bin" ltac:(discriminate) eq_refl)).
Defined.

Example addPath_without_PATH :
  Io.pathDirectories
    (Core.withEnv Core.linux Io.posix
       (fst (Core.addPath Core.linux (fun _ => None) "/opt/tools/bin")))
  = ["/opt/tools/bin"; "undefined"].
Proof. vm_compute. reflexivity. Qed.
